(** * Region generator: a shallow embedding of [regiongen.py]

    The development follows the class [RegionGenerator]: the generator object
    is the record [Gen], every method is a function on it, tiles are shared by
    reference in the program and therefore referred to by their index in
    [tiles] here.  Floats are IEEE binary64 (Rocq's primitive floats), as
    Python's are.  The pseudo random generator [random.Random] is a stream of
    raw draws from which [random], [randint], [choice], [uniform] and
    [shuffle] are derived the way CPython's [Lib/random.py] derives them from
    [_randbelow]. *)

From Stdlib Require Import ZArith Lia List Bool.
From Stdlib Require Import Floats.PrimFloat Floats.FloatOps Floats.SpecFloat.
From Stdlib Require Floats.FloatAxioms.
From Stdlib Require Import Numbers.Cyclic.Int63.Uint63.
From stdpp Require Import base list strings pretty gmap sets.

Set Warnings "-inexact-float".
Open Scope Z_scope.

(** ** Python values *)

(** The exceptions the generator can raise. *)
Inductive Exn := ValueError | IndexError | KeyError | ZeroDivisionError.

(** A computation that returns or raises. *)
Inductive Res (A : Type) :=
| Ok (a : A)
| Raise (e : Exn).
Arguments Ok {A} a.
Arguments Raise {A} e.

#[export] Instance res_ret : MRet Res := fun _ a => Ok a.

#[export] Instance res_bind : MBind Res := fun _ _ k m =>
  match m with
  | Ok a => k a
  | Raise e => Raise e
  end.

Definition is_ok {A} (m : Res A) : bool :=
  match m with Ok _ => true | Raise _ => false end.

(** [float(n)] for a Python integer of the sizes a grid has (below 2^53 in
    absolute value, where the conversion is exact; [map_sized] below bounds
    the map accordingly).  On integers beyond the range of the floats
    Python raises [OverflowError]. *)
Definition Z2F (z : Z) : float :=
  if z <? 0 then PrimFloat.opp (PrimFloat.of_uint63 (Uint63.of_Z (- z)))
  else PrimFloat.of_uint63 (Uint63.of_Z z).

(** [min(a, b)] and [max(a, b)] of Python on floats: the first argument wins
    unless the second is strictly better. *)
Definition fmin (a b : float) : float := if PrimFloat.ltb b a then b else a.
Definition fmax (a b : float) : float := if PrimFloat.ltb a b then b else a.

(** [max(0.0, min(1.0, v))]. *)
Definition clamp01 (v : float) : float := fmax 0%float (fmin 1%float v).

Definition round_half_even_div (num den : Z) : Z :=
  let q := num / den in
  let r := num mod den in
  match (2 * r ?= den) with
  | Lt => q
  | Gt => q + 1
  | Eq => if Z.even q then q else q + 1
  end.

(** [round(v, 3)]: the double nearest to the decimal with three digits that is
    nearest to the exact value of [v] (ties to even), as CPython computes it
    through [dtoa] and [strtod]. *)
Definition round3 (v : float) : float :=
  match Prim2SF v with
  | S754_finite s m e =>
      if 0 <=? e then v
      else
        let n := round_half_even_div (1000 * Z.pos m) (2 ^ (- e)) in
        let r := PrimFloat.div (Z2F n) 1000%float in
        if s then PrimFloat.opp r else r
  | _ => v
  end.

(** Decimal and two-digit hexadecimal formatting, as f-strings do. *)
Definition str_of_Z (z : Z) : string := pretty z.

Definition hex_digit (n : Z) : string :=
  match n with
  | 0 => "0" | 1 => "1" | 2 => "2" | 3 => "3" | 4 => "4" | 5 => "5"
  | 6 => "6" | 7 => "7" | 8 => "8" | 9 => "9" | 10 => "a" | 11 => "b"
  | 12 => "c" | 13 => "d" | 14 => "e" | _ => "f"
  end.

(** [f"{n:02x}"] for [0 <= n < 256], the range of a colour channel. *)
Definition hex2 (n : Z) : string := hex_digit (n / 16) +:+ hex_digit (n mod 16).

(** Truthiness of an optional string ([if rid:]): [None] and the empty string
    are false. *)
Definition truthy (s : option string) : bool :=
  match s with
  | Some s => negb (String.eqb s "")
  | None => false
  end.

(** ** The random stream *)

Record Random := mkRandom { tape : nat -> Z; pos : nat }.

Definition next_raw (r : Random) : Z * Random :=
  (tape r (pos r), mkRandom (tape r) (S (pos r))).

(** [_randbelow(n)] for [n > 0]: a value in [[0, n)]. *)
Definition randbelow (n : Z) (r : Random) : Z * Random :=
  let '(v, r') := next_raw r in (v mod n, r').

(** [random()]: a multiple of 2^-53 in [[0, 1)]. *)
Definition random (r : Random) : float * Random :=
  let '(v, r') := next_raw r in
  (PrimFloat.mul (Z2F (v mod 9007199254740992)) 0x1p-53%float, r').

(** [randint(a, b)]: [ValueError] on an empty range. *)
Definition randint (a b : Z) (r : Random) : Res (Z * Random) :=
  if b <? a then Raise ValueError
  else let '(v, r') := randbelow (b - a + 1) r in Ok (a + v, r').

(** [uniform(a, b)]. *)
Definition uniform (a b : float) (r : Random) : float * Random :=
  let '(u, r') := random r in
  (PrimFloat.add a (PrimFloat.mul (PrimFloat.sub b a) u), r').

(** [choice(seq)]: [IndexError] on an empty sequence. *)
Definition choice {A} (l : list A) (r : Random) : Res (A * Random) :=
  match l with
  | [] => Raise IndexError
  | a :: _ =>
      let '(j, r') := randbelow (Z.of_nat (length l)) r in
      Ok (nth (Z.to_nat j) l a, r')
  end.

(** [x[i], x[j] = x[j], x[i]]. *)
Definition swap {A} (l : list A) (i j : nat) : list A :=
  match l !! i, l !! j with
  | Some a, Some b => <[j := a]> (<[i := b]> l)
  | _, _ => l
  end.

(** [for i in reversed(range(1, len(x))): j = randbelow(i + 1); swap]. *)
Fixpoint shuffle_from {A} (i : nat) (l : list A) (r : Random) : list A * Random :=
  match i with
  | O => (l, r)
  | S i' =>
      let '(j, r') := randbelow (Z.of_nat (S i)) r in
      shuffle_from i' (swap l i (Z.to_nat j)) r'
  end.

Definition shuffle {A} (l : list A) (r : Random) : list A * Random :=
  shuffle_from (length l - 1)%nat l r.

(** ** The data model

    Tiles, realms, settlements, events, roads and ruins are Python
    dictionaries with a fixed set of keys: a record each, under a module that
    keeps the keys' names. *)

Inductive Biome :=
| ocean | mountain | highland | grassland | temperate_forest | desert | wetlands.

#[export] Instance Biome_eq_dec : EqDecision Biome.
Proof. solve_decision. Defined.

Definition biome_eqb (a b : Biome) : bool := bool_decide (a = b).

(** [biome in ("grassland", "temperate_forest", "wetlands")]. *)
Definition is_fertile_biome (b : Biome) : bool :=
  match b with
  | grassland | temperate_forest | wetlands => true
  | _ => false
  end.

Inductive Mode := continent | archipelago.

Inductive SettlementType := city | town | fort.

Inductive EventType := EMPIRE_PEAK | PLAGUE_EVENT | CIVIL_WAR_EVENT | SUCCESSION.

Inductive Cause := CIVIL_WAR | RAID | PLAGUE | ARCANE_DISASTER.

Module Tile.
Record t := mk {
    x : Z;
    y : Z;
    elevation : float;
    moisture : float;
    biome : Biome;
    water : bool;
    river : bool;
    realm_id : option string;
    settlement_id : option string;
  }.

Definition set_river (b : bool) (c : t) : t :=
    mk (x c) (y c) (elevation c) (moisture c) (biome c) (water c) b
       (realm_id c) (settlement_id c).

Definition set_realm_id (r : option string) (c : t) : t :=
    mk (x c) (y c) (elevation c) (moisture c) (biome c) (water c) (river c)
       r (settlement_id c).

Definition set_settlement_id (s : option string) (c : t) : t :=
    mk (x c) (y c) (elevation c) (moisture c) (biome c) (water c) (river c)
       (realm_id c) s.

  (** The five assignments that drown a tile in
      [_enforce_continent_connectivity]. *)
Definition drown (c : t) : t :=
    mk (x c) (y c) (elevation c) (moisture c) ocean true false None None.

Definition dummy : t := mk 0 0 0%float 0%float ocean true false None None.
End Tile.

#[export] Instance Tile_inhabited : Inhabited Tile.t := populate Tile.dummy.

Module Realm.
Record t := mk {
    id : string;
    name : string;
    color : string;
    capital_settlement_id : option string;
    founded_year : Z;
    dissolved_year : option Z;
    culture : string;
    notes : list string;
    strength : option float;
  }.

Definition set_capital (s : option string) (c : t) : t :=
    mk (id c) (name c) (color c) s (founded_year c) (dissolved_year c)
       (culture c) (notes c) (strength c).

Definition set_strength (s : option float) (c : t) : t :=
    mk (id c) (name c) (color c) (capital_settlement_id c) (founded_year c)
       (dissolved_year c) (culture c) (notes c) s.

Definition add_note (n : string) (c : t) : t :=
    mk (id c) (name c) (color c) (capital_settlement_id c) (founded_year c)
       (dissolved_year c) (culture c) (notes c ++ [n]) (strength c).
End Realm.

Module Settlement.
Record t := mk {
    id : string;
    name : string;
    type : SettlementType;
    tile : Z * Z;
    realm_id : string;
    founded_year : Z;
    population : Z;
    tags : list string;
    history : list string;
  }.
End Settlement.

Module Event.
Record t := mk {
    id : string;
    year : Z;
    type : EventType;
    realm_ids : list string;
    settlement_id : option string;
    summary : string;
  }.
End Event.

Module Road.
Record t := mk {
    from : string;
    to : string;
    tiles : list (Z * Z);
    type : string;
  }.
End Road.

Module Ruin.
Record t := mk {
    id : string;
    name : string;
    tile : Z * Z;
    origin_settlement_id : option string;
    destroyed_year : Z;
    cause : Cause;
    tags : list string;
    notes : list string;
  }.
End Ruin.

Definition event_type_str (t : EventType) : string :=
  match t with
  | EMPIRE_PEAK => "EMPIRE_PEAK"
  | PLAGUE_EVENT => "PLAGUE"
  | CIVIL_WAR_EVENT => "CIVIL_WAR"
  | SUCCESSION => "SUCCESSION"
  end.

Definition settlement_type_str (t : SettlementType) : string :=
  match t with city => "city" | town => "town" | fort => "fort" end.

(** *** Insertion-ordered dictionaries with string keys *)

Definition Dict (V : Type) := list (string * V).

Fixpoint dict_get {V} (d : Dict V) (k : string) : option V :=
  match d with
  | [] => None
  | (k', v) :: d' => if String.eqb k' k then Some v else dict_get d' k
  end.

(** [d[k] = v]: an existing key keeps its place. *)
Fixpoint dict_set {V} (d : Dict V) (k : string) (v : V) : Dict V :=
  match d with
  | [] => [(k, v)]
  | (k', v') :: d' =>
      if String.eqb k' k then (k, v) :: d' else (k', v') :: dict_set d' k v
  end.

Definition dict_keys {V} (d : Dict V) : list string := map fst d.
Definition dict_values {V} (d : Dict V) : list V := map snd d.
Definition dict_mem {V} (d : Dict V) (k : string) : bool :=
  match dict_get d k with Some _ => true | None => false end.

(** The name generator of [settlement_namegen.py], which is not part of the
    sources at hand: [generate_name(kind, rng)] draws from the stream it is
    handed and returns a name. *)
Definition Namer := string -> Random -> string * Random.

(** ** The generator object

    Next to the attributes of the class the record carries [float_pow2], what
    [v ** 2] returns on a float [v]: CPython hands it to the C library's
    [pow(v, 2.0)], whose last bit depends on the library and need not be that
    of the product [v * v].  (It overflows, and Python raises
    [OverflowError], only on values far beyond the distances of a map.) *)

Record Gen := mkGen {
  width : Z;
  height : Z;
  years : Z;
  base_sea_level : float;
  mode : Mode;
  seed : Z;
  rng : Random;
  settlement_namer : Namer;
  float_pow2 : float -> float;
  tiles : list Tile.t;
  realms : Dict Realm.t;
  settlements : Dict Settlement.t;
  events : list Event.t;
  roads : list Road.t;
  ruins : list Ruin.t;
}.

Definition set_rng (r : Random) (g : Gen) : Gen :=
  mkGen (width g) (height g) (years g) (base_sea_level g) (mode g) (seed g)
        r (settlement_namer g) (float_pow2 g) (tiles g) (realms g) (settlements g)
        (events g) (roads g) (ruins g).

Definition set_tiles (ts : list Tile.t) (g : Gen) : Gen :=
  mkGen (width g) (height g) (years g) (base_sea_level g) (mode g) (seed g)
        (rng g) (settlement_namer g) (float_pow2 g) ts (realms g) (settlements g)
        (events g) (roads g) (ruins g).

Definition set_realms (rs : Dict Realm.t) (g : Gen) : Gen :=
  mkGen (width g) (height g) (years g) (base_sea_level g) (mode g) (seed g)
        (rng g) (settlement_namer g) (float_pow2 g) (tiles g) rs (settlements g)
        (events g) (roads g) (ruins g).

Definition set_settlements (ss : Dict Settlement.t) (g : Gen) : Gen :=
  mkGen (width g) (height g) (years g) (base_sea_level g) (mode g) (seed g)
        (rng g) (settlement_namer g) (float_pow2 g) (tiles g) (realms g) ss
        (events g) (roads g) (ruins g).

Definition set_events (es : list Event.t) (g : Gen) : Gen :=
  mkGen (width g) (height g) (years g) (base_sea_level g) (mode g) (seed g)
        (rng g) (settlement_namer g) (float_pow2 g) (tiles g) (realms g) (settlements g)
        es (roads g) (ruins g).

Definition set_roads (rs : list Road.t) (g : Gen) : Gen :=
  mkGen (width g) (height g) (years g) (base_sea_level g) (mode g) (seed g)
        (rng g) (settlement_namer g) (float_pow2 g) (tiles g) (realms g) (settlements g)
        (events g) rs (ruins g).

Definition set_ruins (rs : list Ruin.t) (g : Gen) : Gen :=
  mkGen (width g) (height g) (years g) (base_sea_level g) (mode g) (seed g)
        (rng g) (settlement_namer g) (float_pow2 g) (tiles g) (realms g) (settlements g)
        (events g) (roads g) rs.

(** [self.tiles[i]] and an assignment to a key of it, for an index within
    the list; beyond it Python raises [IndexError].  The methods look tiles
    up at places of the map, which are within the list when the tiles stand
    in row-major order ([grid_ok] below). *)
Definition tile_at (g : Gen) (i : nat) : Tile.t := tiles g !!! i.

Definition update_tile (i : nat) (f : Tile.t -> Tile.t) (g : Gen) : Gen :=
  set_tiles (alter f i (tiles g)) g.

(** ** Helpers *)

Definition _idx (g : Gen) (x y : Z) : Z := y * width g + x.

(** The tiles next to [(x, y)], east, west, south, north, those inside the
    grid only. *)
Definition _neighbors (g : Gen) (x y : Z) : list nat :=
  flat_map
    (fun d : Z * Z =>
       let nx := x + fst d in
       let ny := y + snd d in
       if (0 <=? nx) && (nx <? width g) && (0 <=? ny) && (ny <? height g)
       then [Z.to_nat (_idx g nx ny)]
       else [])
    [(1, 0); (-1, 0); (0, 1); (0, -1)].

Definition _realm_tile_count (g : Gen) (rid : string) : Z :=
  Z.of_nat (length (filter (fun t => Tile.realm_id t = Some rid) (tiles g))).

Definition _is_border_tile (g : Gen) (i : nat) : bool :=
  let t := tile_at g i in
  if negb (truthy (Tile.realm_id t)) then false
  else
    existsb
      (fun n => negb (bool_decide (Tile.realm_id (tile_at g n) = Tile.realm_id t)))
      (_neighbors g (Tile.x t) (Tile.y t)).

Definition _make_settlement_name (kind : string) (g : Gen) : string * Gen :=
  let '(s, r) := settlement_namer g kind (rng g) in (s, set_rng r g).

Definition _random_color (g : Gen) : Res (string * Gen) :=
  '(r, rg) ← randint 80 220 (rng g);
  '(gr, rg) ← randint 80 220 rg;
  '(b, rg) ← randint 80 220 rg;
  mret ("#" +:+ hex2 r +:+ hex2 gr +:+ hex2 b, set_rng rg g).

Definition _pop_estimate (stype : SettlementType) (g : Gen) : Res (Z * Gen) :=
  '(n, rg) ← match stype with
             | city => randint 8000 25000 (rng g)
             | town => randint 1500 6000 (rng g)
             | fort => randint 400 1800 (rng g)
             end;
  mret (n, set_rng rg g).

Definition realm_prefixes : list string :=
  ["Ashen"; "Grey"; "Varn"; "Eld"; "Kor"; "Thorn"; "Mar"; "Sel"; "Drak"].
Definition realm_suffixes : list string :=
  ["hold"; "reach"; "marches"; "realm"; "clan"; "throne"; "dominion"].

Definition _make_realm_name (index : Z) (g : Gen) : Res (string * Gen) :=
  '(p, rg) ← choice realm_prefixes (rng g);
  '(s, rg) ← choice realm_suffixes rg;
  mret (p +:+ s, set_rng rg g).

(** *** [_line_between]: rasterising a segment

    The loop of the source is [while True]; [line_loop] runs it with a step
    budget, [None] standing for a loop that has not left yet. *)
Fixpoint line_loop (fuel : nat) (x1 y1 dx dy sx sy : Z) (err x y : Z)
    (points : list (Z * Z)) : option (list (Z * Z)) :=
  match fuel with
  | O => None
  | S fuel' =>
      let points := points ++ [(x, y)] in
      if (x =? x1) && (y =? y1) then Some points
      else
        let e2 := 2 * err in
        let '(err, x) := if e2 >=? dy then (err + dy, x + sx) else (err, x) in
        let '(err, y) := if e2 <=? dx then (err + dx, y + sy) else (err, y) in
        line_loop fuel' x1 y1 dx dy sx sy err x y points
  end.

Definition line_run (fuel : nat) (x0 y0 x1 y1 : Z) : option (list (Z * Z)) :=
  let dx := Z.abs (x1 - x0) in
  let dy := - Z.abs (y1 - y0) in
  let sx := if x0 <? x1 then 1 else -1 in
  let sy := if y0 <? y1 then 1 else -1 in
  line_loop fuel x1 y1 dx dy sx sy (dx + dy) x0 y0 [].

(** The budget [|x1 - x0| + |y1 - y0| + 1] is never used up
    ([line_run_enough_fuel] below), so this is the list the method returns. *)
Definition _line_between (x0 y0 x1 y1 : Z) : list (Z * Z) :=
  default [] (line_run (S (Z.to_nat (Z.abs (x1 - x0) + Z.abs (y1 - y0)))) x0 y0 x1 y1).
Arguments _line_between : simpl never.

(** A [for] loop without [break] over a state that may raise. *)
Fixpoint for_each {A S} (l : list A) (body : A -> S -> Res S) (s : S) : Res S :=
  match l with
  | [] => Ok s
  | a :: l' => s' ← body a s; for_each l' body s'
  end.

(** ** Tiles and biomes *)

Definition _choose_biome (e m : float) (water : bool) : Biome :=
  if water then ocean
  else if PrimFloat.ltb 0.85 e then mountain
  else if PrimFloat.ltb 0.7 e then highland
  else if PrimFloat.ltb m 0.2 then desert
  else if PrimFloat.ltb m 0.45 then grassland
  else if PrimFloat.ltb m 0.75 then temperate_forest
  else wetlands.

(** The dictionary appended for a tile of elevation [e] and moisture [m]. *)
Definition new_tile (sea_level : float) (x y : Z) (e m : float) : Tile.t :=
  let water := PrimFloat.ltb e sea_level in
  Tile.mk x y (round3 e) (round3 m) (_choose_biome e m water) water false None None.

(** Moisture of row [y]: a band around the middle row plus noise.
    [y / (self.height - 1)] divides integers. *)
Definition moisture_at (g : Gen) (y : Z) (rg : Random) : Res (float * Random) :=
  if height g - 1 =? 0 then Raise ZeroDivisionError
  else
    let lat_factor :=
      PrimFloat.sub 1
        (PrimFloat.mul
           (PrimFloat.abs (PrimFloat.sub (PrimFloat.div (Z2F y) (Z2F (height g - 1))) 0.5))
           1.6) in
    let '(u, rg) := random rg in
    let m := PrimFloat.add lat_factor (PrimFloat.mul (PrimFloat.sub u 0.5) 0.4) in
    Ok (clamp01 m, rg).

Definition append_tile (t : Tile.t) (g : Gen) : Gen := set_tiles (tiles g ++ [t]) g.

(** The body of the two loops of continent mode, for the tile at [(x, y)]. *)
Definition continent_tile (cx cy max_r : float) (y x : Z) (g : Gen) : Res Gen :=
  let dx := PrimFloat.sub (Z2F x) cx in
  let dy := PrimFloat.sub (Z2F y) cy in
  let dist := PrimFloat.sqrt (PrimFloat.add (PrimFloat.mul dx dx) (PrimFloat.mul dy dy)) in
  let base := PrimFloat.sub 1 (PrimFloat.div dist max_r) in
  let base := clamp01 base in
  let '(u1, rg) := random (rng g) in
  let bump1 := PrimFloat.mul (PrimFloat.sub u1 0.5) 0.25 in
  let '(u2, rg) := random rg in
  let bump2 :=
    PrimFloat.mul (PrimFloat.mul (PrimFloat.sub u2 0.5) 0.15) (PrimFloat.add base 0.3) in
  let e := PrimFloat.add (PrimFloat.add base bump1) bump2 in
  let e := clamp01 e in
  '(m, rg) ← moisture_at g y rg;
  mret (append_tile (new_tile (base_sea_level g) x y e m) (set_rng rg g)).

(** [max(e, contrib)] over the blobs of archipelago mode. *)
Definition blob_elevation (centers : list (Z * Z * float)) (x y : Z) : float :=
  fold_left
    (fun e c =>
       let '(cx, cy, rad) := c in
       let dx := x - cx in
       let dy := y - cy in
       let d := PrimFloat.sqrt (Z2F (dx * dx + dy * dy)) in
       let contrib := fmax 0 (PrimFloat.sub 1 (PrimFloat.div d rad)) in
       if PrimFloat.ltb e contrib then contrib else e)
    centers 0%float.

Definition archipelago_tile (centers : list (Z * Z * float)) (y x : Z) (g : Gen) : Res Gen :=
  let e := blob_elevation centers x y in
  let '(u, rg) := random (rng g) in
  let e := PrimFloat.add e (PrimFloat.mul (PrimFloat.sub u 0.5) 0.15) in
  let e := clamp01 e in
  '(m, rg) ← moisture_at g y rg;
  mret (append_tile (new_tile (base_sea_level g) x y e m) (set_rng rg g)).

(** One blob: a random centre and a radius between 8 and 16. *)
Definition draw_center (g : Gen) (acc : list (Z * Z * float) * Random)
    : Res (list (Z * Z * float) * Random) :=
  '(cx, rg) ← randint 0 (width g - 1) (snd acc);
  '(cy, rg) ← randint 0 (height g - 1) rg;
  let '(rad, rg) := uniform 8 16 rg in
  mret (fst acc ++ [(cx, cy, rad)], rg).

(** The two nested loops, [y] outside and [x] inside. *)
Definition grid_loop (body : Z -> Z -> Gen -> Res Gen) (g : Gen) : Res Gen :=
  for_each (seqZ 0 (height g))
    (fun y g => for_each (seqZ 0 (width g)) (body y) g) g.

(** *** Connectivity of the continent *)

(** The neighbours of the popped tile, pushed when they are land and not yet
    visited.  The stack is kept with its top first. *)
Definition flood_push (g : Gen) (acc : gset nat * list nat) (n : nat) : gset nat * list nat :=
  let nt := tile_at g n in
  let n_idx := Z.to_nat (_idx g (Tile.x nt) (Tile.y nt)) in
  if negb (bool_decide (n_idx ∈ fst acc)) && negb (Tile.water (tile_at g n_idx))
  then ({[ n_idx ]} ∪ fst acc, n_idx :: snd acc)
  else acc.

(** [while stack: ...], with a step budget. *)
Fixpoint flood (fuel : nat) (g : Gen) (stack : list nat) (visited : gset nat)
    (comp : list nat) : option (gset nat * list nat) :=
  match fuel with
  | O => None
  | S fuel' =>
      match stack with
      | [] => Some (visited, comp)
      | idx :: stack' =>
          let comp := comp ++ [idx] in
          let t := tile_at g idx in
          let '(visited, stack') :=
            fold_left (flood_push g) (_neighbors g (Tile.x t) (Tile.y t)) (visited, stack') in
          flood fuel' g stack' visited comp
      end
  end.

(** [for start in land_indices: ...]: the components in discovery order. *)
Fixpoint find_components (fuel : nat) (g : Gen) (starts : list nat)
    (visited : gset nat) (components : list (list nat)) : option (list (list nat)) :=
  match starts with
  | [] => Some components
  | start :: starts' =>
      if bool_decide (start ∈ visited) then
        find_components fuel g starts' visited components
      else
        match flood fuel g [start] ({[ start ]} ∪ visited) [] with
        | None => None
        | Some (visited, comp) =>
            find_components fuel g starts' visited (components ++ [comp])
        end
  end.

(** [components.sort(key=len, reverse=True)]: a stable sort, longest first;
    components of one length keep their order. *)
Fixpoint insert_by_len (c : list nat) (l : list (list nat)) : list (list nat) :=
  match l with
  | [] => [c]
  | d :: l' =>
      if (length c <? length d)%nat then d :: insert_by_len c l'
      else c :: d :: l'
  end.

Definition sort_by_len_desc (l : list (list nat)) : list (list nat) :=
  foldr insert_by_len [] l.

Definition land_indices (g : Gen) : list nat :=
  filter (fun i => Tile.water (tile_at g i) = false) (seq 0 (length (tiles g))).

Definition drown_all (comps : list (list nat)) (g : Gen) : Gen :=
  fold_left (fun g comp => fold_left (fun g idx => update_tile idx Tile.drown g) comp g)
    comps g.

(** The components found, with the budget of one step per tile and one more,
    which [find_components_enough_fuel] shows is never used up. *)
Definition components_of (g : Gen) : option (list (list nat)) :=
  find_components (S (length (tiles g))) g (land_indices g) ∅ [].

Definition _enforce_continent_connectivity (g : Gen) : Gen :=
  match land_indices g with
  | [] => g
  | _ =>
      match components_of g with
      | None => g
      | Some components =>
          if (length components <=? 1)%nat then g
          else
            match sort_by_len_desc components with
            | [] => g
            | _ :: others => drown_all others g
            end
      end
  end.

(** *** Rivers *)

(** [min(neighbors, key=...)]: the key of a land neighbour draws from the
    stream; the first neighbour of least key wins. *)
Definition river_key (g : Gen) (n : nat) (rg : Random) : float * Random :=
  let t := tile_at g n in
  if Tile.water t then (PrimFloat.add (Tile.elevation t) 0, rg)
  else
    let '(u, rg) := random rg in
    (PrimFloat.add (Tile.elevation t) (PrimFloat.mul 0.05 u), rg).

Fixpoint min_by_river_key (g : Gen) (l : list nat) (best : nat) (best_key : float)
    (rg : Random) : nat * Random :=
  match l with
  | [] => (best, rg)
  | n :: l' =>
      let '(k, rg) := river_key g n rg in
      if PrimFloat.ltb k best_key then min_by_river_key g l' n k rg
      else min_by_river_key g l' best best_key rg
  end.

(** The three [break]s of the walk. *)
Inductive WalkEnd := NoNeighbors | ReachedWater | LocalMinimum.

(** One turn of [for _ in range(80): ...] at [(x, y)]: the [break] taken, or
    the coordinates the walk moves to. *)
Definition river_step (x y : Z) (g : Gen) : Gen * (WalkEnd + Z * Z) :=
  let idx := Z.to_nat (_idx g x y) in
  let g := update_tile idx (Tile.set_river true) g in
  let tile := tile_at g idx in
  match _neighbors g x y with
  | [] => (g, inl NoNeighbors)
  | n0 :: ns =>
      let '(k0, rg) := river_key g n0 (rng g) in
      let '(next, rg) := min_by_river_key g ns n0 k0 rg in
      let g := set_rng rg g in
      let next_tile := tile_at g next in
      if Tile.water next_tile then (g, inl ReachedWater)
      else if PrimFloat.ltb (Tile.elevation tile) (Tile.elevation next_tile)
              && negb (Tile.water tile) then (g, inl LocalMinimum)
      else (g, inr (Tile.x next_tile, Tile.y next_tile))
  end.

(** The walk from [(x, y)] with [steps] turns left; it reports the [break]
    that ended it, [None] when the range was used up. *)
Fixpoint river_walk (steps : nat) (x y : Z) (g : Gen) : Gen * option WalkEnd :=
  match steps with
  | O => (g, None)
  | S steps' =>
      match river_step x y g with
      | (g, inl e) => (g, Some e)
      | (g, inr (x, y)) => river_walk steps' x y g
      end
  end.

Definition river_sources (g : Gen) : list nat :=
  filter
    (fun i => Tile.water (tile_at g i) = false
              ∧ PrimFloat.ltb 0.6 (Tile.elevation (tile_at g i)) = true)
    (seq 0 (length (tiles g))).

Definition _carve_rivers (count : Z) (g : Gen) : Gen :=
  match river_sources g with
  | [] => g
  | land_tiles =>
      let '(land_tiles, rg) := shuffle land_tiles (rng g) in
      let starts := take (Z.to_nat count) land_tiles in
      fold_left
        (fun g start =>
           let t := tile_at g start in
           fst (river_walk 80 (Tile.x t) (Tile.y t) g))
        starts (set_rng rg g)
  end.

(** The two loops of continent mode: a radial falloff from the centre. *)
Definition continent_grid (g : Gen) : Res Gen :=
  let cx := PrimFloat.div (Z2F (width g - 1)) 2 in
  let cy := PrimFloat.div (Z2F (height g - 1)) 2 in
  let max_r := PrimFloat.div (Z2F (Z.max (width g) (height g))) 2.2 in
  grid_loop (continent_tile cx cy max_r) g.

(** The blobs and the two loops of archipelago mode. *)
Definition archipelago_grid (g : Gen) : Res Gen :=
  let num_masses := Z.max 2 (width g * height g / 800) in
  '(centers, rg) ← for_each (seqZ 0 num_masses) (fun _ => draw_center g) ([], rng g);
  grid_loop (archipelago_tile centers) (set_rng rg g).

Definition _generate_base_tiles (g : Gen) : Res Gen :=
  g ← match mode g with
      | continent =>
          g ← continent_grid g;
          mret (_enforce_continent_connectivity g)
      | archipelago => archipelago_grid g
      end;
  mret (_carve_rivers (Z.max 4 (width g * height g / 700)) g).

(** ** Realms and history *)

Definition new_realm (rid name color : string) (founded : Z) (culture : string)
    (notes : list string) : Realm.t :=
  Realm.mk rid name color None founded None culture notes None.

Definition realm_id_of (n : Z) : string := "realm_" +:+ str_of_Z n.

Definition fertile_indices (g : Gen) : list nat :=
  filter
    (fun i => Tile.water (tile_at g i) = false
              ∧ is_fertile_biome (Tile.biome (tile_at g i)) = true)
    (seq 0 (length (tiles g))).

Definition manhattan (a b : Z * Z) : Z :=
  Z.abs (fst a - fst b) + Z.abs (snd a - snd b).

(** Creates the realm [rid] and hands it the tile [ti]. *)
Definition found_realm (rid : string) (index : Z) (ti : nat) (g : Gen) : Res Gen :=
  '(name, g) ← _make_realm_name index g;
  '(color, g) ← _random_color g;
  let g := set_realms (dict_set (realms g) rid (new_realm rid name color 0 "lowland" [])) g in
  mret (update_tile ti (Tile.set_realm_id (Some rid)) g).

(** [for i in range(target_realms * 2): ...]; [range] is what is left of
    it, [used] the seeds accepted so far. *)
Fixpoint spawn_loop (range : list nat) (fertile : list nat) (target_realms : Z)
    (used : list (Z * Z)) (g : Gen) : Res Gen :=
  match range with
  | [] => Ok g
  | i :: range' =>
      if Z.of_nat (length (realms g)) >=? target_realms then Ok g
      else
        match fertile !! i with
        | None => Ok g
        | Some ti =>
            let tile := tile_at g ti in
            let x := Tile.x tile in
            let y := Tile.y tile in
            if existsb (fun u => manhattan (x, y) u <? 6) used then
              spawn_loop range' fertile target_realms used g
            else
              let n := Z.of_nat (length (realms g)) in
              g ← found_realm (realm_id_of (n + 1)) n ti g;
              spawn_loop range' fertile target_realms (used ++ [(x, y)]) g
        end
  end.

Definition target_realms_of (g : Gen) : Z :=
  Z.max 2 (Z.min 6 (width g * height g / 1200)).

Definition _spawn_initial_realms (g : Gen) : Res Gen :=
  let '(fertile, rg) := shuffle (fertile_indices g) (rng g) in
  let g := set_rng rg g in
  let target_realms := target_realms_of g in
  g ← spawn_loop (seq 0 (Z.to_nat (target_realms * 2))) fertile target_realms [] g;
  match realms g, fertile with
  | [], ti :: _ => found_realm "realm_1" 0 ti g
  | _, _ => Ok g
  end.

(** [tiles_by_realm]: the owned tiles grouped by realm, realms in the order
    their first tile is met. *)
Definition group_add (d : Dict (list nat)) (rid : string) (i : nat) : Dict (list nat) :=
  dict_set d rid (default [] (dict_get d rid) ++ [i]).

Definition group_step (g : Gen) (d : Dict (list nat)) (i : nat) : Dict (list nat) :=
  let rid := Tile.realm_id (tile_at g i) in
  if truthy rid then group_add d (default "" rid) i else d.

Definition tiles_by_realm_of (g : Gen) : Dict (list nat) :=
  fold_left (group_step g) (seq 0 (length (tiles g))) [].

(** One neighbour [n] of a tile of realm [rid] in an expansion pass. *)
Definition annex_neighbor (rid : string) (size : Z) (tiles_by_realm : Dict (list nat))
    (acc : Gen * Z) (n : nat) : Gen * Z :=
  let '(g, grown) := acc in
  let nt := tile_at g n in
  if Tile.water nt || biome_eqb (Tile.biome nt) mountain then (g, grown)
  else
    match Tile.realm_id nt with
    | None => (update_tile n (Tile.set_realm_id (Some rid)) g, grown + 1)
    | Some other_id =>
        if negb (String.eqb other_id rid) then
          let len := Z.of_nat (length (default [] (dict_get tiles_by_realm other_id))) in
          let other_size := if len =? 0 then 1 else len in
          let chance :=
            PrimFloat.mul 0.4 (PrimFloat.div (Z2F size) (Z2F (size + other_size))) in
          let '(u, rg) := random (rng g) in
          let g := set_rng rg g in
          if PrimFloat.ltb u chance then
            (update_tile n (Tile.set_realm_id (Some rid)) g, grown + 1)
          else (g, grown)
        else (g, grown)
    end.

(** [for t in realm_tiles: ...] of an expansion pass; the result carries the
    final values of [grown] and [attempts]. *)
Fixpoint expand_loop (rid : string) (size desired_growth : Z)
    (tiles_by_realm : Dict (list nat)) (realm_tiles : list nat)
    (g : Gen) (grown attempts : Z) : Gen * Z * Z :=
  match realm_tiles with
  | [] => (g, grown, attempts)
  | t :: rest =>
      if grown >=? desired_growth then (g, grown, attempts)
      else
        let tt := tile_at g t in
        let '(g, grown) :=
          fold_left (annex_neighbor rid size tiles_by_realm)
            (_neighbors g (Tile.x tt) (Tile.y tt)) (g, grown) in
        let attempts := attempts + 1 in
        if attempts >? desired_growth * 6 then (g, grown, attempts)
        else expand_loop rid size desired_growth tiles_by_realm rest g grown attempts
  end.

Definition has_empire_peak (rid : string) (es : list Event.t) : bool :=
  existsb
    (fun e =>
       match Event.type e with
       | EMPIRE_PEAK => existsb (String.eqb rid) (Event.realm_ids e)
       | _ => false
       end)
    es.

Definition dict_update {V} (d : Dict V) (k : string) (f : V -> V) : Dict V :=
  match dict_get d k with
  | Some v => dict_set d k (f v)
  | None => d
  end.

(** The empire-peak check that closes a realm's pass. *)
Definition empire_peak_check (rid : string) (realm : Realm.t) (size year : Z) (g : Gen) : Gen :=
  if PrimFloat.ltb (PrimFloat.mul (Z2F (width g * height g)) 0.18) (Z2F size)
     && negb (has_empire_peak rid (events g))
  then
    let g :=
      set_realms
        (dict_update (realms g) rid
           (Realm.add_note
              ("Once ruled as a dominant realm around year " +:+ str_of_Z year +:+ ".")))
        g in
    set_events
      (events g ++
       [Event.mk ("event_empire_" +:+ rid +:+ "_" +:+ str_of_Z year) year EMPIRE_PEAK
          [rid] None (Realm.name realm +:+ " reached its greatest extent.")])
      g
  else g.

(** The pass of one realm: expansion, then the empire-peak check. *)
Definition realm_pass (year : Z) (tiles_by_realm : Dict (list nat))
    (g : Gen) (entry : string * list nat) : Gen :=
  let '(rid, realm_tiles) := entry in
  let size := Z.of_nat (length realm_tiles) in
  match dict_get (realms g) rid with
  | None => g
  | Some realm =>
      let desired_growth := Z.max 1 (size / 12) in
      let '(realm_tiles, rg) := shuffle realm_tiles (rng g) in
      let g := set_rng rg g in
      let '(g, _, _) :=
        expand_loop rid size desired_growth tiles_by_realm realm_tiles g 0 0 in
      empire_peak_check rid realm size year g
  end.

Definition _realm_expansion_tick (year : Z) (g : Gen) : Gen :=
  let tiles_by_realm := tiles_by_realm_of g in
  fold_left (realm_pass year tiles_by_realm) tiles_by_realm g.

Definition owned_by (g : Gen) (rid : string) : list nat :=
  filter (fun i => Tile.realm_id (tile_at g i) = Some rid) (seq 0 (length (tiles g))).

Definition set_owner_all (o : option string) (l : list nat) (g : Gen) : Gen :=
  fold_left (fun g i => update_tile i (Tile.set_realm_id o) g) l g.

Definition crisis_event (crisis_type : EventType) (rid : string) (year : Z)
    (summary : string) : Event.t :=
  Event.mk
    ("event_" +:+ event_type_str crisis_type +:+ "_" +:+ rid +:+ "_" +:+ str_of_Z year)
    year crisis_type [rid] None summary.

(** The branch of [PLAGUE] and [SUCCESSION]: border tiles are given up. *)
Definition crisis_shrink (crisis_type : EventType) (rid : string) (realm : Realm.t)
    (tiles : list nat) (year : Z) (g : Gen) : Res Gen :=
  match filter (fun i => _is_border_tile g i = true) tiles with
  | [] => Ok g
  | border_tiles =>
      let '(border_tiles, rg) := shuffle border_tiles (rng g) in
      '(d, rg) ← randint 6 10 rg;
      let g := set_rng rg g in
      let cut := Z.max 1 (Z.of_nat (length tiles) / d) in
      let g := set_owner_all None (take (Z.to_nat cut) border_tiles) g in
      let summary := Realm.name realm +:+ " lost territory to internal crisis." in
      mret (set_events (events g ++ [crisis_event crisis_type rid year summary]) g)
  end.

(** The other branch: a civil war hands half of the tiles to a new realm. *)
Definition crisis_split (crisis_type : EventType) (rid : string) (realm : Realm.t)
    (tiles : list nat) (year : Z) (g : Gen) : Res Gen :=
  if (8 <? Z.of_nat (length (realms g))) || (Z.of_nat (length tiles) <? 12) then Ok g
  else
    let n := Z.of_nat (length (realms g)) in
    let new_id := realm_id_of (n + 1) in
    '(name, g) ← _make_realm_name n g;
    '(color, g) ← _random_color g;
    let g :=
      set_realms
        (dict_set (realms g) new_id
           (new_realm new_id name color year (Realm.culture realm)
              ["Splintered from " +:+ Realm.name realm +:+ " in civil war."]))
        g in
    let '(tiles, rg) := shuffle tiles (rng g) in
    let g := set_rng rg g in
    let g :=
      set_owner_all (Some new_id)
        (take (Z.to_nat (Z.of_nat (length tiles) / 2)) tiles) g in
    let summary :=
      "Civil war split " +:+ Realm.name realm +:+ ", creating " +:+ name +:+ "." in
    mret (set_events (events g ++ [crisis_event crisis_type rid year summary]) g).

Definition crisis_types : list EventType := [PLAGUE_EVENT; CIVIL_WAR_EVENT; SUCCESSION].

Definition _random_crisis (year : Z) (g : Gen) : Res Gen :=
  let realm_ids :=
    filter (fun rid => 0 < _realm_tile_count g rid) (dict_keys (realms g)) in
  match realm_ids with
  | [] => Ok g
  | _ =>
      '(rid, rg) ← choice realm_ids (rng g);
      let g := set_rng rg g in
      match dict_get (realms g) rid with
      | None => Raise KeyError
      | Some realm =>
          let tiles := owned_by g rid in
          match tiles with
          | [] => Ok g
          | _ =>
              '(crisis_type, rg) ← choice crisis_types (rng g);
              let g := set_rng rg g in
              match crisis_type with
              | PLAGUE_EVENT | SUCCESSION => crisis_shrink crisis_type rid realm tiles year g
              | _ => crisis_split crisis_type rid realm tiles year g
              end
          end
      end
  end.

(** [while current_year < self.years: ...], with a step budget. *)
Fixpoint history_loop (fuel : nat) (step current_year : Z) (g : Gen) : option (Res Gen) :=
  match fuel with
  | O => None
  | S fuel' =>
      if current_year <? years g then
        let current_year := current_year + step in
        let g := _realm_expansion_tick current_year g in
        let '(u, rg) := random (rng g) in
        let g := set_rng rg g in
        match (if PrimFloat.ltb u 0.35 then _random_crisis current_year g else Ok g) with
        | Ok g => history_loop fuel' step current_year g
        | Raise e => Some (Raise e)
        end
      else Some (Ok g)
  end.

(** A step is at least ten years, so [years + 1] steps are never used up
    ([history_loop_enough_fuel]). *)
Definition _simulate_history (g : Gen) : Res Gen :=
  match realms g with
  | [] => Ok g
  | _ =>
      let step := Z.max 10 (years g / 30) in
      let g := set_realms (map (fun kv => (fst kv, Realm.set_strength (Some 1%float) (snd kv))) (realms g)) g in
      g ← default (Ok g) (history_loop (S (Z.to_nat (years g))) step 0 g);
      mret (set_realms (map (fun kv => (fst kv, Realm.set_strength None (snd kv))) (realms g)) g)
  end.

(** ** Settlements, roads, ruins *)

Definition sum_Z (l : list Z) : Z := fold_left Z.add l 0.

(** The key of [_most_central_tile]:
    [(t["x"] - avg_x) ** 2 + (t["y"] - avg_y) ** 2]. *)
Definition dist_key (g : Gen) (avg_x avg_y : float) (i : nat) : float :=
  let t := tile_at g i in
  PrimFloat.add (float_pow2 g (PrimFloat.sub (Z2F (Tile.x t)) avg_x))
    (float_pow2 g (PrimFloat.sub (Z2F (Tile.y t)) avg_y)).

(** [min(tiles, key=...)]: the first tile of least key. *)
Fixpoint min_by_dist (g : Gen) (avg_x avg_y : float) (l : list nat) (best : nat)
    (best_key : float) : nat :=
  match l with
  | [] => best
  | i :: l' =>
      let k := dist_key g avg_x avg_y i in
      if PrimFloat.ltb k best_key then min_by_dist g avg_x avg_y l' i k
      else min_by_dist g avg_x avg_y l' best best_key
  end.

Definition _most_central_tile (g : Gen) (l : list nat) : nat :=
  match l with
  | [] => 0%nat
  | i0 :: rest =>
      let n := Z2F (Z.of_nat (length l)) in
      let avg_x := PrimFloat.div (Z2F (sum_Z (map (fun i => Tile.x (tile_at g i)) l))) n in
      let avg_y := PrimFloat.div (Z2F (sum_Z (map (fun i => Tile.y (tile_at g i)) l))) n in
      min_by_dist g avg_x avg_y rest i0 (dist_key g avg_x avg_y i0)
  end.

Definition settlement_id_of (n : Z) : string := "settlement_" +:+ str_of_Z n.

(** The body of the loop that places the secondary settlements of [rid]. *)
Definition place_extra (rid : string) (t : nat) (g : Gen) (sid_counter placed : Z)
    : Res (Gen * Z * Z) :=
  let tt := tile_at g t in
  if truthy (Tile.settlement_id tt) || Tile.water tt then Ok (g, sid_counter, placed)
  else
    let score := (if Tile.river tt then 2 else 0)
                 + (if is_fertile_biome (Tile.biome tt) then 1 else 0) in
    if score =? 0 then Ok (g, sid_counter, placed)
    else
      let '(u, rg) := random (rng g) in
      let g := set_rng rg g in
      let stype := if PrimFloat.ltb u 0.7 then town else fort in
      let sid := settlement_id_of sid_counter in
      let sid_counter := sid_counter + 1 in
      let '(name, g) := _make_settlement_name (settlement_type_str stype) g in
      let tags :=
        (match stype with fort => ["fortress"] | _ => [] end)
        ++ (if Tile.river tt then ["river_trade"] else [])
        ++ (if biome_eqb (Tile.biome tt) wetlands then ["marsh_edge"] else []) in
      '(founded, rg) ← randint 10 (Z.max 20 (years g / 2)) (rng g);
      '(population, g) ← _pop_estimate stype (set_rng rg g);
      let s := Settlement.mk sid name stype (Tile.x tt, Tile.y tt) rid founded
                 population tags [] in
      let g := set_settlements (dict_set (settlements g) sid s) g in
      let g := update_tile t (Tile.set_settlement_id (Some sid)) g in
      mret (g, sid_counter, placed + 1).

Fixpoint extras_loop (rid : string) (extra : Z) (realm_tiles : list nat)
    (g : Gen) (sid_counter placed : Z) : Res (Gen * Z) :=
  match realm_tiles with
  | [] => Ok (g, sid_counter)
  | t :: rest =>
      if placed >=? extra then Ok (g, sid_counter)
      else
        '(g, sid_counter, placed) ← place_extra rid t g sid_counter placed;
        extras_loop rid extra rest g sid_counter placed
  end.

(** The settlements of one realm: its capital, then the secondary ones. *)
Definition settle_realm (entry : string * list nat) (acc : Gen * Z) : Res (Gen * Z) :=
  let '(rid, realm_tiles) := entry in
  let '(g, sid_counter) := acc in
  match realm_tiles with
  | [] => Ok (g, sid_counter)
  | _ =>
      let fertile :=
        filter
          (fun i => Tile.water (tile_at g i) = false
                    ∧ is_fertile_biome (Tile.biome (tile_at g i)) = true)
          realm_tiles in
      let candidates := match fertile with [] => realm_tiles | _ => fertile end in
      let cap_tile := _most_central_tile g candidates in
      let cap_id := settlement_id_of sid_counter in
      let sid_counter := sid_counter + 1 in
      let '(cap_name, g) := _make_settlement_name "capital" g in
      let ct := tile_at g cap_tile in
      '(population, g) ← _pop_estimate city g;
      match dict_get (realms g) rid with
      | None => Raise KeyError
      | Some realm =>
          let capital :=
            Settlement.mk cap_id cap_name city (Tile.x ct, Tile.y ct) rid 0 population
              ["capital"] ["Founded as the seat of " +:+ Realm.name realm +:+ "."] in
          let g := set_settlements (dict_set (settlements g) cap_id capital) g in
          let g := set_realms (dict_update (realms g) rid (Realm.set_capital (Some cap_id))) g in
          let g := update_tile cap_tile (Tile.set_settlement_id (Some cap_id)) g in
          let size := Z.of_nat (length realm_tiles) in
          let extra := Z.min 3 (Z.max 1 (size / 80)) in
          let '(realm_tiles, rg) := shuffle realm_tiles (rng g) in
          extras_loop rid extra realm_tiles (set_rng rg g) sid_counter 0
      end
  end.

Definition _derive_settlements (g : Gen) : Res Gen :=
  '(g, _) ← for_each (tiles_by_realm_of g) settle_realm (g, 1);
  mret g.

(** The roads of one realm: from its capital to each other settlement of
    the realm, in the order of [self.settlements]. *)
Definition realm_roads (ss : Dict Settlement.t) (realm : Realm.t) : list Road.t :=
  match Realm.capital_settlement_id realm with
  | None => []
  | Some cap_id =>
      if negb (String.eqb cap_id "") then
        match dict_get ss cap_id with
        | None => []
        | Some cap =>
            let '(cx, cy) := Settlement.tile cap in
            flat_map
              (fun s =>
                 if negb (String.eqb (Settlement.realm_id s) (Realm.id realm))
                    || String.eqb (Settlement.id s) cap_id
                 then []
                 else
                   let '(sx, sy) := Settlement.tile s in
                   [Road.mk cap_id (Settlement.id s) (_line_between cx cy sx sy) "road"])
              (dict_values ss)
        end
      else []
  end.

Definition _derive_roads (g : Gen) : Gen :=
  set_roads (roads g ++ flat_map (realm_roads (settlements g)) (dict_values (realms g))) g.

Definition ruin_candidates (g : Gen) : list nat :=
  filter
    (fun i => Tile.water (tile_at g i) = false
              ∧ _is_border_tile g i = true
              ∧ truthy (Tile.settlement_id (tile_at g i)) = false)
    (seq 0 (length (tiles g))).

(** The body of [for i in range(target)]. *)
Definition make_ruin (border_tiles : list nat) (i : nat) (g : Gen) : Res Gen :=
  match border_tiles !! i with
  | None => Raise IndexError
  | Some ti =>
      let t := tile_at g ti in
      let ruin_id := "ruin_" +:+ str_of_Z (Z.of_nat i + 1) in
      let '(name, g) := _make_settlement_name "ruin" g in
      '(destroyed_year, rg) ← randint (Z.max 5 (years g / 4)) (years g) (rng g);
      '(cause, rg) ← choice [CIVIL_WAR; RAID; PLAGUE; ARCANE_DISASTER] rg;
      let ruin :=
        Ruin.mk ruin_id name (Tile.x t, Tile.y t) None destroyed_year cause
          ["haunted"; "contested_border"]
          ["Legends speak of lost crowns and unquiet dead."] in
      mret (set_ruins (ruins g ++ [ruin]) (set_rng rg g))
  end.

Definition ruin_target (border_tiles : list nat) : Z :=
  Z.min 5 (Z.of_nat (length border_tiles) / 30).

Definition _derive_ruins (g : Gen) : Res Gen :=
  let '(border_tiles, rg) := shuffle (ruin_candidates g) (rng g) in
  let g := set_rng rg g in
  let target := ruin_target border_tiles in
  for_each (seq 0 (Z.to_nat target)) (make_ruin border_tiles) g.

(** ** The colour map *)

Definition biome_color (b : Biome) : string :=
  match b with
  | mountain => "#888888"
  | highland => "#aa8c5f"
  | grassland => "#7fbf3f"
  | temperate_forest => "#2e8b57"
  | wetlands => "#3b6b6b"
  | desert => "#d9c27f"
  | ocean => "#000000"
  end.

Definition pos_eqb (a b : Z * Z) : bool := (fst a =? fst b) && (snd a =? snd b).

(** [settlements_by_pos[pos]]: the last settlement written at [pos]. *)
Definition settlement_at (ss : Dict Settlement.t) (p : Z * Z) : option Settlement.t :=
  last (filter (fun s => pos_eqb (Settlement.tile s) p = true) (dict_values ss)).

Definition tile_color (g : Gen) (x y : Z) : string :=
  let t := tile_at g (Z.to_nat (_idx g x y)) in
  if existsb (fun r => pos_eqb (Ruin.tile r) (x, y)) (ruins g) then "#cc6666"
  else
    match settlement_at (settlements g) (x, y) with
    | Some st =>
        match Settlement.type st with
        | city => "#ffcc00"
        | town => "#ffd966"
        | fort => "#ff9900"
        end
    | None =>
        if Tile.water t then
          if PrimFloat.ltb (Tile.elevation t) (PrimFloat.mul (base_sea_level g) 0.6)
          then "#1b3b6f" else "#3465a4"
        else if Tile.river t then "#3f8dd9"
        else biome_color (Tile.biome t)
    end.

Definition color_legend : list (string * string) :=
  [("#1b3b6f", "deep_ocean"); ("#3465a4", "shallow_ocean"); ("#3f8dd9", "river");
   ("#7fbf3f", "grassland"); ("#2e8b57", "temperate_forest"); ("#aa8c5f", "highland");
   ("#888888", "mountain"); ("#d9c27f", "desert"); ("#3b6b6b", "wetlands");
   ("#ffcc00", "city"); ("#ffd966", "town"); ("#ff9900", "fort"); ("#cc6666", "ruin")].

Definition _build_color_map (g : Gen) : list (list string) * list (string * string) :=
  (map (fun y => map (fun x => tile_color g x y) (seqZ 0 (width g))) (seqZ 0 (height g)),
   color_legend).

(** ** The public interface *)

Record Document := mkDocument {
  doc_schema : string;
  doc_seed : Z;
  doc_width : Z;
  doc_height : Z;
  doc_years : Z;
  doc_mode : Mode;
  doc_tiles : list Tile.t;
  doc_realms : list Realm.t;
  doc_settlements : list Settlement.t;
  doc_roads : list Road.t;
  doc_ruins : list Ruin.t;
  doc_events : list Event.t;
  doc_color_rows : list (list string);
  doc_color_legend : list (string * string);
}.

(** The stages before the document is assembled. *)
Definition run_stages (g : Gen) : Res Gen :=
  g ← _generate_base_tiles g;
  g ← _spawn_initial_realms g;
  g ← _simulate_history g;
  g ← _derive_settlements g;
  let g := _derive_roads g in
  _derive_ruins g.

Definition generate_region (g : Gen) : Res Document :=
  g ← run_stages g;
  let '(color_rows, color_legend) := _build_color_map g in
  mret (mkDocument "region.v1" (seed g) (width g) (height g) (years g) (mode g)
          (tiles g) (dict_values (realms g)) (dict_values (settlements g))
          (roads g) (ruins g) (events g) color_rows color_legend).

(** What the constructor reads from outside its arguments: the process-wide
    generator of the [random] module, used when no seed is given, the
    generator [random.Random(seed)] makes from a seed, and the [pow(v, 2.0)]
    of the C library. *)
Record Runtime := mkRuntime {
  global_random : Random;
  Random_of_seed : Z -> Random;
  libm_pow2 : float -> float;
}.

Definition mode_of (m : string) : Mode :=
  if String.eqb m "archipelago" then archipelago else continent.

(** [RegionGenerator.__init__], for a name generator passed in. *)
Definition init (rt : Runtime) (w h yrs : Z) (sd : option Z) (sea_level : float)
    (m : string) (namer : Namer) : Res Gen :=
  sd ← match sd with
       | Some s => Ok s
       | None => '(s, _) ← randint 0 999999 (global_random rt); mret s
       end;
  mret (mkGen w h yrs sea_level (mode_of m) sd (Random_of_seed rt sd) namer
          (libm_pow2 rt) [] [] [] [] [] []).

(** ** The terminal map

    [print_ansi_map(data)] prints one line for each row of the map, a cell
    of two blanks on a background colour for each tile.  The document is the
    one [generate_region] returns; the lines come out one by one, so those
    printed before an exception stay printed. *)

Definition ESC : string := String (Ascii.ascii_of_nat 27) EmptyString.

Definition RESET : string := ESC +:+ "[0m".

(** [COLORS]: background colours of the 256-colour palette. *)
Definition ansi_bg (n : string) : string := ESC +:+ "[48;5;" +:+ n +:+ "m".

Definition COLORS : Dict string :=
  [("deep_ocean", ansi_bg "17"); ("shallow_ocean", ansi_bg "19"); ("river", ansi_bg "25");
   ("mountain", ansi_bg "244"); ("highland", ansi_bg "137"); ("grassland", ansi_bg "70");
   ("temperate_forest", ansi_bg "28"); ("wetlands", ansi_bg "23"); ("desert", ansi_bg "179");
   ("city", ansi_bg "220"); ("town", ansi_bg "229"); ("fort", ansi_bg "208");
   ("ruin", ansi_bg "52"); ("unknown", ansi_bg "196")].

(** The key of [COLORS] chosen for the tile [t] at [pos]; a biome without a
    colour of its own gets ["unknown"]. *)
Definition ansi_key (data : Document) (t : Tile.t) (pos : Z * Z) : string :=
  if existsb (fun r => pos_eqb (Ruin.tile r) pos) (doc_ruins data) then "ruin"
  else
    match last (filter (fun s => pos_eqb (Settlement.tile s) pos = true)
                  (doc_settlements data)) with
    | Some st =>
        match Settlement.type st with
        | city => "city"
        | town => "town"
        | fort => "fort"
        end
    | None =>
        if Tile.water t then
          if PrimFloat.ltb (Tile.elevation t) 0.15 then "deep_ocean" else "shallow_ocean"
        else if Tile.river t then "river"
        else
          match Tile.biome t with
          | mountain => "mountain"
          | highland => "highland"
          | grassland => "grassland"
          | temperate_forest => "temperate_forest"
          | wetlands => "wetlands"
          | desert => "desert"
          | ocean => "unknown"
          end
    end.

(** One cell: [tiles[y * w + x]] first, an [IndexError] past the end of the
    list (the index is not negative inside the loops). *)
Definition ansi_cell (data : Document) (y x : Z) (row : list string) : Res (list string) :=
  match doc_tiles data !! Z.to_nat (y * doc_width data + x) with
  | None => Raise IndexError
  | Some t =>
      match dict_get COLORS (ansi_key data t (x, y)) with
      | None => Raise KeyError
      | Some bg => Ok (row ++ [bg +:+ "  " +:+ RESET])
      end
  end.

(** The lines printed for the rows [ys], and the exception that ended the
    printing, if any. *)
Fixpoint ansi_lines (data : Document) (ys : list Z) : list string * option Exn :=
  match ys with
  | [] => ([], None)
  | y :: ys' =>
      match for_each (seqZ 0 (doc_width data)) (ansi_cell data y) [] with
      | Raise e => ([], Some e)
      | Ok row =>
          let '(out, e) := ansi_lines data ys' in
          (String.concat "" row :: out, e)
      end
  end.

Definition print_ansi_map (data : Document) : list string * option Exn :=
  ansi_lines data (seqZ 0 (doc_height data)).

(** * Properties *)

(** ** Rasterised lines *)

(** Two consecutive coordinates of a path: distinct, and at most one apart in
    each direction. *)
Definition king_step (p q : Z * Z) : Prop :=
  Z.abs (fst q - fst p) <= 1 ∧ Z.abs (snd q - snd p) <= 1 ∧ p ≠ q.

Fixpoint is_path (l : list (Z * Z)) : Prop :=
  match l with
  | p :: l' =>
      match l' with
      | q :: _ => king_step p q ∧ is_path l'
      | [] => True
      end
  | [] => True
  end.

Lemma line_loop_more_fuel fuel x1 y1 dx dy sx sy err x y points p :
  line_loop fuel x1 y1 dx dy sx sy err x y points = Some p ->
  line_loop (S fuel) x1 y1 dx dy sx sy err x y points = Some p.
Proof.
  revert err x y points.
  induction fuel as [|fuel IH]; intros err x y points H; [discriminate|].
  cbn [line_loop] in H. cbn [line_loop].
  destruct ((x =? x1) && (y =? y1)); [exact H|].
  destruct (2 * err >=? dy), (2 * err <=? dx); apply IH in H; exact H.
Qed.

Lemma line_loop_fuel_le fuel fuel' x1 y1 dx dy sx sy err x y points p :
  (fuel <= fuel')%nat ->
  line_loop fuel x1 y1 dx dy sx sy err x y points = Some p ->
  line_loop fuel' x1 y1 dx dy sx sy err x y points = Some p.
Proof.
  induction 1 as [|m Hle IH]; [done|].
  intros H. apply line_loop_more_fuel, IH, H.
Qed.

(** A path grows at its front by a step to its head. *)
Lemma path_cons (p q e : Z * Z) (suffix : list (Z * Z)) :
  head suffix = Some q -> last suffix = Some e -> is_path suffix -> king_step p q ->
  head (p :: suffix) = Some p ∧ last (p :: suffix) = Some e ∧ is_path (p :: suffix).
Proof.
  destruct suffix as [|q' suffix]; [discriminate|].
  intros [= ->] Hlast Hpath Hstep. split; [done|]. split; [exact Hlast|].
  cbn [is_path]. split; assumption.
Qed.

(** The loop invariant: after [a] steps along x and [b] steps along y the
    error term is [(b+1) * DX - (a+1) * DY], neither coordinate has passed
    its target, and what is left of the walk fits the budget. *)
Lemma line_loop_reaches (x0 y0 DX DY sx sy : Z) :
  (sx = 1 ∨ sx = -1) -> (sy = 1 ∨ sy = -1) -> 0 <= DX -> 0 <= DY ->
  forall fuel a b points,
    0 <= a <= DX -> 0 <= b <= DY ->
    (Z.to_nat ((DX - a) + (DY - b)) < fuel)%nat ->
    exists suffix,
      line_loop fuel (x0 + sx * DX) (y0 + sy * DY) DX (- DY) sx sy
        ((b + 1) * DX - (a + 1) * DY) (x0 + sx * a) (y0 + sy * b) points
      = Some (points ++ suffix)
      ∧ head suffix = Some (x0 + sx * a, y0 + sy * b)
      ∧ last suffix = Some (x0 + sx * DX, y0 + sy * DY)
      ∧ is_path suffix.
Proof.
  intros Hsx Hsy HDX HDY.
  induction fuel as [|fuel IH]; intros a b points Ha Hb Hfuel; [lia|].
  cbn [line_loop].
  destruct ((x0 + sx * a =? x0 + sx * DX) && (y0 + sy * b =? y0 + sy * DY)) eqn:Hend.
  - apply andb_true_iff in Hend as [Hx Hy].
    apply Z.eqb_eq in Hx, Hy.
    exists [(x0 + sx * a, y0 + sy * b)].
    repeat split; cbn; try done.
    f_equal. f_equal; lia.
  - assert (Hnot : a < DX ∨ b < DY).
    { apply andb_false_iff in Hend as [H|H]; apply Z.eqb_neq in H.
      - left. destruct (Z.eq_dec a DX); [subst; lia | lia].
      - right. destruct (Z.eq_dec b DY); [subst; lia | lia]. }
    set (err := (b + 1) * DX - (a + 1) * DY).
    destruct (Z.geb_spec (2 * err) (- DY)) as [Hgx|Hgx];
      destruct (Z.leb_spec (2 * err) DX) as [Hgy|Hgy]; subst err.
    + (* a step along both axes *)
      assert (a < DX) by nia. assert (b < DY) by nia.
      destruct (IH (a + 1) (b + 1) (points ++ [(x0 + sx * a, y0 + sy * b)]))
        as (suffix & Hrun & Hhd & Hlast & Hpath); [lia | lia | lia |].
      exists ((x0 + sx * a, y0 + sy * b) :: suffix).
      replace ((b + 1) * DX - (a + 1) * DY + - DY + DX)
        with ((b + 1 + 1) * DX - (a + 1 + 1) * DY) by lia.
      replace (x0 + sx * a + sx) with (x0 + sx * (a + 1)) by lia.
      replace (y0 + sy * b + sy) with (y0 + sy * (b + 1)) by lia.
      rewrite Hrun, <- app_assoc. split; [done|].
      eapply path_cons; eauto.
      unfold king_step; cbn. repeat split; try lia.
      intros Heq; injection Heq; intros; lia.
    + (* a step along x only *)
      assert (a < DX) by nia.
      destruct (IH (a + 1) b (points ++ [(x0 + sx * a, y0 + sy * b)]))
        as (suffix & Hrun & Hhd & Hlast & Hpath); [lia | lia | lia |].
      exists ((x0 + sx * a, y0 + sy * b) :: suffix).
      replace ((b + 1) * DX - (a + 1) * DY + - DY)
        with ((b + 1) * DX - (a + 1 + 1) * DY) by lia.
      replace (x0 + sx * a + sx) with (x0 + sx * (a + 1)) by lia.
      rewrite Hrun, <- app_assoc. split; [done|].
      eapply path_cons; eauto.
      unfold king_step; cbn. repeat split; try lia.
      intros Heq; injection Heq; intros; lia.
    + (* a step along y only *)
      assert (b < DY) by nia.
      destruct (IH a (b + 1) (points ++ [(x0 + sx * a, y0 + sy * b)]))
        as (suffix & Hrun & Hhd & Hlast & Hpath); [lia | lia | lia |].
      exists ((x0 + sx * a, y0 + sy * b) :: suffix).
      replace ((b + 1) * DX - (a + 1) * DY + DX)
        with ((b + 1 + 1) * DX - (a + 1) * DY) by lia.
      replace (y0 + sy * b + sy) with (y0 + sy * (b + 1)) by lia.
      rewrite Hrun, <- app_assoc. split; [done|].
      eapply path_cons; eauto.
      unfold king_step; cbn. repeat split; try lia.
      intros Heq; injection Heq; intros; lia.
    + (* no step at all cannot happen *)
      exfalso. nia.
Qed.

(** With a budget above [|x1 - x0| + |y1 - y0|] the loop leaves, and its
    list starts at the first point, ends at the second and is a path. *)
Lemma line_run_enough_fuel (x0 y0 x1 y1 : Z) (fuel : nat) :
  (Z.to_nat (Z.abs (x1 - x0) + Z.abs (y1 - y0)) < fuel)%nat ->
  exists p,
    line_run fuel x0 y0 x1 y1 = Some p
    ∧ head p = Some (x0, y0) ∧ last p = Some (x1, y1) ∧ is_path p.
Proof.
  intros Hfuel. unfold line_run.
  set (sx := if x0 <? x1 then 1 else -1).
  set (sy := if y0 <? y1 then 1 else -1).
  assert (Hsx : sx = 1 ∨ sx = -1) by (subst sx; destruct (x0 <? x1); auto).
  assert (Hsy : sy = 1 ∨ sy = -1) by (subst sy; destruct (y0 <? y1); auto).
  assert (Hx1 : x1 = x0 + sx * Z.abs (x1 - x0))
    by (subst sx; destruct (Z.ltb_spec x0 x1); lia).
  assert (Hy1 : y1 = y0 + sy * Z.abs (y1 - y0))
    by (subst sy; destruct (Z.ltb_spec y0 y1); lia).
  destruct (line_loop_reaches x0 y0 (Z.abs (x1 - x0)) (Z.abs (y1 - y0)) sx sy
              Hsx Hsy (Z.abs_nonneg _) (Z.abs_nonneg _) fuel 0 0 [])
    as (p & Hrun & Hhd & Hlast & Hpath); [lia | lia | lia |].
  exists p. rewrite <- Hx1, <- Hy1 in Hrun, Hlast.
  replace (x0 + sx * 0) with x0 in Hrun, Hhd by lia.
  replace (y0 + sy * 0) with y0 in Hrun, Hhd by lia.
  replace ((0 + 1) * Z.abs (x1 - x0) - (0 + 1) * Z.abs (y1 - y0))
    with (Z.abs (x1 - x0) + - Z.abs (y1 - y0)) in Hrun by lia.
  cbn in Hrun. done.
Qed.

(** Hence [_line_between] is the list the loop returns, whatever larger
    budget it is given. *)
Lemma line_between_is_run (x0 y0 x1 y1 : Z) (fuel : nat) :
  (Z.to_nat (Z.abs (x1 - x0) + Z.abs (y1 - y0)) < fuel)%nat ->
  line_run fuel x0 y0 x1 y1 = Some (_line_between x0 y0 x1 y1).
Proof.
  intros Hfuel. unfold _line_between.
  destruct (line_run_enough_fuel x0 y0 x1 y1
              (S (Z.to_nat (Z.abs (x1 - x0) + Z.abs (y1 - y0)))))
    as (p & Hrun & _); [lia|].
  rewrite Hrun. cbn. unfold line_run in *.
  eapply line_loop_fuel_le; [|exact Hrun]. lia.
Qed.

Lemma line_between_spec (x0 y0 x1 y1 : Z) :
  head (_line_between x0 y0 x1 y1) = Some (x0, y0)
  ∧ last (_line_between x0 y0 x1 y1) = Some (x1, y1)
  ∧ is_path (_line_between x0 y0 x1 y1).
Proof.
  destruct (line_run_enough_fuel x0 y0 x1 y1
              (S (Z.to_nat (Z.abs (x1 - x0) + Z.abs (y1 - y0)))))
    as (p & Hrun & Hspec); [lia|].
  unfold _line_between. rewrite Hrun. exact Hspec.
Qed.

(** ** Dictionaries *)

Lemma dict_get_Some_elem {V} (d : Dict V) k v :
  dict_get d k = Some v -> (k, v) ∈ d.
Proof.
  induction d as [|[k' v'] d IH]; cbn; [done|].
  destruct (String.eqb_spec k' k) as [->|Hne].
  - intros [= ->]. left.
  - intros H. right. auto.
Qed.

Lemma dict_get_None_keys {V} (d : Dict V) k :
  dict_get d k = None <-> k ∉ dict_keys d.
Proof.
  induction d as [|[k' v'] d IH]; cbn.
  - split; [intros _; apply not_elem_of_nil | done].
  - destruct (String.eqb_spec k' k) as [->|Hne].
    + split; [done|]. intros H. exfalso. apply H. left.
    + rewrite IH. unfold dict_keys. rewrite not_elem_of_cons.
      split; [intros H; split; [congruence | done] | tauto].
Qed.

Lemma dict_get_elem_NoDup {V} (d : Dict V) k v :
  NoDup (dict_keys d) -> (k, v) ∈ d -> dict_get d k = Some v.
Proof.
  induction d as [|[k' v'] d IH]; cbn; intros Hnd Hin.
  - by apply elem_of_nil in Hin.
  - apply NoDup_cons in Hnd as [Hk' Hnd].
    apply elem_of_cons in Hin as [[= -> ->]|Hin].
    + by rewrite String.eqb_refl.
    + destruct (String.eqb_spec k' k) as [->|Hne]; [|by apply IH].
      exfalso. apply Hk'. apply list_elem_of_fmap. exists (k, v). done.
Qed.

Lemma dict_keys_set {V} (d : Dict V) k v :
  dict_keys (dict_set d k v)
  = if dict_mem d k then dict_keys d else dict_keys d ++ [k].
Proof.
  unfold dict_mem, dict_keys. induction d as [|[k' v'] d IH]; cbn; [done|].
  destruct (String.eqb_spec k' k) as [->|Hne]; cbn; [done|].
  rewrite IH. by destruct (dict_get d k).
Qed.

Lemma dict_set_NoDup {V} (d : Dict V) k v :
  NoDup (dict_keys d) -> NoDup (dict_keys (dict_set d k v)).
Proof.
  intros Hnd. rewrite dict_keys_set. unfold dict_mem.
  destruct (dict_get d k) eqn:Hget; [done|].
  apply NoDup_app. repeat split; [done| |apply NoDup_singleton].
  intros x Hx Hx'. apply list_elem_of_singleton in Hx' as ->.
  by apply dict_get_None_keys in Hget.
Qed.

Lemma dict_set_elem {V} (d : Dict V) k v k' v' :
  (k', v') ∈ dict_set d k v -> (k', v') = (k, v) ∨ (k', v') ∈ d.
Proof.
  induction d as [|[k0 v0] d IH]; cbn.
  - intros H. apply list_elem_of_singleton in H. by left.
  - destruct (String.eqb_spec k0 k) as [->|Hne].
    + intros H. apply elem_of_cons in H as [H|H]; [by left|].
      right. by right.
    + intros H. apply elem_of_cons in H as [H|H].
      * right. rewrite H. left.
      * apply IH in H as [H|H]; [by left|]. right. by right.
Qed.

Lemma dict_get_set {V} (d : Dict V) k v k' :
  dict_get (dict_set d k v) k' = if String.eqb k k' then Some v else dict_get d k'.
Proof.
  induction d as [|[k0 v0] d IH]; cbn.
  - done.
  - destruct (String.eqb_spec k0 k) as [->|Hne]; cbn.
    + by destruct (String.eqb_spec k k').
    + rewrite IH. destruct (String.eqb_spec k0 k') as [->|Hne'];
        destruct (String.eqb_spec k k'); congruence.
Qed.

(** A dictionary whose values carry their own key, as [self.realms] and
    [self.settlements] do under ["id"]. *)
Definition keyed {V} (key : V -> string) (d : Dict V) : Prop :=
  NoDup (dict_keys d) ∧ Forall (fun kv => key (snd kv) = fst kv) d.

Lemma keyed_nil {V} (key : V -> string) : keyed key [].
Proof. split; [apply NoDup_nil_2 | apply Forall_nil_2]. Qed.

Lemma keyed_set {V} (key : V -> string) (d : Dict V) k v :
  keyed key d -> key v = k -> keyed key (dict_set d k v).
Proof.
  intros [Hnd Hall] Hk. split; [by apply dict_set_NoDup|].
  apply Forall_forall. intros [k' v'] Hin.
  apply dict_set_elem in Hin as [[= -> ->]|Hin]; [done|].
  rewrite Forall_forall in Hall. by apply (Hall (k', v')).
Qed.

Lemma keyed_update {V} (key : V -> string) (d : Dict V) k f :
  keyed key d -> (forall v, key (f v) = key v) -> keyed key (dict_update d k f).
Proof.
  intros Hd Hf. unfold dict_update.
  destruct (dict_get d k) as [v|] eqn:Hget; [|done].
  apply keyed_set; [done|]. rewrite Hf.
  apply dict_get_Some_elem in Hget. destruct Hd as [_ Hall].
  rewrite Forall_forall in Hall. by apply (Hall (k, v)).
Qed.

Lemma keyed_values_NoDup {V} (key : V -> string) (d : Dict V) :
  keyed key d -> NoDup (map key (dict_values d)).
Proof.
  intros [Hnd Hall]. unfold dict_values, dict_keys in *.
  replace (map key (map snd d)) with (map fst d); [done|].
  induction Hall as [|[k v] d Hkv Hall IH]; cbn in *; [done|].
  apply NoDup_cons in Hnd as [_ Hnd]. rewrite Hkv. f_equal. by apply IH.
Qed.

Lemma keyed_get_value {V} (key : V -> string) (d : Dict V) v :
  keyed key d -> v ∈ dict_values d -> dict_get d (key v) = Some v.
Proof.
  intros [Hnd Hall] Hin. apply list_elem_of_fmap in Hin as ([k v'] & -> & Hin).
  rewrite Forall_forall in Hall. pose proof (Hall _ Hin) as Hk. cbn in Hk |- *.
  rewrite Hk. by apply dict_get_elem_NoDup.
Qed.

(** ** Roads *)

(** How many road records lead from [c] to [sid]. *)
Definition road_count (c sid : string) (rs : list Road.t) : nat :=
  length (filter (fun r => Road.from r = c ∧ Road.to r = sid) rs).

(** The road of the inner loop of [_derive_roads] for the settlement [s],
    when it is not skipped. *)
Definition road_to (rid cap_id : string) (cxy : Z * Z) (s : Settlement.t) : list Road.t :=
  if negb (String.eqb (Settlement.realm_id s) rid) || String.eqb (Settlement.id s) cap_id
  then []
  else [Road.mk cap_id (Settlement.id s)
          (_line_between (fst cxy) (snd cxy) (fst (Settlement.tile s)) (snd (Settlement.tile s)))
          "road"].

Lemma realm_roads_unfold ss realm :
  realm_roads ss realm =
  match Realm.capital_settlement_id realm with
  | None => []
  | Some cap_id =>
      if negb (String.eqb cap_id "") then
        match dict_get ss cap_id with
        | None => []
        | Some cap =>
            flat_map (road_to (Realm.id realm) cap_id (Settlement.tile cap)) (dict_values ss)
        end
      else []
  end.
Proof.
  unfold realm_roads.
  destruct (Realm.capital_settlement_id realm) as [cap_id|]; [|done].
  destruct (negb (String.eqb cap_id "")); [|done].
  destruct (dict_get ss cap_id) as [cap|]; [|done].
  destruct (Settlement.tile cap) as [cx cy].
  apply flat_map_ext. intros s. unfold road_to. cbn.
  by destruct (Settlement.tile s).
Qed.

Lemma road_count_app c sid l1 l2 :
  road_count c sid (l1 ++ l2) = (road_count c sid l1 + road_count c sid l2)%nat.
Proof. unfold road_count. by rewrite filter_app, length_app. Qed.

Lemma road_count_zero c sid l :
  (forall r, r ∈ l -> Road.from r = c -> Road.to r ≠ sid) -> road_count c sid l = 0%nat.
Proof.
  unfold road_count. induction l as [|r l IH]; intros H; [done|].
  rewrite filter_cons. destruct (decide _) as [[Hf Ht]|_].
  - exfalso. eapply H; [left|done|done].
  - apply IH. intros r' Hr'. apply H. by right.
Qed.

Lemma road_to_elem rid cap_id cxy s r :
  r ∈ road_to rid cap_id cxy s ->
  Settlement.realm_id s = rid ∧ Settlement.id s ≠ cap_id
  ∧ r = Road.mk cap_id (Settlement.id s)
          (_line_between (fst cxy) (snd cxy) (fst (Settlement.tile s)) (snd (Settlement.tile s)))
          "road".
Proof.
  unfold road_to.
  destruct (String.eqb_spec (Settlement.realm_id s) rid) as [Hr|Hr]; cbn;
    [|intros H; by apply elem_of_nil in H].
  destruct (String.eqb_spec (Settlement.id s) cap_id) as [Hc|Hc];
    [intros H; by apply elem_of_nil in H|].
  intros H. apply list_elem_of_singleton in H. done.
Qed.

Lemma elem_of_flat_map {A B} (f : A -> list B) (l : list A) (b : B) :
  b ∈ flat_map f l <-> exists a, a ∈ l ∧ b ∈ f a.
Proof.
  split.
  - intros H. apply list_elem_of_In, in_flat_map in H as (a & Ha & Hb).
    exists a. split; by apply list_elem_of_In.
  - intros (a & Ha & Hb). apply list_elem_of_In, in_flat_map.
    exists a. split; by apply list_elem_of_In.
Qed.

Lemma NoDup_key_inj {A} (key : A -> string) (l : list A) a b :
  NoDup (map key l) -> a ∈ l -> b ∈ l -> key a = key b -> a = b.
Proof.
  induction l as [|c l IH]; cbn; intros Hnd Ha Hb Hk.
  - by apply elem_of_nil in Ha.
  - apply NoDup_cons in Hnd as [Hc Hnd].
    apply elem_of_cons in Ha as [->|Ha]; apply elem_of_cons in Hb as [->|Hb]; try done.
    + exfalso. apply Hc. rewrite Hk. apply list_elem_of_fmap. by exists b.
    + exfalso. apply Hc. rewrite <- Hk. apply list_elem_of_fmap. by exists a.
    + by apply IH.
Qed.

(** Within one realm: exactly one road to a settlement of the realm that is
    not the capital. *)
Lemma road_to_count_one rid cap_id cxy (l : list Settlement.t) s :
  NoDup (map Settlement.id l) -> s ∈ l ->
  Settlement.realm_id s = rid -> Settlement.id s ≠ cap_id ->
  road_count cap_id (Settlement.id s) (flat_map (road_to rid cap_id cxy) l) = 1%nat.
Proof.
  intros Hnd Hin Hrid Hcap.
  induction l as [|s' l IH]; [by apply elem_of_nil in Hin|].
  cbn [flat_map]. rewrite road_count_app.
  cbn in Hnd. apply NoDup_cons in Hnd as [Hs' Hnd].
  apply elem_of_cons in Hin as [<-|Hin].
  - replace (road_count cap_id (Settlement.id s) (flat_map (road_to rid cap_id cxy) l))
      with 0%nat.
    + unfold road_to.
      destruct (String.eqb_spec (Settlement.realm_id s) rid); [|done].
      destruct (String.eqb_spec (Settlement.id s) cap_id); [done|].
      cbn [negb orb]. unfold road_count. rewrite filter_cons. cbn [Road.from Road.to].
      destruct (decide _) as [_|Hn]; [done|]. exfalso. by apply Hn.
    + symmetry. apply road_count_zero. intros r Hr _ Hto.
      apply elem_of_flat_map in Hr as (s'' & Hs'' & Hr).
      apply road_to_elem in Hr as (_ & _ & ->). cbn in Hto.
      apply Hs'. rewrite <- Hto. apply list_elem_of_fmap. by exists s''.
  - rewrite (IH Hnd Hin).
    replace (road_count cap_id (Settlement.id s) (road_to rid cap_id cxy s')) with 0%nat; [done|].
    symmetry. apply road_count_zero. intros r Hr _ Hto.
    apply road_to_elem in Hr as (_ & _ & ->). cbn in Hto.
    apply Hs'. rewrite Hto. apply list_elem_of_fmap. by exists s.
Qed.

(** A realm other than the settlement's has no road to it. *)
Lemma realm_roads_count_zero ss realm c s :
  NoDup (map Settlement.id (dict_values ss)) -> s ∈ dict_values ss ->
  Settlement.realm_id s ≠ Realm.id realm ->
  road_count c (Settlement.id s) (realm_roads ss realm) = 0%nat.
Proof.
  intros Hnd Hin Hne. apply road_count_zero. intros r Hr _ Hto.
  rewrite realm_roads_unfold in Hr.
  destruct (Realm.capital_settlement_id realm) as [cap_id|]; [|by apply elem_of_nil in Hr].
  destruct (negb (String.eqb cap_id "")); [|by apply elem_of_nil in Hr].
  destruct (dict_get ss cap_id) as [cap|]; [|by apply elem_of_nil in Hr].
  apply elem_of_flat_map in Hr as (s' & Hs' & Hr).
  apply road_to_elem in Hr as (Hrid & _ & ->). cbn in Hto.
  assert (s' = s) as -> by (eapply (NoDup_key_inj Settlement.id); eauto).
  done.
Qed.

Lemma realm_roads_count_one ss realm cap_id cap s :
  NoDup (map Settlement.id (dict_values ss)) -> s ∈ dict_values ss ->
  Realm.capital_settlement_id realm = Some cap_id -> cap_id ≠ "" ->
  dict_get ss cap_id = Some cap ->
  Settlement.realm_id s = Realm.id realm -> Settlement.id s ≠ cap_id ->
  road_count cap_id (Settlement.id s) (realm_roads ss realm) = 1%nat.
Proof.
  intros Hnd Hin Hcap Hne Hget Hrid Hid.
  rewrite realm_roads_unfold, Hcap.
  destruct (String.eqb_spec cap_id ""); [done|]. cbn. rewrite Hget.
  by apply road_to_count_one.
Qed.

(** Over all realms: exactly one road per capital and other settlement of
    its realm. *)
Lemma roads_count_one ss (rs : list Realm.t) realm cap_id cap s :
  NoDup (map Realm.id rs) -> NoDup (map Settlement.id (dict_values ss)) ->
  realm ∈ rs -> s ∈ dict_values ss ->
  Realm.capital_settlement_id realm = Some cap_id -> cap_id ≠ "" ->
  dict_get ss cap_id = Some cap ->
  Settlement.realm_id s = Realm.id realm -> Settlement.id s ≠ cap_id ->
  road_count cap_id (Settlement.id s) (flat_map (realm_roads ss) rs) = 1%nat.
Proof.
  intros Hndr Hnds Hr Hs Hcap Hne Hget Hrid Hid.
  induction rs as [|r' rs IH]; [by apply elem_of_nil in Hr|].
  cbn [flat_map]. rewrite road_count_app.
  cbn in Hndr. apply NoDup_cons in Hndr as [Hr' Hndr].
  apply elem_of_cons in Hr as [<-|Hr].
  - rewrite (realm_roads_count_one ss realm cap_id cap s) by done.
    replace (road_count cap_id (Settlement.id s) (flat_map (realm_roads ss) rs)) with 0%nat;
      [done|].
    symmetry. apply road_count_zero. intros r Hin Hfrom Hto.
    apply elem_of_flat_map in Hin as (r'' & Hr'' & Hin).
    assert (Hz : road_count (Road.from r) (Settlement.id s) (realm_roads ss r'') = 0%nat).
    { apply realm_roads_count_zero; [done|done|]. rewrite Hrid. intros Heq.
      apply Hr'. rewrite Heq. apply list_elem_of_fmap. by exists r''. }
    unfold road_count in Hz. apply length_zero_iff_nil in Hz.
    assert (Hrin : r ∈ filter (fun r0 => Road.from r0 = Road.from r ∧ Road.to r0 = Settlement.id s)
                     (realm_roads ss r'')) by (apply list_elem_of_filter; done).
    rewrite Hz in Hrin. by apply elem_of_nil in Hrin.
  - rewrite (IH Hndr Hr).
    rewrite realm_roads_count_zero; [done|done|done|].
    rewrite Hrid. intros Heq. apply Hr'. rewrite <- Heq.
    apply list_elem_of_fmap. by exists realm.
Qed.

(** Every road comes from a capital and leads to another settlement of the
    same realm, along a path between their tiles. *)
Lemma roads_elem ss (rs : list Realm.t) r :
  r ∈ flat_map (realm_roads ss) rs ->
  exists realm cap s,
    realm ∈ rs ∧ Realm.capital_settlement_id realm = Some (Road.from r)
    ∧ dict_get ss (Road.from r) = Some cap
    ∧ s ∈ dict_values ss ∧ Road.to r = Settlement.id s
    ∧ Settlement.realm_id s = Realm.id realm ∧ Settlement.id s ≠ Road.from r
    ∧ head (Road.tiles r) = Some (Settlement.tile cap)
    ∧ last (Road.tiles r) = Some (Settlement.tile s)
    ∧ is_path (Road.tiles r).
Proof.
  intros Hin. apply elem_of_flat_map in Hin as (realm & Hrealm & Hin).
  rewrite realm_roads_unfold in Hin.
  destruct (Realm.capital_settlement_id realm) as [cap_id|] eqn:Hcap;
    [|by apply elem_of_nil in Hin].
  destruct (negb (String.eqb cap_id "")); [|by apply elem_of_nil in Hin].
  destruct (dict_get ss cap_id) as [cap|] eqn:Hget; [|by apply elem_of_nil in Hin].
  apply elem_of_flat_map in Hin as (s & Hs & Hin).
  apply road_to_elem in Hin as (Hrid & Hid & ->). cbn.
  exists realm, cap, s.
  destruct (line_between_spec (fst (Settlement.tile cap)) (snd (Settlement.tile cap))
              (fst (Settlement.tile s)) (snd (Settlement.tile s))) as (Hh & Hl & Hp).
  rewrite <- !surjective_pairing in Hh, Hl.
  repeat split; done.
Qed.

(** ** What a stage leaves alone *)

(** The inputs of the run, which no stage changes. *)
Definition config (g : Gen) : Z * Z * Z * float * Mode * Z :=
  (width g, height g, years g, base_sea_level g, mode g, seed g).

(** What of a tile is fixed once the grid is built and the continent is
    enforced. *)
Definition terrain (t : Tile.t) : Z * Z * float * float * Biome * bool :=
  (Tile.x t, Tile.y t, Tile.elevation t, Tile.moisture t, Tile.biome t, Tile.water t).

Lemma alter_map_same {A B} (f : A -> A) (h : A -> B) (i : nat) (l : list A) :
  (forall a, h (f a) = h a) -> map h (alter f i l) = map h l.
Proof.
  intros Hf. revert i. induction l as [|a l IH]; intros [|i]; cbn; try done.
  - by rewrite Hf.
  - f_equal. apply IH.
Qed.

Lemma tile_at_alter (g : Gen) (f : Tile.t -> Tile.t) (i j : nat) :
  tile_at (update_tile i f g) j
  = if decide (i = j) then
      (if decide (j < length (tiles g))%nat then f (tile_at g j) else tile_at g j)
    else tile_at g j.
Proof.
  unfold tile_at, update_tile. cbn. rewrite list_lookup_total_alter.
  destruct (decide (i = j)) as [->|Hne].
  - destruct (decide (j < length (tiles g))%nat);
      destruct (decide (j = j ∧ (j < length (tiles g))%nat)); try done; tauto.
  - destruct (decide (i = j ∧ (i < length (tiles g))%nat)); [tauto | done].
Qed.

Lemma length_update_tile (g : Gen) f i :
  length (tiles (update_tile i f g)) = length (tiles g).
Proof. unfold update_tile. cbn. apply length_alter. Qed.

(** ** The grid that the two loops build *)

(** The coordinates in the order of the loops: rows from the top, each from
    the left. *)
Definition grid_coords (w h : Z) : list (Z * Z) :=
  flat_map (fun y => map (fun x => (x, y)) (seqZ 0 w)) (seqZ 0 h).

(** Tile [i] carries the coordinates of place [i]. *)
Definition grid_ok (g : Gen) : Prop :=
  map (fun t => (Tile.x t, Tile.y t)) (tiles g) = grid_coords (width g) (height g).

(** A map of at most a hundred thousand tiles each way.  On such a map every
    integer that the generator turns into a float (a coordinate, a square of
    a distance, a count of tiles, a sum of coordinates over distinct tiles)
    is below 2^53 in absolute value, where [Z2F] is the conversion of Python
    and is exact; on integers beyond the range of the floats Python raises
    [OverflowError] instead. *)
Definition map_sized (g : Gen) : Prop :=
  -100000 <= width g <= 100000 ∧ -100000 <= height g <= 100000.

(** Below 2^63 [Z2F] is the conversion of IEEE 754, rounded to nearest; it is
    exact below 2^53. *)
Lemma Z2F_nonneg (z : Z) :
  0 <= z < 2 ^ 63 ->
  Prim2SF (Z2F z) = binary_normalize prec emax z 0 false.
Proof.
  intros Hz. unfold Z2F. destruct (Z.ltb_spec z 0) as [|_]; [lia|].
  rewrite FloatAxioms.of_uint63_spec, Uint63.of_Z_spec.
  rewrite Z.mod_small; [done|]. exact Hz.
Qed.

Lemma Z2F_neg (z : Z) :
  - 2 ^ 63 < z < 0 ->
  Prim2SF (Z2F z) = SFopp (binary_normalize prec emax (- z) 0 false).
Proof.
  intros Hz. unfold Z2F. destruct (Z.ltb_spec z 0) as [_|]; [|lia].
  rewrite FloatAxioms.opp_spec, FloatAxioms.of_uint63_spec, Uint63.of_Z_spec.
  rewrite Z.mod_small; [done|]. change wB with (2 ^ 63). lia.
Qed.

Lemma rows_lookup (w : Z) (n : nat) (y0 x y : Z) :
  0 <= x < w -> y0 <= y < y0 + Z.of_nat n ->
  flat_map (fun y => map (fun x => (x, y)) (seqZ 0 w)) (seqZ y0 (Z.of_nat n))
    !! Z.to_nat ((y - y0) * w + x) = Some (x, y).
Proof.
  intros Hx. revert y0. induction n as [|n IH]; intros y0 Hy; [lia|].
  rewrite (seqZ_cons y0 (Z.of_nat (S n))) by lia. cbn [flat_map].
  replace (Z.pred (Z.of_nat (S n))) with (Z.of_nat n) by lia.
  destruct (Z.eq_dec y y0) as [->|Hne].
  - rewrite lookup_app_l by (rewrite length_map, length_seqZ; lia).
    rewrite list_lookup_fmap.
    replace ((y0 - y0) * w + x) with x by lia.
    rewrite (proj2 (lookup_seqZ 0 w (Z.to_nat x) x)) by lia. done.
  - rewrite lookup_app_r by (rewrite length_map, length_seqZ; nia).
    rewrite length_map, length_seqZ.
    replace (Z.to_nat ((y - y0) * w + x) - Z.to_nat w)%nat
      with (Z.to_nat ((y - Z.succ y0) * w + x)) by nia.
    apply IH. lia.
Qed.

Lemma grid_coords_lookup (w h x y : Z) :
  0 <= x < w -> 0 <= y < h ->
  grid_coords w h !! Z.to_nat (y * w + x) = Some (x, y).
Proof.
  intros Hx Hy. unfold grid_coords.
  replace h with (Z.of_nat (Z.to_nat h)) by lia.
  replace (y * w + x) with ((y - 0) * w + x) by lia.
  apply rows_lookup; lia.
Qed.

Lemma flat_map_length_const {A B} (f : A -> list B) (l : list A) (n : nat) :
  (forall a, length (f a) = n) -> length (flat_map f l) = (length l * n)%nat.
Proof.
  intros Hf. induction l as [|a l IH]; cbn; [done|].
  rewrite length_app, Hf, IH. lia.
Qed.

Lemma grid_coords_length (w h : Z) :
  length (grid_coords w h) = (Z.to_nat h * Z.to_nat w)%nat.
Proof.
  unfold grid_coords. rewrite (flat_map_length_const _ _ (Z.to_nat w)).
  - by rewrite length_seqZ.
  - intros y. by rewrite length_map, length_seqZ.
Qed.

Lemma grid_coords_lookup_inv (w h : Z) (i : nat) (x y : Z) :
  grid_coords w h !! i = Some (x, y) ->
  0 <= x < w ∧ 0 <= y < h ∧ i = Z.to_nat (y * w + x).
Proof.
  intros Hi. pose proof (lookup_lt_Some _ _ _ Hi) as Hlt.
  rewrite grid_coords_length in Hlt.
  assert (Hw : 0 < w) by nia. assert (Hh : 0 < h) by nia.
  set (x' := Z.of_nat i mod w). set (y' := Z.of_nat i / w).
  assert (Hx' : 0 <= x' < w) by (apply Z.mod_pos_bound; lia).
  assert (Hdm : Z.of_nat i = w * y' + x') by (apply Z.div_mod; lia).
  assert (Hy' : 0 <= y' < h).
  { split; [apply Z.div_pos; lia|]. apply Z.div_lt_upper_bound; nia. }
  pose proof (grid_coords_lookup w h x' y' Hx' Hy') as Hl.
  replace (Z.to_nat (y' * w + x')) with i in Hl by lia.
  rewrite Hi in Hl. injection Hl as -> ->. repeat split; lia.
Qed.

Lemma grid_ok_length (g : Gen) :
  grid_ok g -> length (tiles g) = (Z.to_nat (height g) * Z.to_nat (width g))%nat.
Proof.
  intros H. rewrite <- grid_coords_length, <- H. by rewrite length_map.
Qed.

Lemma grid_ok_tile_at (g : Gen) (x y : Z) :
  grid_ok g -> 0 <= x < width g -> 0 <= y < height g ->
  (Z.to_nat (_idx g x y) < length (tiles g))%nat
  ∧ Tile.x (tile_at g (Z.to_nat (_idx g x y))) = x
  ∧ Tile.y (tile_at g (Z.to_nat (_idx g x y))) = y.
Proof.
  intros Hok Hx Hy. unfold _idx.
  pose proof (grid_coords_lookup _ _ x y Hx Hy) as Hl.
  rewrite <- Hok, list_lookup_fmap in Hl.
  destruct (tiles g !! Z.to_nat (y * width g + x)) as [t|] eqn:Ht; [|done].
  cbn in Hl. injection Hl as Htx Hty.
  split; [by eapply lookup_lt_Some|].
  unfold tile_at. rewrite (list_lookup_total_correct _ _ _ Ht). done.
Qed.

Lemma grid_ok_coords (g : Gen) (i : nat) :
  grid_ok g -> (i < length (tiles g))%nat ->
  0 <= Tile.x (tile_at g i) < width g ∧ 0 <= Tile.y (tile_at g i) < height g
  ∧ i = Z.to_nat (_idx g (Tile.x (tile_at g i)) (Tile.y (tile_at g i))).
Proof.
  intros Hok Hi. unfold _idx, tile_at.
  destruct (lookup_lt_is_Some_2 _ _ Hi) as [t Ht].
  rewrite (list_lookup_total_correct _ _ _ Ht).
  apply (grid_coords_lookup_inv (width g) (height g)).
  rewrite <- Hok, list_lookup_fmap, Ht. done.
Qed.

Lemma bind_Ok {A B} (m : Res A) (k : A -> Res B) (b : B) :
  (m ≫= k) = Ok b -> exists a, m = Ok a ∧ k a = Ok b.
Proof. destruct m as [a|e]; cbn; [|done]. intros H. by exists a. Qed.

Lemma for_each_cons {A S} (a : A) (l : list A) (body : A -> S -> Res S) (s : S) :
  for_each (a :: l) body s = (body a s ≫= for_each l body).
Proof. done. Qed.

(** An invariant of the body is an invariant of the loop. *)
Lemma for_each_inv {A S} (P : S -> Prop) (l : list A) (body : A -> S -> Res S) (s s' : S) :
  (forall a s s', a ∈ l -> P s -> body a s = Ok s' -> P s') ->
  P s -> for_each l body s = Ok s' -> P s'.
Proof.
  revert s. induction l as [|a l IH]; intros s Hbody Hs Hrun.
  - cbn in Hrun. by injection Hrun as <-.
  - rewrite for_each_cons in Hrun. apply bind_Ok in Hrun as (s1 & H1 & Hrun).
    eapply IH; [|eapply Hbody; [left|exact Hs|exact H1]|exact Hrun].
    intros a' t t' Ha'. apply Hbody. by right.
Qed.

Lemma fold_left_inv {A S} (P : S -> Prop) (l : list A) (f : S -> A -> S) (s : S) :
  (forall a s, a ∈ l -> P s -> P (f s a)) -> P s -> P (fold_left f l s).
Proof.
  revert s. induction l as [|a l IH]; intros s Hf Hs; [done|].
  cbn. apply IH; [|apply Hf; [left|done]].
  intros a' t Ha'. apply Hf. by right.
Qed.

(** A tile as the grid loops append it at [c]. *)
Definition fresh_tile (sea_level : float) (c : Z * Z) (t : Tile.t) : Prop :=
  exists e m, t = new_tile sea_level (fst c) (snd c) e m.

(** The state after more tiles were appended and more draws were made. *)
Definition grown_by (ts : list Tile.t) (rg : Random) (g : Gen) : Gen :=
  set_tiles (tiles g ++ ts) (set_rng rg g).

Lemma grown_by_grown_by ts rg ts' rg' g :
  grown_by ts' rg' (grown_by ts rg g) = grown_by (ts ++ ts') rg' g.
Proof. unfold grown_by, set_tiles, set_rng. cbn. by rewrite app_assoc. Qed.

Lemma grown_by_nil g : g = grown_by [] (rng g) g.
Proof. destruct g. unfold grown_by, set_tiles, set_rng. cbn. by rewrite app_nil_r. Qed.

Definition appends_one (body : Z -> Z -> Gen -> Res Gen) : Prop :=
  forall y x g g', body y x g = Ok g' ->
    exists t rg, fresh_tile (base_sea_level g) (x, y) t ∧ g' = grown_by [t] rg g.

Lemma continent_tile_appends cx cy max_r : appends_one (continent_tile cx cy max_r).
Proof.
  intros y x g g' H. unfold continent_tile in H.
  destruct (random (rng g)) as [u1 rg1].
  destruct (random rg1) as [u2 rg2].
  apply bind_Ok in H as ([m rg3] & Hm & H). injection H as <-.
  eexists _, rg3. split; [eexists _, _; reflexivity | reflexivity].
Qed.

Lemma archipelago_tile_appends centers : appends_one (archipelago_tile centers).
Proof.
  intros y x g g' H. unfold archipelago_tile in H.
  destruct (random (rng g)) as [u rg1].
  apply bind_Ok in H as ([m rg3] & Hm & H). injection H as <-.
  eexists _, rg3. split; [eexists _, _; reflexivity | reflexivity].
Qed.

Lemma row_loop_built body (y : Z) (xs : list Z) (g g' : Gen) :
  appends_one body -> for_each xs (body y) g = Ok g' ->
  exists ts rg,
    g' = grown_by ts rg g
    ∧ Forall2 (fresh_tile (base_sea_level g)) (map (fun x => (x, y)) xs) ts.
Proof.
  intros Hbody. revert g. induction xs as [|x xs IH]; intros g Hrun.
  - cbn in Hrun. injection Hrun as <-. exists [], (rng g).
    split; [apply grown_by_nil | constructor].
  - rewrite for_each_cons in Hrun. apply bind_Ok in Hrun as (g1 & H1 & Hrun).
    apply Hbody in H1 as (t & rg1 & Ht & ->).
    apply IH in Hrun as (ts & rg & -> & Hts).
    exists (t :: ts), rg. split; [by rewrite grown_by_grown_by|].
    cbn. by constructor.
Qed.

Lemma rows_loop_built body (ys : list Z) (g g' : Gen) :
  appends_one body ->
  for_each ys (fun y g => for_each (seqZ 0 (width g)) (body y) g) g = Ok g' ->
  exists ts rg,
    g' = grown_by ts rg g
    ∧ Forall2 (fresh_tile (base_sea_level g))
        (flat_map (fun y => map (fun x => (x, y)) (seqZ 0 (width g))) ys) ts.
Proof.
  intros Hbody. revert g. induction ys as [|y ys IH]; intros g Hrun.
  - cbn in Hrun. injection Hrun as <-. exists [], (rng g).
    split; [apply grown_by_nil | constructor].
  - rewrite for_each_cons in Hrun. apply bind_Ok in Hrun as (g1 & H1 & Hrun).
    apply (row_loop_built body) in H1 as (ts1 & rg1 & -> & Hts1); [|done].
    apply IH in Hrun as (ts & rg & -> & Hts).
    exists (ts1 ++ ts), rg. split; [by rewrite grown_by_grown_by|].
    cbn [flat_map]. by apply Forall2_app.
Qed.

Lemma grid_loop_built body (g g' : Gen) :
  appends_one body -> grid_loop body g = Ok g' ->
  exists ts rg,
    g' = grown_by ts rg g
    ∧ Forall2 (fresh_tile (base_sea_level g)) (grid_coords (width g) (height g)) ts.
Proof. intros Hbody Hrun. by apply (rows_loop_built body). Qed.

Lemma fresh_tiles_coords sea cs ts :
  Forall2 (fresh_tile sea) cs ts -> map (fun t => (Tile.x t, Tile.y t)) ts = cs.
Proof.
  induction 1 as [|c t cs ts (e & m & ->) _ IH]; cbn; [done|].
  rewrite IH. by destruct c.
Qed.

(** ** Tile-wise relations between two states of the grid *)

Definition tiles_rel (R : Tile.t -> Tile.t -> Prop) (g g' : Gen) : Prop :=
  Forall2 R (tiles g) (tiles g').

Lemma tiles_rel_refl R g :
  (forall t, R t t) -> tiles_rel R g g.
Proof. intros HR. unfold tiles_rel. induction (tiles g); by constructor. Qed.

Lemma tiles_rel_same R g g1 g2 :
  tiles g2 = tiles g1 -> tiles_rel R g g1 -> tiles_rel R g g2.
Proof. unfold tiles_rel. by intros ->. Qed.

Lemma tiles_rel_trans R g1 g2 g3 :
  (forall a b c, R a b -> R b c -> R a c) ->
  tiles_rel R g1 g2 -> tiles_rel R g2 g3 -> tiles_rel R g1 g3.
Proof.
  intros HR. unfold tiles_rel. generalize (tiles g1) (tiles g2) (tiles g3).
  intros l1 l2 l3 H12. revert l3.
  induction H12 as [|a b l1 l2 Hab _ IH]; intros l3 H23.
  - inversion H23; subst. constructor.
  - inversion H23 as [|b' c l2' l3' Hbc H23']; subst.
    constructor; [by eapply HR | by apply IH].
Qed.

Lemma Forall2_alter_r {A} (R : A -> A -> Prop) (f : A -> A) (i : nat) (l l' : list A) :
  (forall a b, R a b -> R a (f b)) -> Forall2 R l l' -> Forall2 R l (alter f i l').
Proof.
  intros Hf H. revert i. induction H as [|a b l l' Hab Hl IH]; intros [|i]; cbn.
  - constructor.
  - constructor.
  - constructor; [by apply Hf | done].
  - constructor; [done | apply IH].
Qed.

Lemma tiles_rel_update R g g' i f :
  (forall a b, R a b -> R a (f b)) ->
  tiles_rel R g g' -> tiles_rel R g (update_tile i f g').
Proof. intros Hf H. unfold tiles_rel, update_tile. cbn. by apply Forall2_alter_r. Qed.

Lemma tiles_rel_length R g g' : tiles_rel R g g' -> length (tiles g') = length (tiles g).
Proof. intros H. symmetry. by eapply Forall2_length. Qed.

Lemma tiles_rel_at R g g' (i : nat) :
  tiles_rel R g g' -> (i < length (tiles g))%nat -> R (tile_at g i) (tile_at g' i).
Proof.
  intros H Hi. unfold tile_at.
  destruct (lookup_lt_is_Some_2 _ _ Hi) as [t Ht].
  destruct (Forall2_lookup_l _ _ _ _ _ H Ht) as (t' & Ht' & HR).
  by rewrite (list_lookup_total_correct _ _ _ Ht), (list_lookup_total_correct _ _ _ Ht').
Qed.

(** A tile after [_enforce_continent_connectivity]: as it was, or drowned. *)
Definition kept_or_drowned (t t' : Tile.t) : Prop := t' = t ∨ t' = Tile.drown t.

(** A tile after [_carve_rivers]: the river flag may have been set, nothing
    else has changed. *)
Definition river_added (t t' : Tile.t) : Prop :=
  terrain t' = terrain t ∧ Tile.realm_id t' = Tile.realm_id t
  ∧ Tile.settlement_id t' = Tile.settlement_id t
  ∧ (Tile.river t = true -> Tile.river t' = true).

(** A tile after a later stage: terrain and river flag as before. *)
Definition land_kept (t t' : Tile.t) : Prop :=
  terrain t' = terrain t ∧ Tile.river t' = Tile.river t.

Lemma kept_or_drowned_trans a b c :
  kept_or_drowned a b -> kept_or_drowned b c -> kept_or_drowned a c.
Proof. unfold kept_or_drowned. intros [->| ->] [->| ->]; auto. Qed.

Lemma river_added_trans a b c : river_added a b -> river_added b c -> river_added a c.
Proof. unfold river_added. intros (?&?&?&?) (?&?&?&?). repeat split; try congruence. auto. Qed.

Lemma land_kept_trans a b c : land_kept a b -> land_kept b c -> land_kept a c.
Proof. unfold land_kept. intros [? ?] [? ?]. split; congruence. Qed.

Lemma drown_all_rel (comps : list (list nat)) (g : Gen) :
  tiles_rel kept_or_drowned g (drown_all comps g)
  ∧ config (drown_all comps g) = config g.
Proof.
  unfold drown_all.
  apply (fold_left_inv (fun g' => tiles_rel kept_or_drowned g g' ∧ config g' = config g)).
  - intros comp g1 _ H1.
    apply (fold_left_inv (fun g' => tiles_rel kept_or_drowned g g' ∧ config g' = config g));
      [|done].
    intros idx g2 _ [H2 Hc]. split; [|done].
    apply tiles_rel_update; [|done].
    intros a b Hab. eapply kept_or_drowned_trans; [exact Hab|by right].
  - split; [|done]. apply tiles_rel_refl. by left.
Qed.

Lemma enforce_rel (g : Gen) :
  tiles_rel kept_or_drowned g (_enforce_continent_connectivity g)
  ∧ config (_enforce_continent_connectivity g) = config g
  ∧ rng (_enforce_continent_connectivity g) = rng g.
Proof.
  assert (Hrefl : tiles_rel kept_or_drowned g g) by (apply tiles_rel_refl; by left).
  unfold _enforce_continent_connectivity.
  destruct (land_indices g); [done|].
  destruct (components_of g) as [components|]; [|done].
  destruct (length components <=? 1)%nat; [done|].
  destruct (sort_by_len_desc components) as [|main others]; [done|].
  destruct (drown_all_rel others g) as [H1 H2]. repeat split; try done.
  unfold drown_all.
  apply (fold_left_inv (fun g' => rng g' = rng g)); [|done].
  intros comp g1 _ H. apply (fold_left_inv (fun g' => rng g' = rng g)); done.
Qed.

(** ** Neighbours on a well-formed grid *)

Definition in_grid (g : Gen) (x y : Z) : Prop :=
  0 <= x < width g ∧ 0 <= y < height g.

Lemma neighbors_elem (g : Gen) (x y : Z) (n : nat) :
  n ∈ _neighbors g x y <->
  exists nx ny,
    in_grid g nx ny ∧ Z.abs (nx - x) + Z.abs (ny - y) = 1
    ∧ n = Z.to_nat (_idx g nx ny).
Proof.
  unfold _neighbors. rewrite elem_of_flat_map. split.
  - intros ([dx dy] & Hd & Hn). cbn [fst snd] in Hn.
    destruct ((0 <=? x + dx) && (x + dx <? width g)
              && (0 <=? y + dy) && (y + dy <? height g)) eqn:Hb;
      [|by apply elem_of_nil in Hn].
    apply list_elem_of_singleton in Hn.
    exists (x + dx), (y + dy). unfold in_grid.
    repeat (apply andb_true_iff in Hb as [Hb ?]).
    split; [lia|]. split; [|done].
    repeat (apply elem_of_cons in Hd as [[= -> ->]|Hd]); try lia.
    by apply elem_of_nil in Hd.
  - intros (nx & ny & [Hx Hy] & Habs & ->).
    exists (nx - x, ny - y). cbn [fst snd].
    replace (x + (nx - x)) with nx by lia. replace (y + (ny - y)) with ny by lia.
    assert (Hb : (0 <=? nx) && (nx <? width g) && (0 <=? ny) && (ny <? height g) = true).
    { repeat (apply andb_true_iff; split); lia. }
    rewrite Hb. split; [|apply list_elem_of_singleton; done].
    assert (Hc : (nx - x = 1 ∧ ny - y = 0) ∨ (nx - x = -1 ∧ ny - y = 0)
                 ∨ (nx - x = 0 ∧ ny - y = 1) ∨ (nx - x = 0 ∧ ny - y = -1)) by lia.
    destruct Hc as [[-> ->]|[[-> ->]|[[-> ->]|[-> ->]]]];
      repeat constructor.
Qed.

Lemma neighbors_same_size (g g' : Gen) (x y : Z) :
  config g' = config g -> _neighbors g' x y = _neighbors g x y.
Proof.
  unfold config. intros [= Hw Hh _ _ _ _]. unfold _neighbors, _idx. by rewrite Hw, Hh.
Qed.

Lemma idx_same_size (g g' : Gen) (x y : Z) :
  config g' = config g -> _idx g' x y = _idx g x y.
Proof. unfold config. intros [= Hw _ _ _ _ _]. unfold _idx. by rewrite Hw. Qed.

(** On a well-formed grid a neighbour is a tile of the grid, one step away,
    and it carries the coordinates it was looked up at. *)
Lemma neighbors_grid (g : Gen) (x y : Z) (n : nat) :
  grid_ok g -> n ∈ _neighbors g x y ->
  (n < length (tiles g))%nat
  ∧ in_grid g (Tile.x (tile_at g n)) (Tile.y (tile_at g n))
  ∧ Z.abs (Tile.x (tile_at g n) - x) + Z.abs (Tile.y (tile_at g n) - y) = 1
  ∧ n = Z.to_nat (_idx g (Tile.x (tile_at g n)) (Tile.y (tile_at g n))).
Proof.
  intros Hok Hn. apply neighbors_elem in Hn as (nx & ny & [Hx Hy] & Habs & ->).
  destruct (grid_ok_tile_at g nx ny Hok Hx Hy) as (Hlt & Htx & Hty).
  rewrite Htx, Hty. unfold in_grid. done.
Qed.

Lemma grid_ok_rel (R : Tile.t -> Tile.t -> Prop) (g g' : Gen) :
  (forall a b, R a b -> Tile.x b = Tile.x a ∧ Tile.y b = Tile.y a) ->
  tiles_rel R g g' -> config g' = config g -> grid_ok g -> grid_ok g'.
Proof.
  intros HR Hrel Hc Hok. unfold grid_ok in *.
  revert Hc. unfold config. intros [= Hw Hh _ _ _ _]. rewrite Hw, Hh, <- Hok.
  clear Hok. unfold tiles_rel in Hrel.
  induction Hrel as [|a b l l' Hab _ IH]; cbn; [done|].
  destruct (HR _ _ Hab) as [-> ->]. by rewrite IH.
Qed.

Lemma river_added_coords a b : river_added a b -> Tile.x b = Tile.x a ∧ Tile.y b = Tile.y a.
Proof. unfold river_added, terrain. intros ([= ? ? _ _ _ _] & _). done. Qed.

Lemma land_kept_coords a b : land_kept a b -> Tile.x b = Tile.x a ∧ Tile.y b = Tile.y a.
Proof. unfold land_kept, terrain. intros ([= ? ? _ _ _ _] & _). done. Qed.

Lemma kept_or_drowned_coords a b :
  kept_or_drowned a b -> Tile.x b = Tile.x a ∧ Tile.y b = Tile.y a.
Proof. intros [->| ->]; done. Qed.

(** ** Rivers *)

Lemma min_by_river_key_elem g l best k rg next rg' :
  min_by_river_key g l best k rg = (next, rg') -> next = best ∨ next ∈ l.
Proof.
  revert best k rg. induction l as [|n l IH]; intros best k rg H; cbn in H.
  - injection H as -> _. by left.
  - destruct (river_key g n rg) as [k' rg1].
    destruct (PrimFloat.ltb k' k); apply IH in H as [->|H]; auto.
    + right. left.
    + right. by right.
    + right. by right.
Qed.

(** What one turn of the walk does: it marks the tile at [(x, y)], draws, and
    either takes one of the three [break]s or moves to a land neighbour that
    is not higher. *)
Lemma river_step_spec (x y : Z) (g g' : Gen) (r : WalkEnd + Z * Z) :
  river_step x y g = (g', r) ->
  let idx := Z.to_nat (_idx g x y) in
  (exists rg, g' = set_rng rg (update_tile idx (Tile.set_river true) g))
  ∧ match r with
    | inl NoNeighbors => _neighbors g x y = []
    | inl ReachedWater =>
        exists n, n ∈ _neighbors g x y ∧ Tile.water (tile_at g' n) = true
    | inl LocalMinimum =>
        exists n, n ∈ _neighbors g x y ∧ Tile.water (tile_at g' n) = false
          ∧ PrimFloat.ltb (Tile.elevation (tile_at g' idx))
              (Tile.elevation (tile_at g' n)) = true
    | inr (x', y') =>
        exists n, n ∈ _neighbors g x y ∧ Tile.water (tile_at g' n) = false
          ∧ x' = Tile.x (tile_at g' n) ∧ y' = Tile.y (tile_at g' n)
          ∧ (PrimFloat.ltb (Tile.elevation (tile_at g' idx))
               (Tile.elevation (tile_at g' n))
             && negb (Tile.water (tile_at g' idx))) = false
    end.
Proof.
  unfold river_step. intros H. cbv zeta. set (idx := Z.to_nat (_idx g x y)) in *.
  set (g1 := update_tile idx (Tile.set_river true) g) in *.
  assert (Hn : _neighbors g1 x y = _neighbors g x y) by (by apply neighbors_same_size).
  rewrite Hn in H.
  destruct (_neighbors g x y) as [|n0 ns] eqn:Hnb.
  { injection H as <- <-. split; [|done]. exists (rng g). by destruct g. }
  destruct (river_key g1 n0 (rng g1)) as [k0 rg0].
  destruct (min_by_river_key g1 ns n0 k0 rg0) as [next rg] eqn:Hmin.
  assert (Hnext : next ∈ n0 :: ns).
  { apply min_by_river_key_elem in Hmin as [->|Hin]; [left | by right]. }
  change (Z.to_nat (_idx g1 x y)) with idx in H.
  destruct (Tile.water (tile_at (set_rng rg g1) next)) eqn:Hw.
  { injection H as <- <-. split; [by exists rg|]. by exists next. }
  destruct (PrimFloat.ltb (Tile.elevation (tile_at g1 idx))
              (Tile.elevation (tile_at (set_rng rg g1) next))
            && negb (Tile.water (tile_at g1 idx))) eqn:Hup.
  - injection H as <- <-. split; [by exists rg|]. exists next.
    apply andb_true_iff in Hup as [Hup _]. done.
  - injection H as <- <-. split; [by exists rg|]. exists next. done.
Qed.

Lemma river_step_rel (x y : Z) (g g' : Gen) r :
  river_step x y g = (g', r) ->
  tiles_rel river_added g g' ∧ config g' = config g.
Proof.
  intros H. apply river_step_spec in H as ((rg & ->) & _). split; [|done].
  eapply tiles_rel_same; [reflexivity|].
  apply tiles_rel_update; [|apply tiles_rel_refl; by repeat split].
  intros a b (Ht & Hr & Hs & Hriv). by repeat split.
Qed.

Lemma river_walk_rel (steps : nat) (x y : Z) (g g' : Gen) e :
  river_walk steps x y g = (g', e) ->
  tiles_rel river_added g g' ∧ config g' = config g.
Proof.
  revert x y g. induction steps as [|steps IH]; intros x y g H; cbn in H.
  - injection H as <- _. split; [|done]. apply tiles_rel_refl. by repeat split.
  - destruct (river_step x y g) as [g1 [r|[x' y']]] eqn:Hstep.
    + injection H as <- _. by eapply river_step_rel.
    + apply river_step_rel in Hstep as [H1 Hc1]. apply IH in H as [H2 Hc2].
      split; [|congruence].
      eapply tiles_rel_trans; [apply river_added_trans|exact H1|exact H2].
Qed.

Lemma tile_at_out_of_range (g : Gen) (i : nat) :
  (length (tiles g) <= i)%nat -> tile_at g i = Tile.dummy.
Proof.
  intros H. unfold tile_at. rewrite list_lookup_total_alt.
  by rewrite (lookup_ge_None_2 _ _ H).
Qed.

Lemma tiles_rel_at_all R g g' (i : nat) :
  (forall t, R t t) -> tiles_rel R g g' -> R (tile_at g i) (tile_at g' i).
Proof.
  intros HR H. destruct (decide (i < length (tiles g))%nat) as [Hlt|Hge].
  - by apply tiles_rel_at.
  - rewrite !tile_at_out_of_range; [done| |lia].
    rewrite (tiles_rel_length _ _ _ H). lia.
Qed.

Lemma river_added_refl t : river_added t t.
Proof. by repeat split. Qed.

Lemma land_kept_refl t : land_kept t t.
Proof. by split. Qed.

Lemma terrain_water a b : terrain b = terrain a -> Tile.water b = Tile.water a.
Proof. unfold terrain. by intros [= _ _ _ _ _ ?]. Qed.

Lemma terrain_elevation a b : terrain b = terrain a -> Tile.elevation b = Tile.elevation a.
Proof. unfold terrain. by intros [= _ _ ? _ _ _]. Qed.

Lemma terrain_biome a b : terrain b = terrain a -> Tile.biome b = Tile.biome a.
Proof. unfold terrain. by intros [= _ _ _ _ ? _]. Qed.

Lemma terrain_coords a b :
  terrain b = terrain a -> Tile.x b = Tile.x a ∧ Tile.y b = Tile.y a.
Proof. unfold terrain. by intros [= ? ? _ _ _ _]. Qed.

(** The walk from a land tile of a well-formed grid: the tiles it marks, in
    the order of the walk, are at most [steps] land tiles; nothing else
    changes; and how it ended. *)
Lemma river_walk_marks (steps : nat) (x y : Z) (g g' : Gen) (e : option WalkEnd) :
  grid_ok g -> in_grid g x y ->
  Tile.water (tile_at g (Z.to_nat (_idx g x y))) = false ->
  river_walk steps x y g = (g', e) ->
  exists marked : list nat,
    (length marked <= steps)%nat
    ∧ (e = None -> length marked = steps)
    ∧ (forall i, i ∈ marked ->
         (i < length (tiles g))%nat ∧ Tile.water (tile_at g i) = false)
    ∧ (forall i, Tile.river (tile_at g' i)
                 = if bool_decide (i ∈ marked) then true else Tile.river (tile_at g i))
    ∧ match e with
      | None => True
      | Some r =>
          exists cur, last marked = Some cur ∧
            let nbrs := _neighbors g (Tile.x (tile_at g cur)) (Tile.y (tile_at g cur)) in
            match r with
            | NoNeighbors => nbrs = []
            | ReachedWater =>
                exists n, n ∈ nbrs ∧ Tile.water (tile_at g n) = true ∧ n ∉ marked
            | LocalMinimum =>
                exists n, n ∈ nbrs ∧ Tile.water (tile_at g n) = false
                  ∧ PrimFloat.ltb (Tile.elevation (tile_at g cur))
                      (Tile.elevation (tile_at g n)) = true
            end
      end.
Proof.
  revert x y g.
  induction steps as [|steps IH]; intros x y g Hok Hin Hland H; cbn in H.
  { injection H as <- <-. exists []. split; [done|]. split; [done|].
    split; [intros i Hi; by apply elem_of_nil in Hi|]. by split. }
  destruct Hin as [Hx Hy].
  destruct (grid_ok_tile_at g x y Hok Hx Hy) as (Hlt & Htx & Hty).
  set (idx := Z.to_nat (_idx g x y)) in *.
  destruct (river_step x y g) as [g1 r] eqn:Hstep.
  pose proof (river_step_rel _ _ _ _ _ Hstep) as [Hrel1 Hc1].
  pose proof (river_step_spec _ _ _ _ _ Hstep) as ((rg & Hg1) & Hr). fold idx in Hg1, Hr.
  assert (Hterr1 : forall i, terrain (tile_at g1 i) = terrain (tile_at g i)).
  { intros i. by apply (tiles_rel_at_all river_added g g1 i river_added_refl). }
  assert (Hriv1 : forall i, Tile.river (tile_at g1 i)
                            = if bool_decide (i = idx) then true else Tile.river (tile_at g i)).
  { intros i. rewrite Hg1. change (tile_at (set_rng rg ?h) i) with (tile_at h i).
    rewrite tile_at_alter. destruct (decide (idx = i)) as [<-|Hne].
    - rewrite bool_decide_eq_true_2 by done. by destruct (decide _).
    - rewrite bool_decide_eq_false_2 by done. done. }
  destruct r as [r|[x' y']].
  - (* the walk ends in this turn *)
    injection H as <- <-. exists [idx]. split; [cbn; lia|]. split; [done|].
    split; [intros i Hi; apply list_elem_of_singleton in Hi as ->; done|].
    split.
    { intros i. rewrite Hriv1.
      destruct (decide (i = idx)) as [->|Hne].
      - rewrite !bool_decide_eq_true_2; [done|left|done].
      - rewrite !bool_decide_eq_false_2; [done| |done].
        intros Hi. by apply list_elem_of_singleton in Hi. }
    exists idx. split; [done|]. cbv zeta. rewrite Htx, Hty.
    destruct r.
    + done.
    + destruct Hr as (n & Hn & Hw). exists n. split; [done|].
      rewrite (terrain_water _ _ (Hterr1 n)) in Hw. split; [done|].
      intros Hi. apply list_elem_of_singleton in Hi as ->. congruence.
    + destruct Hr as (n & Hn & Hw & Hup). exists n. split; [done|].
      rewrite (terrain_water _ _ (Hterr1 n)) in Hw.
      rewrite (terrain_elevation _ _ (Hterr1 n)),
        (terrain_elevation _ _ (Hterr1 idx)) in Hup. done.
  - (* the walk moves on to a land neighbour *)
    destruct Hr as (n & Hn & Hw & -> & -> & Hup).
    assert (Hok1 : grid_ok g1) by (eapply grid_ok_rel; eauto using river_added_coords).
    assert (Hn1 : n ∈ _neighbors g1 x y) by (by rewrite (neighbors_same_size g g1)).
    destruct (neighbors_grid g1 x y n Hok1 Hn1) as (Hnlt & Hnin & _ & Hnidx).
    destruct (IH _ _ g1 Hok1 Hnin) as (marked & Hlen & Hnone & Hmarked & Hriv & Hend);
      [by rewrite <- Hnidx | exact H |].
    assert (Hlen1 : length (tiles g1) = length (tiles g)) by (by eapply tiles_rel_length).
    exists (idx :: marked). split; [cbn; lia|]. split; [intros He; cbn; by rewrite Hnone|].
    split.
    { intros i Hi. apply elem_of_cons in Hi as [->|Hi]; [done|].
      destruct (Hmarked i Hi) as [Hilt Hiw]. split; [lia|].
      by rewrite <- (terrain_water _ _ (Hterr1 i)). }
    split.
    { intros i. rewrite Hriv, Hriv1.
      destruct (decide (i ∈ marked)) as [Hi|Hi].
      - rewrite !bool_decide_eq_true_2; [done|by right|done].
      - rewrite (bool_decide_eq_false_2 (i ∈ marked)) by done.
        destruct (decide (i = idx)) as [->|Hne].
        + rewrite !bool_decide_eq_true_2; [done|left|done].
        + rewrite !bool_decide_eq_false_2; [done| |done].
          intros Hi'. apply elem_of_cons in Hi' as [?|?]; done. }
    destruct e as [r|]; [|done].
    destruct Hend as (cur & Hlast & Hend). exists cur.
    split.
    { destruct marked as [|m marked]; [done|]. by rewrite last_cons, Hlast. }
    cbv zeta in Hend |- *.
    destruct (terrain_coords _ _ (Hterr1 cur)) as [Hcx Hcy].
    rewrite Hcx, Hcy, (neighbors_same_size g g1) in Hend by done.
    destruct r.
    + done.
    + destruct Hend as (m & Hm & Hmw & Hmn). exists m. split; [done|].
      rewrite (terrain_water _ _ (Hterr1 m)) in Hmw. split; [done|].
      intros Hi. apply elem_of_cons in Hi as [->|Hi]; [congruence | done].
    + destruct Hend as (m & Hm & Hmw & Hmup). exists m. split; [done|].
      rewrite (terrain_water _ _ (Hterr1 m)) in Hmw.
      rewrite (terrain_elevation _ _ (Hterr1 m)),
        (terrain_elevation _ _ (Hterr1 cur)) in Hmup. done.
Qed.

(** ** The elementary updates of the later stages

    After the grid is built every stage changes the generator through a
    handful of assignments.  [history_step] lists those of realm spawning
    and of the simulated history, [settle_step] those of the derivation of
    settlements, roads and ruins, each with what the code has checked when
    it makes the assignment; [runs step] is a sequence of them.  An
    invariant of the assignments is then an invariant of every stage. *)

Inductive history_step : Gen -> Gen -> Prop :=
| hs_draw g r :
    history_step g (set_rng r g)
| hs_realm_add g rid realm :
    Realm.id realm = rid ->
    history_step g (set_realms (dict_set (realms g) rid realm) g)
| hs_realm_edit g rid f :
    (forall v, Realm.id (f v) = Realm.id v) ->
    history_step g (set_realms (dict_update (realms g) rid f) g)
| hs_realms_map g f :
    (forall v, Realm.id (f v) = Realm.id v) ->
    history_step g (set_realms (map (fun kv => (fst kv, f (snd kv))) (realms g)) g)
| hs_claim g i rid :
    (Tile.water (tile_at g i) = false ∧ Tile.biome (tile_at g i) ≠ mountain)
    ∨ Tile.realm_id (tile_at g i) ≠ None ->
    history_step g (update_tile i (Tile.set_realm_id (Some rid)) g)
| hs_release g i :
    history_step g (update_tile i (Tile.set_realm_id None) g)
| hs_event g e :
    (Event.type e = EMPIRE_PEAK ->
     exists rid, Event.realm_ids e = [rid] ∧ has_empire_peak rid (events g) = false) ->
    history_step g (set_events (events g ++ [e]) g).

Inductive settle_step : Gen -> Gen -> Prop :=
| ss_draw g r :
    settle_step g (set_rng r g)
| ss_capital g rid cap_id :
    settle_step g
      (set_realms (dict_update (realms g) rid (Realm.set_capital (Some cap_id))) g)
| ss_settlement_add g sid s i :
    Settlement.id s = sid ->
    Settlement.tile s = (Tile.x (tile_at g i), Tile.y (tile_at g i)) ->
    Tile.water (tile_at g i) = false ∨ truthy (Tile.realm_id (tile_at g i)) = true ->
    settle_step g (set_settlements (dict_set (settlements g) sid s) g)
| ss_mark g i sid :
    settle_step g (update_tile i (Tile.set_settlement_id (Some sid)) g)
| ss_roads g rs :
    settle_step g (set_roads rs g)
| ss_ruins g rs :
    settle_step g (set_ruins rs g).

Inductive runs (step : Gen -> Gen -> Prop) : Gen -> Gen -> Prop :=
| runs_refl g : runs step g g
| runs_step g g1 g2 : runs step g g1 -> step g1 g2 -> runs step g g2.

Lemma runs_trans step g1 g2 g3 : runs step g1 g2 -> runs step g2 g3 -> runs step g1 g3.
Proof.
  intros H12 H23. induction H23 as [|a b c H IH Hs]; [done|].
  eapply runs_step; [by apply IH|done].
Qed.

Lemma runs_one (step : Gen -> Gen -> Prop) g g' : step g g' -> runs step g g'.
Proof. intros H. eapply runs_step; [apply runs_refl|done]. Qed.

(** An invariant of the elementary updates holds along a run. *)
Lemma runs_inv step (P : Gen -> Prop) g g' :
  (forall a b, step a b -> P a -> P b) -> runs step g g' -> P g -> P g'.
Proof. intros Hstep H. induction H; eauto. Qed.

(** A relation to the first state that the elementary updates extend. *)
Lemma runs_rel step (Q : Gen -> Gen -> Prop) g g' :
  (forall a, Q a a) ->
  (forall a b c, Q a b -> step b c -> Q a c) ->
  runs step g g' -> Q g g'.
Proof. intros Hrefl Hstep H. induction H; eauto. Qed.

Lemma fold_left_runs step {A} (f : Gen -> A -> Gen) (l : list A) (g : Gen) :
  (forall a g, a ∈ l -> runs step g (f g a)) -> runs step g (fold_left f l g).
Proof.
  intros Hf. apply (fold_left_inv (fun g' => runs step g g')); [|apply runs_refl].
  intros a g1 Ha H1. eapply runs_trans; [exact H1|by apply Hf].
Qed.

Lemma for_each_runs step {A} (body : A -> Gen -> Res Gen) (l : list A) (g g' : Gen) :
  (forall a g g', a ∈ l -> body a g = Ok g' -> runs step g g') ->
  for_each l body g = Ok g' -> runs step g g'.
Proof.
  intros Hbody. apply (for_each_inv (fun g' => runs step g g')); [|apply runs_refl].
  intros a g1 g2 Ha H1 H2. eapply runs_trans; [exact H1|by eapply Hbody].
Qed.

Abbreviation evolves := (runs history_step).
Abbreviation settles := (runs settle_step).

(** *** The stages as runs of elementary updates *)

Lemma make_realm_name_evolves index g name g' :
  _make_realm_name index g = Ok (name, g') -> exists r, g' = set_rng r g.
Proof.
  unfold _make_realm_name. intros H.
  apply bind_Ok in H as ([p rg1] & _ & H). apply bind_Ok in H as ([s rg2] & _ & H).
  injection H as _ <-. by eexists.
Qed.

Lemma random_color_evolves g c g' :
  _random_color g = Ok (c, g') -> exists r, g' = set_rng r g.
Proof.
  unfold _random_color. intros H.
  apply bind_Ok in H as ([r1 rg1] & _ & H). apply bind_Ok in H as ([r2 rg2] & _ & H).
  apply bind_Ok in H as ([r3 rg3] & _ & H). injection H as _ <-. by eexists.
Qed.

Lemma pop_estimate_evolves stype g n g' :
  _pop_estimate stype g = Ok (n, g') -> exists r, g' = set_rng r g.
Proof.
  unfold _pop_estimate. intros H.
  apply bind_Ok in H as ([p rg1] & _ & H). injection H as _ <-. by eexists.
Qed.

Lemma make_settlement_name_evolves kind g name g' :
  _make_settlement_name kind g = (name, g') -> exists r, g' = set_rng r g.
Proof.
  unfold _make_settlement_name. destruct (settlement_namer g kind (rng g)) as [s r].
  intros [= _ <-]. by eexists.
Qed.

Lemma set_rng_set_rng r r' g : set_rng r' (set_rng r g) = set_rng r' g.
Proof. done. Qed.

(** Peels the last elementary update off the goal [runs step g g']. *)
Ltac ev_peel :=
  lazymatch goal with
  | |- runs history_step _ (set_rng ?r ?G) =>
      apply (runs_step _ _ G); [|exact (hs_draw G r)]
  | |- runs history_step _ (set_realms (dict_set _ ?k ?v) ?G) =>
      apply (runs_step _ _ G); [|refine (hs_realm_add G k v _)]
  | |- runs history_step _ (set_realms (dict_update _ ?k ?f) ?G) =>
      apply (runs_step _ _ G); [|refine (hs_realm_edit G k f _)]
  | |- runs history_step _ (update_tile ?i (Tile.set_realm_id (Some ?rid)) ?G) =>
      apply (runs_step _ _ G); [|refine (hs_claim G i rid _)]
  | |- runs history_step _ (update_tile ?i (Tile.set_realm_id None) ?G) =>
      apply (runs_step _ _ G); [|exact (hs_release G i)]
  | |- runs history_step _ (set_events (_ ++ [?e]) ?G) =>
      apply (runs_step _ _ G); [|refine (hs_event G e _)]
  | |- runs settle_step _ (set_rng ?r ?G) =>
      apply (runs_step _ _ G); [|exact (ss_draw G r)]
  | |- runs settle_step _ (set_realms (dict_update _ ?k (Realm.set_capital (Some ?c))) ?G) =>
      apply (runs_step _ _ G); [|exact (ss_capital G k c)]
  | |- runs settle_step _ (update_tile ?i (Tile.set_settlement_id (Some ?sid)) ?G) =>
      apply (runs_step _ _ G); [|exact (ss_mark G i sid)]
  | |- runs settle_step _ (set_roads ?rs ?G) =>
      apply (runs_step _ _ G); [|exact (ss_roads G rs)]
  | |- runs settle_step _ (set_ruins ?rs ?G) =>
      apply (runs_step _ _ G); [|exact (ss_ruins G rs)]
  | |- runs _ ?g ?g => apply runs_refl
  end.

(** The same for the record of a settlement on tile [i]. *)
Ltac ev_settle i :=
  lazymatch goal with
  | |- runs settle_step _ (set_settlements (dict_set _ ?sid ?s) ?G) =>
      apply (runs_step _ _ G); [|refine (ss_settlement_add G sid s i _ _ _)]
  end.

Lemma found_realm_evolves rid index ti g g' :
  Tile.water (tile_at g ti) = false -> Tile.biome (tile_at g ti) ≠ mountain ->
  found_realm rid index ti g = Ok g' -> evolves g g'.
Proof.
  unfold found_realm. intros Hw Hb H.
  apply bind_Ok in H as ([name g1] & H1 & H). apply make_realm_name_evolves in H1 as (r1 & ->).
  apply bind_Ok in H as ([color g2] & H2 & H). apply random_color_evolves in H2 as (r2 & ->).
  injection H as <-.
  ev_peel; [|left; split; [exact Hw|exact Hb]].
  ev_peel; [|done].
  repeat ev_peel.
Qed.

(** *** Shuffling permutes *)

Lemma swap_perm {A} (l : list A) (i j : nat) : swap l i j ≡ₚ l.
Proof.
  unfold swap. destruct (l !! i) as [a|] eqn:Hi; [|done].
  destruct (l !! j) as [b|] eqn:Hj; [|done].
  by apply Permutation_insert_swap.
Qed.

Lemma shuffle_from_perm {A} (i : nat) (l : list A) (r : Random) :
  fst (shuffle_from i l r) ≡ₚ l.
Proof.
  revert l r. induction i as [|i IH]; intros l r; cbn [shuffle_from]; [done|].
  destruct (randbelow (Z.of_nat (S (S i))) r) as [j r'].
  rewrite IH. apply swap_perm.
Qed.

Lemma shuffle_perm {A} (l : list A) (r : Random) : fst (shuffle l r) ≡ₚ l.
Proof. apply shuffle_from_perm. Qed.

Lemma shuffle_elem {A} (l l' : list A) (r r' : Random) (a : A) :
  shuffle l r = (l', r') -> a ∈ l' <-> a ∈ l.
Proof.
  intros H. pose proof (shuffle_perm l r) as Hp. rewrite H in Hp. cbn in Hp.
  by rewrite Hp.
Qed.

Lemma shuffle_length {A} (l l' : list A) (r r' : Random) :
  shuffle l r = (l', r') -> length l' = length l.
Proof.
  intros H. pose proof (shuffle_perm l r) as Hp. rewrite H in Hp. cbn in Hp.
  by rewrite Hp.
Qed.

(** *** What the elementary updates keep *)

Lemma history_step_frame a b :
  history_step a b -> tiles_rel land_kept a b ∧ config b = config a.
Proof.
  intros H. destruct H; (split; [|reflexivity]);
    try (apply tiles_rel_update; [by intros ? ? [? ?]|]);
    (eapply tiles_rel_same; [|apply tiles_rel_refl, land_kept_refl]); reflexivity.
Qed.

Lemma settle_step_frame a b :
  settle_step a b -> tiles_rel land_kept a b ∧ config b = config a.
Proof.
  intros H. destruct H; (split; [|reflexivity]);
    try (apply tiles_rel_update; [by intros ? ? [? ?]|]);
    (eapply tiles_rel_same; [|apply tiles_rel_refl, land_kept_refl]); reflexivity.
Qed.

(** Terrain, river flags and the inputs stay as they are along a run. *)
Lemma runs_frame step g g' :
  (forall a b, step a b -> tiles_rel land_kept a b ∧ config b = config a) ->
  runs step g g' -> tiles_rel land_kept g g' ∧ config g' = config g.
Proof.
  intros Hframe.
  apply (runs_rel step (fun a b => tiles_rel land_kept a b ∧ config b = config a)).
  - intros a. split; [apply tiles_rel_refl, land_kept_refl | done].
  - intros a b c [Hab Hc] Hstep. apply Hframe in Hstep as [Hbc Hc'].
    split; [|congruence].
    eapply tiles_rel_trans; [apply land_kept_trans|exact Hab|exact Hbc].
Qed.

Lemma evolves_frame g g' :
  evolves g g' -> tiles_rel land_kept g g' ∧ config g' = config g.
Proof. apply runs_frame, history_step_frame. Qed.

Lemma settles_frame g g' :
  settles g g' -> tiles_rel land_kept g g' ∧ config g' = config g.
Proof. apply runs_frame, settle_step_frame. Qed.

Lemma evolves_terrain g g' (i : nat) :
  evolves g g' -> terrain (tile_at g' i) = terrain (tile_at g i).
Proof.
  intros H. apply evolves_frame in H as [H _].
  by apply (tiles_rel_at_all land_kept g g' i land_kept_refl).
Qed.

Lemma evolves_length g g' : evolves g g' -> length (tiles g') = length (tiles g).
Proof. intros H. apply evolves_frame in H as [H _]. by eapply tiles_rel_length. Qed.

Lemma evolves_config g g' : evolves g g' -> config g' = config g.
Proof. intros H. by apply evolves_frame in H as [_ H]. Qed.

Lemma evolves_grid_ok g g' : evolves g g' -> grid_ok g -> grid_ok g'.
Proof.
  intros H. apply evolves_frame in H as [H Hc].
  eapply grid_ok_rel; eauto using land_kept_coords.
Qed.

(** *** Spawning realms *)

Lemma spawn_loop_evolves range fertile target used g g' :
  (forall ti, ti ∈ fertile ->
     Tile.water (tile_at g ti) = false ∧ Tile.biome (tile_at g ti) ≠ mountain) ->
  spawn_loop range fertile target used g = Ok g' -> evolves g g'.
Proof.
  revert used g. induction range as [|i range IH]; intros used g Hfert H;
    cbn [spawn_loop] in H.
  { injection H as <-. apply runs_refl. }
  destruct (Z.of_nat (length (realms g)) >=? target); [injection H as <-; apply runs_refl|].
  destruct (fertile !! i) as [ti|] eqn:Hti; [|injection H as <-; apply runs_refl].
  assert (Hin : ti ∈ fertile) by (by eapply list_elem_of_lookup_2).
  destruct (existsb _ used).
  { by eapply IH. }
  apply bind_Ok in H as (g1 & H1 & H).
  destruct (Hfert ti Hin) as [Hw Hb].
  apply found_realm_evolves in H1; [|done|done].
  eapply runs_trans; [exact H1|]. eapply IH; [|exact H].
  intros tj Hj. destruct (Hfert tj Hj) as [Hwj Hbj].
  pose proof (evolves_terrain _ _ tj H1) as Ht.
  rewrite (terrain_water _ _ Ht), (terrain_biome _ _ Ht). done.
Qed.

Lemma fertile_indices_elem g ti :
  ti ∈ fertile_indices g ->
  (ti < length (tiles g))%nat ∧ Tile.water (tile_at g ti) = false
  ∧ is_fertile_biome (Tile.biome (tile_at g ti)) = true.
Proof.
  unfold fertile_indices. intros H. apply list_elem_of_filter in H as [[Hw Hb] H].
  apply elem_of_seq in H. split; [lia|done].
Qed.

Lemma fertile_not_mountain b : is_fertile_biome b = true -> b ≠ mountain.
Proof. by destruct b. Qed.

Lemma spawn_evolves g g' : _spawn_initial_realms g = Ok g' -> evolves g g'.
Proof.
  unfold _spawn_initial_realms. intros H.
  destruct (shuffle (fertile_indices g) (rng g)) as [fertile rg] eqn:Hsh.
  assert (Hfert : forall ti, ti ∈ fertile ->
            Tile.water (tile_at (set_rng rg g) ti) = false
            ∧ Tile.biome (tile_at (set_rng rg g) ti) ≠ mountain).
  { intros ti Hti. apply (shuffle_elem _ _ _ _ ti Hsh) in Hti.
    apply fertile_indices_elem in Hti as (_ & Hw & Hb).
    split; [exact Hw | by apply fertile_not_mountain]. }
  apply bind_Ok in H as (g1 & H1 & H).
  apply spawn_loop_evolves in H1; [|exact Hfert].
  assert (H0 : evolves g g1).
  { eapply runs_trans; [|exact H1]. apply runs_one, hs_draw. }
  destruct (realms g1) as [|kv rs]; [|injection H as <-; exact H0].
  destruct fertile as [|ti fertile]; [injection H as <-; exact H0|].
  eapply runs_trans; [exact H0|].
  destruct (Hfert ti) as [Hw Hb]; [left|].
  pose proof (evolves_terrain _ _ ti H1) as Ht.
  eapply found_realm_evolves; [| |exact H].
  - by rewrite (terrain_water _ _ Ht).
  - by rewrite (terrain_biome _ _ Ht).
Qed.

(** *** The simulated history *)

Lemma annex_neighbor_evolves rid size tbr g grown n :
  evolves g (fst (annex_neighbor rid size tbr (g, grown) n)).
Proof.
  unfold annex_neighbor.
  destruct (Tile.water (tile_at g n)) eqn:Hw; cbn [orb]; [apply runs_refl|].
  unfold biome_eqb. destruct (bool_decide_reflect (Tile.biome (tile_at g n) = mountain)) as [Hb|Hb];
    [apply runs_refl|].
  destruct (Tile.realm_id (tile_at g n)) as [other_id|] eqn:Hr.
  - destruct (negb (String.eqb other_id rid)); [|apply runs_refl].
    destruct (random (rng g)) as [u rg].
    destruct (PrimFloat.ltb u _); cbn [fst].
    + ev_peel; [ev_peel; ev_peel|]. right.
      change (tile_at (set_rng rg g) n) with (tile_at g n). by rewrite Hr.
    + ev_peel; ev_peel.
  - cbn [fst]. ev_peel; [ev_peel|]. left. done.
Qed.

Lemma annex_fold_evolves rid size tbr l g grown :
  evolves g (fst (fold_left (annex_neighbor rid size tbr) l (g, grown))).
Proof.
  revert g grown. induction l as [|n l IH]; intros g grown; cbn [fold_left]; [apply runs_refl|].
  pose proof (annex_neighbor_evolves rid size tbr g grown n) as H.
  destruct (annex_neighbor rid size tbr (g, grown) n) as [g1 grown1].
  eapply runs_trans; [exact H|apply IH].
Qed.

Lemma expand_loop_evolves rid size desired tbr realm_tiles g grown attempts :
  evolves g (fst (fst (expand_loop rid size desired tbr realm_tiles g grown attempts))).
Proof.
  revert g grown attempts.
  induction realm_tiles as [|t rest IH]; intros g grown attempts; cbn [expand_loop];
    [apply runs_refl|].
  destruct (grown >=? desired); [apply runs_refl|].
  pose proof (annex_fold_evolves rid size tbr
                (_neighbors g (Tile.x (tile_at g t)) (Tile.y (tile_at g t))) g grown) as H.
  destruct (fold_left _ _ (g, grown)) as [g1 grown1].
  destruct (attempts + 1 >? desired * 6); [exact H|].
  eapply runs_trans; [exact H|apply IH].
Qed.

Lemma empire_peak_check_evolves rid realm size year g :
  evolves g (empire_peak_check rid realm size year g).
Proof.
  unfold empire_peak_check.
  destruct (PrimFloat.ltb _ _ && negb (has_empire_peak rid (events g))) eqn:Hc;
    [|apply runs_refl].
  apply andb_true_iff in Hc as [_ Hc]. apply negb_true_iff in Hc.
  ev_peel; [ev_peel; [ev_peel|done]|].
  intros _. exists rid. done.
Qed.

Lemma realm_pass_evolves year tbr g entry :
  evolves g (realm_pass year tbr g entry).
Proof.
  unfold realm_pass. destruct entry as [rid realm_tiles].
  destruct (dict_get (realms g) rid) as [realm|]; [|apply runs_refl].
  destruct (shuffle realm_tiles (rng g)) as [shuffled rg].
  pose proof (expand_loop_evolves rid (Z.of_nat (length realm_tiles))
                (Z.max 1 (Z.of_nat (length realm_tiles) / 12)) tbr shuffled
                (set_rng rg g) 0 0) as H.
  destruct (expand_loop _ _ _ _ _ _ _ _) as [[g1 grown] attempts]. cbn [fst] in H.
  eapply runs_trans; [|apply empire_peak_check_evolves].
  eapply runs_trans; [|exact H]. ev_peel; ev_peel.
Qed.

Lemma expansion_tick_evolves year g : evolves g (_realm_expansion_tick year g).
Proof.
  unfold _realm_expansion_tick. apply fold_left_runs.
  intros entry g1 _. apply realm_pass_evolves.
Qed.

Lemma release_all_evolves l g : evolves g (set_owner_all None l g).
Proof.
  unfold set_owner_all. apply fold_left_runs. intros i g1 _. ev_peel; ev_peel.
Qed.

Lemma transfer_all_evolves rid l g :
  (forall i, i ∈ l -> Tile.realm_id (tile_at g i) ≠ None) ->
  evolves g (set_owner_all (Some rid) l g).
Proof.
  unfold set_owner_all. revert g. induction l as [|i l IH]; intros g Hl; cbn [fold_left];
    [apply runs_refl|].
  eapply runs_trans; [|apply IH].
  - ev_peel; [ev_peel|]. right. apply Hl. left.
  - intros j Hj. rewrite tile_at_alter.
    destruct (decide (i = j)) as [->|Hne]; [|apply Hl; by right].
    destruct (decide _); [done|]. apply Hl. by right.
Qed.

Lemma owned_by_elem g rid i :
  i ∈ owned_by g rid <->
  (i < length (tiles g))%nat ∧ Tile.realm_id (tile_at g i) = Some rid.
Proof.
  unfold owned_by. rewrite list_elem_of_filter, elem_of_seq. split.
  - intros [H1 H2]. split; [lia|done].
  - intros [H1 H2]. split; [done|lia].
Qed.

Lemma nth_elem_or_default {A} (l : list A) (n : nat) (d : A) :
  nth n l d ∈ l ∨ nth n l d = d.
Proof.
  destruct (decide (n < length l)%nat) as [Hlt|Hge].
  - left. apply list_elem_of_In. by apply nth_In.
  - right. apply nth_overflow. lia.
Qed.

Lemma choice_Ok {A} (l : list A) r a r' :
  choice l r = Ok (a, r') -> a ∈ l.
Proof.
  unfold choice. destruct l as [|a0 l]; [done|].
  destruct (randbelow _ r) as [j rg]. intros H. injection H as <- _.
  change (nth (Z.to_nat j) (a0 :: l) a0 ∈ a0 :: l).
  destruct (nth_elem_or_default (a0 :: l) (Z.to_nat j) a0) as [H|H]; [exact H|].
  rewrite H. left.
Qed.

Lemma crisis_shrink_evolves ct rid realm tiles year g g' :
  ct ≠ EMPIRE_PEAK -> crisis_shrink ct rid realm tiles year g = Ok g' -> evolves g g'.
Proof.
  unfold crisis_shrink. intros Hct H.
  destruct (filter _ tiles) as [|b bs]; [injection H as <-; apply runs_refl|].
  destruct (shuffle (b :: bs) (rng g)) as [border_tiles rg].
  apply bind_Ok in H as ([d rg1] & _ & H). cbv zeta in H. injection H as <-.
  ev_peel; [|intros Ht; cbn in Ht; done].
  eapply runs_trans; [|apply release_all_evolves]. repeat ev_peel.
Qed.

Lemma crisis_split_evolves ct rid realm tiles year g g' :
  ct ≠ EMPIRE_PEAK -> (forall i, i ∈ tiles -> Tile.realm_id (tile_at g i) ≠ None) ->
  crisis_split ct rid realm tiles year g = Ok g' -> evolves g g'.
Proof.
  unfold crisis_split. intros Hct Hown H.
  destruct ((8 <? Z.of_nat (length (realms g))) || (Z.of_nat (length tiles) <? 12));
    [injection H as <-; apply runs_refl|].
  apply bind_Ok in H as ([name g1] & H1 & H). apply make_realm_name_evolves in H1 as (r1 & ->).
  apply bind_Ok in H as ([color g2] & H2 & H). apply random_color_evolves in H2 as (r2 & ->).
  destruct (shuffle tiles _) as [shuffled rg] eqn:Hsh.
  injection H as <-.
  ev_peel; [|intros Ht; cbn in Ht; done].
  eapply runs_trans; [|apply transfer_all_evolves].
  - ev_peel. ev_peel; [|done]. repeat ev_peel.
  - intros i Hi. apply subseteq_take in Hi.
    apply (shuffle_elem _ _ _ _ i Hsh) in Hi. exact (Hown i Hi).
Qed.

Lemma random_crisis_evolves year g g' :
  _random_crisis year g = Ok g' -> evolves g g'.
Proof.
  unfold _random_crisis. intros H.
  destruct (filter _ (dict_keys (realms g))) as [|rid0 rids]; [injection H as <-; apply runs_refl|].
  apply bind_Ok in H as ([rid rg] & _ & H).
  destruct (dict_get (realms (set_rng rg g)) rid) as [realm|]; [|done].
  destruct (owned_by (set_rng rg g) rid) as [|t0 ts] eqn:Hown;
    [injection H as <-; ev_peel; ev_peel|].
  apply bind_Ok in H as ([crisis_type rg2] & Hct & H). apply choice_Ok in Hct.
  assert (Hne : crisis_type ≠ EMPIRE_PEAK).
  { intros ->. unfold crisis_types in Hct.
    repeat (apply elem_of_cons in Hct as [Hct|Hct]; [done|]). by apply elem_of_nil in Hct. }
  assert (Hbase : evolves g (set_rng rg2 (set_rng rg g))) by (repeat ev_peel).
  eapply runs_trans; [exact Hbase|].
  assert (Hall : forall i, i ∈ t0 :: ts ->
            Tile.realm_id (tile_at (set_rng rg2 (set_rng rg g)) i) ≠ None).
  { intros i Hi. rewrite <- Hown in Hi. apply owned_by_elem in Hi as [_ Hi].
    change (tile_at (set_rng rg2 (set_rng rg g)) i) with (tile_at (set_rng rg g) i).
    by rewrite Hi. }
  destruct crisis_type; first [done | by eapply crisis_shrink_evolves
                              | by eapply crisis_split_evolves].
Qed.

Lemma history_loop_evolves fuel step current_year g g' :
  history_loop fuel step current_year g = Some (Ok g') -> evolves g g'.
Proof.
  revert current_year g. induction fuel as [|fuel IH]; intros cy g H; [done|].
  cbn [history_loop] in H.
  destruct (cy <? years g); [|injection H as <-; apply runs_refl].
  destruct (random (rng (_realm_expansion_tick (cy + step) g))) as [u rg].
  set (g1 := set_rng rg (_realm_expansion_tick (cy + step) g)) in *.
  assert (H1 : evolves g g1).
  { subst g1. ev_peel. apply expansion_tick_evolves. }
  destruct (PrimFloat.ltb u 0.35).
  - destruct (_random_crisis (cy + step) g1) as [g2|e] eqn:Hc; [|done].
    apply random_crisis_evolves in Hc. apply IH in H.
    eapply runs_trans; [exact H1|]. eapply runs_trans; [exact Hc|exact H].
  - apply IH in H. eapply runs_trans; [exact H1|exact H].
Qed.

Lemma simulate_history_evolves g g' : _simulate_history g = Ok g' -> evolves g g'.
Proof.
  unfold _simulate_history. intros H.
  destruct (realms g) as [|kv rs] eqn:Hr; [injection H as <-; apply runs_refl|].
  rewrite <- Hr in H.
  set (g0 := set_realms (map (fun kv => (fst kv, Realm.set_strength (Some 1%float) (snd kv)))
                           (realms g)) g) in *.
  assert (H0 : evolves g g0) by (apply runs_one, hs_realms_map; done).
  apply bind_Ok in H as (g1 & H1 & H). injection H as <-.
  assert (H01 : evolves g0 g1).
  { destruct (history_loop _ _ _ g0) as [res|] eqn:Hloop; cbn in H1.
    - subst res. by eapply history_loop_evolves.
    - injection H1 as <-. apply runs_refl. }
  eapply runs_trans; [exact H0|]. eapply runs_trans; [exact H01|].
  apply runs_one, hs_realms_map. done.
Qed.

(** *** Settlements, roads, ruins *)

Lemma min_by_dist_elem g ax ay l best k :
  min_by_dist g ax ay l best k = best ∨ min_by_dist g ax ay l best k ∈ l.
Proof.
  revert best k. induction l as [|i l IH]; intros best k; cbn [min_by_dist]; [by left|].
  destruct (PrimFloat.ltb _ k).
  - destruct (IH i (dist_key g ax ay i)) as [->|H].
    + right. left.
    + right. by right.
  - destruct (IH best k) as [->|H]; [by left|]. right. by right.
Qed.

(** The capital's tile is one of the candidates. *)
Lemma most_central_elem g l : l ≠ [] -> _most_central_tile g l ∈ l.
Proof.
  destruct l as [|i0 rest]; [done|]. intros _. unfold _most_central_tile.
  match goal with |- min_by_dist ?g ?ax ?ay ?l ?b ?k ∈ _ =>
    destruct (min_by_dist_elem g ax ay l b k) as [->|H] end.
  - left.
  - by right.
Qed.

Lemma place_extra_settles rid t g sid placed g' sid' placed' :
  place_extra rid t g sid placed = Ok (g', sid', placed') -> settles g g'.
Proof.
  unfold place_extra. intros H.
  destruct (truthy (Tile.settlement_id (tile_at g t)) || Tile.water (tile_at g t)) eqn:Hskip;
    [injection H as <- _ _; apply runs_refl|].
  apply orb_false_iff in Hskip as [_ Hw].
  destruct (_ =? 0); [injection H as <- _ _; apply runs_refl|].
  destruct (random (rng g)) as [u rg].
  destruct (_make_settlement_name _ (set_rng rg g)) as [name g1] eqn:Hn.
  apply make_settlement_name_evolves in Hn as (r1 & ->).
  apply bind_Ok in H as ([founded rg2] & _ & H).
  apply bind_Ok in H as ([population g2] & Hp & H).
  apply pop_estimate_evolves in Hp as (r2 & ->).
  injection H as <- _ _.
  ev_peel. ev_settle t; [repeat ev_peel|done|done|by left].
Qed.

Lemma extras_loop_settles rid extra realm_tiles g sid placed g' sid' :
  extras_loop rid extra realm_tiles g sid placed = Ok (g', sid') -> settles g g'.
Proof.
  revert g sid placed. induction realm_tiles as [|t rest IH]; intros g sid placed H;
    cbn [extras_loop] in H.
  { injection H as <- _. apply runs_refl. }
  destruct (placed >=? extra); [injection H as <- _; apply runs_refl|].
  apply bind_Ok in H as ([[g1 sid1] placed1] & H1 & H).
  apply place_extra_settles in H1. apply IH in H.
  eapply runs_trans; [exact H1|exact H].
Qed.

(** [realm_tiles] are tiles of the realm [rid]. *)
Definition tiles_of_realm (g : Gen) (rid : string) (realm_tiles : list nat) : Prop :=
  forall i, i ∈ realm_tiles -> truthy (Tile.realm_id (tile_at g i)) = true.

Lemma settle_realm_settles rid realm_tiles g sid g' sid' :
  tiles_of_realm g rid realm_tiles ->
  settle_realm (rid, realm_tiles) (g, sid) = Ok (g', sid') -> settles g g'.
Proof.
  unfold settle_realm. intros Hown H.
  destruct realm_tiles as [|t0 ts] eqn:Hrt; [injection H as <- _; apply runs_refl|].
  rewrite <- Hrt in *.
  set (fertile := filter _ realm_tiles) in *.
  set (candidates := match fertile with [] => realm_tiles | _ => fertile end) in *.
  assert (Hcand : _most_central_tile g candidates ∈ candidates).
  { apply most_central_elem. subst candidates. destruct fertile; [by rewrite Hrt|done]. }
  set (cap_tile := _most_central_tile g candidates) in *.
  assert (Hcap : Tile.water (tile_at g cap_tile) = false
                 ∨ truthy (Tile.realm_id (tile_at g cap_tile)) = true).
  { subst candidates. destruct fertile as [|f fs] eqn:Hf.
    - right. by apply Hown.
    - left. rewrite <- Hf in Hcand. subst fertile.
      apply list_elem_of_filter in Hcand as [[Hw _] _]. exact Hw. }
  destruct (_make_settlement_name "capital" g) as [cap_name g1] eqn:Hn.
  apply make_settlement_name_evolves in Hn as (r1 & ->).
  apply bind_Ok in H as ([population g2] & Hp & H).
  apply pop_estimate_evolves in Hp as (r2 & ->).
  destruct (dict_get (realms (set_rng r2 (set_rng r1 g))) rid) as [realm|]; [|done].
  destruct (shuffle realm_tiles _) as [shuffled rg].
  apply extras_loop_settles in H.
  eapply runs_trans; [|exact H].
  ev_peel. ev_peel. ev_peel.
  ev_settle cap_tile; [repeat ev_peel|done|done|exact Hcap].
Qed.

(** *** [tiles_by_realm] *)

(** The tiles of [l] that carry the realm id [rid], a non-empty string. *)
Definition tiles_with (g : Gen) (rid : string) (l : list nat) : list nat :=
  filter (fun i => Tile.realm_id (tile_at g i) = Some rid ∧ rid ≠ "") l.

Definition grouped (g : Gen) (l : list nat) : Dict (list nat) :=
  fold_left (group_step g) l [].

Lemma truthy_Some rid : truthy (Some rid) = true <-> rid ≠ "".
Proof.
  cbn. destruct (String.eqb_spec rid ""); cbn; split; congruence.
Qed.

Lemma grouped_spec (g : Gen) (l : list nat) :
  NoDup (dict_keys (grouped g l))
  ∧ forall rid,
      dict_get (grouped g l) rid
      = match tiles_with g rid l with [] => None | t => Some t end.
Proof.
  induction l as [|i l [IHnd IH]] using rev_ind.
  { split; [apply NoDup_nil_2|done]. }
  unfold grouped in *. rewrite fold_left_app. cbn [fold_left].
  set (d := fold_left (group_step g) l []) in *.
  assert (Hstep : group_step g d i
                  = if truthy (Tile.realm_id (tile_at g i))
                    then group_add d (default "" (Tile.realm_id (tile_at g i))) i else d)
    by reflexivity.
  rewrite Hstep. clear Hstep.
  destruct (truthy (Tile.realm_id (tile_at g i))) eqn:Ht.
  - destruct (Tile.realm_id (tile_at g i)) as [ri|] eqn:Hri; [|done].
    apply truthy_Some in Ht. change (default "" (Some ri)) with ri. unfold group_add.
    split; [by apply dict_set_NoDup|].
    intros rid. rewrite dict_get_set. unfold tiles_with in *. rewrite filter_app.
    destruct (decide (ri = rid)) as [<-|Hne].
    + rewrite String.eqb_refl.
      rewrite (filter_cons_True _ i []) by (by split; [rewrite Hri|]).
      rewrite IH. rewrite filter_nil.
      destruct (filter _ l); done.
    + rewrite (proj2 (String.eqb_neq _ _) Hne).
      rewrite (filter_cons_False _ i []) by (rewrite Hri; intros [[= ?] _]; done).
      rewrite filter_nil, app_nil_r. apply IH.
  - split; [done|]. intros rid. unfold tiles_with in *. rewrite filter_app.
    rewrite (filter_cons_False _ i []).
    + rewrite filter_nil, app_nil_r. apply IH.
    + intros [Hr Hne]. rewrite Hr in Ht. apply truthy_Some in Hne. congruence.
Qed.

Lemma tiles_by_realm_of_grouped g :
  tiles_by_realm_of g = grouped g (seq 0 (length (tiles g))).
Proof. done. Qed.

(** An entry of [tiles_by_realm]: the tiles of that realm, in grid order,
    at least one. *)
Lemma tiles_by_realm_entry g rid l :
  (rid, l) ∈ tiles_by_realm_of g ->
  l ≠ [] ∧ rid ≠ "" ∧ l = owned_by g rid.
Proof.
  rewrite tiles_by_realm_of_grouped. intros Hin.
  destruct (grouped_spec g (seq 0 (length (tiles g)))) as [Hnd Hget].
  apply (dict_get_elem_NoDup _ _ _ Hnd) in Hin. rewrite Hget in Hin.
  unfold tiles_with in Hin.
  destruct (filter _ (seq 0 (length (tiles g)))) as [|t ts] eqn:Hf; [done|].
  injection Hin as <-. split; [done|].
  assert (Hne : rid ≠ "").
  { assert (Ht : t ∈ t :: ts) by left. rewrite <- Hf in Ht.
    apply list_elem_of_filter in Ht as [[_ ?] _]. done. }
  split; [done|]. rewrite <- Hf. unfold owned_by.
  apply list_filter_iff. intros i. tauto.
Qed.

Lemma tiles_by_realm_keys_NoDup g : NoDup (dict_keys (tiles_by_realm_of g)).
Proof. rewrite tiles_by_realm_of_grouped. apply grouped_spec. Qed.

Lemma tiles_by_realm_get g rid :
  rid ≠ "" ->
  dict_get (tiles_by_realm_of g) rid
  = match owned_by g rid with [] => None | l => Some l end.
Proof.
  intros Hne. rewrite tiles_by_realm_of_grouped.
  destruct (grouped_spec g (seq 0 (length (tiles g)))) as [_ Hget].
  rewrite Hget. unfold tiles_with, owned_by.
  replace (filter (fun i => Tile.realm_id (tile_at g i) = Some rid ∧ rid ≠ "") (seq 0 (length (tiles g))))
    with (filter (fun i => Tile.realm_id (tile_at g i) = Some rid) (seq 0 (length (tiles g))));
    [done|].
  apply list_filter_iff. intros i. tauto.
Qed.

(** The later stages leave the owner of every tile alone. *)
Lemma settles_realm_id g g' (i : nat) :
  settles g g' -> Tile.realm_id (tile_at g' i) = Tile.realm_id (tile_at g i).
Proof.
  intros H. revert i.
  apply (runs_rel settle_step
           (fun a b => forall i, Tile.realm_id (tile_at b i) = Tile.realm_id (tile_at a i)));
    [done| |exact H].
  intros a b c Hab Hstep i. rewrite <- Hab.
  destruct Hstep; try done.
  rewrite tile_at_alter. destruct (decide _); [|done]. by destruct (decide _).
Qed.

Lemma derive_settlements_settles g g' : _derive_settlements g = Ok g' -> settles g g'.
Proof.
  unfold _derive_settlements. intros H.
  apply bind_Ok in H as ([g1 sid1] & H & Hret). injection Hret as <-.
  assert (Hgen : forall l acc acc',
            (forall e, e ∈ l -> e ∈ tiles_by_realm_of g) ->
            settles g (fst acc) -> for_each l settle_realm acc = Ok acc' ->
            settles g (fst acc')).
  { induction l as [|[rid rt] l IH]; intros acc acc' Hl Hacc Hrun.
    - cbn in Hrun. by injection Hrun as <-.
    - rewrite for_each_cons in Hrun. apply bind_Ok in Hrun as ([g2 sid2] & H2 & Hrun).
      destruct acc as [ga sida]. cbn [fst] in *.
      eapply IH; [intros e He; apply Hl; by right| |exact Hrun]. cbn [fst].
      eapply runs_trans; [exact Hacc|].
      eapply settle_realm_settles; [|exact H2].
      intros i Hi. rewrite (settles_realm_id g ga i Hacc).
      destruct (tiles_by_realm_entry g rid rt) as (_ & Hne & ->); [apply Hl; left|].
      apply owned_by_elem in Hi as [_ ->]. by apply truthy_Some. }
  apply (Hgen (tiles_by_realm_of g) (g, 1) (g1, sid1)); [done|apply runs_refl|exact H].
Qed.

Lemma derive_roads_settles g : settles g (_derive_roads g).
Proof. unfold _derive_roads. ev_peel. ev_peel. Qed.

Lemma make_ruin_settles border_tiles i g g' :
  make_ruin border_tiles i g = Ok g' -> settles g g'.
Proof.
  unfold make_ruin. intros H.
  destruct (border_tiles !! i) as [ti|]; [|done].
  destruct (_make_settlement_name "ruin" g) as [name g1] eqn:Hn.
  apply make_settlement_name_evolves in Hn as (r1 & ->).
  apply bind_Ok in H as ([dy rg1] & _ & H).
  apply bind_Ok in H as ([cause rg2] & _ & H). injection H as <-.
  repeat ev_peel.
Qed.

Lemma derive_ruins_settles g g' : _derive_ruins g = Ok g' -> settles g g'.
Proof.
  unfold _derive_ruins. intros H.
  destruct (shuffle (ruin_candidates g) (rng g)) as [border_tiles rg].
  apply (for_each_runs settle_step) in H.
  - eapply runs_trans; [|exact H]. repeat ev_peel.
  - intros i g1 g2 _. apply make_ruin_settles.
Qed.

(** ** Invariants of the later stages *)

(** *** The dictionaries keep their keys in their values *)

Lemma keyed_map {V} (key : V -> string) (d : Dict V) (f : V -> V) :
  keyed key d -> (forall v, key (f v) = key v) ->
  keyed key (map (fun kv => (fst kv, f (snd kv))) d).
Proof.
  intros [Hnd Hall] Hf. split.
  - unfold dict_keys in *. rewrite map_map. cbn. exact Hnd.
  - apply Forall_forall. intros [k v] Hin.
    apply list_elem_of_fmap in Hin as ([k' v'] & [= -> ->] & Hin).
    rewrite Forall_forall in Hall. cbn. rewrite Hf. exact (Hall _ Hin).
Qed.

Lemma history_step_keyed a b :
  history_step a b -> keyed Realm.id (realms a) -> keyed Realm.id (realms b).
Proof.
  intros H Hk. destruct H; cbn; try done.
  - by apply keyed_set.
  - by apply keyed_update.
  - by apply keyed_map.
Qed.

Lemma settle_step_keyed a b :
  settle_step a b ->
  keyed Realm.id (realms a) ∧ keyed Settlement.id (settlements a) ->
  keyed Realm.id (realms b) ∧ keyed Settlement.id (settlements b).
Proof.
  intros H [Hr Hs]. destruct H; cbn; try done.
  - split; [|done]. by apply keyed_update.
  - split; [done|]. by apply keyed_set.
Qed.

Lemma history_step_collections a b :
  history_step a b ->
  settlements b = settlements a ∧ roads b = roads a ∧ ruins b = ruins a.
Proof. intros H. by destruct H. Qed.

Lemma evolves_collections g g' :
  evolves g g' ->
  settlements g' = settlements g ∧ roads g' = roads g ∧ ruins g' = ruins g.
Proof.
  apply (runs_rel history_step
           (fun a b => settlements b = settlements a ∧ roads b = roads a ∧ ruins b = ruins a));
    [done|].
  intros a b c (H1 & H2 & H3) Hs. apply history_step_collections in Hs as (H4 & H5 & H6).
  repeat split; congruence.
Qed.

Lemma evolves_keyed g g' :
  evolves g g' -> keyed Realm.id (realms g) -> keyed Realm.id (realms g').
Proof.
  apply (runs_inv history_step (fun g => keyed Realm.id (realms g))), history_step_keyed.
Qed.

Lemma settles_keyed g g' :
  settles g g' ->
  keyed Realm.id (realms g) ∧ keyed Settlement.id (settlements g) ->
  keyed Realm.id (realms g') ∧ keyed Settlement.id (settlements g').
Proof.
  apply (runs_inv settle_step
           (fun g => keyed Realm.id (realms g) ∧ keyed Settlement.id (settlements g))),
    settle_step_keyed.
Qed.

Lemma settle_step_events a b : settle_step a b -> events b = events a.
Proof. intros H. by destruct H. Qed.

Lemma settles_events g g' : settles g g' -> events g' = events g.
Proof.
  apply (runs_rel settle_step (fun a b => events b = events a)); [done|].
  intros a b c H Hs. apply settle_step_events in Hs. congruence.
Qed.

(** *** Owned tiles are land below the mountains *)

Definition owned_ok (g : Gen) : Prop :=
  forall i, Tile.realm_id (tile_at g i) ≠ None ->
    Tile.water (tile_at g i) = false ∧ Tile.biome (tile_at g i) ≠ mountain.

Lemma history_step_owned_ok a b : history_step a b -> owned_ok a -> owned_ok b.
Proof.
  intros H Hok. destruct H; try exact Hok.
  - (* a tile is claimed *)
    intros j Hj. rewrite tile_at_alter in Hj |- *.
    destruct (decide (i = j)) as [->|Hne]; [|by apply Hok].
    destruct (decide (j < length (tiles g))%nat); [|by apply Hok].
    cbn. destruct H as [H|H]; [exact H|by apply Hok].
  - (* a tile is released *)
    intros j Hj. rewrite tile_at_alter in Hj |- *.
    destruct (decide (i = j)) as [->|Hne]; [|by apply Hok].
    destruct (decide (j < length (tiles g))%nat); [done|by apply Hok].
Qed.

Lemma evolves_owned_ok g g' : evolves g g' -> owned_ok g -> owned_ok g'.
Proof. apply (runs_inv history_step owned_ok), history_step_owned_ok. Qed.

Lemma settles_owned_ok g g' : settles g g' -> owned_ok g -> owned_ok g'.
Proof.
  intros H Hok i Hi. rewrite (settles_realm_id g g' i H) in Hi.
  apply settles_frame in H as [H _].
  pose proof (tiles_rel_at_all land_kept g g' i land_kept_refl H) as [Ht _].
  rewrite (terrain_water _ _ Ht), (terrain_biome _ _ Ht). by apply Hok.
Qed.

(** *** Settlements stand on land *)

(** Every settlement record names the coordinates of a tile of the grid
    that is not water. *)
Definition settlements_on_land (g : Gen) : Prop :=
  forall s, s ∈ dict_values (settlements g) ->
    exists i, (i < length (tiles g))%nat
      ∧ Settlement.tile s = (Tile.x (tile_at g i), Tile.y (tile_at g i))
      ∧ Tile.water (tile_at g i) = false.

Lemma truthy_not_None o : truthy o = true -> o ≠ None.
Proof. by destruct o. Qed.

Lemma settle_step_on_land a b :
  settle_step a b -> owned_ok a -> settlements_on_land a -> settlements_on_land b.
Proof.
  intros H Hown Hland.
  assert (Hframe : forall s,
            (exists i, (i < length (tiles a))%nat
               ∧ Settlement.tile s = (Tile.x (tile_at a i), Tile.y (tile_at a i))
               ∧ Tile.water (tile_at a i) = false) ->
            exists i, (i < length (tiles b))%nat
               ∧ Settlement.tile s = (Tile.x (tile_at b i), Tile.y (tile_at b i))
               ∧ Tile.water (tile_at b i) = false).
  { intros s (i & Hi & Ht & Hw). exists i.
    pose proof (settle_step_frame a b H) as [Hrel _].
    pose proof (tiles_rel_at_all land_kept a b i land_kept_refl Hrel) as [Hterr _].
    destruct (terrain_coords _ _ Hterr) as [-> ->].
    rewrite (terrain_water _ _ Hterr), (tiles_rel_length _ _ _ Hrel). done. }
  intros s Hs. apply Hframe. destruct H; try (by apply Hland).
  cbn in Hs. apply list_elem_of_fmap in Hs as ([k v] & -> & Hin). cbn.
  apply dict_set_elem in Hin as [[= -> ->]|Hin].
  - exists i.
    assert (Hw : Tile.water (tile_at g i) = false).
    { destruct H1 as [H1|H1]; [done|]. by apply Hown, truthy_not_None. }
    split; [|done].
    destruct (decide (i < length (tiles g))%nat) as [Hlt|Hge]; [done|].
    rewrite tile_at_out_of_range in Hw by lia. done.
  - apply Hland. apply list_elem_of_fmap. by exists (k, v).
Qed.

Lemma settles_on_land g g' :
  settles g g' -> owned_ok g -> settlements_on_land g -> settlements_on_land g'.
Proof.
  intros H Hown Hland.
  assert (Hboth : owned_ok g -> settlements_on_land g ->
                  owned_ok g' ∧ settlements_on_land g'); [|by apply Hboth].
  revert H.
  apply (runs_rel settle_step (fun a b => owned_ok a -> settlements_on_land a ->
                                          owned_ok b ∧ settlements_on_land b)); [tauto|].
  intros a b c Hab Hs Ha Hla. destruct (Hab Ha Hla) as [Hb Hlb]. split.
  - eapply settles_owned_ok; [apply runs_one; exact Hs|exact Hb].
  - eapply settle_step_on_land; eauto.
Qed.

(** *** At most one empire peak per realm *)

#[export] Instance EventType_eq_dec : EqDecision EventType.
Proof. solve_decision. Defined.

Definition peak_count (rid : string) (es : list Event.t) : nat :=
  length (filter (fun e => Event.type e = EMPIRE_PEAK ∧ rid ∈ Event.realm_ids e) es).

Lemma existsb_eqb_elem (rid : string) (l : list string) :
  existsb (String.eqb rid) l = true <-> rid ∈ l.
Proof.
  rewrite existsb_exists. split.
  - intros (x & Hx & Heq). apply String.eqb_eq in Heq as ->. by apply list_elem_of_In.
  - intros H. exists rid. split; [by apply list_elem_of_In | apply String.eqb_refl].
Qed.

Lemma has_empire_peak_false rid es :
  has_empire_peak rid es = false -> peak_count rid es = 0%nat.
Proof.
  unfold has_empire_peak, peak_count. intros H.
  induction es as [|e es IH]; [done|]. cbn [existsb] in H.
  apply orb_false_iff in H as [He H]. rewrite filter_cons.
  destruct (decide _) as [[Ht Hin]|_]; [|by apply IH].
  rewrite Ht in He. apply existsb_eqb_elem in Hin. congruence.
Qed.

Lemma has_empire_peak_true rid es :
  has_empire_peak rid es = true -> (0 < peak_count rid es)%nat.
Proof.
  unfold has_empire_peak, peak_count. intros H.
  induction es as [|e es IH]; [done|]. cbn [existsb] in H. rewrite filter_cons.
  apply orb_true_iff in H as [He|H].
  - destruct (Event.type e) eqn:Ht; try done. apply existsb_eqb_elem in He.
    destruct (decide _) as [_|Hn]; [cbn; lia|]. exfalso. by apply Hn.
  - destruct (decide _); [cbn; lia | by apply IH].
Qed.

Definition peak_once (g : Gen) : Prop :=
  forall rid, (peak_count rid (events g) <= 1)%nat.

Lemma history_step_peak_once a b : history_step a b -> peak_once a -> peak_once b.
Proof.
  intros H Hp. destruct H; try exact Hp.
  intros rid. cbn. unfold peak_count. rewrite filter_app, length_app.
  rewrite filter_cons, filter_nil.
  destruct (decide _) as [[Ht Hin]|_]; [|cbn; specialize (Hp rid); unfold peak_count in Hp; lia].
  destruct (H Ht) as (rid0 & Hids & Hnone). rewrite Hids in Hin.
  apply list_elem_of_singleton in Hin as ->.
  apply has_empire_peak_false in Hnone. unfold peak_count in Hnone. rewrite Hnone. done.
Qed.

Lemma evolves_peak_once g g' : evolves g g' -> peak_once g -> peak_once g'.
Proof. apply (runs_inv history_step peak_once), history_step_peak_once. Qed.

(** ** The grid stage as a whole *)

(** What the grid stage does not touch. *)
Definition collections (g : Gen)
    : Dict Realm.t * Dict Settlement.t * list Event.t * list Road.t * list Ruin.t :=
  (realms g, settlements g, events g, roads g, ruins g).

Lemma river_walk_collections steps x y g g' e :
  river_walk steps x y g = (g', e) -> collections g' = collections g.
Proof.
  revert x y g. induction steps as [|steps IH]; intros x y g H; cbn [river_walk] in H.
  - by injection H as <- _.
  - destruct (river_step x y g) as [g1 r] eqn:Hstep.
    apply river_step_spec in Hstep as ((rg & ->) & _).
    destruct r as [r|[x' y']]; [by injection H as <- _|].
    apply IH in H. rewrite H. done.
Qed.

Lemma carve_rivers_rel count g :
  tiles_rel river_added g (_carve_rivers count g)
  ∧ config (_carve_rivers count g) = config g
  ∧ collections (_carve_rivers count g) = collections g.
Proof.
  unfold _carve_rivers.
  destruct (river_sources g) as [|s0 ss];
    [split; [apply tiles_rel_refl, river_added_refl|done]|].
  destruct (shuffle (s0 :: ss) (rng g)) as [land_tiles rg].
  apply (fold_left_inv
           (fun g' => tiles_rel river_added g g' ∧ config g' = config g
                      ∧ collections g' = collections g)).
  - intros start g1 _ (H1 & Hc1 & Hk1).
    destruct (river_walk 80 (Tile.x (tile_at g1 start)) (Tile.y (tile_at g1 start)) g1)
      as [g2 e] eqn:Hw. cbn [fst].
    pose proof (river_walk_collections _ _ _ _ _ _ Hw) as Hk2.
    apply river_walk_rel in Hw as [H2 Hc2].
    split; [|split; congruence].
    eapply tiles_rel_trans; [apply river_added_trans|exact H1|exact H2].
  - split; [|done]. eapply tiles_rel_same; [|apply tiles_rel_refl, river_added_refl]. done.
Qed.

Lemma drown_all_collections comps g : collections (drown_all comps g) = collections g.
Proof.
  unfold drown_all.
  apply (fold_left_inv (fun g' => collections g' = collections g)); [|done].
  intros comp g1 _ H1.
  apply (fold_left_inv (fun g' => collections g' = collections g)); [|done].
  intros idx g2 _ H2. exact H2.
Qed.

Lemma enforce_collections g :
  collections (_enforce_continent_connectivity g) = collections g.
Proof.
  unfold _enforce_continent_connectivity.
  destruct (land_indices g); [done|].
  destruct (components_of g) as [components|]; [|done].
  destruct (length components <=? 1)%nat; [done|].
  destruct (sort_by_len_desc components) as [|main others]; [done|].
  apply drown_all_collections.
Qed.

(** The state after the two loops of either mode: the tiles of the grid, in
    order, each as [new_tile] makes it. *)
Lemma grid_built g g' :
  tiles g = [] ->
  match mode g with
  | continent => continent_grid g
  | archipelago => archipelago_grid g
  end = Ok g' ->
  config g' = config g ∧ collections g' = collections g
  ∧ Forall2 (fresh_tile (base_sea_level g)) (grid_coords (width g) (height g)) (tiles g').
Proof.
  intros Hnil H. destruct (mode g).
  - unfold continent_grid in H.
    apply (grid_loop_built _ g g' (continent_tile_appends _ _ _)) in H
      as (ts & rg & -> & Hts).
    cbn. rewrite Hnil. done.
  - unfold archipelago_grid in H. apply bind_Ok in H as ([centers rg0] & _ & H).
    apply (grid_loop_built _ _ g' (archipelago_tile_appends _)) in H
      as (ts & rg & -> & Hts).
    cbn in *. rewrite Hnil. done.
Qed.

(** What the enforcement of the continent does to a tile; there is none in
    archipelago mode. *)
Definition drowned_in (m : Mode) (t t' : Tile.t) : Prop :=
  t' = t ∨ (m = continent ∧ t' = Tile.drown t).

(** A tile of the finished grid: built from an elevation [e] and a moisture
    [m], then perhaps drowned by the enforcement of the continent, then
    perhaps marked as river. *)
Definition finished_tile (m : Mode) (sea_level : float) (c : Z * Z) (t : Tile.t) : Prop :=
  exists t0 t1,
    fresh_tile sea_level c t0 ∧ drowned_in m t0 t1 ∧ river_added t1 t.

Lemma Forall2_compose {A B C} (R : A -> B -> Prop) (S : B -> C -> Prop) l1 l2 l3 :
  Forall2 R l1 l2 -> Forall2 S l2 l3 ->
  Forall2 (fun a c => exists b, R a b ∧ S b c) l1 l3.
Proof.
  intros H12. revert l3. induction H12 as [|a b l1 l2 Hab _ IH]; intros l3 H23.
  - inversion H23; subst. constructor.
  - inversion H23 as [|b' c l2' l3' Hbc H23']; subst.
    constructor; [by exists b | by apply IH].
Qed.

Lemma generate_base_tiles_spec g g' :
  tiles g = [] -> _generate_base_tiles g = Ok g' ->
  config g' = config g ∧ collections g' = collections g
  ∧ Forall2 (finished_tile (mode g) (base_sea_level g))
      (grid_coords (width g) (height g)) (tiles g').
Proof.
  intros Hnil H. unfold _generate_base_tiles in H.
  apply bind_Ok in H as (g2 & H2 & H). injection H as <-.
  assert (Hg2 : exists g1,
            config g1 = config g ∧ collections g1 = collections g
            ∧ Forall2 (fresh_tile (base_sea_level g)) (grid_coords (width g) (height g)) (tiles g1)
            ∧ tiles_rel (drowned_in (mode g)) g1 g2 ∧ config g2 = config g1
            ∧ collections g2 = collections g1).
  { pose proof (grid_built g) as Hb. destruct (mode g).
    - apply bind_Ok in H2 as (g1 & H1 & H2). injection H2 as <-.
      destruct (Hb g1 Hnil H1) as (Hc & Hk & Hts). exists g1.
      destruct (enforce_rel g1) as (Hr & Hc2 & _).
      repeat split; try done; [|apply enforce_collections].
      eapply Forall2_impl; [exact Hr|]. intros a b [->| ->]; [by left|by right].
    - destruct (Hb g2 Hnil H2) as (Hc & Hk & Hts). exists g2.
      repeat split; try done. apply tiles_rel_refl. by left. }
  destruct Hg2 as (g1 & Hc1 & Hk1 & Hts & Hr12 & Hc2 & Hk2).
  destruct (carve_rivers_rel (Z.max 4 (width g2 * height g2 / 700)) g2) as (Hr23 & Hc3 & Hk3).
  split; [congruence|]. split; [congruence|].
  unfold tiles_rel in *.
  pose proof (Forall2_compose _ _ _ _ _ Hts Hr12) as H012.
  pose proof (Forall2_compose _ _ _ _ _ H012 Hr23) as H0123.
  eapply Forall2_impl; [exact H0123|].
  intros c t (t1 & (t0 & H0 & H1) & H2'). by exists t0, t1.
Qed.

(** *** The run, stage by stage *)

(** The states between the stages of a run, in order: after the grid, the
    spawning of realms, the history, the settlements, the roads, the
    ruins. *)
Definition stage_trace (g : Gen) : Res (list Gen) :=
  g1 ← _generate_base_tiles g;
  g2 ← _spawn_initial_realms g1;
  g3 ← _simulate_history g2;
  g4 ← _derive_settlements g3;
  g6 ← _derive_ruins (_derive_roads g4);
  mret [g1; g2; g3; g4; _derive_roads g4; g6].

Lemma run_stages_trace g g' :
  run_stages g = Ok g' ->
  exists g1 g2 g3 g4,
    stage_trace g = Ok [g1; g2; g3; g4; _derive_roads g4; g']
    ∧ _generate_base_tiles g = Ok g1
    ∧ _spawn_initial_realms g1 = Ok g2
    ∧ _simulate_history g2 = Ok g3
    ∧ _derive_settlements g3 = Ok g4
    ∧ _derive_ruins (_derive_roads g4) = Ok g'.
Proof.
  unfold run_stages, stage_trace. intros H.
  apply bind_Ok in H as (g1 & H1 & H). apply bind_Ok in H as (g2 & H2 & H).
  apply bind_Ok in H as (g3 & H3 & H). apply bind_Ok in H as (g4 & H4 & H).
  exists g1, g2, g3, g4. rewrite H1. cbn. rewrite H2. cbn. rewrite H3. cbn.
  rewrite H4. cbn. rewrite H. done.
Qed.

(** A state that has generated nothing yet, as the constructor makes it. *)
Definition fresh (g : Gen) : Prop :=
  tiles g = [] ∧ collections g = ([], [], [], [], []).

(** What holds between the stages of a run from a fresh generator. *)
Record staged (g g1 g2 g3 g4 g' : Gen) : Prop := {
  st_base : _generate_base_tiles g = Ok g1;
  st_spawn : _spawn_initial_realms g1 = Ok g2;
  st_history : _simulate_history g2 = Ok g3;
  st_settle : _derive_settlements g3 = Ok g4;
  st_ruins : _derive_ruins (_derive_roads g4) = Ok g';
  st_grid : Forall2 (finished_tile (mode g) (base_sea_level g))
              (grid_coords (width g) (height g)) (tiles g1);
  st_config1 : config g1 = config g;
  st_collections1 : collections g1 = ([], [], [], [], []);
  st_evolves2 : evolves g1 g2;
  st_evolves3 : evolves g2 g3;
  st_settles4 : settles g3 g4;
  st_settles5 : settles g4 (_derive_roads g4);
  st_settles6 : settles (_derive_roads g4) g';
}.

Lemma run_stages_staged g g' :
  fresh g -> run_stages g = Ok g' ->
  exists g1 g2 g3 g4, staged g g1 g2 g3 g4 g'.
Proof.
  intros [Hnil Hcoll] H.
  apply run_stages_trace in H as (g1 & g2 & g3 & g4 & _ & H1 & H2 & H3 & H4 & H6).
  exists g1, g2, g3, g4.
  destruct (generate_base_tiles_spec g g1 Hnil H1) as (Hc & Hk & Hts).
  constructor; try done.
  - congruence.
  - by apply spawn_evolves.
  - by apply simulate_history_evolves.
  - by apply derive_settlements_settles.
  - apply derive_roads_settles.
  - by apply derive_ruins_settles.
Qed.

(** ** Water and biomes *)

Lemma choose_biome_ocean e m w : _choose_biome e m w = ocean <-> w = true.
Proof.
  unfold _choose_biome. destruct w; [done|].
  split; [|done].
  destruct (PrimFloat.ltb 0.85 e); [done|]. destruct (PrimFloat.ltb 0.7 e); [done|].
  destruct (PrimFloat.ltb m 0.2); [done|]. destruct (PrimFloat.ltb m 0.45); [done|].
  by destruct (PrimFloat.ltb m 0.75).
Qed.

Definition water_iff_ocean (t : Tile.t) : Prop :=
  Tile.water t = true <-> Tile.biome t = ocean.

(** A tile of the finished grid is water exactly when its biome is ocean,
    and it has no owner and no settlement. *)
Lemma finished_tile_rule md sea c t :
  finished_tile md sea c t ->
  water_iff_ocean t ∧ Tile.realm_id t = None ∧ Tile.settlement_id t = None.
Proof.
  intros (t0 & t1 & (e & m & ->) & Hd & (Hterr & Hrid & Hsid & _)).
  unfold water_iff_ocean.
  rewrite (terrain_water _ _ Hterr), (terrain_biome _ _ Hterr), Hrid, Hsid.
  clear Hterr Hrid Hsid t.
  destruct Hd as [->|[-> ->]]; cbn.
  - split; [|done]. symmetry. apply choose_biome_ocean.
  - done.
Qed.

Lemma land_kept_water_iff_ocean t t' :
  land_kept t t' -> water_iff_ocean t -> water_iff_ocean t'.
Proof.
  intros [Hterr _]. unfold water_iff_ocean.
  by rewrite (terrain_water _ _ Hterr), (terrain_biome _ _ Hterr).
Qed.

(** Every state of the trace has the terrain of the first one. *)
Lemma staged_terrain g g1 g2 g3 g4 g' s :
  staged g g1 g2 g3 g4 g' -> s ∈ [g1; g2; g3; g4; _derive_roads g4; g'] ->
  tiles_rel land_kept g1 s ∧ config s = config g.
Proof.
  intros St Hs.
  pose proof (evolves_frame _ _ (st_evolves2 _ _ _ _ _ _ St)) as [H2 C2].
  pose proof (evolves_frame _ _ (st_evolves3 _ _ _ _ _ _ St)) as [H3 C3].
  pose proof (settles_frame _ _ (st_settles4 _ _ _ _ _ _ St)) as [H4 C4].
  pose proof (settles_frame _ _ (st_settles5 _ _ _ _ _ _ St)) as [H5 C5].
  pose proof (settles_frame _ _ (st_settles6 _ _ _ _ _ _ St)) as [H6 C6].
  pose proof (st_config1 _ _ _ _ _ _ St) as C1.
  assert (T2 : tiles_rel land_kept g1 g2) by done.
  assert (T3 : tiles_rel land_kept g1 g3)
    by (eapply tiles_rel_trans; [apply land_kept_trans|exact T2|exact H3]).
  assert (T4 : tiles_rel land_kept g1 g4)
    by (eapply tiles_rel_trans; [apply land_kept_trans|exact T3|exact H4]).
  assert (T5 : tiles_rel land_kept g1 (_derive_roads g4))
    by (eapply tiles_rel_trans; [apply land_kept_trans|exact T4|exact H5]).
  assert (T6 : tiles_rel land_kept g1 g')
    by (eapply tiles_rel_trans; [apply land_kept_trans|exact T5|exact H6]).
  repeat (apply elem_of_cons in Hs as [->|Hs]); try (split; [done|congruence]).
  - split; [apply tiles_rel_refl, land_kept_refl|done].
  - by apply elem_of_nil in Hs.
Qed.

Lemma fresh_tile_water_iff_ocean sea c t : fresh_tile sea c t -> water_iff_ocean t.
Proof.
  intros (e & m & ->). unfold water_iff_ocean. cbn. symmetry. apply choose_biome_ocean.
Qed.

Lemma drowned_water_iff_ocean md t t' :
  drowned_in md t t' -> water_iff_ocean t -> water_iff_ocean t'.
Proof. intros [->|[_ ->]]; [done|]. intros _. by split. Qed.

(** The three states of a tile within the grid stage: as the loops build
    it, after the enforcement of the continent, after the rivers. *)
Definition grid_stage_iff_ocean (md : Mode) (sea_level : float) (c : Z * Z) (t : Tile.t) : Prop :=
  exists t0 t1,
    fresh_tile sea_level c t0 ∧ drowned_in md t0 t1 ∧ river_added t1 t
    ∧ water_iff_ocean t0 ∧ water_iff_ocean t1 ∧ water_iff_ocean t.

(** ** Concrete runs

    A stand-in for the name generator, and streams of draws that are one
    half everywhere but at a few places. *)

Definition demo_namer : Namer :=
  fun kind r => let '(v, r') := randbelow 1000 r in (kind +:+ "_" +:+ str_of_Z v, r').

(** The [pow(v, 2.0)] of a C library that rounds correctly: the product. *)
Definition exact_pow2 (v : float) : float := PrimFloat.mul v v.

(** The draws that make [random()] return one half, its largest value and
    zero. *)
Definition half : Z := 4503599627370496.
Definition top : Z := 9007199254740991.

(** A continent of ten by two tiles at the default sea level.  All noise is
    zero but for the tile at (1, 0), lifted above the sea, and the tile at
    (2, 0), pushed below it: (1, 0) is an island of one tile off the main
    landmass of columns 3 to 7. *)
Definition island_tape (i : nat) : Z :=
  match i with
  | 3%nat | 4%nat => top
  | 6%nat => 0
  | _ => half
  end.

Definition island : Gen :=
  mkGen 10 2 0 0.35 continent 0 (mkRandom island_tape 0) demo_namer exact_pow2 [] [] [] [] [] [].

Definition island_final : Gen :=
  Eval vm_compute in match run_stages island with Ok g => g | Raise _ => island end.

Lemma island_fresh : fresh island.
Proof. by split. Qed.

Lemma island_run : run_stages island = Ok island_final.
Proof. vm_compute. reflexivity. Qed.

(** C8 as the claim states it fails on this run: the finished grid has the
    tile (1, 0) with [water = true] although its elevation, 0.386, is not
    below the sea level 0.35 (it was land, and the enforcement of the
    continent drowned it). *)
Lemma water_flag_is_not_elevation_below_sea :
  exists t,
    run_stages island = Ok island_final
    ∧ tiles island_final !! 1%nat = Some t
    ∧ (Tile.x t, Tile.y t) = (1, 0)
    ∧ Tile.elevation t = 0.386%float
    ∧ Tile.water t = true
    ∧ PrimFloat.ltb (Tile.elevation t) (base_sea_level island_final) = false.
Proof.
  eexists. split; [exact island_run|]. split; [vm_compute; reflexivity|].
  repeat split; vm_compute; reflexivity.
Qed.

(** ** Rivers (claim C6) *)

(** One of the stages that follow the grid stage turns [a] into [b]. *)
Definition later_stage (a b : Gen) : Prop :=
  _spawn_initial_realms a = Ok b ∨ _simulate_history a = Ok b
  ∨ _derive_settlements a = Ok b ∨ b = _derive_roads a ∨ _derive_ruins a = Ok b.

Lemma later_stage_frame a b :
  later_stage a b -> tiles_rel land_kept a b ∧ config b = config a.
Proof.
  intros [H|[H|[H|[->|H]]]].
  - by apply evolves_frame, spawn_evolves.
  - by apply evolves_frame, simulate_history_evolves.
  - by apply settles_frame, derive_settlements_settles.
  - apply settles_frame, derive_roads_settles.
  - by apply settles_frame, derive_ruins_settles.
Qed.

(** [min(neighbors, key=...)] for the walk standing on tile [cur], with the
    stream at [rg]: the neighbour chosen and the stream after the draws of
    the keys; [None] when the tile has no neighbour. *)
Definition river_choice (g : Gen) (cur : nat) (rg : Random) : option (nat * Random) :=
  match _neighbors g (Tile.x (tile_at g cur)) (Tile.y (tile_at g cur)) with
  | [] => None
  | n0 :: ns =>
      let '(k0, rg) := river_key g n0 rg in
      Some (min_by_river_key g ns n0 k0 rg)
  end.

Lemma river_key_same (g1 g : Gen) (n : nat) (rg : Random) :
  terrain (tile_at g1 n) = terrain (tile_at g n) -> river_key g1 n rg = river_key g n rg.
Proof.
  intros H. unfold river_key. by rewrite (terrain_water _ _ H), (terrain_elevation _ _ H).
Qed.

Lemma min_by_river_key_same (g1 g : Gen) (l : list nat) (best : nat) (k : float) (rg : Random) :
  (forall i, terrain (tile_at g1 i) = terrain (tile_at g i)) ->
  min_by_river_key g1 l best k rg = min_by_river_key g l best k rg.
Proof.
  intros H. revert best k rg. induction l as [|n l IH]; intros best k rg; [done|].
  cbn [min_by_river_key]. rewrite (river_key_same g1 g n rg (H n)).
  destruct (river_key g n rg) as [k' rg']. by rewrite !IH.
Qed.

(** The choice depends on the size of the map and the terrain only. *)
Lemma river_choice_same (g1 g : Gen) (cur : nat) (rg : Random) :
  config g1 = config g -> (forall i, terrain (tile_at g1 i) = terrain (tile_at g i)) ->
  river_choice g1 cur rg = river_choice g cur rg.
Proof.
  intros Hc H. unfold river_choice.
  destruct (terrain_coords _ _ (H cur)) as [-> ->].
  rewrite (neighbors_same_size g g1 _ _ Hc).
  destruct (_neighbors g _ _) as [|n0 ns]; [done|].
  rewrite (river_key_same g1 g n0 rg (H n0)).
  destruct (river_key g n0 rg) as [k0 rg0]. by rewrite (min_by_river_key_same g1 g ns n0 k0 rg0 H).
Qed.

Lemma river_choice_elem (g : Gen) (cur n : nat) (rg rg' : Random) :
  river_choice g cur rg = Some (n, rg') ->
  n ∈ _neighbors g (Tile.x (tile_at g cur)) (Tile.y (tile_at g cur)).
Proof.
  unfold river_choice. destruct (_neighbors g _ _) as [|n0 ns]; [done|].
  destruct (river_key g n0 rg) as [k0 rg0]. intros [= H].
  apply min_by_river_key_elem in H as [->|H]; [left|by right].
Qed.

Lemma river_choice_None (g : Gen) (cur : nat) (rg : Random) :
  river_choice g cur rg = None ->
  _neighbors g (Tile.x (tile_at g cur)) (Tile.y (tile_at g cur)) = [].
Proof.
  unfold river_choice. destruct (_neighbors g _ _) as [|n0 ns]; [done|].
  by destruct (river_key g n0 rg).
Qed.

Lemma set_river_terrain (g : Gen) (cur i : nat) :
  terrain (tile_at (update_tile cur (Tile.set_river true) g) i) = terrain (tile_at g i).
Proof.
  rewrite tile_at_alter. destruct (decide (cur = i)); [|done]. by destruct (decide _).
Qed.

(** One turn of the walk on the tile [cur] of a grid in row-major order: the
    tile is marked, and the neighbour chosen decides how the walk goes
    on. *)
Lemma river_step_choice (g : Gen) (cur : nat) :
  grid_ok g -> (cur < length (tiles g))%nat ->
  let marked := update_tile cur (Tile.set_river true) g in
  river_step (Tile.x (tile_at g cur)) (Tile.y (tile_at g cur)) g
  = match river_choice g cur (rng g) with
    | None => (marked, inl NoNeighbors)
    | Some (n, rg) =>
        if Tile.water (tile_at g n) then (set_rng rg marked, inl ReachedWater)
        else if PrimFloat.ltb (Tile.elevation (tile_at g cur)) (Tile.elevation (tile_at g n))
                && negb (Tile.water (tile_at g cur))
        then (set_rng rg marked, inl LocalMinimum)
        else (set_rng rg marked, inr (Tile.x (tile_at g n), Tile.y (tile_at g n)))
    end.
Proof.
  intros Hok Hlt marked.
  destruct (grid_ok_coords g cur Hok Hlt) as (_ & _ & Hidx).
  unfold river_step. rewrite <- Hidx. fold marked.
  assert (Hterr : forall i, terrain (tile_at marked i) = terrain (tile_at g i))
    by (intros i; apply set_river_terrain).
  rewrite (neighbors_same_size g marked _ _ eq_refl).
  unfold river_choice.
  destruct (_neighbors g _ _) as [|n0 ns]; [done|].
  change (rng marked) with (rng g).
  rewrite (river_key_same marked g n0 (rng g) (Hterr n0)).
  destruct (river_key g n0 (rng g)) as [k0 rg0].
  rewrite (min_by_river_key_same marked g ns n0 k0 rg0 Hterr).
  destruct (min_by_river_key g ns n0 k0 rg0) as [n rg].
  change (tile_at (set_rng rg marked) n) with (tile_at marked n).
  rewrite (terrain_water _ _ (Hterr n)), (terrain_elevation _ _ (Hterr n)),
    (terrain_elevation _ _ (Hterr cur)), (terrain_water _ _ (Hterr cur)).
  destruct (terrain_coords _ _ (Hterr n)) as [-> ->]. done.
Qed.

(** The walk, turn by turn.  [turns] lists the tile the walk stands on and
    the stream at the start of each turn. *)
Lemma river_walk_turns (steps : nat) :
  forall (g g' : Gen) (start : nat) (e : option WalkEnd),
  grid_ok g -> (start < length (tiles g))%nat ->
  Tile.water (tile_at g start) = false ->
  river_walk steps (Tile.x (tile_at g start)) (Tile.y (tile_at g start)) g = (g', e) ->
  (steps = 0%nat ∧ g' = g ∧ e = None)
  ∨ exists (turns : list (nat * Random)) (cur : nat) (rg : Random),
      head turns = Some (start, rng g)
      ∧ last turns = Some (cur, rg)
      ∧ (length turns <= steps)%nat
      ∧ (e = None -> length turns = steps)
      ∧ (forall k a b, turns !! k = Some a -> turns !! S k = Some b ->
           river_choice g a.1 a.2 = Some b
           ∧ Tile.water (tile_at g b.1) = false
           ∧ PrimFloat.ltb (Tile.elevation (tile_at g a.1))
               (Tile.elevation (tile_at g b.1)) = false)
      ∧ (forall i, i ∈ turns.*1 ->
           (i < length (tiles g))%nat ∧ Tile.water (tile_at g i) = false)
      ∧ (forall i, Tile.river (tile_at g' i)
                   = if bool_decide (i ∈ turns.*1) then true else Tile.river (tile_at g i))
      ∧ (forall i, terrain (tile_at g' i) = terrain (tile_at g i))
      ∧ config g' = config g
      ∧ match e with
        | Some NoNeighbors => river_choice g cur rg = None ∧ rng g' = rg
        | Some ReachedWater =>
            exists n, river_choice g cur rg = Some (n, rng g')
                      ∧ Tile.water (tile_at g n) = true ∧ n ∉ turns.*1
        | Some LocalMinimum =>
            exists n, river_choice g cur rg = Some (n, rng g')
                      ∧ Tile.water (tile_at g n) = false
                      ∧ PrimFloat.ltb (Tile.elevation (tile_at g cur))
                          (Tile.elevation (tile_at g n)) = true
        | None =>
            exists n, river_choice g cur rg = Some (n, rng g')
                      ∧ Tile.water (tile_at g n) = false
                      ∧ PrimFloat.ltb (Tile.elevation (tile_at g cur))
                          (Tile.elevation (tile_at g n)) = false
        end.
Proof.
  induction steps as [|steps IH]; intros g g' start e Hok Hlt Hland H.
  { cbn in H. injection H as <- <-. by left. }
  right. cbn [river_walk] in H. rewrite (river_step_choice g start Hok Hlt) in H.
  set (g1 := update_tile start (Tile.set_river true) g) in H.
  assert (Hterr1 : forall i, terrain (tile_at g1 i) = terrain (tile_at g i))
    by (intros i; apply set_river_terrain).
  assert (Hriv1 : forall i, Tile.river (tile_at g1 i)
                            = if bool_decide (i = start) then true else Tile.river (tile_at g i)).
  { intros i. unfold g1. rewrite tile_at_alter. destruct (decide (start = i)) as [<-|Hne].
    - rewrite bool_decide_eq_true_2 by done. by destruct (decide _).
    - rewrite bool_decide_eq_false_2 by done. done. }
  assert (Hone : forall i, i ∈ [(start, rng g)].*1 <-> i = start).
  { intros i. cbn. by rewrite list_elem_of_singleton. }
  assert (Hriv_one : forall rg i, Tile.river (tile_at (set_rng rg g1) i)
            = if bool_decide (i ∈ [(start, rng g)].*1) then true else Tile.river (tile_at g i)).
  { intros rg i. change (tile_at (set_rng rg g1) i) with (tile_at g1 i). rewrite Hriv1.
    destruct (decide (i = start)) as [->|Hne].
    - rewrite !bool_decide_eq_true_2; [done|by apply Hone|done].
    - rewrite !bool_decide_eq_false_2; [done|by rewrite Hone|done]. }
  assert (Hland_one : forall i, i ∈ [(start, rng g)].*1 ->
            (i < length (tiles g))%nat ∧ Tile.water (tile_at g i) = false).
  { intros i Hi. apply Hone in Hi as ->. done. }
  assert (Hsingle : forall k (a b : nat * Random),
            [(start, rng g)] !! k = Some a -> [(start, rng g)] !! S k = Some b -> False).
  { intros k a b _ Hb. by destruct k. }
  destruct (river_choice g start (rng g)) as [[n rg1]|] eqn:Hch.
  2:{ injection H as <- <-. exists [(start, rng g)], start, (rng g).
      split; [done|]. split; [done|]. split; [cbn; lia|]. split; [done|].
      split; [intros k a b Ha Hb; by destruct (Hsingle k a b)|].
      split; [exact Hland_one|]. split; [exact (Hriv_one (rng g))|].
      split; [exact Hterr1|]. split; [done|]. by split. }
  destruct (Tile.water (tile_at g n)) eqn:Hwn.
  { injection H as <- <-. exists [(start, rng g)], start, (rng g).
    split; [done|]. split; [done|]. split; [cbn; lia|]. split; [done|].
    split; [intros k a b Ha Hb; by destruct (Hsingle k a b)|].
    split; [exact Hland_one|]. split; [exact (Hriv_one rg1)|].
    split; [exact Hterr1|]. split; [done|].
    exists n. split; [done|]. split; [done|].
    intros Hn. apply Hone in Hn as ->. congruence. }
  rewrite Hland, andb_true_r in H.
  destruct (PrimFloat.ltb (Tile.elevation (tile_at g start)) (Tile.elevation (tile_at g n)))
    eqn:Hup.
  { injection H as <- <-. exists [(start, rng g)], start, (rng g).
    split; [done|]. split; [done|]. split; [cbn; lia|]. split; [done|].
    split; [intros k a b Ha Hb; by destruct (Hsingle k a b)|].
    split; [exact Hland_one|]. split; [exact (Hriv_one rg1)|].
    split; [exact Hterr1|]. split; [done|].
    exists n. done. }
  (* the walk moves on to the neighbour it chose *)
  set (g2 := set_rng rg1 g1) in H.
  assert (Hterr2 : forall i, terrain (tile_at g2 i) = terrain (tile_at g i)) by exact Hterr1.
  assert (Hc2 : config g2 = config g) by done.
  assert (Hlen2 : length (tiles g2) = length (tiles g)).
  { unfold g2, g1. cbn. by rewrite length_alter. }
  assert (Hok2 : grid_ok g2).
  { apply (grid_ok_rel river_added g g2); [apply river_added_coords| |done|done].
    unfold g2. eapply tiles_rel_same; [reflexivity|].
    apply tiles_rel_update; [|apply tiles_rel_refl, river_added_refl].
    intros a b (Ht & Hr & Hs & Hriv). by repeat split. }
  pose proof (river_choice_elem g start n (rng g) rg1 Hch) as Hn.
  destruct (neighbors_grid g _ _ n Hok Hn) as (Hnlt & _ & _ & _).
  destruct (terrain_coords _ _ (Hterr2 n)) as [Hx2 Hy2].
  rewrite <- Hx2, <- Hy2 in H.
  destruct (IH g2 g' n e Hok2) as [(-> & -> & ->)|Hwalk];
    [lia|by rewrite (terrain_water _ _ (Hterr2 n))|exact H| |].
  - (* the range is used up after this turn *)
    exists [(start, rng g)], start, (rng g).
    split; [done|]. split; [done|]. split; [cbn; lia|]. split; [done|].
    split; [intros k a b Ha Hb; by destruct (Hsingle k a b)|].
    split; [exact Hland_one|]. split; [exact (Hriv_one rg1)|].
    split; [exact Hterr1|]. split; [done|].
    exists n. done.
  - destruct Hwalk as (turns & cur & rg & Hhead & Hlast & Hlen & Hnone & Hlink & Hmarked
                       & Hriv & Hterr & Hconf & Hend).
    assert (Hchoice : forall c r, river_choice g2 c r = river_choice g c r)
      by (intros c r; by apply river_choice_same).
    exists ((start, rng g) :: turns), cur, rg.
    split; [done|].
    split; [destruct turns; [done|]; by rewrite last_cons, Hlast|].
    split; [cbn; lia|]. split; [intros He; cbn; by rewrite Hnone|].
    split.
    { intros [|k] a b Ha Hb; cbn in Ha, Hb.
      - injection Ha as <-. destruct turns as [|t0 turns]; [done|].
        cbn in Hb, Hhead. injection Hb as <-. injection Hhead as ->. cbn. done.
      - destruct (Hlink k a b Ha Hb) as (H1 & H2 & H3).
        rewrite Hchoice in H1.
        rewrite (terrain_water _ _ (Hterr2 _)) in H2.
        rewrite !(terrain_elevation _ _ (Hterr2 _)) in H3. done. }
    split.
    { intros i Hi. cbn in Hi. apply elem_of_cons in Hi as [->|Hi]; [done|].
      destruct (Hmarked i Hi) as [Hilt Hiw]. split; [lia|].
      by rewrite <- (terrain_water _ _ (Hterr2 i)). }
    split.
    { intros i. rewrite Hriv. change (tile_at g2 i) with (tile_at g1 i). rewrite Hriv1.
      cbn [fmap list_fmap].
      destruct (decide (i ∈ turns.*1)) as [Hi|Hi].
      - rewrite !bool_decide_eq_true_2; [done|by right|done].
      - rewrite (bool_decide_eq_false_2 (i ∈ turns.*1)) by done.
        destruct (decide (i = start)) as [->|Hne].
        + rewrite !bool_decide_eq_true_2; [done|left|done].
        + rewrite !bool_decide_eq_false_2; [done| |done].
          intros Hi'. apply elem_of_cons in Hi' as [?|?]; done. }
    split; [intros i; by rewrite Hterr|]. split; [congruence|].
    destruct e as [[| |]|].
    + destruct Hend as [H1 H2]. by rewrite Hchoice in H1.
    + destruct Hend as (m & H1 & H2 & H3). exists m. rewrite Hchoice in H1.
      rewrite (terrain_water _ _ (Hterr2 m)) in H2. split; [done|]. split; [done|].
      cbn. intros Hi. apply elem_of_cons in Hi as [->|Hi]; [congruence|done].
    + destruct Hend as (m & H1 & H2 & H3). exists m. rewrite Hchoice in H1.
      rewrite (terrain_water _ _ (Hterr2 m)) in H2.
      rewrite !(terrain_elevation _ _ (Hterr2 _)) in H3. done.
    + destruct Hend as (m & H1 & H2 & H3). exists m. rewrite Hchoice in H1.
      rewrite (terrain_water _ _ (Hterr2 m)) in H2.
      rewrite !(terrain_elevation _ _ (Hterr2 _)) in H3. done.
Qed.

(** C6, as amended.  A river walk from a land tile of a grid in row-major
    order makes at most 80 turns.  [turns] lists, in the order of the walk,
    the tile it stands on and the random stream at the start of each turn;
    these tiles are the ones it marks, at most 80 and all land, and nothing
    but their river flag changes.  From one turn to the next the walk moves
    to the neighbour that [min] chose, [river_choice], which is land and
    not higher.  The walk ends on a tile without neighbours, or when the
    neighbour chosen is water (which it does not mark), or when the
    neighbour chosen is higher than the tile it stands on, or else after
    its 80th turn, at which the neighbour chosen was land and not higher.
    No later stage changes a river flag. *)
Theorem river_walk_bounded (g g' : Gen) (start : nat) (e : option WalkEnd) :
  grid_ok g -> (start < length (tiles g))%nat ->
  Tile.water (tile_at g start) = false ->
  river_walk 80 (Tile.x (tile_at g start)) (Tile.y (tile_at g start)) g = (g', e) ->
  (exists (turns : list (nat * Random)) (cur : nat) (rg : Random),
     head turns = Some (start, rng g)
     ∧ last turns = Some (cur, rg)
     ∧ (length turns <= 80)%nat
     ∧ (e = None -> length turns = 80%nat)
     ∧ (forall k a b, turns !! k = Some a -> turns !! S k = Some b ->
          river_choice g a.1 a.2 = Some b
          ∧ b.1 ∈ _neighbors g (Tile.x (tile_at g a.1)) (Tile.y (tile_at g a.1))
          ∧ Tile.water (tile_at g b.1) = false
          ∧ PrimFloat.ltb (Tile.elevation (tile_at g a.1))
              (Tile.elevation (tile_at g b.1)) = false)
     ∧ (forall i, i ∈ turns.*1 ->
          (i < length (tiles g))%nat ∧ Tile.water (tile_at g i) = false)
     ∧ (forall i, Tile.river (tile_at g' i)
                  = if bool_decide (i ∈ turns.*1) then true else Tile.river (tile_at g i))
     ∧ (forall i, terrain (tile_at g' i) = terrain (tile_at g i))
     ∧ match e with
       | Some NoNeighbors =>
           _neighbors g (Tile.x (tile_at g cur)) (Tile.y (tile_at g cur)) = []
           ∧ rng g' = rg
       | Some ReachedWater =>
           exists n, river_choice g cur rg = Some (n, rng g')
             ∧ n ∈ _neighbors g (Tile.x (tile_at g cur)) (Tile.y (tile_at g cur))
             ∧ Tile.water (tile_at g n) = true ∧ n ∉ turns.*1
       | Some LocalMinimum =>
           exists n, river_choice g cur rg = Some (n, rng g')
             ∧ n ∈ _neighbors g (Tile.x (tile_at g cur)) (Tile.y (tile_at g cur))
             ∧ Tile.water (tile_at g n) = false
             ∧ PrimFloat.ltb (Tile.elevation (tile_at g cur))
                 (Tile.elevation (tile_at g n)) = true
       | None =>
           exists n, river_choice g cur rg = Some (n, rng g')
             ∧ n ∈ _neighbors g (Tile.x (tile_at g cur)) (Tile.y (tile_at g cur))
             ∧ Tile.water (tile_at g n) = false
             ∧ PrimFloat.ltb (Tile.elevation (tile_at g cur))
                 (Tile.elevation (tile_at g n)) = false
       end)
  ∧ (forall a b, later_stage a b ->
       forall i, Tile.river (tile_at b i) = Tile.river (tile_at a i)).
Proof.
  intros Hok Hlt Hland Hwalk. split.
  - destruct (river_walk_turns 80 g g' start e Hok Hlt Hland Hwalk)
      as [(H80 & _)|(turns & cur & rg & Hhead & Hlast & Hlen & Hnone & Hlink & Hmarked
                     & Hriv & Hterr & _ & Hend)]; [done|].
    exists turns, cur, rg. do 4 (split; [assumption|]).
    split.
    { intros k a b Ha Hb. destruct (Hlink k a b Ha Hb) as (H1 & H2 & H3).
      split; [exact H1|]. split; [|done].
      destruct b as [n r]. by apply (river_choice_elem g a.1 n a.2 r). }
    do 3 (split; [assumption|]).
    destruct e as [[| |]|].
    + destruct Hend as [H1 H2]. split; [by apply (river_choice_None g cur rg)|exact H2].
    + destruct Hend as (n & H1 & H2 & H3). exists n. split; [exact H1|].
      split; [by apply (river_choice_elem g cur n rg (rng g'))|done].
    + destruct Hend as (n & H1 & H2 & H3). exists n. split; [exact H1|].
      split; [by apply (river_choice_elem g cur n rg (rng g'))|done].
    + destruct Hend as (n & H1 & H2 & H3). exists n. split; [exact H1|].
      split; [by apply (river_choice_elem g cur n rg (rng g'))|done].
  - intros a b Hab i. apply later_stage_frame in Hab as [Hrel _].
    by apply (tiles_rel_at_all land_kept a b i land_kept_refl).
Qed.

(** The state in which [_carve_rivers] starts its first walk on the island,
    the sources shuffled, and the tile the walk starts from. *)
Definition island_springs : Gen :=
  Eval vm_compute in
    match continent_grid island with
    | Ok g =>
        let g := _enforce_continent_connectivity g in
        set_rng (snd (shuffle (river_sources g) (rng g))) g
    | Raise _ => island
    end.

Definition island_spring : nat :=
  Eval vm_compute in
    match continent_grid island with
    | Ok g =>
        let g := _enforce_continent_connectivity g in
        hd 0%nat (fst (shuffle (river_sources g) (rng g)))
    | Raise _ => 0%nat
    end.

Definition island_walked : Gen :=
  Eval vm_compute in
    fst (river_walk 80 (Tile.x (tile_at island_springs island_spring))
           (Tile.y (tile_at island_springs island_spring)) island_springs).

Lemma island_springs_grid_ok : grid_ok island_springs.
Proof. vm_compute. reflexivity. Qed.

(** The first walk on the island ends on water. *)
Lemma island_walk :
  river_walk 80 (Tile.x (tile_at island_springs island_spring))
    (Tile.y (tile_at island_springs island_spring)) island_springs
  = (island_walked, Some ReachedWater).
Proof. vm_compute. reflexivity. Qed.

Lemma river_walk_bounded_witness :
  grid_ok island_springs
  ∧ (island_spring < length (tiles island_springs))%nat
  ∧ Tile.water (tile_at island_springs island_spring) = false
  ∧ river_walk 80 (Tile.x (tile_at island_springs island_spring))
      (Tile.y (tile_at island_springs island_spring)) island_springs
    = (island_walked, Some ReachedWater)
  ∧ (exists (turns : list (nat * Random)) (cur : nat) (rg : Random),
       head turns = Some (island_spring, rng island_springs)
       ∧ last turns = Some (cur, rg)
       ∧ (length turns <= 80)%nat
       ∧ (Some ReachedWater = None -> length turns = 80%nat)
       ∧ (forall k a b, turns !! k = Some a -> turns !! S k = Some b ->
            river_choice island_springs a.1 a.2 = Some b
            ∧ b.1 ∈ _neighbors island_springs (Tile.x (tile_at island_springs a.1))
                      (Tile.y (tile_at island_springs a.1))
            ∧ Tile.water (tile_at island_springs b.1) = false
            ∧ PrimFloat.ltb (Tile.elevation (tile_at island_springs a.1))
                (Tile.elevation (tile_at island_springs b.1)) = false)
       ∧ (forall i, i ∈ turns.*1 ->
            (i < length (tiles island_springs))%nat
            ∧ Tile.water (tile_at island_springs i) = false)
       ∧ (forall i, Tile.river (tile_at island_walked i)
                    = if bool_decide (i ∈ turns.*1) then true
                      else Tile.river (tile_at island_springs i))
       ∧ (forall i, terrain (tile_at island_walked i) = terrain (tile_at island_springs i))
       ∧ exists n, river_choice island_springs cur rg = Some (n, rng island_walked)
           ∧ n ∈ _neighbors island_springs (Tile.x (tile_at island_springs cur))
                   (Tile.y (tile_at island_springs cur))
           ∧ Tile.water (tile_at island_springs n) = true ∧ n ∉ turns.*1)
    ∧ (forall a b, later_stage a b ->
         forall i, Tile.river (tile_at b i) = Tile.river (tile_at a i)).
Proof.
  assert (H1 : (island_spring < length (tiles island_springs))%nat) by (vm_compute; lia).
  assert (H2 : Tile.water (tile_at island_springs island_spring) = false)
    by (vm_compute; reflexivity).
  split; [exact island_springs_grid_ok|]. split; [exact H1|]. split; [exact H2|].
  split; [exact island_walk|].
  exact (river_walk_bounded island_springs island_walked island_spring (Some ReachedWater)
           island_springs_grid_ok H1 H2 island_walk).
Defined.

(** A plateau: archipelago mode on two by two tiles, both blobs of radius
    just under 16 with their centres at (0, 0) and (1, 1), the noise of every
    tile at its largest.  All four elevations are clamped to 1.0. *)
Definition plateau_tape (i : nat) : Z :=
  match i with
  | 0%nat | 1%nat => 0
  | 3%nat | 4%nat => 1
  | 2%nat | 5%nat | 6%nat | 8%nat | 10%nat | 12%nat => top
  | _ => half
  end.

Definition plateau : Gen :=
  mkGen 2 2 0 0.35 archipelago 0 (mkRandom plateau_tape 0) demo_namer exact_pow2 [] [] [] [] [] [].

(** The state in which [_carve_rivers] starts its first walk on the plateau:
    the grid as built, the sources shuffled. *)
Definition plateau_grid : Gen :=
  Eval vm_compute in
    match archipelago_grid plateau with
    | Ok g => set_rng (snd (shuffle (river_sources g) (rng g))) g
    | Raise _ => plateau
    end.

Definition plateau_start : nat :=
  Eval vm_compute in
    match archipelago_grid plateau with
    | Ok g => hd 0%nat (fst (shuffle (river_sources g) (rng g)))
    | Raise _ => 0%nat
    end.

(** C6 as the claim states it fails on the plateau: the first walk of
    [_carve_rivers] starts on a land tile, never has water among its
    neighbours and never a higher neighbour, and ends only because its 80
    turns are used up. *)
Lemma river_walk_uses_up_its_turns :
  exists g1 starts rg g',
    archipelago_grid plateau = Ok g1
    ∧ shuffle (river_sources g1) (rng g1) = (starts, rg)
    ∧ head starts = Some plateau_start
    ∧ set_rng rg g1 = plateau_grid
    ∧ Forall (fun t => Tile.water t = false ∧ Tile.elevation t = 1%float) (tiles plateau_grid)
    ∧ river_walk 80 (Tile.x (tile_at plateau_grid plateau_start))
        (Tile.y (tile_at plateau_grid plateau_start)) plateau_grid = (g', None).
Proof.
  eexists _, _, _, _. split; [vm_compute; reflexivity|].
  split; [vm_compute; reflexivity|]. split; [vm_compute; reflexivity|].
  split; [vm_compute; reflexivity|]. split.
  - repeat constructor.
  - vm_compute. reflexivity.
Qed.

(** ** Spawning realms (claim C7) *)

Lemma randbelow_range n r : 0 < n -> 0 <= fst (randbelow n r) < n.
Proof.
  intros Hn. unfold randbelow. destruct (next_raw r) as [v r']. cbn.
  by apply Z.mod_pos_bound.
Qed.

Lemma randint_Ok a b r :
  a <= b -> exists v r', randint a b r = Ok (v, r') ∧ a <= v <= b.
Proof.
  intros Hab. unfold randint. destruct (Z.ltb_spec b a); [lia|].
  pose proof (randbelow_range (b - a + 1) r) as Hr.
  destruct (randbelow (b - a + 1) r) as [v r']. cbn in Hr.
  exists (a + v), r'. split; [done|lia].
Qed.

Lemma randint_range a b r v r' : randint a b r = Ok (v, r') -> a <= v <= b.
Proof.
  unfold randint. destruct (Z.ltb_spec b a); [done|].
  pose proof (randbelow_range (b - a + 1) r) as Hr.
  destruct (randbelow (b - a + 1) r) as [w rg]. cbn in Hr.
  intros [= <- _]. lia.
Qed.

Lemma choice_nonempty {A} (l : list A) r :
  l ≠ [] -> exists a r', choice l r = Ok (a, r').
Proof.
  destruct l as [|a0 l]; [done|]. intros _. unfold choice.
  destruct (randbelow _ r) as [j r']. by eexists _, _.
Qed.

Lemma bind_Ok_l {A B} (a : A) (k : A -> Res B) : (Ok a ≫= k) = k a.
Proof. done. Qed.

Lemma make_realm_name_Ok index g :
  exists name r, _make_realm_name index g = Ok (name, set_rng r g).
Proof.
  unfold _make_realm_name.
  destruct (choice_nonempty realm_prefixes (rng g)) as (p & r1 & H1); [done|].
  destruct (choice_nonempty realm_suffixes r1) as (s & r2 & H2); [done|].
  rewrite H1, bind_Ok_l, H2, bind_Ok_l. by eexists _, _.
Qed.

Lemma random_color_Ok g :
  exists c r, _random_color g = Ok (c, set_rng r g).
Proof.
  unfold _random_color.
  destruct (randint_Ok 80 220 (rng g)) as (v1 & r1 & H1 & _); [lia|].
  destruct (randint_Ok 80 220 r1) as (v2 & r2 & H2 & _); [lia|].
  destruct (randint_Ok 80 220 r2) as (v3 & r3 & H3 & _); [lia|].
  rewrite H1, bind_Ok_l, H2, bind_Ok_l, H3, bind_Ok_l. by eexists _, _.
Qed.

(** [found_realm] cannot raise; it draws, records the realm under [rid] and
    hands it the tile. *)
Lemma found_realm_Ok rid index ti g :
  exists realm r,
    Realm.id realm = rid
    ∧ found_realm rid index ti g
      = Ok (update_tile ti (Tile.set_realm_id (Some rid))
              (set_realms (dict_set (realms g) rid realm) (set_rng r g))).
Proof.
  unfold found_realm.
  destruct (make_realm_name_Ok index g) as (name & r1 & H1). rewrite H1, bind_Ok_l.
  destruct (random_color_Ok (set_rng r1 g)) as (c & r2 & H2). rewrite H2, bind_Ok_l.
  exists (new_realm rid name c 0 "lowland" []), r2. split; reflexivity.
Qed.

Lemma realm_id_of_inj a b : realm_id_of a = realm_id_of b -> a = b.
Proof.
  unfold realm_id_of, str_of_Z. cbn. intros [= H]. by apply (inj pretty).
Qed.

Lemma realm_id_of_nonempty a : realm_id_of a ≠ "".
Proof. done. Qed.

(** The keys [realm_1], ..., [realm_n] of a dictionary of [n] realms that
    were all added under the next free number. *)
Definition numbered (d : Dict Realm.t) : Prop :=
  dict_keys d = map (fun k => realm_id_of (Z.of_nat k)) (seq 1 (length d)).

Lemma numbered_fresh d : numbered d -> dict_mem d (realm_id_of (Z.of_nat (length d) + 1)) = false.
Proof.
  intros Hd. unfold dict_mem.
  destruct (dict_get d _) eqn:Hget; [|done].
  apply dict_get_Some_elem in Hget.
  assert (Hk : realm_id_of (Z.of_nat (length d) + 1) ∈ dict_keys d).
  { apply list_elem_of_fmap. eexists; split; [|exact Hget]. done. }
  rewrite Hd in Hk. apply list_elem_of_fmap in Hk as (k & Hk & Hin).
  apply realm_id_of_inj in Hk. apply elem_of_seq in Hin. lia.
Qed.

Lemma dict_set_length_fresh {V} (d : Dict V) k v :
  dict_mem d k = false -> length (dict_set d k v) = S (length d).
Proof.
  intros H. pose proof (dict_keys_set d k v) as Hk. rewrite H in Hk.
  unfold dict_keys in Hk. apply (f_equal length) in Hk.
  rewrite length_app, !length_map in Hk. cbn in Hk. lia.
Qed.

Lemma numbered_add d realm :
  numbered d ->
  numbered (dict_set d (realm_id_of (Z.of_nat (length d) + 1)) realm).
Proof.
  intros Hd. pose proof (numbered_fresh d Hd) as Hf.
  unfold numbered. rewrite dict_keys_set, Hf, (dict_set_length_fresh _ _ _ Hf).
  rewrite seq_S, map_app, <- Hd. cbn. do 3 f_equal. lia.
Qed.

Definition coords (g : Gen) (i : nat) : Z * Z :=
  (Tile.x (tile_at g i), Tile.y (tile_at g i)).

Lemma manhattan_sym a b : manhattan a b = manhattan b a.
Proof. unfold manhattan. lia. Qed.

(** The state of the spawning loop after it has looked at the first [k]
    entries of the pool: [seeds] are the tiles it accepted, in order. *)
Record spawn_inv (g0 g : Gen) (fertile : list nat) (target : Z) (k : nat)
    (used : list (Z * Z)) (seeds : list nat) : Prop := {
  si_used : used = map (coords g0) seeds;
  si_nodup : NoDup seeds;
  si_prefix : forall i, i ∈ seeds -> i ∈ take k fertile;
  si_far : forall i j, i ∈ seeds -> j ∈ seeds -> i ≠ j ->
             6 <= manhattan (coords g0 i) (coords g0 j);
  si_owned : forall i, Tile.realm_id (tile_at g i) ≠ None <-> i ∈ seeds;
  si_numbered : numbered (realms g);
  si_count : length (realms g) = length seeds;
  si_bound : Z.of_nat (length (realms g)) <= target;
  si_terrain : forall i, terrain (tile_at g i) = terrain (tile_at g0 i);
  si_len : length (tiles g) = length (tiles g0);
}.

Lemma take_mono {A} (l : list A) (k k' : nat) (a : A) :
  (k <= k')%nat -> a ∈ take k l -> a ∈ take k' l.
Proof.
  intros Hk Ha. apply elem_of_take in Ha as (i & Hi & Hlt).
  apply elem_of_take. exists i. split; [done|lia].
Qed.

Lemma spawn_inv_skip g0 g fertile target k k' used seeds :
  (k <= k')%nat -> spawn_inv g0 g fertile target k used seeds ->
  spawn_inv g0 g fertile target k' used seeds.
Proof.
  intros Hk [H1 H2 H3 H4 H5 H6 H7 H8 H9 H10]. constructor; try done.
  intros i Hi. eapply take_mono; [exact Hk|by apply H3].
Qed.

(** Accepting the pool entry [k], the tile [ti], keeps the invariant. *)
Lemma spawn_inv_accept g0 g fertile target k used seeds ti realm r :
  spawn_inv g0 g fertile target k used seeds ->
  fertile !! k = Some ti -> (ti < length (tiles g0))%nat ->
  Z.of_nat (length (realms g)) < target ->
  existsb (fun u => manhattan (coords g ti) u <? 6) used = false ->
  spawn_inv g0
    (update_tile ti (Tile.set_realm_id (Some (realm_id_of (Z.of_nat (length (realms g)) + 1))))
       (set_realms
          (dict_set (realms g) (realm_id_of (Z.of_nat (length (realms g)) + 1)) realm)
          (set_rng r g)))
    fertile target (S k) (used ++ [coords g ti]) (seeds ++ [ti]).
Proof.
  intros [H1 H2 H3 H4 H5 H6 H7 H8 H9 H10] Hk Hlt Hroom Hfar.
  assert (Hc : coords g ti = coords g0 ti).
  { unfold coords. by destruct (terrain_coords _ _ (H9 ti)) as [-> ->]. }
  assert (Hfar' : forall j, j ∈ seeds -> 6 <= manhattan (coords g0 ti) (coords g0 j)).
  { intros j Hj. rewrite <- Hc.
    destruct (Z.ltb_spec (manhattan (coords g ti) (coords g0 j)) 6) as [Hlt6|]; [|done].
    exfalso. assert (Ht : existsb (fun u => manhattan (coords g ti) u <? 6) used = true);
      [|congruence].
    apply existsb_exists. exists (coords g0 j). split.
    - rewrite H1. apply in_map. by apply list_elem_of_In.
    - by apply Z.ltb_lt. }
  assert (Hnew : ti ∉ seeds).
  { intros Hin. specialize (Hfar' ti Hin). unfold manhattan in Hfar'. lia. }
  pose proof (numbered_fresh _ H6) as Hfresh.
  constructor.
  - by rewrite map_app, H1, Hc.
  - apply NoDup_app. repeat split; [done| |apply NoDup_singleton].
    intros i Hi Hi'. apply list_elem_of_singleton in Hi' as ->. done.
  - intros i Hi. apply elem_of_app in Hi as [Hi|Hi].
    + eapply take_mono; [|by apply H3]. lia.
    + apply list_elem_of_singleton in Hi as ->. apply elem_of_take. exists k. split; [done|lia].
  - intros i j Hi Hj Hne.
    apply elem_of_app in Hi as [Hi|Hi]; apply elem_of_app in Hj as [Hj|Hj].
    + by apply H4.
    + apply list_elem_of_singleton in Hj as ->. rewrite manhattan_sym. by apply Hfar'.
    + apply list_elem_of_singleton in Hi as ->. by apply Hfar'.
    + apply list_elem_of_singleton in Hi as ->. apply list_elem_of_singleton in Hj as ->. done.
  - intros i. rewrite tile_at_alter, elem_of_app, list_elem_of_singleton.
    change (tile_at (set_realms ?d (set_rng r g)) i) with (tile_at g i).
    change (tiles (set_realms ?d (set_rng r g))) with (tiles g).
    destruct (decide (ti = i)) as [<-|Hne].
    + destruct (decide (ti < length (tiles g))%nat) as [_|Hge]; [|lia].
      cbn. split; [by right|done].
    + rewrite H5. split; [by left|]. intros [?|?]; [done|congruence].
  - cbn. by apply numbered_add.
  - cbn. rewrite (dict_set_length_fresh _ _ _ Hfresh), length_app, H7. cbn. lia.
  - cbn. rewrite (dict_set_length_fresh _ _ _ Hfresh). lia.
  - intros i. rewrite tile_at_alter.
    change (tile_at (set_realms ?d (set_rng r g)) i) with (tile_at g i).
    destruct (decide (ti = i)); [|apply H9].
    destruct (decide _); [|apply H9]. rewrite <- H9. done.
  - rewrite length_update_tile. exact H10.
Qed.

Lemma spawn_loop_spec g0 fertile target :
  (forall ti, ti ∈ fertile -> (ti < length (tiles g0))%nat) ->
  forall n k used seeds g,
    spawn_inv g0 g fertile target k used seeds ->
    exists g' used' seeds',
      spawn_loop (seq k n) fertile target used g = Ok g'
      ∧ spawn_inv g0 g' fertile target (k + n) used' seeds'.
Proof.
  intros Hfert. induction n as [|n IH]; intros k used seeds g Hinv.
  { exists g, used, seeds. split; [done|]. by rewrite Nat.add_0_r. }
  cbn [seq spawn_loop].
  destruct (Z.geb_spec (Z.of_nat (length (realms g))) target) as [Hfull|Hroom].
  { exists g, used, seeds. split; [done|]. eapply spawn_inv_skip; [|exact Hinv]. lia. }
  destruct (fertile !! k) as [ti|] eqn:Hk.
  2:{ exists g, used, seeds. split; [done|]. eapply spawn_inv_skip; [|exact Hinv]. lia. }
  change (Tile.x (tile_at g ti), Tile.y (tile_at g ti)) with (coords g ti).
  destruct (existsb _ used) eqn:Hnear.
  - destruct (IH (S k) used seeds g) as (g' & used' & seeds' & Hrun & Hinv').
    { eapply spawn_inv_skip; [|exact Hinv]. lia. }
    exists g', used', seeds'. split; [exact Hrun|].
    by replace (k + S n)%nat with (S k + n)%nat by lia.
  - destruct (found_realm_Ok (realm_id_of (Z.of_nat (length (realms g)) + 1))
                (Z.of_nat (length (realms g))) ti g) as (realm & r & _ & Hfound).
    rewrite Hfound, bind_Ok_l.
    destruct (IH (S k) (used ++ [coords g ti]) (seeds ++ [ti])
                (update_tile ti
                   (Tile.set_realm_id (Some (realm_id_of (Z.of_nat (length (realms g)) + 1))))
                   (set_realms
                      (dict_set (realms g) (realm_id_of (Z.of_nat (length (realms g)) + 1)) realm)
                      (set_rng r g))))
      as (g' & used' & seeds' & Hrun & Hinv').
    { apply spawn_inv_accept; try done.
      apply Hfert. by eapply list_elem_of_lookup_2. }
    exists g', used', seeds'. split; [exact Hrun|].
    by replace (k + S n)%nat with (S k + n)%nat by lia.
Qed.

(** No tile of the finished grid belongs to a realm. *)
Lemma finished_tile_unowned m sl c t : finished_tile m sl c t -> Tile.realm_id t = None.
Proof.
  intros (t0 & t1 & [e [mo ->]] & Hd & (_ & Hr & _)). rewrite Hr.
  destruct Hd as [->|[_ ->]]; reflexivity.
Qed.

Lemma grid_stage_unowned g g' i :
  tiles g = [] -> _generate_base_tiles g = Ok g' -> Tile.realm_id (tile_at g' i) = None.
Proof.
  intros Hnil H. destruct (generate_base_tiles_spec g g' Hnil H) as (_ & _ & Hall).
  unfold tile_at. destruct (tiles g' !! i) as [t|] eqn:Ht.
  - rewrite (list_lookup_total_correct _ _ _ Ht).
    destruct (Forall2_lookup_r _ _ _ _ _ Hall Ht) as (c & _ & Hc).
    by eapply finished_tile_unowned.
  - by rewrite list_lookup_total_alt, Ht.
Qed.

Lemma target_realms_range g : 2 <= target_realms_of g <= 6.
Proof. unfold target_realms_of. lia. Qed.

(** The spawning stage from a state without realms and without owned
    tiles: it returns, and the loop invariant holds of what it returns for
    the whole range of attempts. *)
Lemma spawn_realms_inv g pool rg :
  realms g = [] -> (forall i, Tile.realm_id (tile_at g i) = None) ->
  shuffle (fertile_indices g) (rng g) = (pool, rg) ->
  exists g' used seeds,
    _spawn_initial_realms g = Ok g'
    ∧ spawn_inv g g' pool (target_realms_of g) (Z.to_nat (target_realms_of g * 2)) used seeds
    ∧ (pool ≠ [] -> seeds ≠ []).
Proof.
  intros Hnone Hfree Hsh. unfold _spawn_initial_realms. rewrite Hsh.
  pose proof (target_realms_range g) as Htarget.
  assert (Hpool : forall ti, ti ∈ pool -> (ti < length (tiles g))%nat).
  { intros ti Hti. apply (shuffle_elem _ _ _ _ _ Hsh) in Hti.
    by apply fertile_indices_elem in Hti as [? _]. }
  assert (Hinv0 : spawn_inv g (set_rng rg g) pool (target_realms_of g) 0 [] []).
  { constructor; cbn; try done.
    - constructor.
    - intros i j Hi. by apply elem_of_nil in Hi.
    - intros i. change (tile_at (set_rng rg g) i) with (tile_at g i). rewrite Hfree.
      split; [done|]. intros Hi. by apply elem_of_nil in Hi.
    - by rewrite Hnone.
    - by rewrite Hnone.
    - rewrite Hnone. cbn. lia. }
  destruct (spawn_loop_spec g pool (target_realms_of g) Hpool
              (Z.to_nat (target_realms_of g * 2)) 0 [] [] (set_rng rg g) Hinv0)
    as (g1 & used & seeds & Hrun & Hinv).
  change (target_realms_of (set_rng rg g)) with (target_realms_of g).
  rewrite Hrun, bind_Ok_l. cbn [Nat.add] in Hinv.
  destruct (realms g1) as [|entry rs] eqn:Hr.
  - destruct pool as [|ti rest].
    + exists g1, used, seeds. split; [done|]. split; [exact Hinv|done].
    + destruct (found_realm_Ok "realm_1" 0 ti g1) as (realm & r & _ & Hfound).
      rewrite Hr in Hfound. rewrite Hfound.
      assert (Hempty : seeds = []).
      { apply nil_length_inv. by rewrite <- (si_count _ _ _ _ _ _ _ Hinv), Hr. }
      pose proof (spawn_inv_accept g g1 (ti :: rest) (target_realms_of g) 0 used seeds
                    ti realm r) as Hacc.
      rewrite Hr in Hacc. subst seeds.
      pose proof (si_used _ _ _ _ _ _ _ Hinv) as Hused. cbn in Hused. subst used.
      change (realm_id_of (Z.of_nat (@length (string * Realm.t) []) + 1))
        with "realm_1" in Hacc.
      eexists _, _, [ti]. split; [reflexivity|]. split; [|done].
      eapply spawn_inv_skip; [|apply Hacc; try done].
      * lia.
      * destruct Hinv as [H1 H2 H3 H4 H5 H6 H7 H8 H9 H10]. by constructor.
      * apply Hpool. by left.
      * cbn. lia.
  - exists g1, used, seeds. split; [done|]. split; [exact Hinv|].
    intros _ ->. pose proof (si_count _ _ _ _ _ _ _ Hinv) as Hc. by rewrite Hr in Hc.
Qed.

(** C7.  Spawning realms on the grid that the first stage built, [pool]
    being the shuffled fertile tiles and [target] the number
    [max 2 (min 6 (area / 1200))]: the call returns; the tiles that got a
    realm are the seeds, fertile land each; two distinct seeds are at
    Manhattan distance 6 or more; there are as many realms as seeds, and at
    most [target]; every seed is one of the first [2 * target] entries of
    the pool; and where there is a fertile tile there is a realm. *)
Theorem spawn_realms_spec (g0 g : Gen) :
  fresh g0 -> _generate_base_tiles g0 = Ok g ->
  let pool := (shuffle (fertile_indices g) (rng g)).1 in
  let target := Z.max 2 (Z.min 6 (width g * height g / 1200)) in
  exists g' seeds,
    _spawn_initial_realms g = Ok g'
    ∧ NoDup seeds
    ∧ (forall i, Tile.realm_id (tile_at g' i) ≠ None <-> i ∈ seeds)
    ∧ (forall i, i ∈ seeds ->
         Tile.water (tile_at g i) = false
         ∧ Tile.biome (tile_at g i) ∈ [grassland; temperate_forest; wetlands])
    ∧ (forall i j, i ∈ seeds -> j ∈ seeds -> i ≠ j ->
         6 <= Z.abs (Tile.x (tile_at g i) - Tile.x (tile_at g j))
              + Z.abs (Tile.y (tile_at g i) - Tile.y (tile_at g j)))
    ∧ length (realms g') = length seeds
    ∧ Z.of_nat (length (realms g')) <= target
    ∧ (forall i, i ∈ seeds -> i ∈ take (Z.to_nat (2 * target)) pool)
    ∧ (fertile_indices g ≠ [] -> realms g' ≠ []).
Proof.
  intros [Hnil Hcoll] Hbase pool target.
  destruct (generate_base_tiles_spec g0 g Hnil Hbase) as (_ & Hc & _).
  assert (Hnone : realms g = []).
  { rewrite Hcoll in Hc. unfold collections in Hc. congruence. }
  destruct (shuffle (fertile_indices g) (rng g)) as [fertile rg] eqn:Hsh.
  destruct (spawn_realms_inv g fertile rg Hnone
              (fun i => grid_stage_unowned g0 g i Hnil Hbase) Hsh)
    as (g' & used & seeds & Hrun & Hinv & Hsome).
  destruct Hinv as [_ Hnd Hprefix Hfar Howned _ Hcount Hbound _ _].
  exists g', seeds. split; [exact Hrun|]. split; [exact Hnd|]. split; [exact Howned|].
  split; [|split; [|split; [|split; [|split]]]].
  - intros i Hi. apply Hprefix, elem_of_take in Hi as (k & Hk & _).
    apply list_elem_of_lookup_2 in Hk. apply (shuffle_elem _ _ _ _ _ Hsh) in Hk.
    apply fertile_indices_elem in Hk as (_ & Hw & Hb). split; [exact Hw|].
    destruct (Tile.biome (tile_at g i)); try discriminate; repeat constructor.
  - intros i j Hi Hj Hne. exact (Hfar i j Hi Hj Hne).
  - exact Hcount.
  - exact Hbound.
  - intros i Hi. subst pool target. cbn [fst].
    replace (2 * _) with (target_realms_of g * 2) by (unfold target_realms_of; lia).
    by apply Hprefix.
  - intros Hf. assert (Hp : fertile ≠ []).
    { intros ->. apply shuffle_length in Hsh. by destruct (fertile_indices g). }
    intros Hr. apply (Hsome Hp), nil_length_inv. by rewrite <- Hcount, Hr.
Qed.

(** A continent of twenty by ten tiles over a hundred years, its draws
    taken from a linear congruence: three realms, six settlements, three
    roads and one ruin. *)
Definition vale_tape (i : nat) : Z :=
  Z.of_N (N.land ((N.of_nat i + 1) * 2862933555777941757 + 3037000493) 9007199254740991).

Definition vale : Gen :=
  mkGen 20 10 100 0x1.6666666666666p-2 continent 0 (mkRandom vale_tape 0) demo_namer exact_pow2
    [] [] [] [] [] [].

(** What a call returned, [d] standing in where it raised. *)
Definition value_or {A} (d : A) (m : Res A) : A :=
  match m with Ok a => a | Raise _ => d end.

Definition vale_grid : Gen := Eval vm_compute in value_or vale (_generate_base_tiles vale).

Lemma vale_fresh : fresh vale.
Proof. by split. Qed.

Lemma vale_grid_built : _generate_base_tiles vale = Ok vale_grid.
Proof. vm_compute. reflexivity. Qed.

Lemma spawn_realms_spec_witness :
  exists g' seeds,
    _spawn_initial_realms vale_grid = Ok g'
    ∧ NoDup seeds
    ∧ (forall i, Tile.realm_id (tile_at g' i) ≠ None <-> i ∈ seeds)
    ∧ (forall i, i ∈ seeds ->
         Tile.water (tile_at vale_grid i) = false
         ∧ Tile.biome (tile_at vale_grid i) ∈ [grassland; temperate_forest; wetlands])
    ∧ (forall i j, i ∈ seeds -> j ∈ seeds -> i ≠ j ->
         6 <= Z.abs (Tile.x (tile_at vale_grid i) - Tile.x (tile_at vale_grid j))
              + Z.abs (Tile.y (tile_at vale_grid i) - Tile.y (tile_at vale_grid j)))
    ∧ length (realms g') = length seeds
    ∧ Z.of_nat (length (realms g'))
      <= Z.max 2 (Z.min 6 (width vale_grid * height vale_grid / 1200))
    ∧ (forall i, i ∈ seeds ->
         i ∈ take (Z.to_nat (2 * Z.max 2 (Z.min 6 (width vale_grid * height vale_grid / 1200))))
               (shuffle (fertile_indices vale_grid) (rng vale_grid)).1)
    ∧ (fertile_indices vale_grid ≠ [] -> realms g' ≠ []).
Proof. exact (spawn_realms_spec vale vale_grid vale_fresh vale_grid_built). Defined.

(** ** The expansion pass (claim C5) *)

(** The inner loop of a pass: the neighbours of the visited tile [t]. *)
Definition visit_tile (rid : string) (size : Z) (tbr : Dict (list nat))
    (acc : Gen * Z) (t : nat) : Gen * Z :=
  fold_left (annex_neighbor rid size tbr)
    (_neighbors acc.1 (Tile.x (tile_at acc.1 t)) (Tile.y (tile_at acc.1 t))) acc.

Lemma expand_loop_cons rid size d tbr t rest g grown attempts :
  expand_loop rid size d tbr (t :: rest) g grown attempts
  = if grown >=? d then (g, grown, attempts)
    else
      let r := visit_tile rid size tbr (g, grown) t in
      if attempts + 1 >? d * 6 then (r.1, r.2, attempts + 1)
      else expand_loop rid size d tbr rest r.1 r.2 (attempts + 1).
Proof.
  cbn [expand_loop]. destruct (grown >=? d); [done|].
  unfold visit_tile. cbn [fst snd]. by destruct (fold_left _ _ _) as [g1 grown1].
Qed.

Lemma neighbors_length (g : Gen) (x y : Z) : (length (_neighbors g x y) <= 4)%nat.
Proof.
  unfold _neighbors. cbn [flat_map]. rewrite !length_app.
  repeat match goal with |- context [if ?c then _ else _] => destruct c end; cbn; lia.
Qed.

(** What a pass of the realm [rid] may do to the tiles: a tile keeps its
    owner, or it is land, no mountain, and goes from another owner or from
    none to [rid]. *)
Definition annexed_by (rid : string) (g g' : Gen) : Prop :=
  config g' = config g ∧ collections g' = collections g
  ∧ length (tiles g') = length (tiles g)
  ∧ forall i, terrain (tile_at g' i) = terrain (tile_at g i)
      ∧ (Tile.realm_id (tile_at g' i) = Tile.realm_id (tile_at g i)
         ∨ (Tile.realm_id (tile_at g' i) = Some rid
            ∧ Tile.realm_id (tile_at g i) ≠ Some rid
            ∧ Tile.water (tile_at g i) = false
            ∧ Tile.biome (tile_at g i) ≠ mountain)).

Lemma annexed_by_refl rid g : annexed_by rid g g.
Proof. repeat split; auto. Qed.

Lemma annexed_by_trans rid g1 g2 g3 :
  annexed_by rid g1 g2 -> annexed_by rid g2 g3 -> annexed_by rid g1 g3.
Proof.
  intros (Hc1 & Hk1 & Hl1 & H1) (Hc2 & Hk2 & Hl2 & H2).
  split; [congruence|]. split; [congruence|]. split; [congruence|]. intros i.
  destruct (H1 i) as [Ht1 Hr1], (H2 i) as [Ht2 Hr2]. split; [congruence|].
  destruct Hr2 as [Hsame|(Hnew & Hold & Hw & Hb)].
  - rewrite Hsame. exact Hr1.
  - right. rewrite (terrain_water _ _ Ht1) in Hw. rewrite (terrain_biome _ _ Ht1) in Hb.
    repeat split; try done. destruct Hr1 as [Hsame|(Hnew1 & _)]; congruence.
Qed.

Lemma annexed_by_draw rid g rg : annexed_by rid g (set_rng rg g).
Proof. repeat split; auto. Qed.

Lemma annexed_by_claim rid g n :
  Tile.water (tile_at g n) = false -> Tile.biome (tile_at g n) ≠ mountain ->
  Tile.realm_id (tile_at g n) ≠ Some rid ->
  annexed_by rid g (update_tile n (Tile.set_realm_id (Some rid)) g).
Proof.
  intros Hw Hb Hr. split; [done|]. split; [done|]. split; [apply length_update_tile|].
  intros i. rewrite tile_at_alter.
  destruct (decide (n = i)) as [<-|_]; [|by split; [|left]].
  destruct (decide _); [|by split; [|left]]. split; [done|]. right. by repeat split.
Qed.

Lemma filter_alter_length {A} (P : A -> Prop) `{!forall x, Decision (P x)}
    (f : A -> A) (l : list A) (i : nat) (a : A) :
  l !! i = Some a -> ¬ P a -> P (f a) ->
  length (filter P (alter f i l)) = S (length (filter P l)).
Proof.
  revert i. induction l as [|b l IH]; intros [|i] Hi Hna Hfa; try done.
  - injection Hi as ->. cbn [alter list_alter]. rewrite !filter_cons.
    destruct (decide (P (f a))); [|done]. by destruct (decide (P a)).
  - cbn [alter list_alter]. rewrite !filter_cons. cbn in Hi.
    destruct (decide (P b)); cbn [length]; by rewrite (IH i).
Qed.

Lemma realm_tile_count_claim rid g n :
  (n < length (tiles g))%nat -> Tile.realm_id (tile_at g n) ≠ Some rid ->
  _realm_tile_count (update_tile n (Tile.set_realm_id (Some rid)) g) rid
  = _realm_tile_count g rid + 1.
Proof.
  intros Hn Hr. unfold _realm_tile_count, update_tile. cbn [tiles set_tiles].
  destruct (lookup_lt_is_Some_2 _ _ Hn) as [t Ht].
  unfold tile_at in Hr. rewrite (list_lookup_total_correct _ _ _ Ht) in Hr.
  rewrite (filter_alter_length _ _ _ _ t Ht Hr); [lia|done].
Qed.

(** One neighbour: the state moves as [annexed_by] allows, and [grown]
    counts the tiles gained. *)
Lemma annex_neighbor_spec rid size tbr g k n :
  (n < length (tiles g))%nat ->
  let r := annex_neighbor rid size tbr (g, k) n in
  annexed_by rid g r.1
  ∧ _realm_tile_count r.1 rid = _realm_tile_count g rid + (r.2 - k)
  ∧ k <= r.2 <= k + 1.
Proof.
  intros Hn. cbv zeta. unfold annex_neighbor.
  assert (Hstay : annexed_by rid g g
                  ∧ _realm_tile_count g rid = _realm_tile_count g rid + (k - k)
                  ∧ k <= k <= k + 1).
  { split; [apply annexed_by_refl|lia]. }
  destruct (Tile.water (tile_at g n)) eqn:Hw; cbn [orb]; [exact Hstay|].
  unfold biome_eqb.
  destruct (bool_decide_reflect (Tile.biome (tile_at g n) = mountain)) as [Hb|Hb];
    [exact Hstay|].
  destruct (Tile.realm_id (tile_at g n)) as [other_id|] eqn:Hr.
  - destruct (String.eqb_spec other_id rid) as [->|Hne]; cbn [negb]; [exact Hstay|].
    destruct (random (rng g)) as [u rg].
    destruct (PrimFloat.ltb u _); cbn [fst snd].
    + split; [|split; [|lia]].
      * eapply annexed_by_trans; [apply (annexed_by_draw rid g rg)|].
        apply annexed_by_claim; try done. change (tile_at (set_rng rg g) n) with (tile_at g n).
        congruence.
      * rewrite realm_tile_count_claim; [change (_realm_tile_count (set_rng rg g) rid)
                                           with (_realm_tile_count g rid); lia|done|].
        change (tile_at (set_rng rg g) n) with (tile_at g n). congruence.
    + split; [apply annexed_by_draw|].
      change (_realm_tile_count (set_rng rg g) rid) with (_realm_tile_count g rid). lia.
  - cbn [fst snd]. split; [|split; [|lia]].
    + apply annexed_by_claim; try done. congruence.
    + rewrite realm_tile_count_claim; [lia|done|congruence].
Qed.

Lemma annex_fold_spec rid size tbr (l : list nat) :
  forall g k,
    (forall n, n ∈ l -> (n < length (tiles g))%nat) ->
    let r := fold_left (annex_neighbor rid size tbr) l (g, k) in
    annexed_by rid g r.1
    ∧ _realm_tile_count r.1 rid = _realm_tile_count g rid + (r.2 - k)
    ∧ k <= r.2 <= k + Z.of_nat (length l).
Proof.
  induction l as [|n l IH]; intros g k Hl; cbn [fold_left].
  { cbn. split; [apply annexed_by_refl|lia]. }
  destruct (annex_neighbor_spec rid size tbr g k n) as (Ha & Hc & Hk);
    [apply Hl; by left|].
  destruct (annex_neighbor rid size tbr (g, k) n) as [g1 k1]. cbn [fst snd] in *.
  destruct (IH g1 k1) as (Ha' & Hc' & Hk').
  { intros m Hm. destruct Ha as (_ & _ & -> & _). apply Hl. by right. }
  cbv zeta in *. split; [by eapply annexed_by_trans|]. split; [lia|].
  rewrite length_cons. lia.
Qed.

Lemma annexed_by_grid_ok rid g g' : annexed_by rid g g' -> grid_ok g -> grid_ok g'.
Proof.
  intros (Hc & _ & Hl & Ht) Hok. unfold grid_ok in *.
  revert Hc. unfold config. intros [= Hw Hh _ _ _ _]. rewrite Hw, Hh, <- Hok.
  apply list_eq_same_length with (length (tiles g)); [by rewrite length_map|by rewrite length_map|].
  intros i a b Hi. rewrite !list_lookup_fmap.
  destruct (lookup_lt_is_Some_2 (tiles g) i Hi) as [t Hti].
  assert (Hi' : (i < length (tiles g'))%nat) by lia.
  destruct (lookup_lt_is_Some_2 (tiles g') i Hi') as [t' Hti'].
  rewrite Hti, Hti'. cbn. intros [= <-] [= <-].
  destruct (Ht i) as [Hterr _]. unfold tile_at in Hterr.
  rewrite (list_lookup_total_correct _ _ _ Hti), (list_lookup_total_correct _ _ _ Hti') in Hterr.
  by destruct (terrain_coords _ _ Hterr) as [-> ->].
Qed.

(** One visit: at most four neighbours, so at most four tiles gained. *)
Lemma visit_tile_spec rid size tbr g k t :
  grid_ok g ->
  let r := visit_tile rid size tbr (g, k) t in
  annexed_by rid g r.1
  ∧ _realm_tile_count r.1 rid = _realm_tile_count g rid + (r.2 - k)
  ∧ k <= r.2 <= k + 4.
Proof.
  intros Hok. cbv zeta. unfold visit_tile. cbn [fst].
  pose proof (neighbors_length g (Tile.x (tile_at g t)) (Tile.y (tile_at g t))) as Hlen.
  destruct (annex_fold_spec rid size tbr
              (_neighbors g (Tile.x (tile_at g t)) (Tile.y (tile_at g t))) g k)
    as (Ha & Hc & Hk).
  { intros n Hn. by apply (neighbors_grid g _ _ n Hok) in Hn as [? _]. }
  cbv zeta in *. split; [exact Ha|]. split; [exact Hc|]. lia.
Qed.

(** The loop over the shuffled tiles: [visited] is the part of the list the
    loop went through. *)
Lemma expand_loop_spec rid size d tbr (realm_tiles : list nat) :
  forall g grown attempts,
    grid_ok g -> attempts <= d * 6 ->
    let r := expand_loop rid size d tbr realm_tiles g grown attempts in
    (exists visited rest,
       realm_tiles = visited ++ rest
       ∧ fold_left (visit_tile rid size tbr) visited (g, grown) = r.1
       ∧ r.2 = attempts + Z.of_nat (length visited)
       ∧ (forall k, (k < length visited)%nat ->
            (fold_left (visit_tile rid size tbr) (take k visited) (g, grown)).2 < d)
       ∧ (rest ≠ [] -> d <= r.1.2 ∨ r.2 = d * 6 + 1))
    ∧ r.2 <= d * 6 + 1
    ∧ grown <= r.1.2 <= Z.max grown (d + 3)
    ∧ annexed_by rid g r.1.1
    ∧ _realm_tile_count r.1.1 rid = _realm_tile_count g rid + (r.1.2 - grown).
Proof.
  induction realm_tiles as [|t rest IH]; intros g grown attempts Hok Hatt.
  { cbn. split; [|split; [lia|split; [lia|split; [apply annexed_by_refl|lia]]]].
    exists [], []. split; [done|]. split; [done|]. split; [cbn; lia|].
    split; [intros k Hk; cbn in Hk; lia|done]. }
  cbv zeta. rewrite expand_loop_cons.
  destruct (Z.geb_spec grown d) as [Hfull|Hroom].
  { cbn [fst snd]. split; [|split; [lia|split; [lia|split; [apply annexed_by_refl|lia]]]].
    exists [], (t :: rest). split; [done|]. split; [done|]. split; [cbn; lia|].
    split; [intros k Hk; cbn in Hk; lia|]. intros _. left. lia. }
  destruct (visit_tile_spec rid size tbr g grown t Hok) as (Ha & Hc & Hk).
  cbv zeta in *. destruct (visit_tile rid size tbr (g, grown) t) as [g1 grown1] eqn:Hvisit.
  cbn [fst snd] in *.
  destruct (Z.gtb_spec (attempts + 1) (d * 6)) as [Hcap|Hmore].
  { cbn [fst snd]. split; [|split; [lia|split; [lia|split; [exact Ha|exact Hc]]]].
    exists [t], rest. split; [done|]. split; [cbn [fold_left]; by rewrite Hvisit|].
    split; [cbn; lia|].
    split.
    - intros [|k] Hk'; [cbn [take fold_left snd]; lia|cbn in Hk'; lia].
    - intros _. right. lia. }
  destruct (IH g1 grown1 (attempts + 1)) as ((visited & rest' & Hsplit & Hfold & Hcount & Hbelow & Hstop)
    & Hbound & Hgrown & Ha' & Hc'); [by eapply annexed_by_grid_ok|lia|].
  cbv zeta in *.
  split; [|split; [exact Hbound|split; [lia|split; [by eapply annexed_by_trans|lia]]]].
  exists (t :: visited), rest'. split; [by rewrite Hsplit|].
  split; [cbn [fold_left]; by rewrite Hvisit|]. split; [rewrite length_cons; lia|].
  split; [|exact Hstop].
  intros [|k] Hk'; [cbn [take fold_left snd]; lia|].
  cbn [take fold_left]. rewrite Hvisit. apply Hbelow. cbn in Hk'. lia.
Qed.

(** How one neighbour is treated, case by case. *)
Lemma annex_neighbor_rule rid size tbr (a : Gen) (k : Z) (n : nat) :
  let nt := tile_at a n in
  let annex := annex_neighbor rid size tbr (a, k) n in
  (Tile.water nt = true ∨ Tile.biome nt = mountain -> annex = (a, k))
  ∧ (Tile.realm_id nt = Some rid -> annex = (a, k))
  ∧ (Tile.water nt = false -> Tile.biome nt ≠ mountain -> Tile.realm_id nt = None ->
     annex = (update_tile n (Tile.set_realm_id (Some rid)) a, k + 1))
  ∧ (forall other, Tile.water nt = false -> Tile.biome nt ≠ mountain ->
       Tile.realm_id nt = Some other -> other ≠ rid ->
       let other_size := Z.max 1 (Z.of_nat (length (default [] (dict_get tbr other)))) in
       let chance := PrimFloat.mul 0.4 (PrimFloat.div (Z2F size) (Z2F (size + other_size))) in
       let a' := set_rng (random (rng a)).2 a in
       annex = if PrimFloat.ltb (random (rng a)).1 chance
               then (update_tile n (Tile.set_realm_id (Some rid)) a', k + 1)
               else (a', k)).
Proof.
  cbv zeta. unfold annex_neighbor, biome_eqb. repeat split.
  - intros [->| ->]; [done|]. rewrite bool_decide_eq_true_2 by done. by rewrite orb_true_r.
  - intros Hr. destruct (_ || _); [done|]. by rewrite Hr, String.eqb_refl.
  - intros -> Hb ->. by rewrite bool_decide_eq_false_2.
  - intros other -> Hb -> Hne. rewrite bool_decide_eq_false_2 by done. cbn [orb].
    apply String.eqb_neq in Hne. rewrite Hne. cbn [negb].
    replace (if Z.of_nat (length (default [] (dict_get tbr other))) =? 0 then 1
             else Z.of_nat (length (default [] (dict_get tbr other))))
      with (Z.max 1 (Z.of_nat (length (default [] (dict_get tbr other)))))
      by (destruct (Z.eqb_spec (Z.of_nat (length (default [] (dict_get tbr other)))) 0); lia).
    by destruct (random (rng a)) as [u rg].
Qed.

(** C5, as amended.  The pass of the realm [rid], which owned [realm_tiles]
    when the tick began: the tiles are shuffled and visited in turn.  A tile
    is visited only while fewer than [desired] tiles were gained and no more
    than [6 * desired] tiles were visited, so there are at most
    [6 * desired + 1] visits; a visit treats all the neighbours of its tile,
    so up to [desired + 3] tiles are gained, each of them land, no mountain,
    and not the realm's before.  A water or mountain neighbour is left
    alone, an unclaimed one is annexed, and one owned by another realm is
    annexed when the draw is below [0.4 * size / (size + other_size)], the
    sizes being those at the start of the tick. *)
Theorem expansion_pass_spec (year : Z) (tbr : Dict (list nat)) (g : Gen) (rid : string)
    (realm_tiles : list nat) (realm : Realm.t) :
  grid_ok g -> dict_get (realms g) rid = Some realm ->
  let size := Z.of_nat (length realm_tiles) in
  let desired := Z.max 1 (size / 12) in
  let shuffled := (shuffle realm_tiles (rng g)).1 in
  let g0 := set_rng (shuffle realm_tiles (rng g)).2 g in
  let visit := visit_tile rid size tbr in
  let r := expand_loop rid size desired tbr shuffled g0 0 0 in
  let g' := r.1.1 in
  let grown := r.1.2 in
  let attempts := r.2 in
  realm_pass year tbr g (rid, realm_tiles) = empire_peak_check rid realm size year g'
  ∧ shuffled ≡ₚ realm_tiles
  ∧ (exists visited rest,
       shuffled = visited ++ rest
       ∧ fold_left visit visited (g0, 0) = (g', grown)
       ∧ attempts = Z.of_nat (length visited)
       ∧ (forall k, (k < length visited)%nat ->
            (fold_left visit (take k visited) (g0, 0)).2 < desired)
       ∧ (rest ≠ [] -> desired <= grown ∨ attempts = desired * 6 + 1))
  ∧ attempts <= desired * 6 + 1
  ∧ 0 <= grown <= desired + 3
  ∧ _realm_tile_count g' rid = _realm_tile_count g rid + grown
  ∧ (forall i,
       Tile.realm_id (tile_at g' i) = Tile.realm_id (tile_at g i)
       ∨ (Tile.realm_id (tile_at g' i) = Some rid
          ∧ Tile.realm_id (tile_at g i) ≠ Some rid
          ∧ Tile.water (tile_at g i) = false
          ∧ Tile.biome (tile_at g i) ≠ mountain))
  ∧ (forall a k n,
       let nt := tile_at a n in
       let annex := annex_neighbor rid size tbr (a, k) n in
       (Tile.water nt = true ∨ Tile.biome nt = mountain -> annex = (a, k))
       ∧ (Tile.realm_id nt = Some rid -> annex = (a, k))
       ∧ (Tile.water nt = false -> Tile.biome nt ≠ mountain -> Tile.realm_id nt = None ->
          annex = (update_tile n (Tile.set_realm_id (Some rid)) a, k + 1))
       ∧ (forall other, Tile.water nt = false -> Tile.biome nt ≠ mountain ->
            Tile.realm_id nt = Some other -> other ≠ rid ->
            let other_size := Z.max 1 (Z.of_nat (length (default [] (dict_get tbr other)))) in
            let chance :=
              PrimFloat.mul 0.4 (PrimFloat.div (Z2F size) (Z2F (size + other_size))) in
            let a' := set_rng (random (rng a)).2 a in
            annex = if PrimFloat.ltb (random (rng a)).1 chance
                    then (update_tile n (Tile.set_realm_id (Some rid)) a', k + 1)
                    else (a', k))).
Proof.
  intros Hok Hrealm size desired shuffled g0 visit r g' grown attempts.
  assert (Hdesired : 1 <= desired) by (subst desired; lia).
  destruct (expand_loop_spec rid size desired tbr shuffled g0 0 0)
    as ((visited & rest & Hsplit & Hfold & Hcount & Hbelow & Hstop)
        & Hcap & Hgrown & (_ & _ & _ & Htiles) & Hgain); [exact Hok|lia|].
  fold r in Hfold, Hcount, Hstop, Hcap, Hgrown, Htiles, Hgain.
  fold g' in Htiles, Hgain. fold grown in Hstop, Hgrown, Hgain. fold attempts in Hcount, Hstop, Hcap.
  split.
  { unfold realm_pass. rewrite Hrealm. subst g' r g0 shuffled size desired.
    destruct (shuffle realm_tiles (rng g)) as [l rg]. cbn [fst snd].
    by destruct (expand_loop _ _ _ _ _ _ _ _) as [[g1 k1] a1]. }
  split; [apply shuffle_perm|].
  split.
  { exists visited, rest. split; [exact Hsplit|]. split; [|split; [lia|split; [exact Hbelow|exact Hstop]]].
    subst visit. rewrite Hfold. subst g' grown. by destruct r as [[g1 k1] a1]. }
  split; [exact Hcap|]. split; [lia|].
  split; [change (_realm_tile_count g rid) with (_realm_tile_count g0 rid); lia|].
  split; [intros i; apply (Htiles i)|].
  intros a k n. apply annex_neighbor_rule.
Qed.

(** The run of [vale] up to its first expansion tick: two realms were
    spawned, on the tiles 25 and 127, and the history stage has set their
    strength. *)
Definition vale_realms : Gen :=
  Eval vm_compute in value_or vale_grid (_spawn_initial_realms vale_grid).

Definition vale_year_0 : Gen :=
  Eval vm_compute in
    set_realms
      (map (fun kv => (fst kv, Realm.set_strength (Some 1%float) (snd kv))) (realms vale_realms))
      vale_realms.

Definition vale_realm_1 : Realm.t :=
  Realm.mk "realm_1" "Selthrone" "#b1c9d4" None 0 None "lowland" [] (Some 1%float).

Lemma vale_realms_spawned : _spawn_initial_realms vale_grid = Ok vale_realms.
Proof. vm_compute. reflexivity. Qed.

Lemma vale_year_0_grid_ok : grid_ok vale_year_0.
Proof. vm_compute. reflexivity. Qed.

Lemma vale_realm_1_get : dict_get (realms vale_year_0) "realm_1" = Some vale_realm_1.
Proof. vm_compute. reflexivity. Qed.

Lemma expansion_pass_spec_witness :
  let size := Z.of_nat (length [25%nat]) in
  let desired := Z.max 1 (size / 12) in
  let shuffled := (shuffle [25%nat] (rng vale_year_0)).1 in
  let g0 := set_rng (shuffle [25%nat] (rng vale_year_0)).2 vale_year_0 in
  let visit := visit_tile "realm_1" size (tiles_by_realm_of vale_year_0) in
  let r := expand_loop "realm_1" size desired (tiles_by_realm_of vale_year_0) shuffled g0 0 0 in
  let g' := r.1.1 in
  let grown := r.1.2 in
  let attempts := r.2 in
  realm_pass 10 (tiles_by_realm_of vale_year_0) vale_year_0 ("realm_1", [25%nat]) = empire_peak_check "realm_1" vale_realm_1 size 10 g'
  ∧ shuffled ≡ₚ [25%nat]
  ∧ (exists visited rest,
       shuffled = visited ++ rest
       ∧ fold_left visit visited (g0, 0) = (g', grown)
       ∧ attempts = Z.of_nat (length visited)
       ∧ (forall k, (k < length visited)%nat ->
            (fold_left visit (take k visited) (g0, 0)).2 < desired)
       ∧ (rest ≠ [] -> desired <= grown ∨ attempts = desired * 6 + 1))
  ∧ attempts <= desired * 6 + 1
  ∧ 0 <= grown <= desired + 3
  ∧ _realm_tile_count g' "realm_1" = _realm_tile_count vale_year_0 "realm_1" + grown
  ∧ (forall i,
       Tile.realm_id (tile_at g' i) = Tile.realm_id (tile_at vale_year_0 i)
       ∨ (Tile.realm_id (tile_at g' i) = Some "realm_1"
          ∧ Tile.realm_id (tile_at vale_year_0 i) ≠ Some "realm_1"
          ∧ Tile.water (tile_at vale_year_0 i) = false
          ∧ Tile.biome (tile_at vale_year_0 i) ≠ mountain))
  ∧ (forall a k n,
       let nt := tile_at a n in
       let annex := annex_neighbor "realm_1" size (tiles_by_realm_of vale_year_0) (a, k) n in
       (Tile.water nt = true ∨ Tile.biome nt = mountain -> annex = (a, k))
       ∧ (Tile.realm_id nt = Some "realm_1" -> annex = (a, k))
       ∧ (Tile.water nt = false -> Tile.biome nt ≠ mountain -> Tile.realm_id nt = None ->
          annex = (update_tile n (Tile.set_realm_id (Some "realm_1")) a, k + 1))
       ∧ (forall other, Tile.water nt = false -> Tile.biome nt ≠ mountain ->
            Tile.realm_id nt = Some other -> other ≠ "realm_1" ->
            let other_size := Z.max 1 (Z.of_nat (length (default [] (dict_get (tiles_by_realm_of vale_year_0) other)))) in
            let chance :=
              PrimFloat.mul 0.4 (PrimFloat.div (Z2F size) (Z2F (size + other_size))) in
            let a' := set_rng (random (rng a)).2 a in
            annex = if PrimFloat.ltb (random (rng a)).1 chance
                    then (update_tile n (Tile.set_realm_id (Some "realm_1")) a', k + 1)
                    else (a', k))).
Proof.
  exact (expansion_pass_spec 10 (tiles_by_realm_of vale_year_0) vale_year_0 "realm_1"
           [25%nat] vale_realm_1 vale_year_0_grid_ok vale_realm_1_get).
Defined.

(** C5 as the claim states it fails on the first pass of [vale]: the realm
    of the single tile 25 has a desired growth of 1, and its one visit gains
    the two tiles east and south of it. *)
Lemma expansion_pass_overshoots :
  exists entries,
    tiles_by_realm_of vale_year_0 = ("realm_1", [25%nat]) :: entries
    ∧ (shuffle [25%nat] (rng vale_year_0)).1 = [25%nat]
    ∧ Z.max 1 (Z.of_nat (length [25%nat]) / 12) = 1
    ∧ let r := expand_loop "realm_1" 1 1 (tiles_by_realm_of vale_year_0) [25%nat]
                 (set_rng (shuffle [25%nat] (rng vale_year_0)).2 vale_year_0) 0 0 in
      r.1.2 = 2 ∧ r.2 = 1
      ∧ owned_by vale_year_0 "realm_1" = [25%nat]
      ∧ owned_by r.1.1 "realm_1" = [25%nat; 26%nat; 45%nat].
Proof.
  eexists. split; [vm_compute; reflexivity|]. split; [vm_compute; reflexivity|].
  split; [reflexivity|]. cbv zeta. do 3 (split; [vm_compute; reflexivity|]).
  vm_compute. reflexivity.
Qed.

(** ** Empire peaks (claim C4) *)

Lemma filter_indices_length {A} `{!Inhabited A} (P : A -> Prop) `{!forall x, Decision (P x)}
    (full pre l : list A) :
  full = pre ++ l ->
  length (filter (fun i => P (full !!! i)) (seq (length pre) (length l)))
  = length (filter P l).
Proof.
  revert pre. induction l as [|a l IH]; intros pre Hfull; [done|].
  cbn [length seq]. rewrite !filter_cons.
  assert (Ha : full !!! length pre = a) by (rewrite Hfull; by apply list_lookup_total_middle).
  rewrite Ha.
  assert (Htail : length (filter (fun i => P (full !!! i)) (seq (S (length pre)) (length l)))
                  = length (filter P l)).
  { replace (S (length pre)) with (length (pre ++ [a])) by (rewrite length_app; cbn; lia).
    apply IH. by rewrite <- app_assoc. }
  destruct (decide (P a)); cbn [length]; by rewrite Htail.
Qed.

(** [_realm_tile_count] counts the tiles that [owned_by] lists. *)
Lemma realm_tile_count_owned g rid :
  _realm_tile_count g rid = Z.of_nat (length (owned_by g rid)).
Proof.
  unfold _realm_tile_count, owned_by, tile_at. f_equal. symmetry.
  exact (filter_indices_length (fun t => Tile.realm_id t = Some rid) (tiles g) [] (tiles g) eq_refl).
Qed.

Lemma annex_neighbor_collections rid size tbr g k n :
  collections (annex_neighbor rid size tbr (g, k) n).1 = collections g
  ∧ config (annex_neighbor rid size tbr (g, k) n).1 = config g.
Proof.
  unfold annex_neighbor.
  destruct (_ || _); [done|].
  destruct (Tile.realm_id (tile_at g n)) as [other|]; [|done].
  destruct (negb _); [|done].
  destruct (random (rng g)) as [u rg]. by destruct (PrimFloat.ltb u _).
Qed.

Lemma annex_fold_collections rid size tbr l g k :
  collections (fold_left (annex_neighbor rid size tbr) l (g, k)).1 = collections g
  ∧ config (fold_left (annex_neighbor rid size tbr) l (g, k)).1 = config g.
Proof.
  revert g k. induction l as [|n l IH]; intros g k; cbn [fold_left]; [done|].
  destruct (annex_neighbor_collections rid size tbr g k n) as [Hc Hk].
  destruct (annex_neighbor rid size tbr (g, k) n) as [g1 k1]. cbn [fst] in *.
  destruct (IH g1 k1) as [Hc' Hk']. split; congruence.
Qed.

Lemma expand_loop_collections rid size d tbr l g grown attempts :
  collections (expand_loop rid size d tbr l g grown attempts).1.1 = collections g
  ∧ config (expand_loop rid size d tbr l g grown attempts).1.1 = config g.
Proof.
  revert g grown attempts. induction l as [|t l IH]; intros g grown attempts; [done|].
  rewrite expand_loop_cons. destruct (grown >=? d); [done|].
  unfold visit_tile. cbn [fst].
  destruct (annex_fold_collections rid size tbr
              (_neighbors g (Tile.x (tile_at g t)) (Tile.y (tile_at g t))) g grown) as [Hc Hk].
  destruct (fold_left _ _ (g, grown)) as [g1 grown1]. cbn [fst snd] in *.
  destruct (attempts + 1 >? d * 6); [done|].
  destruct (IH g1 grown1 (attempts + 1)) as [Hc' Hk']. split; congruence.
Qed.

Lemma config_years g g' : config g' = config g -> years g' = years g.
Proof. unfold config. by intros [= _ _ ? _ _ _]. Qed.

Lemma config_area g g' : config g' = config g -> width g' * height g' = width g * height g.
Proof. unfold config. by intros [= -> -> _ _ _ _]. Qed.

(** One turn of the loop of [_simulate_history], from its head at
    [current_year]: the year and the state at the next head. *)
Definition history_turn (step current_year : Z) (g : Gen) : Res (Z * Gen) :=
  let current_year := current_year + step in
  let g := _realm_expansion_tick current_year g in
  let '(u, rg) := random (rng g) in
  let g := set_rng rg g in
  g ← (if PrimFloat.ltb u 0.35 then _random_crisis current_year g else Ok g);
  mret (current_year, g).

(** The first [n] turns of the loop. *)
Fixpoint history_prefix (n : nat) (step current_year : Z) (g : Gen) : Res (Z * Gen) :=
  match n with
  | O => Ok (current_year, g)
  | S n' =>
      '(cy, g) ← history_turn step current_year g;
      history_prefix n' step cy g
  end.

Lemma history_loop_turn fuel step cy g :
  history_loop (S fuel) step cy g
  = if cy <? years g then
      match history_turn step cy g with
      | Ok (cy', g') => history_loop fuel step cy' g'
      | Raise e => Some (Raise e)
      end
    else Some (Ok g).
Proof.
  cbn [history_loop]. destruct (cy <? years g); [|done]. unfold history_turn.
  destruct (random _) as [u rg].
  by destruct (if PrimFloat.ltb u 0.35 then _ else _).
Qed.

Lemma history_turn_spec step cy g cy' g' :
  history_turn step cy g = Ok (cy', g') ->
  cy' = cy + step ∧ evolves g g'
  ∧ exists rg,
      let g1 := set_rng rg (_realm_expansion_tick cy' g) in
      g' = g1 ∨ _random_crisis cy' g1 = Ok g'.
Proof.
  unfold history_turn. destruct (random _) as [u rg]. intros H.
  apply bind_Ok in H as (g2 & H2 & H). injection H as <- <-.
  split; [done|].
  assert (H1 : evolves g (set_rng rg (_realm_expansion_tick (cy + step) g))).
  { ev_peel. apply expansion_tick_evolves. }
  destruct (PrimFloat.ltb u 0.35).
  - split; [|exists rg; by right].
    eapply runs_trans; [exact H1|by apply random_crisis_evolves in H2].
  - injection H2 as <-. split; [exact H1|exists rg; by left].
Qed.

(** A turn adds a step of ten years at least, so the loop is over before
    the fuel of [_simulate_history] is used up. *)
Lemma history_loop_enough_fuel fuel step cy g :
  0 < step -> (1 <= fuel)%nat -> years g - cy <= (Z.of_nat fuel - 1) * step ->
  history_loop fuel step cy g ≠ None.
Proof.
  intros Hstep. revert cy g. induction fuel as [|fuel IH]; intros cy g Hfuel Hleft; [lia|].
  rewrite history_loop_turn. destruct (Z.ltb_spec cy (years g)) as [Hlt|Hge]; [|done].
  destruct (history_turn step cy g) as [[cy' g']|e] eqn:Hturn; [|done].
  apply history_turn_spec in Hturn as (-> & Hev & _).
  apply evolves_config, config_years in Hev.
  apply IH; [nia|rewrite Hev; nia].
Qed.

Lemma history_prefix_snoc n step cy0 g0 cy g cy' g' :
  history_prefix n step cy0 g0 = Ok (cy, g) -> history_turn step cy g = Ok (cy', g') ->
  history_prefix (S n) step cy0 g0 = Ok (cy', g').
Proof.
  revert cy0 g0. induction n as [|n IH]; intros cy0 g0 Hp Hturn.
  - cbn in Hp. injection Hp as -> ->. cbn [history_prefix]. by rewrite Hturn.
  - cbn [history_prefix] in Hp. apply bind_Ok in Hp as ([cy1 g1] & H1 & Hp).
    change (history_prefix (S (S n)) step cy0 g0)
      with ('(cy, g) ← history_turn step cy0 g0; history_prefix (S n) step cy g).
    rewrite H1. cbn [mbind res_bind]. by apply IH.
Qed.

Lemma has_empire_peak_app rid es es' :
  has_empire_peak rid (es ++ es') = has_empire_peak rid es || has_empire_peak rid es'.
Proof. unfold has_empire_peak. apply existsb_app. Qed.

(** The events a pass or a tick appends: empire peaks of year [year], each
    for a realm of [entries] whose list there is longer than 18% of the
    grid and that had no peak yet. *)
Definition peaks_of (year : Z) (entries : Dict (list nat)) (g : Gen) (new : list Event.t) : Prop :=
  forall e, e ∈ new ->
    Event.type e = EMPIRE_PEAK ∧ Event.year e = year
    ∧ exists rid l,
        (rid, l) ∈ entries ∧ Event.realm_ids e = [rid]
        ∧ has_empire_peak rid (events g) = false
        ∧ PrimFloat.ltb (PrimFloat.mul (Z2F (width g * height g)) 0.18)
            (Z2F (Z.of_nat (length l))) = true.

Lemma realm_pass_events year tbr g entry :
  config (realm_pass year tbr g entry) = config g
  ∧ exists new,
      events (realm_pass year tbr g entry) = events g ++ new
      ∧ peaks_of year [entry] g new.
Proof.
  destruct entry as [rid l]. unfold realm_pass.
  assert (Hsame : config g = config g
                  ∧ exists new, events g = events g ++ new ∧ peaks_of year [(rid, l)] g new).
  { split; [done|]. exists []. split; [by rewrite app_nil_r|].
    intros e He. by apply elem_of_nil in He. }
  destruct (dict_get (realms g) rid) as [realm|]; [|exact Hsame].
  destruct (shuffle l (rng g)) as [shuffled rg].
  destruct (expand_loop_collections rid (Z.of_nat (length l)) (Z.max 1 (Z.of_nat (length l) / 12))
              tbr shuffled (set_rng rg g) 0 0) as [Hc Hk].
  destruct (expand_loop _ _ _ _ _ _ _ _) as [[g1 grown] attempts]. cbn [fst] in Hc, Hk.
  change (config (set_rng rg g)) with (config g) in Hk.
  change (collections (set_rng rg g)) with (collections g) in Hc.
  assert (He : events g1 = events g) by (unfold collections in Hc; congruence).
  unfold empire_peak_check.
  destruct (PrimFloat.ltb _ _) eqn:Hbig; cbn [andb].
  2:{ split; [exact Hk|]. exists []. split; [by rewrite app_nil_r|].
      intros e Hin. by apply elem_of_nil in Hin. }
  destruct (has_empire_peak rid (events g1)) eqn:Hpeak; cbn [negb].
  { split; [exact Hk|]. exists []. split; [by rewrite app_nil_r|].
    intros e Hin. by apply elem_of_nil in Hin. }
  split; [exact Hk|]. eexists [_]. cbn [events set_events set_realms]. rewrite He.
  split; [reflexivity|].
  intros e Hin. apply list_elem_of_singleton in Hin as ->. cbn.
  split; [done|]. split; [done|]. exists rid, l.
  split; [by left|]. split; [done|]. rewrite <- He. split; [exact Hpeak|].
  by rewrite <- (config_area _ _ Hk).
Qed.

Lemma tick_events_fold year tbr (entries : Dict (list nat)) (g : Gen) :
  config (fold_left (realm_pass year tbr) entries g) = config g
  ∧ exists new,
      events (fold_left (realm_pass year tbr) entries g) = events g ++ new
      ∧ peaks_of year entries g new.
Proof.
  revert g. induction entries as [|entry entries IH]; intros g; cbn [fold_left].
  { split; [done|]. exists []. split; [by rewrite app_nil_r|].
    intros e He. by apply elem_of_nil in He. }
  destruct (realm_pass_events year tbr g entry) as (Hk1 & new1 & He1 & Hp1).
  destruct (IH (realm_pass year tbr g entry)) as (Hk2 & new2 & He2 & Hp2).
  split; [congruence|]. exists (new1 ++ new2). split; [by rewrite He2, He1, app_assoc|].
  intros e He. apply elem_of_app in He as [He|He].
  - destruct (Hp1 e He) as (Ht & Hy & rid & l & Hin & Hr & Hno & Hbig).
    split; [done|]. split; [done|]. exists rid, l.
    apply list_elem_of_singleton in Hin as ->. split; [by left|done].
  - destruct (Hp2 e He) as (Ht & Hy & rid & l & Hin & Hr & Hno & Hbig).
    split; [done|]. split; [done|]. exists rid, l. split; [by right|]. split; [done|].
    rewrite He1, has_empire_peak_app in Hno. apply orb_false_iff in Hno as [Hno _].
    split; [exact Hno|]. by rewrite <- (config_area _ _ Hk1).
Qed.

(** The expansion tick appends nothing but empire peaks, each for a realm
    that had no peak yet and that owned more than 18% of the grid when the
    tick began. *)
Lemma expansion_tick_events year g :
  exists new,
    events (_realm_expansion_tick year g) = events g ++ new
    ∧ forall e, e ∈ new ->
        Event.type e = EMPIRE_PEAK ∧ Event.year e = year
        ∧ exists rid,
            Event.realm_ids e = [rid]
            ∧ has_empire_peak rid (events g) = false
            ∧ PrimFloat.ltb (PrimFloat.mul (Z2F (width g * height g)) 0.18)
                (Z2F (_realm_tile_count g rid)) = true.
Proof.
  unfold _realm_expansion_tick.
  destruct (tick_events_fold year (tiles_by_realm_of g) (tiles_by_realm_of g) g)
    as (_ & new & He & Hp).
  exists new. split; [exact He|]. intros e Hin.
  destruct (Hp e Hin) as (Ht & Hy & rid & l & Hentry & Hr & Hno & Hbig).
  split; [done|]. split; [done|]. exists rid. split; [done|]. split; [done|].
  apply tiles_by_realm_entry in Hentry as (_ & _ & ->). by rewrite realm_tile_count_owned.
Qed.

Lemma set_owner_all_events o l g : events (set_owner_all o l g) = events g.
Proof.
  unfold set_owner_all. revert g. induction l as [|i l IH]; intros g; cbn [fold_left]; [done|].
  by rewrite IH.
Qed.

Lemma crisis_shrink_events ct rid realm tiles year g g' :
  crisis_shrink ct rid realm tiles year g = Ok g' ->
  exists new, events g' = events g ++ new ∧ forall e, e ∈ new -> Event.type e = ct.
Proof.
  unfold crisis_shrink. intros H.
  destruct (filter _ tiles) as [|b bs].
  { injection H as <-. exists []. split; [by rewrite app_nil_r|].
    intros e He. by apply elem_of_nil in He. }
  destruct (shuffle (b :: bs) (rng g)) as [border_tiles rg].
  apply bind_Ok in H as ([d rg1] & _ & H). cbv zeta in H. injection H as <-.
  eexists [_]. cbn [events set_events]. rewrite set_owner_all_events. split; [reflexivity|].
  intros e He. by apply list_elem_of_singleton in He as ->.
Qed.

Lemma crisis_split_events ct rid realm tiles year g g' :
  crisis_split ct rid realm tiles year g = Ok g' ->
  exists new, events g' = events g ++ new ∧ forall e, e ∈ new -> Event.type e = ct.
Proof.
  unfold crisis_split. intros H.
  destruct ((8 <? Z.of_nat (length (realms g))) || (Z.of_nat (length tiles) <? 12)).
  { injection H as <-. exists []. split; [by rewrite app_nil_r|].
    intros e He. by apply elem_of_nil in He. }
  apply bind_Ok in H as ([name g1] & H1 & H). apply make_realm_name_evolves in H1 as (r1 & ->).
  apply bind_Ok in H as ([color g2] & H2 & H). apply random_color_evolves in H2 as (r2 & ->).
  destruct (shuffle tiles _) as [shuffled rg].
  injection H as <-.
  eexists [_]. cbn [events set_events]. rewrite set_owner_all_events. split; [reflexivity|].
  intros e He. by apply list_elem_of_singleton in He as ->.
Qed.

(** A crisis appends no empire peak. *)
Lemma random_crisis_events year g g' :
  _random_crisis year g = Ok g' ->
  exists new, events g' = events g ++ new ∧ forall e, e ∈ new -> Event.type e ≠ EMPIRE_PEAK.
Proof.
  unfold _random_crisis. intros H.
  assert (Hsame : forall rg rg', exists new,
            events (set_rng rg' (set_rng rg g)) = events g ++ new
            ∧ forall e, e ∈ new -> Event.type e ≠ EMPIRE_PEAK).
  { intros rg rg'. exists []. split; [by rewrite app_nil_r|].
    intros e He. by apply elem_of_nil in He. }
  destruct (filter _ (dict_keys (realms g))) as [|rid0 rids];
    [injection H as <-; destruct g; apply (Hsame rng0 rng0)|].
  apply bind_Ok in H as ([rid rg] & _ & H).
  destruct (dict_get (realms (set_rng rg g)) rid) as [realm|]; [|done].
  destruct (owned_by (set_rng rg g) rid) as [|t0 ts] eqn:Hown;
    [injection H as <-; apply (Hsame rg rg)|].
  apply bind_Ok in H as ([crisis_type rg2] & Hct & H). apply choice_Ok in Hct.
  assert (Hne : crisis_type ≠ EMPIRE_PEAK).
  { intros ->. unfold crisis_types in Hct.
    repeat (apply elem_of_cons in Hct as [Hct|Hct]; [done|]). by apply elem_of_nil in Hct. }
  assert (Hnew : exists new,
            events g' = events (set_rng rg2 (set_rng rg g)) ++ new
            ∧ forall e, e ∈ new -> Event.type e = crisis_type).
  { destruct crisis_type; first [done | by eapply crisis_shrink_events
                                | by eapply crisis_split_events]. }
  destruct Hnew as (new & He & Hty). exists new. split; [exact He|].
  intros e Hin. by rewrite (Hty e Hin).
Qed.

(** What a turn of the loop appends: the empire peaks of its tick, then
    perhaps the event of a crisis. *)
Lemma history_turn_events step cy g cy' g' :
  history_turn step cy g = Ok (cy', g') ->
  exists peaks crisis,
    events g' = events g ++ peaks ++ crisis
    ∧ (forall e, e ∈ crisis -> Event.type e ≠ EMPIRE_PEAK)
    ∧ forall e, e ∈ peaks ->
        Event.type e = EMPIRE_PEAK ∧ Event.year e = cy + step
        ∧ exists rid,
            Event.realm_ids e = [rid]
            ∧ has_empire_peak rid (events g) = false
            ∧ PrimFloat.ltb (PrimFloat.mul (Z2F (width g * height g)) 0.18)
                (Z2F (_realm_tile_count g rid)) = true.
Proof.
  intros H. destruct (history_turn_spec _ _ _ _ _ H) as (-> & _ & rg & Hg').
  destruct (expansion_tick_events (cy + step) g) as (peaks & He & Hp).
  cbv zeta in Hg'. destruct Hg' as [->|Hcrisis].
  - exists peaks, []. rewrite app_nil_r. split; [exact He|]. split; [|exact Hp].
    intros e Hin. by apply elem_of_nil in Hin.
  - apply random_crisis_events in Hcrisis as (crisis & Hc & Hno).
    exists peaks, crisis. split; [|split; [exact Hno|exact Hp]].
    rewrite Hc. cbn [events set_rng]. by rewrite He, app_assoc.
Qed.

(** The event [e] is an empire peak that a tick of the history loop begun
    at [h0] appended: the loop was at the head [s] in the year [cy], and the
    realm of the event had no peak yet and owned more than 18% of the grid
    in [s], that is, when the tick began. *)
Definition fired_in_tick (step : Z) (h0 : Gen) (e : Event.t) : Prop :=
  exists n cy s rid,
    history_prefix n step 0 h0 = Ok (cy, s)
    ∧ cy < years s
    ∧ Event.year e = cy + step
    ∧ Event.realm_ids e = [rid]
    ∧ has_empire_peak rid (events s) = false
    ∧ PrimFloat.ltb (PrimFloat.mul (Z2F (width s * height s)) 0.18)
        (Z2F (_realm_tile_count s rid)) = true.

Lemma history_loop_peaks step h0 fuel :
  forall n cy s gl,
    history_prefix n step 0 h0 = Ok (cy, s) ->
    history_loop fuel step cy s = Some (Ok gl) ->
    (forall e, e ∈ events s -> Event.type e = EMPIRE_PEAK -> fired_in_tick step h0 e) ->
    forall e, e ∈ events gl -> Event.type e = EMPIRE_PEAK -> fired_in_tick step h0 e.
Proof.
  induction fuel as [|fuel IH]; intros n cy s gl Hpre Hloop Hold; [done|].
  rewrite history_loop_turn in Hloop.
  destruct (Z.ltb_spec cy (years s)) as [Hlt|Hge]; [|by injection Hloop as <-].
  destruct (history_turn step cy s) as [[cy' s']|err] eqn:Hturn; [|done].
  apply (IH (S n) cy' s' gl); [by eapply history_prefix_snoc|exact Hloop|].
  destruct (history_turn_events _ _ _ _ _ Hturn) as (peaks & crisis & He & Hno & Hp).
  intros e Hin Hty. rewrite He in Hin.
  apply elem_of_app in Hin as [Hin|Hin]; [by apply Hold|].
  apply elem_of_app in Hin as [Hin|Hin]; [|by destruct (Hno e Hin)].
  destruct (Hp e Hin) as (_ & Hy & rid & Hr & Hnone & Hbig).
  by exists n, cy, s, rid.
Qed.

Lemma spawn_loop_events range fertile target used g g' :
  spawn_loop range fertile target used g = Ok g' -> events g' = events g.
Proof.
  revert used g. induction range as [|i range IH]; intros used g H; cbn [spawn_loop] in H.
  { by injection H as <-. }
  destruct (_ >=? _); [by injection H as <-|].
  destruct (fertile !! i) as [ti|]; [|by injection H as <-].
  destruct (existsb _ used); [by apply IH in H|].
  destruct (found_realm_Ok (realm_id_of (Z.of_nat (length (realms g)) + 1))
              (Z.of_nat (length (realms g))) ti g) as (realm & r & _ & Hfound).
  rewrite Hfound, bind_Ok_l in H. by apply IH in H.
Qed.

Lemma spawn_events g g' : _spawn_initial_realms g = Ok g' -> events g' = events g.
Proof.
  unfold _spawn_initial_realms. destruct (shuffle _ _) as [fertile rg]. intros H.
  apply bind_Ok in H as (g1 & H1 & H). apply spawn_loop_events in H1. cbn in H1.
  destruct (realms g1); [|injection H as <-; congruence].
  destruct fertile as [|ti rest]; [injection H as <-; congruence|].
  destruct (found_realm_Ok "realm_1" 0 ti g1) as (realm & r & _ & Hfound).
  rewrite Hfound in H. injection H as <-. exact H1.
Qed.

(** The state in which the history loop begins: every realm has got its
    strength. *)
Definition history_start (g : Gen) : Gen :=
  set_realms (map (fun kv => (fst kv, Realm.set_strength (Some 1%float) (snd kv))) (realms g)) g.

(** The history stage: the loop ends, and every empire peak among the
    events was fired in one of its ticks. *)
Lemma simulate_history_peaks g g' :
  events g = [] -> _simulate_history g = Ok g' ->
  forall e, e ∈ events g' -> Event.type e = EMPIRE_PEAK ->
    fired_in_tick (Z.max 10 (years g / 30)) (history_start g) e.
Proof.
  unfold _simulate_history. intros Hnone H.
  destruct (realms g) as [|kv rs] eqn:Hr.
  { injection H as <-. rewrite Hnone. intros e He. by apply elem_of_nil in He. }
  rewrite <- Hr in H. fold (history_start g) in H.
  apply bind_Ok in H as (gl & Hloop & H). injection H as <-.
  change (years (history_start g)) with (years g) in Hloop.
  destruct (history_loop (S (Z.to_nat (years g))) (Z.max 10 (years g / 30)) 0 (history_start g))
    as [res|] eqn:Hl.
  2:{ exfalso. revert Hl. apply history_loop_enough_fuel; [lia|lia|].
      change (years (history_start g)) with (years g). nia. }
  cbn in Hloop. subst res.
  cbn [events set_realms]. intros e He Hty.
  apply (history_loop_peaks _ _ _ 0%nat 0 (history_start g) gl eq_refl Hl); try done.
  cbn. rewrite Hnone. intros e' He'. by apply elem_of_nil in He'.
Qed.

Lemma history_prefix_evolves n step cy g cy' g' :
  history_prefix n step cy g = Ok (cy', g') -> evolves g g'.
Proof.
  revert cy g. induction n as [|n IH]; intros cy g H; cbn [history_prefix] in H.
  { injection H as _ <-. apply runs_refl. }
  apply bind_Ok in H as ([cy1 g1] & H1 & H).
  apply history_turn_spec in H1 as (_ & Hev & _).
  eapply runs_trans; [exact Hev|by eapply IH].
Qed.

(** C4, as amended.  In a run from a fresh generator no realm has more than
    one empire peak among the events of the document; and every empire peak
    there was appended by a tick of the history loop, in a year [cy + step]
    with the loop at the head [s] in the year [cy], for a realm that had no
    peak yet and whose tiles in [s], that is, when the tick began, were more
    than 18% of the grid. *)
Theorem empire_peak_spec (g g' : Gen) :
  fresh g -> run_stages g = Ok g' ->
  (forall rid, (peak_count rid (events g') <= 1)%nat)
  ∧ exists g1 g2,
      _generate_base_tiles g = Ok g1 ∧ _spawn_initial_realms g1 = Ok g2
      ∧ forall e, e ∈ events g' -> Event.type e = EMPIRE_PEAK ->
          exists n cy s rid,
            history_prefix n (Z.max 10 (years g / 30)) 0 (history_start g2) = Ok (cy, s)
            ∧ cy < years g
            ∧ Event.year e = cy + Z.max 10 (years g / 30)
            ∧ Event.realm_ids e = [rid]
            ∧ peak_count rid (events s) = 0%nat
            ∧ PrimFloat.ltb (PrimFloat.mul (Z2F (width g * height g)) 0.18)
                (Z2F (_realm_tile_count s rid)) = true.
Proof.
  intros Hfresh Hrun.
  destruct (run_stages_staged g g' Hfresh Hrun) as (g1 & g2 & g3 & g4 & St).
  assert (He1 : events g1 = []).
  { pose proof (st_collections1 _ _ _ _ _ _ St) as Hc. unfold collections in Hc. congruence. }
  assert (He2 : events g2 = []).
  { rewrite (spawn_events g1 g2 (st_spawn _ _ _ _ _ _ St)). exact He1. }
  assert (He' : events g' = events g3).
  { rewrite (settles_events _ _ (st_settles6 _ _ _ _ _ _ St)).
    rewrite (settles_events _ _ (st_settles5 _ _ _ _ _ _ St)).
    apply (settles_events _ _ (st_settles4 _ _ _ _ _ _ St)). }
  assert (Hc2 : config g2 = config g).
  { rewrite (evolves_config _ _ (st_evolves2 _ _ _ _ _ _ St)).
    apply (st_config1 _ _ _ _ _ _ St). }
  split.
  - rewrite He'.
    apply (evolves_peak_once g2 g3 (st_evolves3 _ _ _ _ _ _ St)).
    intros rid. rewrite He2. cbn. lia.
  - exists g1, g2. split; [apply (st_base _ _ _ _ _ _ St)|].
    split; [apply (st_spawn _ _ _ _ _ _ St)|].
    intros e He Hty. rewrite He' in He.
    destruct (simulate_history_peaks g2 g3 He2 (st_history _ _ _ _ _ _ St) e He Hty)
      as (n & cy & s & rid & Hpre & Hlt & Hy & Hr & Hno & Hbig).
    rewrite (config_years _ _ Hc2) in Hpre, Hy.
    assert (Hcs : config s = config g).
    { rewrite (evolves_config _ _ (history_prefix_evolves _ _ _ _ _ _ Hpre)). exact Hc2. }
    exists n, cy, s, rid. split; [exact Hpre|].
    split; [by rewrite <- (config_years _ _ Hcs)|]. split; [exact Hy|]. split; [exact Hr|].
    split; [by apply has_empire_peak_false|].
    by rewrite <- (config_area _ _ Hcs).
Qed.

(** A continent of sixteen by ten tiles over three hundred years.  In the
    tick of the year 210 the realm [realm_1], of 29 tiles when the tick
    begins, loses a tile to [realm_3], whose pass comes first, gains none
    in its own pass, and has its empire peak with 28 tiles, 17.5% of the
    grid. *)
Definition marches_tape (i : nat) : Z :=
  Z.of_N (N.land ((N.of_nat i + 1) * 2862933555777941757 + 3038022044) 9007199254740991).

Definition marches : Gen :=
  mkGen 16 10 300 0x1.6666666666666p-2 continent 0 (mkRandom marches_tape 0) demo_namer exact_pow2
    [] [] [] [] [] [].

Definition marches_final : Gen := Eval vm_compute in value_or marches (run_stages marches).

Lemma marches_fresh : fresh marches.
Proof. by split. Qed.

Lemma marches_run : run_stages marches = Ok marches_final.
Proof. vm_compute. reflexivity. Qed.

Lemma empire_peak_spec_witness :
  (forall rid, (peak_count rid (events marches_final) <= 1)%nat)
  ∧ exists g1 g2,
      _generate_base_tiles marches = Ok g1 ∧ _spawn_initial_realms g1 = Ok g2
      ∧ forall e, e ∈ events marches_final -> Event.type e = EMPIRE_PEAK ->
          exists n cy s rid,
            history_prefix n (Z.max 10 (years marches / 30)) 0 (history_start g2) = Ok (cy, s)
            ∧ cy < years marches
            ∧ Event.year e = cy + Z.max 10 (years marches / 30)
            ∧ Event.realm_ids e = [rid]
            ∧ peak_count rid (events s) = 0%nat
            ∧ PrimFloat.ltb (PrimFloat.mul (Z2F (width marches * height marches)) 0.18)
                (Z2F (_realm_tile_count s rid)) = true.
Proof. exact (empire_peak_spec marches marches_final marches_fresh marches_run). Defined.

Definition marches_grid : Gen :=
  Eval vm_compute in value_or marches (_generate_base_tiles marches).

Definition marches_realms : Gen :=
  Eval vm_compute in value_or marches (_spawn_initial_realms marches_grid).

(** The head of the history loop of [marches] in the year 200. *)
Definition marches_year_200 : Gen :=
  Eval vm_compute in
    (value_or (0, marches) (history_prefix 20 10 0 (history_start marches_realms))).2.

Definition marches_peak : Event.t :=
  Event.mk "event_empire_realm_1_210" 210 EMPIRE_PEAK ["realm_1"] None
    "Drakreach reached its greatest extent.".

Definition marches_realm_1 : Realm.t :=
  Realm.mk "realm_1" "Drakreach" "#d05b66" None 0 None "lowland" [] (Some 1%float).

(** C4 as the claim states it fails in the run [marches]: the document has
    an empire peak of [realm_1] for the year 210, and when it was appended,
    at the end of the pass of [realm_1], the realm owned 28 tiles of the 160
    of the grid, not more than 18% of them; the test was made on the 29
    tiles counted when the tick began. *)
Lemma empire_peak_fires_below_the_threshold :
  _generate_base_tiles marches = Ok marches_grid
  ∧ _spawn_initial_realms marches_grid = Ok marches_realms
  ∧ history_prefix 20 10 0 (history_start marches_realms) = Ok (200, marches_year_200)
  ∧ run_stages marches = Ok marches_final
  ∧ marches_peak ∈ events marches_final
  ∧ Event.type marches_peak = EMPIRE_PEAK
  ∧ Event.realm_ids marches_peak = ["realm_1"]
  ∧ Event.year marches_peak = 210
  ∧ (let s := marches_year_200 in
     let tbr := tiles_by_realm_of s in
     let s1 := realm_pass 210 tbr s ("realm_3", owned_by s "realm_3") in
     let shuffled := shuffle (owned_by s "realm_1") (rng s1) in
     let r := expand_loop "realm_1" 29 2 tbr shuffled.1 (set_rng shuffled.2 s1) 0 0 in
     map fst tbr = ["realm_3"; "realm_1"; "realm_2"; "realm_4"]
     ∧ dict_get tbr "realm_3" = Some (owned_by s "realm_3")
     ∧ dict_get tbr "realm_1" = Some (owned_by s "realm_1")
     ∧ _realm_tile_count s "realm_1" = 29
     ∧ _realm_tile_count s1 "realm_1" = 28
     ∧ _realm_tile_count r.1.1 "realm_1" = 28
     ∧ dict_get (realms s1) "realm_1" = Some marches_realm_1
     ∧ realm_pass 210 tbr s1 ("realm_1", owned_by s "realm_1")
       = empire_peak_check "realm_1" marches_realm_1 29 210 r.1.1
     ∧ events (empire_peak_check "realm_1" marches_realm_1 29 210 r.1.1)
       = events s ++ [marches_peak])
  ∧ PrimFloat.ltb (PrimFloat.mul (Z2F (width marches * height marches)) 0.18) (Z2F 28)
    = false.
Proof.
  split; [vm_compute; reflexivity|]. split; [vm_compute; reflexivity|].
  split; [vm_compute; reflexivity|]. split; [exact marches_run|].
  split; [vm_compute; do 9 right; left|].
  split; [reflexivity|]. split; [reflexivity|]. split; [reflexivity|].
  split; [|vm_compute; reflexivity].
  cbv zeta. do 8 (split; [vm_compute; reflexivity|]). vm_compute. reflexivity.
Qed.

(** ** Owned tiles and settlements (claim C10) *)

Lemma staged_trace g g1 g2 g3 g4 g' :
  staged g g1 g2 g3 g4 g' ->
  stage_trace g = Ok [g1; g2; g3; g4; _derive_roads g4; g'].
Proof.
  intros St. unfold stage_trace.
  rewrite (st_base _ _ _ _ _ _ St), bind_Ok_l, (st_spawn _ _ _ _ _ _ St), bind_Ok_l.
  rewrite (st_history _ _ _ _ _ _ St), bind_Ok_l, (st_settle _ _ _ _ _ _ St), bind_Ok_l.
  by rewrite (st_ruins _ _ _ _ _ _ St), bind_Ok_l.
Qed.

Lemma no_settlements_on_land g : settlements g = [] -> settlements_on_land g.
Proof. intros H s Hs. rewrite H in Hs. by apply elem_of_nil in Hs. Qed.

(** C10.  In a run from a fresh generator, after every stage: a tile that
    belongs to a realm is neither water nor mountain, and every settlement,
    capitals among them, stands on a tile of the grid that is not water. *)
Theorem owned_tiles_are_land (g g' : Gen) :
  fresh g -> run_stages g = Ok g' ->
  exists trace,
    stage_trace g = Ok trace ∧ last trace = Some g'
    ∧ forall s, s ∈ trace ->
        (forall i, Tile.realm_id (tile_at s i) ≠ None ->
           Tile.water (tile_at s i) = false ∧ Tile.biome (tile_at s i) ≠ mountain)
        ∧ (forall st, st ∈ dict_values (settlements s) ->
             exists i, (i < length (tiles s))%nat
               ∧ Settlement.tile st = (Tile.x (tile_at s i), Tile.y (tile_at s i))
               ∧ Tile.water (tile_at s i) = false).
Proof.
  intros Hfresh Hrun.
  destruct (run_stages_staged g g' Hfresh Hrun) as (g1 & g2 & g3 & g4 & St).
  exists [g1; g2; g3; g4; _derive_roads g4; g']. split; [by apply staged_trace|].
  split; [done|].
  assert (O1 : owned_ok g1).
  { intros i Hi. destruct Hfresh as [Hnil _].
    by rewrite (grid_stage_unowned g g1 i Hnil (st_base _ _ _ _ _ _ St)) in Hi. }
  pose proof (evolves_owned_ok _ _ (st_evolves2 _ _ _ _ _ _ St) O1) as O2.
  pose proof (evolves_owned_ok _ _ (st_evolves3 _ _ _ _ _ _ St) O2) as O3.
  pose proof (settles_owned_ok _ _ (st_settles4 _ _ _ _ _ _ St) O3) as O4.
  pose proof (settles_owned_ok _ _ (st_settles5 _ _ _ _ _ _ St) O4) as O5.
  pose proof (settles_owned_ok _ _ (st_settles6 _ _ _ _ _ _ St) O5) as O6.
  assert (S1 : settlements g1 = []).
  { pose proof (st_collections1 _ _ _ _ _ _ St) as Hc. unfold collections in Hc. congruence. }
  assert (S2 : settlements g2 = []).
  { destruct (evolves_collections _ _ (st_evolves2 _ _ _ _ _ _ St)) as [-> _]. exact S1. }
  assert (S3 : settlements g3 = []).
  { destruct (evolves_collections _ _ (st_evolves3 _ _ _ _ _ _ St)) as [-> _]. exact S2. }
  pose proof (settles_on_land _ _ (st_settles4 _ _ _ _ _ _ St) O3 (no_settlements_on_land g3 S3))
    as L4.
  pose proof (settles_on_land _ _ (st_settles5 _ _ _ _ _ _ St) O4 L4) as L5.
  pose proof (settles_on_land _ _ (st_settles6 _ _ _ _ _ _ St) O5 L5) as L6.
  intros s Hs.
  repeat (apply elem_of_cons in Hs as [->|Hs]); [..|by apply elem_of_nil in Hs];
    (split; [assumption|]);
    first [assumption | by apply no_settlements_on_land].
Qed.

Definition vale_final : Gen := Eval vm_compute in value_or vale (run_stages vale).

Lemma vale_run : run_stages vale = Ok vale_final.
Proof. vm_compute. reflexivity. Qed.

Lemma vale_final_counts :
  (length (realms vale_final), length (settlements vale_final),
   length (roads vale_final), length (ruins vale_final))
  = (3%nat, 6%nat, 3%nat, 1%nat).
Proof. vm_compute. reflexivity. Qed.

Lemma owned_tiles_are_land_witness :
  exists trace,
    stage_trace vale = Ok trace ∧ last trace = Some vale_final
    ∧ forall s, s ∈ trace ->
        (forall i, Tile.realm_id (tile_at s i) ≠ None ->
           Tile.water (tile_at s i) = false ∧ Tile.biome (tile_at s i) ≠ mountain)
        ∧ (forall st, st ∈ dict_values (settlements s) ->
             exists i, (i < length (tiles s))%nat
               ∧ Settlement.tile st = (Tile.x (tile_at s i), Tile.y (tile_at s i))
               ∧ Tile.water (tile_at s i) = false).
Proof. exact (owned_tiles_are_land vale vale_final vale_fresh vale_run). Defined.

(** * Further properties of the generator *)

(** ** Grouping the tiles by realm *)

(** X1.  The dictionary [tiles_by_realm] that the expansion tick and the
    settlement stage build: its keys are distinct and are the non-empty
    realm ids that some tile carries; the list under a key holds, in the
    order of the grid, exactly the tiles that carry that id, and has as many
    entries as [_realm_tile_count] counts. *)
Theorem tiles_by_realm_groups (g : Gen) :
  NoDup (dict_keys (tiles_by_realm_of g))
  ∧ (forall rid l, (rid, l) ∈ tiles_by_realm_of g ->
       rid ≠ "" ∧ l ≠ [] ∧ l = owned_by g rid
       ∧ Z.of_nat (length l) = _realm_tile_count g rid)
  ∧ (forall rid, rid ≠ "" ->
       (rid ∈ dict_keys (tiles_by_realm_of g)
        <-> exists i, (i < length (tiles g))%nat ∧ Tile.realm_id (tile_at g i) = Some rid))
  ∧ (forall rid, rid ≠ "" -> owned_by g rid ≠ [] ->
       dict_get (tiles_by_realm_of g) rid = Some (owned_by g rid)).
Proof.
  split; [apply tiles_by_realm_keys_NoDup|]. split; [|split].
  - intros rid l Hin. destruct (tiles_by_realm_entry g rid l Hin) as (Hne & Hrid & Hl).
    split; [exact Hrid|]. split; [exact Hne|]. split; [exact Hl|].
    subst l. symmetry. apply realm_tile_count_owned.
  - intros rid Hrid. pose proof (tiles_by_realm_get g rid Hrid) as Hget. split.
    + intros Hk. destruct (dict_get (tiles_by_realm_of g) rid) as [l|] eqn:Hd.
      * destruct (owned_by g rid) as [|i rest] eqn:Hown; [done|].
        exists i. apply owned_by_elem. rewrite Hown. left.
      * apply dict_get_None_keys in Hd. by destruct Hd.
    + intros (i & Hi & Hr).
      assert (Hin : i ∈ owned_by g rid) by (by apply owned_by_elem).
      destruct (owned_by g rid) as [|j rest]; [by apply elem_of_nil in Hin|].
      apply dict_get_Some_elem in Hget.
      apply list_elem_of_fmap. by exists (rid, j :: rest).
  - intros rid Hrid Hown. rewrite (tiles_by_realm_get g rid Hrid).
    by destruct (owned_by g rid).
Qed.

(** ** Rasterised lines, continued *)

(** The coordinates the loop passes lie between the point where it stands
    and its target, and each turn of the loop adds one of them. *)
Lemma line_loop_staircase (x0 y0 DX DY sx sy : Z) :
  (sx = 1 ∨ sx = -1) -> (sy = 1 ∨ sy = -1) -> 0 <= DX -> 0 <= DY ->
  forall fuel a b points,
    0 <= a <= DX -> 0 <= b <= DY ->
    (Z.to_nat ((DX - a) + (DY - b)) < fuel)%nat ->
    exists suffix,
      line_loop fuel (x0 + sx * DX) (y0 + sy * DY) DX (- DY) sx sy
        ((b + 1) * DX - (a + 1) * DY) (x0 + sx * a) (y0 + sy * b) points
      = Some (points ++ suffix)
      ∧ Forall (fun p => exists a' b',
                  a <= a' <= DX ∧ b <= b' <= DY ∧ p = (x0 + sx * a', y0 + sy * b')) suffix
      ∧ Z.max (DX - a) (DY - b) + 1 <= Z.of_nat (length suffix)
                                    <= (DX - a) + (DY - b) + 1.
Proof.
  intros Hsx Hsy HDX HDY.
  induction fuel as [|fuel IH]; intros a b points Ha Hb Hfuel; [lia|].
  cbn [line_loop].
  assert (Hhere : exists a' b',
            a <= a' <= DX ∧ b <= b' <= DY
            ∧ (x0 + sx * a, y0 + sy * b) = (x0 + sx * a', y0 + sy * b')).
  { exists a, b. split; [lia|]. split; [lia|done]. }
  assert (Hweak : forall a1 b1 suffix,
            a <= a1 -> b <= b1 ->
            Forall (fun p => exists a' b',
                      a1 <= a' <= DX ∧ b1 <= b' <= DY
                      ∧ p = (x0 + sx * a', y0 + sy * b')) suffix ->
            Forall (fun p => exists a' b',
                      a <= a' <= DX ∧ b <= b' <= DY
                      ∧ p = (x0 + sx * a', y0 + sy * b')) suffix).
  { intros a1 b1 suffix Ha1 Hb1 Hall. eapply Forall_impl; [exact Hall|].
    intros p (a' & b' & Ha' & Hb' & ->).
    exists a', b'. split; [lia|]. split; [lia|done]. }
  destruct ((x0 + sx * a =? x0 + sx * DX) && (y0 + sy * b =? y0 + sy * DY)) eqn:Hend.
  - apply andb_true_iff in Hend as [Hx Hy].
    apply Z.eqb_eq in Hx, Hy.
    exists [(x0 + sx * a, y0 + sy * b)].
    split; [done|]. split; [by constructor|].
    assert (a = DX) by (destruct Hsx; subst sx; lia).
    assert (b = DY) by (destruct Hsy; subst sy; lia).
    cbn. lia.
  - assert (Hnot : a < DX ∨ b < DY).
    { apply andb_false_iff in Hend as [H|H]; apply Z.eqb_neq in H.
      - left. destruct (Z.eq_dec a DX); [subst; lia | lia].
      - right. destruct (Z.eq_dec b DY); [subst; lia | lia]. }
    set (err := (b + 1) * DX - (a + 1) * DY).
    destruct (Z.geb_spec (2 * err) (- DY)) as [Hgx|Hgx];
      destruct (Z.leb_spec (2 * err) DX) as [Hgy|Hgy]; subst err.
    + assert (a < DX) by nia. assert (b < DY) by nia.
      destruct (IH (a + 1) (b + 1) (points ++ [(x0 + sx * a, y0 + sy * b)]))
        as (suffix & Hrun & Hall & Hlen); [lia | lia | lia |].
      exists ((x0 + sx * a, y0 + sy * b) :: suffix).
      replace ((b + 1) * DX - (a + 1) * DY + - DY + DX)
        with ((b + 1 + 1) * DX - (a + 1 + 1) * DY) by lia.
      replace (x0 + sx * a + sx) with (x0 + sx * (a + 1)) by lia.
      replace (y0 + sy * b + sy) with (y0 + sy * (b + 1)) by lia.
      rewrite Hrun, <- app_assoc. split; [done|].
      split; [constructor; [exact Hhere|apply (Hweak (a + 1) (b + 1)); [lia|lia|exact Hall]]|].
      rewrite length_cons. lia.
    + assert (a < DX) by nia.
      destruct (IH (a + 1) b (points ++ [(x0 + sx * a, y0 + sy * b)]))
        as (suffix & Hrun & Hall & Hlen); [lia | lia | lia |].
      exists ((x0 + sx * a, y0 + sy * b) :: suffix).
      replace ((b + 1) * DX - (a + 1) * DY + - DY)
        with ((b + 1) * DX - (a + 1 + 1) * DY) by lia.
      replace (x0 + sx * a + sx) with (x0 + sx * (a + 1)) by lia.
      rewrite Hrun, <- app_assoc. split; [done|].
      split; [constructor; [exact Hhere|apply (Hweak (a + 1) b); [lia|lia|exact Hall]]|].
      rewrite length_cons. lia.
    + assert (b < DY) by nia.
      destruct (IH a (b + 1) (points ++ [(x0 + sx * a, y0 + sy * b)]))
        as (suffix & Hrun & Hall & Hlen); [lia | lia | lia |].
      exists ((x0 + sx * a, y0 + sy * b) :: suffix).
      replace ((b + 1) * DX - (a + 1) * DY + DX)
        with ((b + 1 + 1) * DX - (a + 1) * DY) by lia.
      replace (y0 + sy * b + sy) with (y0 + sy * (b + 1)) by lia.
      rewrite Hrun, <- app_assoc. split; [done|].
      split; [constructor; [exact Hhere|apply (Hweak a (b + 1)); [lia|lia|exact Hall]]|].
      rewrite length_cons. lia.
    + exfalso. nia.
Qed.

(** The coordinate [p] lies in the rectangle spanned by [a] and [b]. *)
Definition in_box (a b p : Z * Z) : Prop :=
  Z.min (fst a) (fst b) <= fst p <= Z.max (fst a) (fst b)
  ∧ Z.min (snd a) (snd b) <= snd p <= Z.max (snd a) (snd b).

(** The rasterised line stays in the rectangle that its ends span, and how
    long it is. *)
Lemma line_between_shape (x0 y0 x1 y1 : Z) :
  Forall (in_box (x0, y0) (x1, y1)) (_line_between x0 y0 x1 y1)
  ∧ Z.max (Z.abs (x1 - x0)) (Z.abs (y1 - y0)) + 1
    <= Z.of_nat (length (_line_between x0 y0 x1 y1))
    <= Z.abs (x1 - x0) + Z.abs (y1 - y0) + 1.
Proof.
  destruct (line_run_enough_fuel x0 y0 x1 y1
              (S (Z.to_nat (Z.abs (x1 - x0) + Z.abs (y1 - y0)))))
    as (p & Hrun & _); [lia|].
  assert (Hp : _line_between x0 y0 x1 y1 = p) by (unfold _line_between; by rewrite Hrun).
  rewrite Hp.
  unfold line_run in Hrun.
  set (sx := if x0 <? x1 then 1 else -1) in *.
  set (sy := if y0 <? y1 then 1 else -1) in *.
  assert (Hsx : sx = 1 ∨ sx = -1) by (subst sx; destruct (x0 <? x1); auto).
  assert (Hsy : sy = 1 ∨ sy = -1) by (subst sy; destruct (y0 <? y1); auto).
  assert (Hx1 : x1 = x0 + sx * Z.abs (x1 - x0))
    by (subst sx; destruct (Z.ltb_spec x0 x1); lia).
  assert (Hy1 : y1 = y0 + sy * Z.abs (y1 - y0))
    by (subst sy; destruct (Z.ltb_spec y0 y1); lia).
  destruct (line_loop_staircase x0 y0 (Z.abs (x1 - x0)) (Z.abs (y1 - y0)) sx sy
              Hsx Hsy (Z.abs_nonneg _) (Z.abs_nonneg _)
              (S (Z.to_nat (Z.abs (x1 - x0) + Z.abs (y1 - y0)))) 0 0 [])
    as (q & Hrun' & Hall & Hlen); [lia | lia | lia |].
  rewrite <- Hx1, <- Hy1 in Hrun'.
  replace (x0 + sx * 0) with x0 in Hrun' by lia.
  replace (y0 + sy * 0) with y0 in Hrun' by lia.
  replace ((0 + 1) * Z.abs (x1 - x0) - (0 + 1) * Z.abs (y1 - y0))
    with (Z.abs (x1 - x0) + - Z.abs (y1 - y0)) in Hrun' by lia.
  rewrite Hrun in Hrun'. cbn in Hrun'. injection Hrun' as ->.
  split; [|lia].
  eapply Forall_impl; [exact Hall|]. intros pt (a' & b' & Ha' & Hb' & ->).
  unfold in_box. cbn [fst snd].
  destruct Hsx as [Hs1|Hs1], Hsy as [Hs2|Hs2]; rewrite Hs1 in *; rewrite Hs2 in *; lia.
Qed.

(** X2.  [_line_between], whose loop is [while True]: for any two
    coordinates the loop leaves, with any budget of turns above
    [|x1 - x0| + |y1 - y0|]; the list it returns begins with the first
    coordinate and ends with the second, moves by one step of a chess king
    from each entry to the next, stays in the rectangle the two coordinates
    span, and has more than [max |x1 - x0| |y1 - y0|] and at most
    [|x1 - x0| + |y1 - y0| + 1] entries. *)
Theorem line_between_path (x0 y0 x1 y1 : Z) :
  (forall fuel, (Z.to_nat (Z.abs (x1 - x0) + Z.abs (y1 - y0)) < fuel)%nat ->
     line_run fuel x0 y0 x1 y1 = Some (_line_between x0 y0 x1 y1))
  ∧ head (_line_between x0 y0 x1 y1) = Some (x0, y0)
  ∧ last (_line_between x0 y0 x1 y1) = Some (x1, y1)
  ∧ is_path (_line_between x0 y0 x1 y1)
  ∧ Forall (in_box (x0, y0) (x1, y1)) (_line_between x0 y0 x1 y1)
  ∧ Z.max (Z.abs (x1 - x0)) (Z.abs (y1 - y0)) + 1
    <= Z.of_nat (length (_line_between x0 y0 x1 y1))
    <= Z.abs (x1 - x0) + Z.abs (y1 - y0) + 1.
Proof.
  split; [intros fuel Hfuel; by apply line_between_is_run|].
  destruct (line_run_enough_fuel x0 y0 x1 y1
              (S (Z.to_nat (Z.abs (x1 - x0) + Z.abs (y1 - y0)))))
    as (p & Hrun & Hhd & Hlast & Hpath); [lia|].
  assert (Hp : _line_between x0 y0 x1 y1 = p) by (unfold _line_between; by rewrite Hrun).
  destruct (line_between_shape x0 y0 x1 y1) as [Hbox Hlen].
  rewrite Hp in Hbox, Hlen |- *.
  split; [exact Hhd|]. split; [exact Hlast|]. split; [exact Hpath|].
  split; [exact Hbox|exact Hlen].
Qed.

(** ** Ruins *)

(** The ruin that [make_ruin] appends for the entry [i] of the pool. *)
Lemma make_ruin_spec border_tiles i g g' :
  make_ruin border_tiles i g = Ok g' ->
  exists ti ruin r,
    border_tiles !! i = Some ti
    ∧ g' = set_ruins (ruins g ++ [ruin]) (set_rng r g)
    ∧ Ruin.id ruin = "ruin_" +:+ str_of_Z (Z.of_nat i + 1)
    ∧ Ruin.tile ruin = coords g ti
    ∧ Z.max 5 (years g / 4) <= Ruin.destroyed_year ruin <= years g
    ∧ Ruin.origin_settlement_id ruin = None
    ∧ Ruin.tags ruin = ["haunted"; "contested_border"].
Proof.
  unfold make_ruin. intros H.
  destruct (border_tiles !! i) as [ti|]; [|done].
  destruct (_make_settlement_name "ruin" g) as [name g1] eqn:Hn.
  apply make_settlement_name_evolves in Hn as (r1 & ->).
  apply bind_Ok in H as ([dy rg1] & Hdy & H). apply randint_range in Hdy.
  apply bind_Ok in H as ([cause rg2] & _ & H). injection H as <-.
  eexists ti, _, rg2. split; [done|]. split; [reflexivity|].
  cbn [Ruin.id Ruin.tile Ruin.destroyed_year Ruin.origin_settlement_id Ruin.tags].
  split; [done|]. split; [done|]. split; [exact Hdy|]. by split.
Qed.

Lemma make_ruin_Ok border_tiles i ti g :
  border_tiles !! i = Some ti -> 5 <= years g -> exists g', make_ruin border_tiles i g = Ok g'.
Proof.
  intros Hi Hy. unfold make_ruin. rewrite Hi.
  destruct (_make_settlement_name "ruin" g) as [name g1] eqn:Hn.
  apply make_settlement_name_evolves in Hn as (r1 & ->).
  destruct (randint_Ok (Z.max 5 (years (set_rng r1 g) / 4)) (years (set_rng r1 g)) (rng (set_rng r1 g)))
    as (dy & rg1 & Hdy & _).
  { cbn. assert (years g / 4 <= years g) by (apply Z.div_le_upper_bound; lia). lia. }
  rewrite Hdy, bind_Ok_l.
  destruct (choice_nonempty [CIVIL_WAR; RAID; PLAGUE; ARCANE_DISASTER] rg1) as (cause & rg2 & Hc);
    [done|].
  rewrite Hc, bind_Ok_l. by eexists.
Qed.

Lemma make_ruin_raises border_tiles i ti g :
  border_tiles !! i = Some ti -> years g < 5 -> make_ruin border_tiles i g = Raise ValueError.
Proof.
  intros Hi Hy. unfold make_ruin. rewrite Hi.
  destruct (_make_settlement_name "ruin" g) as [name g1] eqn:Hn.
  apply make_settlement_name_evolves in Hn as (r1 & ->).
  unfold randint. cbn [years set_rng].
  destruct (Z.ltb_spec (years g) (Z.max 5 (years g / 4))) as [_|Hge]; [done|lia].
Qed.

(** What the ruin stage leaves alone. *)
Definition ruin_frame (a b : Gen) : Prop :=
  config b = config a ∧ tiles b = tiles a ∧ realms b = realms a
  ∧ settlements b = settlements a ∧ events b = events a ∧ roads b = roads a.

(** The ruins [new], appended for the first entries of [pool]. *)
Definition ruins_of (g : Gen) (pool : list nat) (first : nat) (new : list Ruin.t) : Prop :=
  forall k ruin, new !! k = Some ruin ->
    exists ti,
      pool !! (first + k)%nat = Some ti
      ∧ Ruin.id ruin = "ruin_" +:+ str_of_Z (Z.of_nat (first + k) + 1)
      ∧ Ruin.tile ruin = coords g ti
      ∧ Z.max 5 (years g / 4) <= Ruin.destroyed_year ruin <= years g
      ∧ Ruin.origin_settlement_id ruin = None
      ∧ Ruin.tags ruin = ["haunted"; "contested_border"].

Lemma ruins_loop_spec pool (n : nat) :
  forall first g g',
    for_each (seq first n) (make_ruin pool) g = Ok g' ->
    ruin_frame g g'
    ∧ exists new, ruins g' = ruins g ++ new ∧ length new = n ∧ ruins_of g pool first new.
Proof.
  induction n as [|n IH]; intros first g g' H.
  { cbn in H. injection H as <-. split; [done|]. exists []. rewrite app_nil_r.
    split; [done|]. split; [done|]. intros k ruin Hk. done. }
  cbn [seq] in H. rewrite for_each_cons in H. apply bind_Ok in H as (g1 & H1 & H).
  apply make_ruin_spec in H1 as (ti & ruin & r & Hti & -> & Hid & Htile & Hy & Ho & Htags).
  apply IH in H as ((Hc & Ht & Hr & Hs & He & Hro) & new & Hnew & Hlen & Hall).
  split; [repeat split; [rewrite Hc|rewrite Ht|rewrite Hr|rewrite Hs|rewrite He|rewrite Hro];
          reflexivity|].
  exists (ruin :: new). split; [by rewrite Hnew; cbn; rewrite <- app_assoc|].
  split; [by rewrite length_cons, Hlen|].
  intros [|k] ruin' Hk.
  - cbn in Hk. injection Hk as <-. exists ti. rewrite Nat.add_0_r.
    split; [exact Hti|]. split; [exact Hid|]. split; [exact Htile|]. split; [exact Hy|].
    by split.
  - cbn in Hk. destruct (Hall k ruin' Hk) as (ti' & H1 & H2 & H3 & H4 & H5 & H6).
    exists ti'. replace (first + S k)%nat with (S first + k)%nat by lia.
    split; [exact H1|]. split; [exact H2|]. split; [exact H3|]. split; [exact H4|].
    by split.
Qed.

Lemma ruins_loop_Ok pool (n : nat) :
  forall first g,
    (first + n <= length pool)%nat -> 5 <= years g ->
    exists g', for_each (seq first n) (make_ruin pool) g = Ok g'.
Proof.
  induction n as [|n IH]; intros first g Hlen Hy; [by eexists|].
  cbn [seq]. rewrite for_each_cons.
  destruct (lookup_lt_is_Some_2 pool first) as [ti Hti]; [lia|].
  destruct (make_ruin_Ok pool first ti g Hti Hy) as (g1 & H1). rewrite H1, bind_Ok_l.
  apply make_ruin_spec in H1 as (_ & ruin & r & _ & -> & _).
  apply IH; [lia|done].
Qed.

Lemma ruin_target_bound (pool : list nat) :
  (Z.to_nat (ruin_target pool) <= 5)%nat
  ∧ (Z.to_nat (ruin_target pool) <= length pool)%nat
  ∧ (0 < ruin_target pool <-> 30 <= Z.of_nat (length pool)).
Proof.
  unfold ruin_target.
  assert (H0 : 0 <= Z.of_nat (length pool) / 30) by (apply Z.div_pos; lia).
  assert (H1 : Z.of_nat (length pool) / 30 <= Z.of_nat (length pool))
    by (apply Z.div_le_upper_bound; lia).
  split; [lia|]. split; [lia|]. split.
  - intros H. destruct (Z.le_gt_cases 30 (Z.of_nat (length pool))) as [|Hlt]; [done|].
    rewrite Z.div_small in H; lia.
  - intros H. assert (1 <= Z.of_nat (length pool) / 30) by (apply Z.div_le_lower_bound; lia).
    lia.
Qed.


Lemma ruin_candidates_elem g ti :
  ti ∈ ruin_candidates g <->
  (ti < length (tiles g))%nat ∧ Tile.water (tile_at g ti) = false
  ∧ _is_border_tile g ti = true ∧ truthy (Tile.settlement_id (tile_at g ti)) = false.
Proof.
  unfold ruin_candidates. rewrite list_elem_of_filter, elem_of_seq. split.
  - intros [(H1 & H2 & H3) H4]. split; [lia|done].
  - intros (H1 & H2 & H3 & H4). split; [done|lia].
Qed.

Lemma ruin_candidates_NoDup g : NoDup (ruin_candidates g).
Proof. unfold ruin_candidates. apply NoDup_filter, NoDup_seq. Qed.

(** X3.  [_derive_ruins] on a grid in row-major order, for a generator of
    five years or more: it returns; it appends [min 5 (len pool // 30)] ruins, [pool] being the shuffled
    list of the land tiles on a realm border that hold no settlement, and
    changes nothing else but the random stream; the ruins are numbered
    [ruin_1], [ruin_2], ... in the order of the pool, stand on pairwise
    distinct tiles of it, and are dated between [max 5 (years // 4)] and
    [years]. *)
Theorem derive_ruins_spec (g : Gen) :
  grid_ok g -> 5 <= years g ->
  let pool := (shuffle (ruin_candidates g) (rng g)).1 in
  let n := Z.to_nat (Z.min 5 (Z.of_nat (length pool) / 30)) in
  exists g' new,
    _derive_ruins g = Ok g'
    ∧ ruins g' = ruins g ++ new
    ∧ length new = n ∧ (n <= 5)%nat
    ∧ NoDup (take n pool)
    ∧ (tiles g' = tiles g ∧ realms g' = realms g ∧ settlements g' = settlements g
       ∧ events g' = events g ∧ roads g' = roads g)
    ∧ forall k ruin, new !! k = Some ruin ->
        exists ti,
          take n pool !! k = Some ti
          ∧ Ruin.id ruin = "ruin_" +:+ str_of_Z (Z.of_nat k + 1)
          ∧ Ruin.tile ruin = (Tile.x (tile_at g ti), Tile.y (tile_at g ti))
          ∧ (ti < length (tiles g))%nat
          ∧ Tile.water (tile_at g ti) = false
          ∧ _is_border_tile g ti = true
          ∧ truthy (Tile.settlement_id (tile_at g ti)) = false
          ∧ Z.max 5 (years g / 4) <= Ruin.destroyed_year ruin <= years g.
Proof.
  intros _ Hy pool n. unfold _derive_ruins.
  destruct (shuffle (ruin_candidates g) (rng g)) as [border_tiles rg] eqn:Hsh.
  subst pool n. cbn [fst].
  destruct (ruin_target_bound border_tiles) as (H5 & Hlen & _).
  fold (ruin_target border_tiles).
  destruct (ruins_loop_Ok border_tiles (Z.to_nat (ruin_target border_tiles)) 0 (set_rng rg g))
    as (g' & Hrun); [lia|exact Hy|].
  destruct (ruins_loop_spec _ _ _ _ _ Hrun)
    as ((Hc & Ht & Hr & Hs & He & Hro) & new & Hnew & Hn & Hall).
  exists g', new. split; [exact Hrun|]. split; [exact Hnew|]. split; [exact Hn|].
  split; [exact H5|].
  assert (Hperm : border_tiles ≡ₚ ruin_candidates g).
  { pose proof (shuffle_perm (ruin_candidates g) (rng g)) as Hp. by rewrite Hsh in Hp. }
  split.
  { assert (Hnd : NoDup border_tiles) by (rewrite Hperm; apply ruin_candidates_NoDup).
    rewrite <- (take_drop (Z.to_nat (ruin_target border_tiles)) border_tiles) in Hnd.
    by apply NoDup_app in Hnd as [Hnd _]. }
  split; [done|].
  intros k ruin Hk. destruct (Hall k ruin Hk) as (ti & Hti & Hid & Htile & Hyear & _).
  cbn [Nat.add] in Hti, Hid.
  assert (Hklt : (k < Z.to_nat (ruin_target border_tiles))%nat).
  { rewrite <- Hn. by eapply lookup_lt_Some. }
  assert (Hcand : ti ∈ ruin_candidates g).
  { rewrite <- Hperm. by eapply list_elem_of_lookup_2. }
  apply ruin_candidates_elem in Hcand as (H1 & H2 & H3 & H4).
  exists ti. split; [by rewrite lookup_take_lt|]. split; [exact Hid|].
  split; [exact Htile|]. do 4 (split; [assumption|]). exact Hyear.
Qed.

(** X4.  When [_derive_ruins] raises on a grid in row-major order: exactly
    on a generator of fewer than five years that has thirty candidate tiles
    or more, where the first
    ruin asks [randint] for a year in the empty range from 5 to [years];
    the error is [ValueError].  In every other case the method returns, and
    with fewer than thirty candidates it adds no ruin at all. *)
Theorem derive_ruins_raises_iff (g : Gen) :
  grid_ok g ->
  (_derive_ruins g = Raise ValueError
   <-> years g < 5 ∧ (30 <= length (ruin_candidates g))%nat)
  ∧ ((exists g', _derive_ruins g = Ok g')
     <-> 5 <= years g ∨ (length (ruin_candidates g) < 30)%nat)
  ∧ ((length (ruin_candidates g) < 30)%nat ->
     exists r, _derive_ruins g = Ok (set_rng r g)).
Proof.
  intros _.
  assert (Hfew : (length (ruin_candidates g) < 30)%nat ->
                 exists r, _derive_ruins g = Ok (set_rng r g)).
  { intros Hlt. unfold _derive_ruins.
    destruct (shuffle (ruin_candidates g) (rng g)) as [border_tiles rg] eqn:Hsh.
    apply shuffle_length in Hsh.
    destruct (ruin_target_bound border_tiles) as (_ & _ & Hpos).
    assert (Htarget : ¬ 0 < ruin_target border_tiles) by (rewrite Hpos; lia).
    fold (ruin_target border_tiles).
    replace (Z.to_nat (ruin_target border_tiles)) with 0%nat by lia.
    by exists rg. }
  assert (Hraise : years g < 5 -> (30 <= length (ruin_candidates g))%nat ->
                   _derive_ruins g = Raise ValueError).
  { intros Hy Hmany. unfold _derive_ruins.
    destruct (shuffle (ruin_candidates g) (rng g)) as [border_tiles rg] eqn:Hsh.
    apply shuffle_length in Hsh.
    destruct (ruin_target_bound border_tiles) as (_ & _ & Hpos).
    assert (Htarget : 0 < ruin_target border_tiles) by (apply Hpos; lia).
    fold (ruin_target border_tiles).
    destruct (Z.to_nat (ruin_target border_tiles)) as [|n] eqn:Hn; [lia|].
    cbn [seq]. rewrite for_each_cons.
    destruct (lookup_lt_is_Some_2 border_tiles 0) as [ti Hti]; [lia|].
    by rewrite (make_ruin_raises border_tiles 0 ti (set_rng rg g) Hti Hy). }
  assert (Hok : 5 <= years g -> exists g', _derive_ruins g = Ok g').
  { intros Hy. unfold _derive_ruins.
    destruct (shuffle (ruin_candidates g) (rng g)) as [border_tiles rg] eqn:Hsh.
    destruct (ruin_target_bound border_tiles) as (_ & Hlen & _).
    fold (ruin_target border_tiles).
    apply (ruins_loop_Ok border_tiles _ 0 (set_rng rg g)); [lia|exact Hy]. }
  split; [|split; [|exact Hfew]].
  - split; [|by intros [? ?]; apply Hraise].
    intros Hr. destruct (decide (years g < 5)) as [Hy|Hy].
    + split; [done|]. destruct (decide (30 <= length (ruin_candidates g))%nat); [done|].
      destruct Hfew as [r Hr']; [lia|congruence].
    + destruct Hok as [g' Hg']; [lia|congruence].
  - split.
    + intros [g' Hg']. destruct (decide (5 <= years g)); [by left|right].
      destruct (decide (length (ruin_candidates g) < 30)%nat); [done|].
      rewrite Hraise in Hg' by lia. done.
    + intros [Hy|Hlt]; [by apply Hok|]. destruct (Hfew Hlt) as [r Hr]. by eexists.
Qed.

(** The run of [vale] stage by stage, after the history. *)
Definition vale_history : Gen :=
  Eval vm_compute in value_or vale_realms (_simulate_history vale_realms).

Definition vale_settled : Gen :=
  Eval vm_compute in value_or vale_history (_derive_settlements vale_history).

Definition vale_roads : Gen := Eval vm_compute in _derive_roads vale_settled.

Lemma vale_history_run : _simulate_history vale_realms = Ok vale_history.
Proof. vm_compute. reflexivity. Qed.

Lemma vale_settled_run : _derive_settlements vale_history = Ok vale_settled.
Proof. vm_compute. reflexivity. Qed.

Lemma vale_roads_run : _derive_ruins vale_roads = Ok vale_final.
Proof. vm_compute. reflexivity. Qed.

Lemma vale_roads_grid_ok : grid_ok vale_roads.
Proof. vm_compute. reflexivity. Qed.

Lemma derive_ruins_spec_witness :
  grid_ok vale_roads ∧ 5 <= years vale_roads
  ∧ let pool := (shuffle (ruin_candidates vale_roads) (rng vale_roads)).1 in
    let n := Z.to_nat (Z.min 5 (Z.of_nat (length pool) / 30)) in
    exists g' new,
      _derive_ruins vale_roads = Ok g'
      ∧ ruins g' = ruins vale_roads ++ new
      ∧ length new = n ∧ (n <= 5)%nat
      ∧ NoDup (take n pool)
      ∧ (tiles g' = tiles vale_roads ∧ realms g' = realms vale_roads
         ∧ settlements g' = settlements vale_roads
         ∧ events g' = events vale_roads ∧ roads g' = roads vale_roads)
      ∧ forall k ruin, new !! k = Some ruin ->
          exists ti,
            take n pool !! k = Some ti
            ∧ Ruin.id ruin = "ruin_" +:+ str_of_Z (Z.of_nat k + 1)
            ∧ Ruin.tile ruin = (Tile.x (tile_at vale_roads ti), Tile.y (tile_at vale_roads ti))
            ∧ (ti < length (tiles vale_roads))%nat
            ∧ Tile.water (tile_at vale_roads ti) = false
            ∧ _is_border_tile vale_roads ti = true
            ∧ truthy (Tile.settlement_id (tile_at vale_roads ti)) = false
            ∧ Z.max 5 (years vale_roads / 4) <= Ruin.destroyed_year ruin <= years vale_roads.
Proof.
  assert (Hy : 5 <= years vale_roads) by (by vm_compute).
  split; [exact vale_roads_grid_ok|]. split; [exact Hy|].
  exact (derive_ruins_spec vale_roads vale_roads_grid_ok Hy).
Defined.

(** The state of [vale] before the ruins, had the generator been made for
    three years: its 31 candidate tiles ask for a ruin, which cannot be
    dated. *)
Definition vale_rushed : Gen :=
  mkGen (width vale_roads) (height vale_roads) 3 (base_sea_level vale_roads)
    (mode vale_roads) (seed vale_roads) (rng vale_roads) (settlement_namer vale_roads)
    (float_pow2 vale_roads) (tiles vale_roads) (realms vale_roads)
    (settlements vale_roads) (events vale_roads) (roads vale_roads) (ruins vale_roads).

Lemma vale_rushed_grid_ok : grid_ok vale_rushed.
Proof. vm_compute. reflexivity. Qed.

Lemma vale_rushed_raises :
  length (ruin_candidates vale_rushed) = 31%nat
  ∧ _derive_ruins vale_rushed = Raise ValueError.
Proof. split; vm_compute; reflexivity. Qed.

Lemma derive_ruins_raises_iff_witness :
  grid_ok vale_rushed
  ∧ (_derive_ruins vale_rushed = Raise ValueError
     <-> years vale_rushed < 5 ∧ (30 <= length (ruin_candidates vale_rushed))%nat)
  ∧ ((exists g', _derive_ruins vale_rushed = Ok g')
     <-> 5 <= years vale_rushed ∨ (length (ruin_candidates vale_rushed) < 30)%nat)
  ∧ ((length (ruin_candidates vale_rushed) < 30)%nat ->
     exists r, _derive_ruins vale_rushed = Ok (set_rng r vale_rushed)).
Proof.
  split; [exact vale_rushed_grid_ok|].
  exact (derive_ruins_raises_iff vale_rushed vale_rushed_grid_ok).
Defined.


Lemma moisture_single_row g y rg :
  height g = 1 -> moisture_at g y rg = Raise ZeroDivisionError.
Proof. intros H. unfold moisture_at. by rewrite H. Qed.

Lemma grid_loop_single_row body g :
  height g = 1 -> 1 <= width g ->
  (forall g', height g' = height g -> body 0 0 g' = Raise ZeroDivisionError) ->
  grid_loop body g = Raise ZeroDivisionError.
Proof.
  intros Hh Hw Hbody. unfold grid_loop. rewrite Hh.
  change (seqZ 0 1) with [0]. rewrite for_each_cons.
  rewrite (seqZ_cons 0 (width g)) by lia. rewrite for_each_cons.
  by rewrite Hbody.
Qed.

Lemma draw_center_Ok g acc :
  1 <= width g -> 1 <= height g -> exists acc', draw_center g acc = Ok acc'.
Proof.
  intros Hw Hh. unfold draw_center.
  destruct (randint_Ok 0 (width g - 1) (snd acc)) as (cx & r1 & H1 & _); [lia|].
  destruct (randint_Ok 0 (height g - 1) r1) as (cy & r2 & H2 & _); [lia|].
  rewrite H1, bind_Ok_l, H2, bind_Ok_l.
  destruct (uniform 8 16 r2) as [rad r3]. by eexists.
Qed.

Lemma draw_centers_Ok g (l : list Z) acc :
  1 <= width g -> 1 <= height g ->
  exists centers rg, for_each l (fun _ => draw_center g) acc = Ok (centers, rg).
Proof.
  intros Hw Hh. revert acc.
  induction l as [|a l IH]; intros acc; [destruct acc; by eexists _, _|].
  rewrite for_each_cons. destruct (draw_center_Ok g acc Hw Hh) as [acc' ->].
  rewrite bind_Ok_l. apply IH.
Qed.

(** X5.  A map of a single row cannot be generated: the moisture of a tile
    divides its row by [height - 1], so with [height = 1] and at least one
    column, a hundred thousand at most, the first tile raises
    [ZeroDivisionError], in both modes, and [generate_region] with it. *)
Theorem single_row_raises (g : Gen) :
  map_sized g -> height g = 1 -> 1 <= width g ->
  _generate_base_tiles g = Raise ZeroDivisionError
  ∧ generate_region g = Raise ZeroDivisionError.
Proof.
  intros _ Hh Hw.
  assert (H : _generate_base_tiles g = Raise ZeroDivisionError).
  { unfold _generate_base_tiles. destruct (mode g).
    - unfold continent_grid. rewrite grid_loop_single_row; [done..|].
      intros g' Hg'. unfold continent_tile.
      destruct (random (rng g')) as [u1 r1]. destruct (random r1) as [u2 r2].
      rewrite moisture_single_row; [done|congruence].
    - unfold archipelago_grid.
      destruct (draw_centers_Ok g (seqZ 0 (Z.max 2 (width g * height g / 800))) ([], rng g))
        as (centers & rg & Hc); [lia..|].
      rewrite Hc, bind_Ok_l. rewrite grid_loop_single_row; [done..|].
      intros g' Hg'. unfold archipelago_tile.
      destruct (random (rng g')) as [u r1].
      rewrite moisture_single_row; [done|]. cbn in Hg'. congruence. }
  split; [exact H|]. unfold generate_region, run_stages. by rewrite H.
Qed.

(** A map of one row and three columns. *)
Definition strip : Gen :=
  mkGen 3 1 50 0.35 continent 11 (mkRandom vale_tape 0) demo_namer exact_pow2
    [] [] [] [] [] [].

Lemma single_row_raises_witness :
  map_sized strip ∧ height strip = 1 ∧ 1 <= width strip
  ∧ _generate_base_tiles strip = Raise ZeroDivisionError
  ∧ generate_region strip = Raise ZeroDivisionError.
Proof.
  assert (Hs : map_sized strip) by (unfold map_sized, strip; cbn; lia).
  split; [exact Hs|]. split; [reflexivity|]. split; [by vm_compute|].
  apply (single_row_raises strip); [exact Hs|reflexivity|by vm_compute].
Defined.


(** ** The realms on record

    Realms are created in two places, when they are spawned and when a civil
    war splits one; the history adds notes and the strength, the settlement
    stage the capital; tiles are handed to realms on record and taken from
    them.  [reign_step] lists these updates with what the code has fixed
    when it makes them. *)

(** A name of [_make_realm_name]. *)
Definition name_ok (n : string) : Prop :=
  exists p s, p ∈ realm_prefixes ∧ s ∈ realm_suffixes ∧ n = p +:+ s.

(** A colour of [_random_color]: three channels between 80 and 220. *)
Definition color_ok (c : string) : Prop :=
  exists r gr b,
    80 <= r <= 220 ∧ 80 <= gr <= 220 ∧ 80 <= b <= 220
    ∧ c = "#" +:+ hex2 r +:+ hex2 gr +:+ hex2 b.

Lemma make_realm_name_spec index g name g' :
  _make_realm_name index g = Ok (name, g') -> name_ok name ∧ exists r, g' = set_rng r g.
Proof.
  unfold _make_realm_name. intros H.
  apply bind_Ok in H as ([p rg1] & Hp & H). apply bind_Ok in H as ([s rg2] & Hs & H).
  injection H as <- <-. apply choice_Ok in Hp, Hs.
  split; [by exists p, s|by eexists].
Qed.

Lemma random_color_spec g c g' :
  _random_color g = Ok (c, g') -> color_ok c ∧ exists r, g' = set_rng r g.
Proof.
  unfold _random_color. intros H.
  apply bind_Ok in H as ([r1 rg1] & H1 & H). apply bind_Ok in H as ([r2 rg2] & H2 & H).
  apply bind_Ok in H as ([r3 rg3] & H3 & H). injection H as <- <-.
  apply randint_range in H1, H2, H3.
  split; [by exists r1, r2, r3|by eexists].
Qed.

Inductive reign_step : Gen -> Gen -> Prop :=
| rg_keep g g' :
    realms g' = realms g ->
    (forall i, Tile.realm_id (tile_at g' i) = Tile.realm_id (tile_at g i)) ->
    reign_step g g'
| rg_found g rid name color founded culture notes :
    rid = realm_id_of (Z.of_nat (length (realms g)) + 1) ->
    (length (realms g) <= 8)%nat ->
    name_ok name -> color_ok color ->
    culture = "lowland"
    ∨ (exists parent, parent ∈ dict_values (realms g) ∧ culture = Realm.culture parent) ->
    reign_step g
      (set_realms (dict_set (realms g) rid (new_realm rid name color founded culture notes)) g)
| rg_note g rid n :
    reign_step g (set_realms (dict_update (realms g) rid (Realm.add_note n)) g)
| rg_strength g s :
    reign_step g
      (set_realms (map (fun kv => (fst kv, Realm.set_strength s (snd kv))) (realms g)) g)
| rg_claim g i rid :
    dict_mem (realms g) rid = true ->
    reign_step g (update_tile i (Tile.set_realm_id (Some rid)) g)
| rg_release g i :
    reign_step g (update_tile i (Tile.set_realm_id None) g).

Abbreviation reigns := (runs reign_step).

Lemma reigns_keep g g' :
  realms g' = realms g ->
  (forall i, Tile.realm_id (tile_at g' i) = Tile.realm_id (tile_at g i)) ->
  reigns g g'.
Proof. intros H Ht. by apply runs_one, rg_keep. Qed.

(** Peels the last update off the goal [reigns g g']. *)
Ltac rg_peel :=
  lazymatch goal with
  | |- runs reign_step ?G ?G => apply runs_refl
  | |- runs reign_step _ (set_rng ?r ?G) =>
      apply (runs_step _ _ G); [|by apply rg_keep]
  | |- runs reign_step _ (update_tile ?i (Tile.set_realm_id (Some ?rid)) ?G) =>
      apply (runs_step _ _ G); [|apply (rg_claim G i rid)]
  | |- runs reign_step _ (update_tile ?i (Tile.set_realm_id None) ?G) =>
      apply (runs_step _ _ G); [|exact (rg_release G i)]
  | |- runs reign_step _ (set_events ?e ?G) =>
      apply (runs_step _ _ G); [|by apply rg_keep]
  | |- runs reign_step _ (set_realms (dict_set _ _ (new_realm _ _ _ _ _ _)) ?G) =>
      apply (runs_step _ _ G); [|apply (rg_found G)]
  | |- runs reign_step _ (set_realms (dict_update _ ?k (Realm.add_note ?n)) ?G) =>
      apply (runs_step _ _ G); [|exact (rg_note G k n)]
  end.

Lemma found_realm_reigns rid index ti g g' :
  rid = realm_id_of (Z.of_nat (length (realms g)) + 1) ->
  (length (realms g) <= 8)%nat ->
  found_realm rid index ti g = Ok g' -> reigns g g'.
Proof.
  unfold found_realm. intros Hrid Hlen H.
  apply bind_Ok in H as ([name g1] & H1 & H).
  apply make_realm_name_spec in H1 as (Hname & r1 & ->).
  apply bind_Ok in H as ([color g2] & H2 & H).
  apply random_color_spec in H2 as (Hcol & r2 & ->).
  injection H as <-.
  rg_peel; [|cbn [realms set_realms]; unfold dict_mem; by rewrite dict_get_set, String.eqb_refl].
  rg_peel; [repeat rg_peel|done..|by left].
Qed.

Lemma spawn_loop_reigns range fertile target used g g' :
  target <= 9 ->
  spawn_loop range fertile target used g = Ok g' -> reigns g g'.
Proof.
  intros Ht. revert used g. induction range as [|i range IH]; intros used g H;
    cbn [spawn_loop] in H.
  { injection H as <-. apply runs_refl. }
  destruct (Z.geb_spec (Z.of_nat (length (realms g))) target);
    [injection H as <-; apply runs_refl|].
  destruct (fertile !! i) as [ti|] eqn:Hti; [|injection H as <-; apply runs_refl].
  destruct (existsb _ used); [by eapply IH|].
  apply bind_Ok in H as (g1 & H1 & H).
  apply found_realm_reigns in H1; [|done|lia].
  eapply runs_trans; [exact H1|]. by eapply IH.
Qed.

Lemma target_realms_le g : 2 <= target_realms_of g <= 6.
Proof. unfold target_realms_of. lia. Qed.

Lemma spawn_reigns g g' : _spawn_initial_realms g = Ok g' -> reigns g g'.
Proof.
  unfold _spawn_initial_realms. intros H.
  destruct (shuffle (fertile_indices g) (rng g)) as [fertile rg] eqn:Hsh.
  apply bind_Ok in H as (g1 & H1 & H).
  apply spawn_loop_reigns in H1; [|pose proof (target_realms_le (set_rng rg g)); lia].
  assert (H0 : reigns g g1).
  { eapply runs_trans; [|exact H1]. by apply reigns_keep. }
  destruct (realms g1) as [|kv rs] eqn:Hr; [|injection H as <-; exact H0].
  destruct fertile as [|ti fertile]; [injection H as <-; exact H0|].
  eapply runs_trans; [exact H0|].
  eapply found_realm_reigns; [| |exact H]; rewrite Hr; [done|cbn; lia].
Qed.

Lemma annex_neighbor_reigns rid size tbr g grown n :
  dict_mem (realms g) rid = true ->
  reigns g (fst (annex_neighbor rid size tbr (g, grown) n))
  ∧ realms (fst (annex_neighbor rid size tbr (g, grown) n)) = realms g.
Proof.
  intros Hrid. unfold annex_neighbor.
  destruct (Tile.water (tile_at g n) || biome_eqb (Tile.biome (tile_at g n)) mountain);
    [split; [apply runs_refl|done]|].
  destruct (Tile.realm_id (tile_at g n)) as [other_id|] eqn:Hr.
  - destruct (negb (String.eqb other_id rid)); [|split; [apply runs_refl|done]].
    destruct (random (rng g)) as [u rg].
    destruct (PrimFloat.ltb u _); cbn [fst]; (split; [|done]).
    + rg_peel; [repeat rg_peel|exact Hrid].
    + repeat rg_peel.
  - cbn [fst]. split; [|done]. rg_peel; [rg_peel|exact Hrid].
Qed.

Lemma annex_fold_reigns rid size tbr l g grown :
  dict_mem (realms g) rid = true ->
  reigns g (fst (fold_left (annex_neighbor rid size tbr) l (g, grown)))
  ∧ realms (fst (fold_left (annex_neighbor rid size tbr) l (g, grown))) = realms g.
Proof.
  revert g grown. induction l as [|n l IH]; intros g grown Hrid; cbn [fold_left];
    [split; [apply runs_refl|done]|].
  destruct (annex_neighbor_reigns rid size tbr g grown n Hrid) as [H Hr].
  destruct (annex_neighbor rid size tbr (g, grown) n) as [g1 grown1]. cbn [fst] in *.
  destruct (IH g1 grown1) as [H' Hr']; [by rewrite Hr|].
  split; [by eapply runs_trans|congruence].
Qed.

Lemma expand_loop_reigns rid size desired tbr realm_tiles g grown attempts :
  dict_mem (realms g) rid = true ->
  reigns g (fst (fst (expand_loop rid size desired tbr realm_tiles g grown attempts))).
Proof.
  revert g grown attempts.
  induction realm_tiles as [|t rest IH]; intros g grown attempts Hrid; cbn [expand_loop];
    [apply runs_refl|].
  destruct (grown >=? desired); [apply runs_refl|].
  destruct (annex_fold_reigns rid size tbr
              (_neighbors g (Tile.x (tile_at g t)) (Tile.y (tile_at g t))) g grown Hrid)
    as [H Hr].
  destruct (fold_left _ _ (g, grown)) as [g1 grown1]. cbn [fst] in *.
  destruct (attempts + 1 >? desired * 6); [exact H|].
  eapply runs_trans; [exact H|]. apply IH. by rewrite Hr.
Qed.

Lemma realm_pass_reigns year tbr g entry : reigns g (realm_pass year tbr g entry).
Proof.
  destruct entry as [rid l]. unfold realm_pass.
  destruct (dict_get (realms g) rid) as [realm|] eqn:Hget; [|apply runs_refl].
  destruct (shuffle l (rng g)) as [shuffled rg].
  assert (Hrid : dict_mem (realms (set_rng rg g)) rid = true).
  { unfold dict_mem. cbn [realms set_rng]. by rewrite Hget. }
  pose proof (expand_loop_reigns rid (Z.of_nat (length l))
                (Z.max 1 (Z.of_nat (length l) / 12)) tbr shuffled (set_rng rg g) 0 0 Hrid) as H.
  destruct (expand_loop _ _ _ _ _ _ _ _) as [[g1 grown] attempts]. cbn [fst] in H.
  eapply runs_trans; [eapply runs_trans; [|exact H]; rg_peel; rg_peel|].
  unfold empire_peak_check. destruct (_ && _); [|apply runs_refl].
  repeat rg_peel.
Qed.

Lemma expansion_tick_reigns year g : reigns g (_realm_expansion_tick year g).
Proof.
  unfold _realm_expansion_tick. apply fold_left_runs. intros a g1 _.
  apply realm_pass_reigns.
Qed.

Lemma set_owner_all_realms o l g : realms (set_owner_all o l g) = realms g.
Proof.
  unfold set_owner_all.
  apply (fold_left_inv (fun g' => realms g' = realms g)); [|done].
  by intros i g1 _ <-.
Qed.

Lemma release_all_reigns l g : reigns g (set_owner_all None l g).
Proof. unfold set_owner_all. apply fold_left_runs. intros i g1 _. rg_peel; rg_peel. Qed.

Lemma transfer_all_reigns rid l g :
  dict_mem (realms g) rid = true -> reigns g (set_owner_all (Some rid) l g).
Proof.
  unfold set_owner_all. revert g. induction l as [|i l IH]; intros g Hrid; cbn [fold_left];
    [apply runs_refl|].
  eapply runs_trans; [|apply IH; exact Hrid].
  rg_peel; [rg_peel|exact Hrid].
Qed.

Lemma crisis_shrink_reigns ct rid realm tiles year g g' :
  crisis_shrink ct rid realm tiles year g = Ok g' -> reigns g g'.
Proof.
  unfold crisis_shrink. intros H.
  destruct (filter _ tiles) as [|b bs]; [injection H as <-; apply runs_refl|].
  destruct (shuffle (b :: bs) (rng g)) as [border_tiles rg].
  apply bind_Ok in H as ([d rg1] & _ & H). cbv zeta in H. injection H as <-.
  rg_peel. eapply runs_trans; [|apply release_all_reigns]. repeat rg_peel.
Qed.

Lemma crisis_split_reigns ct rid realm tiles year g g' :
  realm ∈ dict_values (realms g) ->
  crisis_split ct rid realm tiles year g = Ok g' -> reigns g g'.
Proof.
  unfold crisis_split. intros Hin H.
  destruct (Z.ltb_spec 8 (Z.of_nat (length (realms g)))); cbn [orb] in H;
    [injection H as <-; apply runs_refl|].
  destruct (Z.of_nat (length tiles) <? 12); [injection H as <-; apply runs_refl|].
  apply bind_Ok in H as ([name g1] & H1 & H).
  apply make_realm_name_spec in H1 as (Hname & r1 & ->).
  apply bind_Ok in H as ([color g2] & H2 & H).
  apply random_color_spec in H2 as (Hcol & r2 & ->).
  destruct (shuffle tiles _) as [shuffled rg] eqn:Hsh.
  injection H as <-.
  rg_peel. eapply runs_trans; [|apply transfer_all_reigns].
  - rg_peel. rg_peel; [repeat rg_peel|done|cbn; lia|done..|].
    right. by exists realm.
  - cbn [realms set_realms set_rng]. unfold dict_mem. by rewrite dict_get_set, String.eqb_refl.
Qed.

Lemma random_crisis_reigns year g g' :
  _random_crisis year g = Ok g' -> reigns g g'.
Proof.
  unfold _random_crisis. intros H.
  destruct (filter _ (dict_keys (realms g))) as [|rid0 rids]; [injection H as <-; apply runs_refl|].
  apply bind_Ok in H as ([rid rg] & _ & H).
  destruct (dict_get (realms (set_rng rg g)) rid) as [realm|] eqn:Hget; [|done].
  destruct (owned_by (set_rng rg g) rid) as [|t0 ts] eqn:Hown;
    [injection H as <-; by apply reigns_keep|].
  apply bind_Ok in H as ([crisis_type rg2] & Hct & H).
  eapply runs_trans; [by apply (reigns_keep g (set_rng rg2 (set_rng rg g)))|].
  assert (Hin : realm ∈ dict_values (realms (set_rng rg2 (set_rng rg g)))).
  { apply dict_get_Some_elem in Hget. apply list_elem_of_fmap. by exists (rid, realm). }
  destruct crisis_type;
    first [done
          | by eapply crisis_shrink_reigns
          | by eapply crisis_split_reigns].
Qed.

Lemma history_turn_reigns step cy g cy' g' :
  history_turn step cy g = Ok (cy', g') -> reigns g g'.
Proof.
  unfold history_turn. intros H.
  destruct (random (rng (_realm_expansion_tick (cy + step) g))) as [u rg].
  apply bind_Ok in H as (g2 & H2 & H). injection H as _ <-.
  eapply runs_trans; [apply expansion_tick_reigns|].
  eapply runs_trans; [by apply (reigns_keep _ (set_rng rg (_realm_expansion_tick (cy + step) g)))|].
  destruct (PrimFloat.ltb u 0.35); [by eapply random_crisis_reigns|].
  injection H2 as <-. apply runs_refl.
Qed.

Lemma history_loop_reigns fuel step cy g g' :
  history_loop fuel step cy g = Some (Ok g') -> reigns g g'.
Proof.
  revert cy g. induction fuel as [|fuel IH]; intros cy g H; [done|].
  rewrite history_loop_turn in H.
  destruct (cy <? years g); [|injection H as <-; apply runs_refl].
  destruct (history_turn step cy g) as [[cy1 g1]|e] eqn:Ht; [|done].
  eapply runs_trans; [by eapply history_turn_reigns|by eapply IH].
Qed.

Lemma dict_set_length {V} (d : Dict V) k v :
  length (dict_set d k v) = if dict_mem d k then length d else S (length d).
Proof.
  rewrite <- (length_map fst (dict_set d k v)).
  change (map fst (dict_set d k v)) with (dict_keys (dict_set d k v)).
  rewrite dict_keys_set. destruct (dict_mem d k); unfold dict_keys.
  - by rewrite length_map.
  - rewrite length_app, length_map. cbn. lia.
Qed.

Lemma dict_update_keys {V} (d : Dict V) k f : dict_keys (dict_update d k f) = dict_keys d.
Proof.
  unfold dict_update. destruct (dict_get d k) as [v|] eqn:Hget; [|done].
  rewrite dict_keys_set. unfold dict_mem. by rewrite Hget.
Qed.

Lemma dict_update_length {V} (d : Dict V) k f : length (dict_update d k f) = length d.
Proof.
  rewrite <- (length_map fst (dict_update d k f)), <- (length_map fst d).
  exact (f_equal length (dict_update_keys d k f)).
Qed.

Lemma dict_update_elem {V} (d : Dict V) k f k' v' :
  (k', v') ∈ dict_update d k f ->
  (k', v') ∈ d ∨ (k' = k ∧ exists v, (k, v) ∈ d ∧ v' = f v).
Proof.
  unfold dict_update. destruct (dict_get d k) as [v|] eqn:Hget; [|by left].
  intros Hin. apply dict_set_elem in Hin as [[= -> ->]|Hin]; [|by left].
  right. split; [done|]. exists v. split; [by apply dict_get_Some_elem|done].
Qed.

Lemma dict_get_update {V} (d : Dict V) k f k' :
  dict_get (dict_update d k f) k'
  = if String.eqb k k' then f <$> dict_get d k' else dict_get d k'.
Proof.
  unfold dict_update. destruct (dict_get d k) as [v|] eqn:Hget.
  - rewrite dict_get_set. destruct (String.eqb_spec k k') as [<-|Hne]; [|done].
    by rewrite Hget.
  - destruct (String.eqb_spec k k') as [<-|Hne]; [|done]. by rewrite Hget.
Qed.

Lemma dict_map_keys {V} (d : Dict V) (f : V -> V) :
  dict_keys (map (fun kv => (fst kv, f (snd kv))) d) = dict_keys d.
Proof. unfold dict_keys. rewrite map_map. by apply map_ext. Qed.

Lemma dict_get_map {V} (d : Dict V) (f : V -> V) k :
  dict_get (map (fun kv => (fst kv, f (snd kv))) d) k = f <$> dict_get d k.
Proof.
  induction d as [|[k0 v0] d IH]; cbn; [done|].
  by destruct (String.eqb k0 k).
Qed.

(** What stays of a realm from its creation on. *)
Definition realm_made (realm : Realm.t) : Prop :=
  Realm.dissolved_year realm = None ∧ Realm.culture realm = "lowland"
  ∧ name_ok (Realm.name realm) ∧ color_ok (Realm.color realm).

(** The realms are numbered in the order of their creation, there are nine
    at most, and each is stored under its own id. *)
Definition realms_made (g : Gen) : Prop :=
  dict_keys (realms g)
  = map (fun k => realm_id_of (Z.of_nat k)) (seq 1 (length (realms g)))
  ∧ (length (realms g) <= 9)%nat
  ∧ Forall (fun kv => Realm.id (snd kv) = fst kv ∧ realm_made (snd kv)) (realms g).

Lemma realms_fresh_key (d : Dict Realm.t) :
  dict_keys d = map (fun k => realm_id_of (Z.of_nat k)) (seq 1 (length d)) ->
  dict_mem d (realm_id_of (Z.of_nat (length d) + 1)) = false.
Proof.
  intros Hd. unfold dict_mem.
  destruct (dict_get d _) eqn:Hget; [|done].
  apply dict_get_Some_elem in Hget.
  assert (Hk : realm_id_of (Z.of_nat (length d) + 1) ∈ dict_keys d).
  { apply list_elem_of_fmap. eexists; split; [|exact Hget]. done. }
  rewrite Hd in Hk. apply list_elem_of_fmap in Hk as (k & Hk & Hin).
  apply realm_id_of_inj in Hk. apply elem_of_seq in Hin. lia.
Qed.

Lemma reign_step_made a b : reign_step a b -> realms_made a -> realms_made b.
Proof.
  intros Hs (Hk & Hn & Hall).
  destruct Hs as [g g' Hr _|g rid name color founded culture notes -> Hlen Hname Hcol Hcul
                 |g rid n|g s|g i rid Hrid|g i]; [| | | |by split..].
  - unfold realms_made. by rewrite Hr.
  - pose proof (realms_fresh_key _ Hk) as Hfresh.
    unfold realms_made. cbn [realms set_realms].
    rewrite dict_keys_set, dict_set_length, Hfresh. split; [|split; [lia|]].
    + rewrite seq_S, map_app, <- Hk. cbn. do 3 f_equal. lia.
    + apply Forall_forall. intros [k v] Hin.
      apply dict_set_elem in Hin as [[= -> ->]|Hin].
      * split; [done|]. split; [done|]. split; [|done].
        destruct Hcul as [->|(parent & Hp & ->)]; [done|]. cbn.
        apply list_elem_of_fmap in Hp as ([k0 v0] & -> & Hp).
        rewrite Forall_forall in Hall. by destruct (Hall _ Hp) as (_ & _ & ? & _).
      * rewrite Forall_forall in Hall. by apply Hall.
  - unfold realms_made. cbn [realms set_realms].
    rewrite dict_update_keys, dict_update_length. split; [done|]. split; [done|].
    apply Forall_forall. intros [k v] Hin. rewrite Forall_forall in Hall.
    apply dict_update_elem in Hin as [Hin|(-> & v0 & Hin & ->)]; [by apply Hall|].
    exact (Hall _ Hin).
  - unfold realms_made. cbn [realms set_realms].
    rewrite dict_map_keys, length_map. split; [done|]. split; [done|].
    apply Forall_map. eapply Forall_impl; [exact Hall|]. by intros [k v].
Qed.

Lemma reigns_made a b : reigns a b -> realms_made a -> realms_made b.
Proof. apply (runs_inv reign_step realms_made), reign_step_made. Qed.

(** No realm has a capital before the settlements are derived. *)
Definition capital_free (g : Gen) : Prop :=
  Forall (fun kv => Realm.capital_settlement_id (snd kv) = None) (realms g).

Lemma reign_step_capital_free a b : reign_step a b -> capital_free a -> capital_free b.
Proof.
  unfold capital_free. intros Hs Hall.
  destruct Hs as [g g' Hr _|g rid name color founded culture notes -> Hlen Hname Hcol Hcul
                 |g rid n|g s|g i rid Hrid|g i]; cbn [realms set_realms]; [| | | |done..].
  - by rewrite Hr.
  - apply Forall_forall. intros [k v] Hin. rewrite Forall_forall in Hall.
    apply dict_set_elem in Hin as [[= -> ->]|Hin]; [done|by apply Hall].
  - apply Forall_forall. intros [k v] Hin. rewrite Forall_forall in Hall.
    apply dict_update_elem in Hin as [Hin|(-> & v0 & Hin & ->)]; [by apply Hall|].
    exact (Hall _ Hin).
  - apply Forall_map. eapply Forall_impl; [exact Hall|]. by intros [k v].
Qed.

Lemma reigns_capital_free a b : reigns a b -> capital_free a -> capital_free b.
Proof. apply (runs_inv reign_step capital_free), reign_step_capital_free. Qed.

(** The owner of a tile is a realm on record. *)
Definition owners_known (g : Gen) : Prop :=
  forall i rid, Tile.realm_id (tile_at g i) = Some rid -> dict_mem (realms g) rid = true.

Lemma dict_mem_set {V} (d : Dict V) k v k' :
  dict_mem d k' = true -> dict_mem (dict_set d k v) k' = true.
Proof.
  unfold dict_mem. rewrite dict_get_set. by destruct (String.eqb k k').
Qed.

Lemma dict_mem_update {V} (d : Dict V) k f k' :
  dict_mem (dict_update d k f) k' = dict_mem d k'.
Proof.
  unfold dict_mem. rewrite dict_get_update.
  destruct (String.eqb k k'); [|done]. by destruct (dict_get d k').
Qed.

Lemma dict_mem_map {V} (d : Dict V) (f : V -> V) k :
  dict_mem (map (fun kv => (fst kv, f (snd kv))) d) k = dict_mem d k.
Proof. unfold dict_mem. rewrite dict_get_map. by destruct (dict_get d k). Qed.

Lemma reign_step_owners a b : reign_step a b -> owners_known a -> owners_known b.
Proof.
  intros Hs Hok.
  destruct Hs as [g g' Hr Ht|g rid name color founded culture notes -> Hlen Hname Hcol Hcul
                 |g rid n|g s|g i rid Hrid|g i]; intros j r Hj.
  - unfold dict_mem. rewrite Hr. rewrite Ht in Hj. by apply (Hok j).
  - cbn [realms set_realms]. apply dict_mem_set. by apply (Hok j).
  - cbn [realms set_realms]. rewrite dict_mem_update. by apply (Hok j).
  - cbn [realms set_realms]. rewrite dict_mem_map. by apply (Hok j).
  - change (realms (update_tile i _ g)) with (realms g).
    rewrite tile_at_alter in Hj. destruct (decide (i = j)) as [->|Hne]; [|by apply (Hok j)].
    destruct (decide _); [|by apply (Hok j)]. cbn in Hj. by injection Hj as <-.
  - change (realms (update_tile i _ g)) with (realms g).
    rewrite tile_at_alter in Hj. destruct (decide (i = j)) as [->|Hne]; [|by apply (Hok j)].
    destruct (decide _); [done|by apply (Hok j)].
Qed.

Lemma reigns_owners a b : reigns a b -> owners_known a -> owners_known b.
Proof. apply (runs_inv reign_step owners_known), reign_step_owners. Qed.

(** The history stage as a run of realm updates; when it returns, no realm
    has a strength any more. *)
Lemma simulate_history_reigns g g' :
  _simulate_history g = Ok g' ->
  reigns g g' ∧ Forall (fun kv => Realm.strength (snd kv) = None) (realms g').
Proof.
  unfold _simulate_history. intros H.
  destruct (realms g) as [|kv rs] eqn:Hr.
  { injection H as <-. split; [apply runs_refl|]. rewrite Hr. constructor. }
  rewrite <- Hr in H.
  set (g0 := set_realms (map (fun kv => (fst kv, Realm.set_strength (Some 1%float) (snd kv)))
                           (realms g)) g) in *.
  assert (H0 : reigns g g0) by apply runs_one, rg_strength.
  apply bind_Ok in H as (g1 & H1 & H). injection H as <-.
  assert (Hpop : forall g2,
            Forall (fun kv => Realm.strength (snd kv) = None)
              (map (fun kv => (fst kv, Realm.set_strength None (snd kv))) (realms g2))).
  { intros g2. apply Forall_map, Forall_forall. by intros [k v]. }
  destruct (history_loop _ _ _ g0) as [res|] eqn:Hl; cbn [default from_option id] in H1.
  - rewrite H1 in Hl. apply history_loop_reigns in Hl. split; [|apply Hpop].
    eapply runs_step; [|apply rg_strength]. by eapply runs_trans.
  - injection H1 as <-. split; [|apply Hpop].
    eapply runs_step; [|apply rg_strength]. exact H0.
Qed.


(** ** The settlement stage in detail *)

Lemma settlement_id_of_inj a b : settlement_id_of a = settlement_id_of b -> a = b.
Proof. unfold settlement_id_of, str_of_Z. cbn. intros [= H]. by apply (inj pretty). Qed.

Lemma settlement_id_of_nonempty a : settlement_id_of a ≠ "".
Proof. done. Qed.

Lemma dict_set_fresh {V} (d : Dict V) k v :
  dict_mem d k = false -> dict_set d k v = d ++ [(k, v)].
Proof.
  unfold dict_mem. induction d as [|[k0 v0] d IH]; cbn; [done|].
  destruct (String.eqb k0 k); [done|]. intros H. by rewrite IH.
Qed.

(** The population range of a settlement type in [_pop_estimate]. *)
Definition pop_range (stype : SettlementType) : Z * Z :=
  match stype with
  | city => (8000, 25000)
  | town => (1500, 6000)
  | fort => (400, 1800)
  end.

(** The tags of a secondary settlement of type [stype] on the tile [t]. *)
Definition tags_of (stype : SettlementType) (t : Tile.t) : list string :=
  (match stype with fort => ["fortress"] | _ => [] end)
  ++ (if Tile.river t then ["river_trade"] else [])
  ++ (if biome_eqb (Tile.biome t) wetlands then ["marsh_edge"] else []).

(** What the stage writes into the record [s] of a settlement on the tile
    [t]: a capital is a city founded in the year 0; a town or a fort stands
    on land that has a river or a fertile biome. *)
Definition settlement_rule (yrs : Z) (t : Tile.t) (s : Settlement.t) : Prop :=
  fst (pop_range (Settlement.type s)) <= Settlement.population s
                                      <= snd (pop_range (Settlement.type s))
  ∧ match Settlement.type s with
    | city =>
        Settlement.founded_year s = 0 ∧ Settlement.tags s = ["capital"]
    | stype =>
        10 <= Settlement.founded_year s <= Z.max 20 (yrs / 2)
        ∧ Settlement.tags s = tags_of stype t
        ∧ Settlement.history s = []
        ∧ Tile.water t = false
        ∧ (Tile.river t = true ∨ is_fertile_biome (Tile.biome t) = true)
    end.

(** The record [s] as it is added for a settlement of the realm [rid] on
    the tile [i]: under the next free number, with the coordinates of the
    tile, which belongs to the realm and holds no settlement yet. *)
Record placed_on (g : Gen) (rid : string) (s : Settlement.t) (i : nat) : Prop := {
  pl_id : Settlement.id s = settlement_id_of (Z.of_nat (length (settlements g)) + 1);
  pl_lt : (i < length (tiles g))%nat;
  pl_tile : Settlement.tile s = coords g i;
  pl_owner : Tile.realm_id (tile_at g i) = Some rid;
  pl_realm : Settlement.realm_id s = rid;
  pl_free : truthy (Tile.settlement_id (tile_at g i)) = false;
  pl_rule : settlement_rule (years g) (tile_at g i) s;
}.

(** The updates of [_derive_settlements] while it settles the realm [rid]:
    the capital is recorded, made the capital of the realm and marked on
    its tile; a town or a fort is recorded and marked on its tile. *)
Inductive place_step (rid : string) : Gen -> Gen -> Prop :=
| ps_draw g r :
    place_step rid g (set_rng r g)
| ps_crown g s i realm :
    placed_on g rid s i -> Settlement.type s = city ->
    dict_get (realms g) rid = Some realm -> Realm.capital_settlement_id realm = None ->
    place_step rid g
      (update_tile i (Tile.set_settlement_id (Some (Settlement.id s)))
         (set_realms
            (dict_update (realms g) rid (Realm.set_capital (Some (Settlement.id s))))
            (set_settlements (dict_set (settlements g) (Settlement.id s) s) g)))
| ps_add g s i realm c :
    placed_on g rid s i -> Settlement.type s ≠ city ->
    dict_get (realms g) rid = Some realm -> Realm.capital_settlement_id realm = Some c ->
    place_step rid g
      (update_tile i (Tile.set_settlement_id (Some (Settlement.id s)))
         (set_settlements (dict_set (settlements g) (Settlement.id s) s) g)).

(** A run for one realm, and a run for any realms. *)
Abbreviation places_in rid := (runs (place_step rid)).
Definition place_any (a b : Gen) : Prop := exists rid, place_step rid a b.
Abbreviation places := (runs place_any).

Lemma places_in_places rid a b : places_in rid a b -> places a b.
Proof.
  intros H. induction H as [|a b c _ IH Hs]; [apply runs_refl|].
  eapply runs_step; [exact IH|by exists rid].
Qed.

(** Two tiles that differ in their settlement at most. *)
Definition same_but_settlement (t t' : Tile.t) : Prop :=
  Tile.set_settlement_id None t' = Tile.set_settlement_id None t.

Lemma same_but_settlement_fields t t' :
  same_but_settlement t t' ->
  terrain t' = terrain t ∧ Tile.river t' = Tile.river t ∧ Tile.realm_id t' = Tile.realm_id t.
Proof. unfold same_but_settlement, Tile.set_settlement_id, terrain. by intros [= -> -> -> -> -> -> -> ->]. Qed.

(** What the settlement stage leaves alone. *)
Definition place_frame (a b : Gen) : Prop :=
  config b = config a ∧ length (tiles b) = length (tiles a)
  ∧ events b = events a ∧ roads b = roads a ∧ ruins b = ruins a
  ∧ forall i, same_but_settlement (tile_at a i) (tile_at b i).

Lemma place_step_frame a b : place_any a b -> place_frame a b.
Proof.
  intros [rid H].
  destruct H;
    (split; [reflexivity|]);
    (split; [first [reflexivity | exact (length_update_tile _ _ _)]|]);
    do 3 (split; [reflexivity|]);
    intros j; try done;
    rewrite tile_at_alter; (destruct (decide _); [|done]); by destruct (decide _).
Qed.

Lemma places_frame a b : places a b -> place_frame a b.
Proof.
  apply (runs_rel place_any place_frame).
  - intros g. by repeat split.
  - intros g1 g2 g3 (H1 & H2 & H3 & H4 & H5 & H6) Hs.
    apply place_step_frame in Hs as (K1 & K2 & K3 & K4 & K5 & K6).
    repeat split;
      first [congruence | intros i; unfold same_but_settlement in *; by rewrite K6, H6].
Qed.

Lemma place_frame_coords a b i : place_frame a b -> coords b i = coords a i.
Proof.
  intros (_ & _ & _ & _ & _ & H).
  destruct (same_but_settlement_fields _ _ (H i)) as (Ht & _).
  unfold coords. by destruct (terrain_coords _ _ Ht) as [-> ->].
Qed.

Lemma place_frame_owner a b i :
  place_frame a b -> Tile.realm_id (tile_at b i) = Tile.realm_id (tile_at a i).
Proof.
  intros (_ & _ & _ & _ & _ & H).
  by destruct (same_but_settlement_fields _ _ (H i)) as (_ & _ & ?).
Qed.

(** The settlements on record: numbered in the order they were added, each
    stored under its own id, each on a tile of its realm that carries its
    id, and written by [settlement_rule]. *)
Definition settlement_ok (g : Gen) (s : Settlement.t) : Prop :=
  exists i, (i < length (tiles g))%nat
    ∧ Settlement.tile s = coords g i
    ∧ Tile.realm_id (tile_at g i) = Some (Settlement.realm_id s)
    ∧ Tile.settlement_id (tile_at g i) = Some (Settlement.id s)
    ∧ settlement_rule (years g) (tile_at g i) s.

Definition settled_ok (g : Gen) : Prop :=
  dict_keys (settlements g)
  = map (fun k => settlement_id_of (Z.of_nat k)) (seq 1 (length (settlements g)))
  ∧ Forall (fun kv => Settlement.id (snd kv) = fst kv ∧ settlement_ok g (snd kv))
      (settlements g).

Lemma settled_fresh g :
  settled_ok g ->
  dict_mem (settlements g) (settlement_id_of (Z.of_nat (length (settlements g)) + 1)) = false.
Proof.
  intros [Hd _]. unfold dict_mem.
  destruct (dict_get (settlements g) _) eqn:Hget; [|done].
  apply dict_get_Some_elem in Hget.
  assert (Hk : settlement_id_of (Z.of_nat (length (settlements g)) + 1)
               ∈ dict_keys (settlements g)).
  { apply list_elem_of_fmap. eexists; split; [|exact Hget]. done. }
  rewrite Hd in Hk. apply list_elem_of_fmap in Hk as (k & Hk & Hin).
  apply settlement_id_of_inj in Hk. apply elem_of_seq in Hin. lia.
Qed.

(** A recorded settlement stays as it is when another tile is marked. *)
Lemma settlement_ok_mark g s j sid :
  truthy (Tile.settlement_id (tile_at g j)) = false -> Settlement.id s ≠ "" ->
  settlement_ok g s ->
  forall g', config g' = config g -> tiles g' = tiles g ->
    settlement_ok (update_tile j (Tile.set_settlement_id (Some sid)) g') s.
Proof.
  intros Hfree Hne (i & Hi & Htile & Hr & Hm & Hrule) g' Hc Ht.
  assert (Hij : j ≠ i).
  { intros ->. rewrite Hm in Hfree. cbn in Hfree.
    destruct (Settlement.id s) as [|a rest] eqn:Hid; [done|]. done. }
  assert (Hat : tile_at (update_tile j (Tile.set_settlement_id (Some sid)) g') i = tile_at g i).
  { rewrite tile_at_alter. destruct (decide (j = i)); [done|]. unfold tile_at. by rewrite Ht. }
  exists i. rewrite length_update_tile, Ht. split; [exact Hi|].
  unfold coords. rewrite Hat.
  change (years (update_tile j (Tile.set_settlement_id (Some sid)) g')) with (years g').
  rewrite (config_years _ _ Hc). done.
Qed.

Lemma place_step_settled a b : place_any a b -> settled_ok a -> settled_ok b.
Proof.
  intros [rid Hs] Hok.
  pose proof (settled_fresh a Hok) as Hfresh. destruct Hok as [Hk Hall].
  assert (Hids : forall kv, kv ∈ settlements a -> Settlement.id (snd kv) ≠ "").
  { intros [k v] Hin. rewrite Forall_forall in Hall. destruct (Hall _ Hin) as [Hid _].
    cbn in *. rewrite Hid.
    assert (Hkk : k ∈ dict_keys (settlements a)).
    { apply list_elem_of_fmap. by exists (k, v). }
    rewrite Hk in Hkk. apply list_elem_of_fmap in Hkk as (n & -> & _). done. }
  assert (Hnew : forall g' s i,
            config g' = config a -> tiles g' = tiles a ->
            settlements g' = dict_set (settlements a) (Settlement.id s) s ->
            placed_on a rid s i ->
            settled_ok (update_tile i (Tile.set_settlement_id (Some (Settlement.id s))) g')).
  { intros g' s i Hc Ht Hss [Hid Hlt Htile Hown Hrealm Hfree Hrule].
    assert (Hhere : tile_at (update_tile i (Tile.set_settlement_id (Some (Settlement.id s))) g') i
                    = Tile.set_settlement_id (Some (Settlement.id s)) (tile_at a i)).
    { rewrite tile_at_alter. destruct (decide (i = i)); [|done].
      rewrite Ht. destruct (decide (i < length (tiles a))%nat); [|done].
      unfold tile_at. by rewrite Ht. }
    split.
    - change (settlements (update_tile i _ g')) with (settlements g'). rewrite Hss.
      rewrite Hid in *.
      rewrite dict_keys_set, Hfresh, (dict_set_length_fresh _ _ _ Hfresh).
      rewrite seq_S, map_app, <- Hk. cbn. do 3 f_equal. lia.
    - change (settlements (update_tile i _ g')) with (settlements g'). rewrite Hss.
      apply Forall_forall. intros [k v] Hin.
      apply dict_set_elem in Hin as [[= -> ->]|Hin].
      + split; [done|]. exists i. rewrite length_update_tile, Ht. split; [exact Hlt|].
        unfold coords. rewrite Hhere.
        change (years (update_tile i _ g')) with (years g'). rewrite (config_years _ _ Hc).
        split; [exact Htile|]. split; [by rewrite <- Hrealm in Hown|]. split; [done|].
        exact Hrule.
      + rewrite Forall_forall in Hall. destruct (Hall _ Hin) as [Hid' Hok'].
        split; [exact Hid'|].
        apply (settlement_ok_mark a v i _ Hfree (Hids _ Hin) Hok' g' Hc Ht). }
  destruct Hs as [g r|g s i realm Hp Hcity Hget Hcap|g s i realm c Hp Htype Hget Hcap].
  - by split.
  - by apply Hnew.
  - by apply Hnew.
Qed.

Lemma places_settled a b : places a b -> settled_ok a -> settled_ok b.
Proof. apply (runs_inv place_any settled_ok), place_step_settled. Qed.

(** *** Realms and capitals along the stage *)

Lemma place_step_made a b : place_any a b -> realms_made a -> realms_made b.
Proof.
  intros [rid Hs] (Hk & Hn & Hall).
  destruct Hs as [g r|g s i realm Hp Hcity Hget Hcap|g s i realm c Hp Htype Hget Hcap];
    [by split|..|by split].
  unfold realms_made.
  change (realms (update_tile i _ ?G)) with (realms G). cbn [realms set_realms].
  rewrite dict_update_keys, dict_update_length. split; [done|]. split; [done|].
  apply Forall_forall. intros [k v] Hin. rewrite Forall_forall in Hall.
  apply dict_update_elem in Hin as [Hin|(-> & v0 & Hin & ->)]; [by apply Hall|].
  exact (Hall _ Hin).
Qed.

Lemma places_made a b : places a b -> realms_made a -> realms_made b.
Proof. apply (runs_inv place_any realms_made), place_step_made. Qed.

Definition strength_popped (g : Gen) : Prop :=
  Forall (fun kv => Realm.strength (snd kv) = None) (realms g).

Lemma place_step_popped a b : place_any a b -> strength_popped a -> strength_popped b.
Proof.
  unfold strength_popped. intros [rid Hs] Hall.
  destruct Hs as [g r|g s i realm Hp Hcity Hget Hcap|g s i realm c Hp Htype Hget Hcap];
    [done|..|done].
  change (realms (update_tile i _ ?G)) with (realms G). cbn [realms set_realms].
  apply Forall_forall. intros [k v] Hin. rewrite Forall_forall in Hall.
  apply dict_update_elem in Hin as [Hin|(-> & v0 & Hin & ->)]; [by apply Hall|].
  exact (Hall _ Hin).
Qed.

Lemma places_popped a b : places a b -> strength_popped a -> strength_popped b.
Proof. apply (runs_inv place_any strength_popped), place_step_popped. Qed.

(** Capitals and cities: the capital of a realm is a city of the realm, on
    record; the realm of a settlement has a capital, and a city is the
    capital of its realm. *)
Definition crowned_ok (g : Gen) : Prop :=
  (forall rid realm c,
     dict_get (realms g) rid = Some realm -> Realm.capital_settlement_id realm = Some c ->
     exists s, dict_get (settlements g) c = Some s
       ∧ Settlement.type s = city ∧ Settlement.realm_id s = rid)
  ∧ (forall sid s,
       dict_get (settlements g) sid = Some s ->
       exists realm c,
         dict_get (realms g) (Settlement.realm_id s) = Some realm
         ∧ Realm.capital_settlement_id realm = Some c
         ∧ (Settlement.type s = city -> c = sid)).

Lemma dict_get_fresh_ne {V} (d : Dict V) k k' v :
  dict_mem d k = false -> dict_get d k' = Some v -> String.eqb k k' = false.
Proof.
  unfold dict_mem. intros Hf Hg. destruct (String.eqb_spec k k') as [->|]; [|done].
  by rewrite Hg in Hf.
Qed.

Lemma place_step_crowned a b :
  place_any a b -> settled_ok a -> crowned_ok a -> crowned_ok b.
Proof.
  intros [rid Hs] Hok [Hcapital Hcity].
  pose proof (settled_fresh a Hok) as Hfresh.
  destruct Hs as [g r|g s i realm Hp Htype Hget Hcap|g s i realm c Hp Htype Hget Hcap];
    [by split|..].
  - destruct Hp as [Hid _ _ _ Hrealm _ _]. rewrite <- Hid in Hfresh. split.
    + intros rid' realm' c'.
      change (realms (update_tile i _ ?G)) with (realms G).
      change (settlements (update_tile i _ ?G)) with (settlements G).
      cbn [realms set_realms settlements set_settlements].
      rewrite dict_get_update, dict_get_set.
      destruct (String.eqb_spec rid rid') as [<-|Hne].
      * rewrite Hget. cbn. intros [= <-] [= <-]. rewrite String.eqb_refl. by exists s.
      * intros H1 H2. destruct (Hcapital _ _ _ H1 H2) as (s0 & Hs0 & Ht0 & Hr0).
        rewrite (dict_get_fresh_ne _ _ _ _ Hfresh Hs0). by exists s0.
    + intros sid s0.
      change (realms (update_tile i _ ?G)) with (realms G).
      change (settlements (update_tile i _ ?G)) with (settlements G).
      cbn [realms set_realms settlements set_settlements].
      rewrite dict_get_update, dict_get_set.
      destruct (String.eqb_spec (Settlement.id s) sid) as [<-|Hne].
      * intros [= <-]. rewrite Hrealm, String.eqb_refl, Hget. cbn.
        by eexists _, _.
      * intros Hs0. destruct (Hcity _ _ Hs0) as (realm0 & c0 & Hr0 & Hc0 & Hif).
        destruct (String.eqb_spec rid (Settlement.realm_id s0)) as [Heq|Hne'].
        { rewrite <- Heq, Hget in Hr0. injection Hr0 as <-. congruence. }
        by exists realm0, c0.
  - destruct Hp as [Hid _ _ _ Hrealm _ _]. rewrite <- Hid in Hfresh. split.
    + intros rid' realm' c'.
      change (realms (update_tile i _ ?G)) with (realms G).
      change (settlements (update_tile i _ ?G)) with (settlements G).
      cbn [realms set_realms settlements set_settlements].
      rewrite dict_get_set. intros H1 H2.
      destruct (Hcapital _ _ _ H1 H2) as (s0 & Hs0 & Ht0 & Hr0).
      rewrite (dict_get_fresh_ne _ _ _ _ Hfresh Hs0). by exists s0.
    + intros sid s0.
      change (realms (update_tile i _ ?G)) with (realms G).
      change (settlements (update_tile i _ ?G)) with (settlements G).
      cbn [realms set_realms settlements set_settlements].
      rewrite dict_get_set.
      destruct (String.eqb_spec (Settlement.id s) sid) as [<-|Hne].
      * intros [= <-]. rewrite Hrealm. exists realm, c. by repeat split.
      * apply Hcity.
Qed.

(** The realm [rid] has a capital; it keeps it. *)
Definition is_crowned (g : Gen) (rid : string) : Prop :=
  exists realm c,
    dict_get (realms g) rid = Some realm ∧ Realm.capital_settlement_id realm = Some c.

Lemma place_step_is_crowned rid a b : place_any a b -> is_crowned a rid -> is_crowned b rid.
Proof.
  intros [rid' Hs] (realm0 & c0 & Hr0 & Hc0).
  destruct Hs as [g r|g s i realm Hp Htype Hget Hcap|g s i realm c Hp Htype Hget Hcap];
    [by exists realm0, c0|..|by exists realm0, c0].
  unfold is_crowned. change (realms (update_tile i _ ?G)) with (realms G).
  cbn [realms set_realms]. rewrite dict_get_update.
  destruct (String.eqb_spec rid' rid) as [->|Hne]; [|by exists realm0, c0].
  rewrite Hr0. cbn. by eexists _, _.
Qed.

Lemma places_is_crowned rid a b : places a b -> is_crowned a rid -> is_crowned b rid.
Proof. apply (runs_inv place_any (fun g => is_crowned g rid)), place_step_is_crowned. Qed.

(** Settling the realm [rid] leaves the other realms and their tiles as
    they are, and adds settlements of [rid] only. *)
Definition only_for (rid : string) (a b : Gen) : Prop :=
  (forall k, k ≠ rid -> dict_get (realms b) k = dict_get (realms a) k)
  ∧ (forall i, Tile.realm_id (tile_at a i) ≠ Some rid -> tile_at b i = tile_at a i)
  ∧ (settled_ok a ->
     settled_ok b
     ∧ exists new,
         settlements b = settlements a ++ new
         ∧ Forall (fun kv => Settlement.realm_id (snd kv) = rid) new).

Lemma place_step_only_for rid a b : place_step rid a b -> only_for rid a b.
Proof.
  intros Hs.
  assert (Hmark : forall g' s i,
            tiles g' = tiles a -> placed_on a rid s i ->
            forall j, Tile.realm_id (tile_at a j) ≠ Some rid ->
              tile_at (update_tile i (Tile.set_settlement_id (Some (Settlement.id s))) g') j
              = tile_at a j).
  { intros g' s i Ht Hp j Hj. rewrite tile_at_alter.
    destruct (decide (i = j)) as [->|Hne]; [|unfold tile_at; by rewrite Ht].
    by destruct Hp as [_ _ _ Hown _ _ _]. }
  assert (Hadd : forall s i,
            placed_on a rid s i -> settled_ok a ->
            exists new,
              dict_set (settlements a) (Settlement.id s) s = settlements a ++ new
              ∧ Forall (fun kv => Settlement.realm_id (snd kv) = rid) new).
  { intros s i Hp Hok. pose proof (settled_fresh a Hok) as Hfresh.
    destruct Hp as [Hid _ _ _ Hrealm _ _]. rewrite <- Hid in Hfresh.
    exists [(Settlement.id s, s)]. split; [by apply dict_set_fresh|]. by constructor. }
  assert (Hkeep : settled_ok a -> settled_ok b).
  { apply place_step_settled. by exists rid. }
  destruct Hs as [g r|g s i realm Hp Htype Hget Hcap|g s i realm c Hp Htype Hget Hcap].
  - split; [done|]. split; [done|]. intros Hok. split; [by apply Hkeep|].
    exists []. by rewrite app_nil_r.
  - split; [|split; [by apply Hmark|]].
    + intros k Hk. change (realms (update_tile i _ ?G)) with (realms G).
      cbn [realms set_realms]. rewrite dict_get_update.
      by destruct (String.eqb_spec rid k).
    + intros Hok. split; [by apply Hkeep|]. by apply (Hadd s i).
  - split; [done|]. split; [by apply Hmark|].
    intros Hok. split; [by apply Hkeep|]. by apply (Hadd s i).
Qed.

Lemma places_in_only_for rid a b : places_in rid a b -> only_for rid a b.
Proof.
  apply (runs_rel (place_step rid) (only_for rid)).
  - intros g. split; [done|]. split; [done|]. intros Hok. split; [done|].
    exists []. by rewrite app_nil_r.
  - intros g1 g2 g3 (H1 & H2 & H3) Hs.
    pose proof (place_step_only_for _ _ _ Hs) as (K1 & K2 & K3).
    split; [|split].
    + intros k Hk. by rewrite K1, H1.
    + intros i Hi. rewrite K2; [by apply H2|]. by rewrite H2.
    + intros Hok. destruct (H3 Hok) as (Hok2 & new1 & Hn1 & Hall1).
      destruct (K3 Hok2) as (Hok3 & new2 & Hn2 & Hall2).
      split; [exact Hok3|]. exists (new1 ++ new2).
      split; [by rewrite Hn2, Hn1, app_assoc|]. by apply Forall_app.
Qed.

(** *** The stage as a run of these updates *)

(** Peels the last draw off the goal [places_in rid g g']. *)
Ltac pl_peel :=
  lazymatch goal with
  | |- runs (place_step _) ?G ?G => apply runs_refl
  | |- runs (place_step ?rid) _ (set_rng ?r ?G) =>
      apply (runs_step _ _ G); [|exact (ps_draw rid G r)]
  end.

Lemma pop_estimate_range stype g n g' :
  _pop_estimate stype g = Ok (n, g') ->
  fst (pop_range stype) <= n <= snd (pop_range stype) ∧ exists r, g' = set_rng r g.
Proof.
  unfold _pop_estimate. intros H.
  apply bind_Ok in H as ([p rg1] & Hp & H). injection H as <- <-.
  split; [|by eexists]. destruct stype; by apply randint_range in Hp.
Qed.

(** The tiles of [l] are tiles of the grid that belong to [rid]. *)
Definition realm_tiles_of (g : Gen) (rid : string) (l : list nat) : Prop :=
  forall t, t ∈ l -> (t < length (tiles g))%nat ∧ Tile.realm_id (tile_at g t) = Some rid.

Lemma realm_tiles_of_frame a b rid l :
  place_frame a b -> realm_tiles_of a rid l -> realm_tiles_of b rid l.
Proof.
  intros Hf H t Hin. destruct (H t Hin) as [Hlt Hr].
  rewrite (place_frame_owner a b t Hf). destruct Hf as (_ & Hl & _). split; [lia|done].
Qed.

Lemma place_extra_places rid t g c placed g' c' placed' :
  settled_ok g -> c = Z.of_nat (length (settlements g)) + 1 ->
  (t < length (tiles g))%nat -> Tile.realm_id (tile_at g t) = Some rid ->
  is_crowned g rid ->
  place_extra rid t g c placed = Ok (g', c', placed') ->
  places_in rid g g'
  ∧ c' = Z.of_nat (length (settlements g')) + 1
  ∧ Z.of_nat (length (settlements g')) = Z.of_nat (length (settlements g)) + (placed' - placed)
  ∧ placed <= placed' <= placed + 1.
Proof.
  unfold place_extra. intros Hok Hc Hlt Hrid (realm & c0 & Hrealm & Hcap) H.
  destruct (truthy (Tile.settlement_id (tile_at g t)) || Tile.water (tile_at g t)) eqn:Hskip.
  { injection H as <- <- <-. split; [apply runs_refl|]. split; [done|]. split; lia. }
  apply orb_false_iff in Hskip as [Hfree Hw].
  destruct (_ =? 0) eqn:Hscore.
  { injection H as <- <- <-. split; [apply runs_refl|]. split; [done|]. split; lia. }
  apply Z.eqb_neq in Hscore.
  destruct (random (rng g)) as [u rg].
  destruct (_make_settlement_name _ (set_rng rg g)) as [name g1] eqn:Hn.
  apply make_settlement_name_evolves in Hn as (r1 & ->).
  apply bind_Ok in H as ([founded rg2] & Hfounded & H). apply randint_range in Hfounded.
  apply bind_Ok in H as ([population g2] & Hp & H).
  apply pop_estimate_range in Hp as (Hpop & r2 & ->).
  injection H as <- <- <-.
  pose proof (settled_fresh g Hok) as Hfresh. rewrite <- Hc in Hfresh.
  change (settlements (update_tile t _ ?G)) with (settlements G).
  cbn [settlements set_settlements set_rng].
  rewrite (dict_set_length_fresh _ _ _ Hfresh).
  split; [|lia].
  match goal with
  | |- runs _ _ (update_tile _ _ (set_settlements (dict_set _ _ ?s) ?G)) =>
      apply (runs_step _ _ G); [repeat pl_peel|apply (ps_add rid G s t realm c0)]
  end.
  - constructor; cbn [Settlement.id Settlement.tile Settlement.realm_id settlements set_rng
                      tiles years].
    + by rewrite Hc.
    + exact Hlt.
    + reflexivity.
    + exact Hrid.
    + reflexivity.
    + exact Hfree.
    + change (tile_at (set_rng r2 (set_rng rg2 (set_rng r1 (set_rng rg g)))) t)
        with (tile_at g t).
      unfold settlement_rule.
      cbn [Settlement.type Settlement.population Settlement.founded_year Settlement.tags
           Settlement.history].
      split; [exact Hpop|].
      assert (Hwhy : Tile.river (tile_at g t) = true
                     ∨ is_fertile_biome (Tile.biome (tile_at g t)) = true).
      { destruct (Tile.river (tile_at g t)); [by left|].
        destruct (is_fertile_biome (Tile.biome (tile_at g t))); [by right|]. by cbn in Hscore. }
      destruct (PrimFloat.ltb u 0.7); repeat split; try done; cbn in Hfounded; lia.
  - cbn [Settlement.type]. by destruct (PrimFloat.ltb u 0.7).
  - exact Hrealm.
  - exact Hcap.
Qed.

Lemma extras_loop_places rid extra (realm_tiles : list nat) :
  forall g c placed g' c',
    settled_ok g -> c = Z.of_nat (length (settlements g)) + 1 ->
    realm_tiles_of g rid realm_tiles -> is_crowned g rid ->
    extras_loop rid extra realm_tiles g c placed = Ok (g', c') ->
    places_in rid g g'
    ∧ c' = Z.of_nat (length (settlements g')) + 1
    ∧ Z.of_nat (length (settlements g)) <= Z.of_nat (length (settlements g'))
      <= Z.of_nat (length (settlements g)) + Z.max 0 (extra - placed).
Proof.
  induction realm_tiles as [|t rest IH]; intros g c placed g' c' Hok Hc Htiles Hcr H;
    cbn [extras_loop] in H.
  { injection H as <- <-. split; [apply runs_refl|]. split; [done|lia]. }
  destruct (Z.geb_spec placed extra).
  { injection H as <- <-. split; [apply runs_refl|]. split; [done|lia]. }
  apply bind_Ok in H as ([[g1 c1] placed1] & H1 & H).
  destruct (Htiles t) as [Hlt Hrid]; [by left|].
  destruct (place_extra_places _ _ _ _ _ _ _ _ Hok Hc Hlt Hrid Hcr H1)
    as (Hp1 & Hc1 & Hlen1 & Hpl1).
  pose proof (places_in_places _ _ _ Hp1) as Hq1.
  destruct (IH g1 c1 placed1 g' c') as (Hp & Hc' & Hlen);
    [by eapply places_settled|exact Hc1| |by eapply places_is_crowned|exact H|].
  { eapply realm_tiles_of_frame; [by apply places_frame|].
    intros t' Ht'. apply Htiles. by right. }
  split; [by eapply runs_trans|]. split; [exact Hc'|lia].
Qed.

Lemma candidates_sub {A} (P : A -> Prop) `{!forall x, Decision (P x)} (l : list A) (i : A) :
  i ∈ match filter P l with [] => l | _ => filter P l end -> i ∈ l.
Proof.
  destruct (filter P l) eqn:Hf; [done|]. rewrite <- Hf. intros Hi.
  by apply list_elem_of_filter in Hi as [_ Hi].
Qed.

(** The settlements of one realm whose tiles are [realm_tiles]: the realm
    had no capital and its tiles no settlement; it gets its capital and up
    to three more settlements. *)
Lemma settle_realm_places rid realm_tiles g c g' c' :
  settled_ok g -> c = Z.of_nat (length (settlements g)) + 1 ->
  realm_tiles_of g rid realm_tiles -> realm_tiles ≠ [] ->
  (forall realm, dict_get (realms g) rid = Some realm ->
     Realm.capital_settlement_id realm = None) ->
  (forall i, Tile.realm_id (tile_at g i) = Some rid ->
     Tile.settlement_id (tile_at g i) = None) ->
  settle_realm (rid, realm_tiles) (g, c) = Ok (g', c') ->
  places_in rid g g'
  ∧ c' = Z.of_nat (length (settlements g')) + 1
  ∧ Z.of_nat (length (settlements g)) + 1 <= Z.of_nat (length (settlements g'))
    <= Z.of_nat (length (settlements g)) + 4
  ∧ is_crowned g' rid.
Proof.
  unfold settle_realm. intros Hok Hc Htiles Hne Hnocap Hunmarked H.
  destruct realm_tiles as [|t0 ts] eqn:Hrt; [done|].
  rewrite <- Hrt in *.
  set (fertile := filter _ realm_tiles) in *.
  set (candidates := match fertile with [] => realm_tiles | _ => fertile end) in *.
  assert (Hcand : _most_central_tile g candidates ∈ realm_tiles).
  { assert (Hin : _most_central_tile g candidates ∈ candidates).
    { apply most_central_elem. subst candidates. destruct fertile; [by rewrite Hrt|done]. }
    revert Hin. generalize (_most_central_tile g candidates). subst candidates fertile.
    intros i. apply candidates_sub. }
  set (cap_tile := _most_central_tile g candidates) in *.
  destruct (Htiles cap_tile Hcand) as [Hlt Hrid].
  destruct (_make_settlement_name "capital" g) as [cap_name g1] eqn:Hn.
  apply make_settlement_name_evolves in Hn as (r1 & ->).
  apply bind_Ok in H as ([population g2] & Hp & H).
  apply pop_estimate_range in Hp as (Hpop & r2 & ->).
  destruct (dict_get (realms (set_rng r2 (set_rng r1 g))) rid) as [realm|] eqn:Hrealm; [|done].
  destruct (shuffle realm_tiles _) as [shuffled rg] eqn:Hsh.
  pose proof (settled_fresh g Hok) as Hfresh. rewrite <- Hc in Hfresh.
  match type of H with extras_loop _ _ _ (set_rng rg ?G) _ _ = _ => set (gc := G) in * end.
  assert (Hgc : places_in rid g gc).
  { subst gc.
    match goal with
    | |- runs _ _ (update_tile _ _ (set_realms _ (set_settlements (dict_set _ _ ?s) ?G))) =>
        apply (runs_step _ _ G); [repeat pl_peel|apply (ps_crown rid G s cap_tile realm)]
    end.
    - constructor; cbn [Settlement.id Settlement.tile Settlement.realm_id settlements
                        set_rng tiles years].
      + by rewrite Hc.
      + exact Hlt.
      + reflexivity.
      + exact Hrid.
      + reflexivity.
      + change (tile_at (set_rng r2 (set_rng r1 g)) cap_tile) with (tile_at g cap_tile).
        by rewrite (Hunmarked _ Hrid).
      + unfold settlement_rule.
        cbn [Settlement.type Settlement.population Settlement.founded_year Settlement.tags].
        split; [exact Hpop|done].
    - reflexivity.
    - exact Hrealm.
    - by apply Hnocap. }
  assert (Hlen : length (settlements gc) = S (length (settlements g))).
  { subst gc. change (settlements (update_tile cap_tile _ ?G)) with (settlements G).
    cbn [settlements set_settlements set_realms set_rng].
    by apply dict_set_length_fresh. }
  assert (Hcrowned : is_crowned gc rid).
  { subst gc. unfold is_crowned. change (realms (update_tile cap_tile _ ?G)) with (realms G).
    cbn [realms set_realms set_settlements]. rewrite dict_get_update, String.eqb_refl.
    change (realms (set_rng r2 (set_rng r1 g))) with (realms g) in Hrealm |- *.
    rewrite Hrealm. cbn. by eexists _, _. }
  pose proof (places_in_places _ _ _ Hgc) as Hqc.
  assert (Hqd : places g (set_rng rg gc)).
  { eapply runs_step; [exact Hqc|]. exists rid. apply ps_draw. }
  assert (Hs1 : settled_ok (set_rng rg gc)) by (by eapply places_settled).
  assert (Hs2 : c + 1 = Z.of_nat (length (settlements (set_rng rg gc))) + 1).
  { change (settlements (set_rng rg gc)) with (settlements gc). rewrite Hlen. lia. }
  assert (Hs3 : realm_tiles_of (set_rng rg gc) rid shuffled).
  { eapply (realm_tiles_of_frame g); [by apply places_frame|].
    intros t Ht. apply Htiles. by apply (shuffle_elem _ _ _ _ t Hsh) in Ht. }
  assert (Hs4 : is_crowned (set_rng rg gc) rid) by exact Hcrowned.
  destruct (extras_loop_places _ _ _ _ _ _ _ _ Hs1 Hs2 Hs3 Hs4 H) as (Hp & Hc' & Hlen').
  split; [eapply runs_trans; [|exact Hp]; pl_peel; exact Hgc|].
  split; [exact Hc'|].
  change (settlements (set_rng rg gc)) with (settlements gc) in Hlen'.
  split; [lia|].
  eapply places_is_crowned; [eapply places_in_places; exact Hp|exact Hcrowned].
Qed.

Lemma settled_ok_nil g :
  settlements g = [] -> settled_ok g.
Proof. intros H. unfold settled_ok. rewrite H. by split. Qed.

(** The settlements of the realm [rid], in the order of the record. *)
Definition settled_in (g : Gen) (rid : string) : list (string * Settlement.t) :=
  filter (fun kv => Settlement.realm_id (snd kv) = rid)
    (settlements g : list (string * Settlement.t)).

Lemma filter_all_other {A} (P : A -> Prop) `{!forall x, Decision (P x)} (l : list A) :
  Forall (fun x => ¬ P x) l -> filter P l = [].
Proof.
  induction 1 as [|x l Hx _ IH]; [done|]. rewrite filter_cons. by destruct (decide (P x)).
Qed.

Lemma filter_all_same {A} (P : A -> Prop) `{!forall x, Decision (P x)} (l : list A) :
  Forall P l -> filter P l = l.
Proof.
  induction 1 as [|x l Hx _ IH]; [done|]. rewrite filter_cons.
  destruct (decide (P x)); [by rewrite IH|done].
Qed.

(** The loop of [_derive_settlements] after the realms of [done]: each of
    them has its capital and between one and four settlements; the other
    realms are as they were, and so are their tiles. *)
Record settled_inv (g : Gen) (done : Dict (list nat)) (ga : Gen) (ca : Z) : Prop := {
  sv_places : places g ga;
  sv_counter : ca = Z.of_nat (length (settlements ga)) + 1;
  sv_done : forall rid, rid ∈ dict_keys done ->
      is_crowned ga rid ∧ (1 <= length (settled_in ga rid) <= 4)%nat;
  sv_todo : forall rid, rid ∉ dict_keys done ->
      settled_in ga rid = []
      ∧ dict_get (realms ga) rid = dict_get (realms g) rid
      ∧ forall i, Tile.realm_id (tile_at g i) = Some rid -> tile_at ga i = tile_at g i;
}.

Lemma settle_loop_spec g :
  settlements g = [] -> capital_free g ->
  (forall i, Tile.settlement_id (tile_at g i) = None) ->
  forall todo done ga ca acc',
    tiles_by_realm_of g = done ++ todo ->
    settled_inv g done ga ca ->
    for_each todo settle_realm (ga, ca) = Ok acc' ->
    settled_inv g (done ++ todo) (fst acc') (snd acc').
Proof.
  intros Hnone Hfree Hunmarked.
  induction todo as [|[rid rt] todo IH]; intros done ga ca acc' Hsplit Hinv Hrun.
  { cbn in Hrun. injection Hrun as <-. by rewrite app_nil_r. }
  rewrite for_each_cons in Hrun. apply bind_Ok in Hrun as ([g2 c2] & H2 & Hrun).
  destruct Hinv as [Hpl Hca Hdone Htodo].
  pose proof (tiles_by_realm_keys_NoDup g) as Hnd. rewrite Hsplit in Hnd.
  unfold dict_keys in Hnd. rewrite map_app in Hnd. cbn [map fst] in Hnd.
  apply NoDup_app in Hnd as (_ & Hdisj & Hnd2). apply NoDup_cons in Hnd2 as [Hnot_todo _].
  assert (Hnot_done : rid ∉ dict_keys done).
  { intros Hin. apply (Hdisj rid Hin). left. }
  destruct (tiles_by_realm_entry g rid rt) as (Hne & _ & Hrt).
  { rewrite Hsplit. apply elem_of_app. right. left. }
  destruct (Htodo rid Hnot_done) as (Hempty & Hrealm & Htiles).
  pose proof (places_frame _ _ Hpl) as Hframe.
  assert (Hoka : settled_ok ga) by (eapply places_settled; [exact Hpl|by apply settled_ok_nil]).
  assert (Hrto : realm_tiles_of ga rid rt).
  { eapply realm_tiles_of_frame; [exact Hframe|]. rewrite Hrt.
    intros t Ht. by apply owned_by_elem in Ht. }
  assert (Hnocap : forall realm, dict_get (realms ga) rid = Some realm ->
                     Realm.capital_settlement_id realm = None).
  { intros realm Hget. rewrite Hrealm in Hget. apply dict_get_Some_elem in Hget.
    unfold capital_free in Hfree. rewrite Forall_forall in Hfree. exact (Hfree _ Hget). }
  assert (Hunm : forall i, Tile.realm_id (tile_at ga i) = Some rid ->
                   Tile.settlement_id (tile_at ga i) = None).
  { intros i Hi. rewrite (place_frame_owner g ga i Hframe) in Hi.
    rewrite (Htiles i Hi). apply Hunmarked. }
  destruct (settle_realm_places _ _ _ _ _ _ Hoka Hca Hrto Hne Hnocap Hunm H2)
    as (Hp2 & Hc2 & Hlen2 & Hcr2).
  destruct (places_in_only_for _ _ _ Hp2) as (Ho1 & Ho2 & Ho3).
  destruct (Ho3 Hoka) as (_ & new & Hnew & Hallnew).
  assert (Hothers : forall rid', rid' ≠ rid -> settled_in g2 rid' = settled_in ga rid').
  { intros rid' Hne'. unfold settled_in. rewrite Hnew, filter_app.
    rewrite (filter_all_other _ new); [by rewrite app_nil_r|].
    eapply Forall_impl; [exact Hallnew|]. intros kv Hkv. cbn in Hkv. congruence. }
  assert (Hself : settled_in g2 rid = new).
  { unfold settled_in. rewrite Hnew, filter_app.
    fold (settled_in ga rid). rewrite Hempty. cbn [app].
    by apply filter_all_same. }
  assert (Hnewlen : (1 <= length new <= 4)%nat).
  { rewrite Hnew, length_app in Hlen2. lia. }
  replace (done ++ (rid, rt) :: todo) with ((done ++ [(rid, rt)]) ++ todo)
    by (by rewrite <- app_assoc).
  apply (IH (done ++ [(rid, rt)]) g2 c2); [by rewrite <- app_assoc| |exact Hrun].
  constructor.
  - eapply runs_trans; [exact Hpl|by eapply places_in_places].
  - exact Hc2.
  - intros rid' Hin. unfold dict_keys in Hin. rewrite map_app in Hin.
    apply elem_of_app in Hin as [Hin|Hin].
    + assert (rid' ≠ rid) by (intros ->; by apply Hnot_done).
      destruct (Hdone rid' Hin) as [Hcr Hcnt]. split.
      * eapply places_is_crowned; [eapply places_in_places; exact Hp2|exact Hcr].
      * by rewrite Hothers.
    + apply list_elem_of_singleton in Hin. cbn in Hin. subst rid'.
      split; [exact Hcr2|]. by rewrite Hself.
  - intros rid' Hnot.
    assert (Hne' : rid' ≠ rid).
    { intros ->. apply Hnot. unfold dict_keys. rewrite map_app. apply elem_of_app. right. left. }
    assert (Hnd' : rid' ∉ dict_keys done).
    { intros Hin. apply Hnot. unfold dict_keys. rewrite map_app. apply elem_of_app. by left. }
    destruct (Htodo rid' Hnd') as (He' & Hr' & Ht').
    split; [by rewrite Hothers|]. split; [by rewrite Ho1|].
    intros i Hi. rewrite Ho2; [by apply Ht'|].
    rewrite (Ht' i Hi), Hi. congruence.
Qed.

(** The stage as a whole, from a state without settlements, capitals and
    marked tiles: a run of the updates above; a realm that owns a tile gets
    its capital and between one and four settlements, any other realm
    stays as it is and gets none. *)
Lemma derive_settlements_places g g' :
  settlements g = [] -> capital_free g ->
  (forall i, Tile.settlement_id (tile_at g i) = None) ->
  _derive_settlements g = Ok g' ->
  places g g'
  ∧ (forall rid, rid ∈ dict_keys (tiles_by_realm_of g) ->
       is_crowned g' rid ∧ (1 <= length (settled_in g' rid) <= 4)%nat)
  ∧ (forall rid, rid ∉ dict_keys (tiles_by_realm_of g) ->
       settled_in g' rid = [] ∧ dict_get (realms g') rid = dict_get (realms g) rid).
Proof.
  unfold _derive_settlements. intros Hnone Hfree Hunmarked H.
  apply bind_Ok in H as ([g1 c1] & H & Hret). injection Hret as <-.
  destruct (settle_loop_spec g Hnone Hfree Hunmarked (tiles_by_realm_of g) [] g 1 (g1, c1))
    as [Hpl _ Hdone Htodo]; [done| |exact H|].
  { constructor.
    - apply runs_refl.
    - by rewrite Hnone.
    - intros rid Hin. by apply elem_of_nil in Hin.
    - intros rid _. unfold settled_in. rewrite Hnone. done. }
  cbn [fst snd app] in *. split; [exact Hpl|]. split; [exact Hdone|].
  intros rid Hnot. by destruct (Htodo rid Hnot) as (? & ? & _).
Qed.


(** ** A run as a whole *)

Lemma finished_tile_fields m sl c t :
  finished_tile m sl c t -> (Tile.x t, Tile.y t) = c ∧ Tile.settlement_id t = None.
Proof.
  intros (t0 & t1 & [e [mo ->]] & Hd & (Ht & _ & Hs & _)).
  destruct (terrain_coords _ _ Ht) as [Hx Hy]. rewrite Hx, Hy, Hs.
  destruct c as [cx cy]. destruct Hd as [->|[_ ->]]; by split.
Qed.

Lemma grid_stage_grid_ok g g1 :
  tiles g = [] -> _generate_base_tiles g = Ok g1 ->
  grid_ok g1 ∧ forall i, Tile.settlement_id (tile_at g1 i) = None.
Proof.
  intros Hnil H. destruct (generate_base_tiles_spec g g1 Hnil H) as (Hc & _ & Hall).
  split.
  - unfold grid_ok.
    assert (Hw : width g1 = width g ∧ height g1 = height g)
      by (unfold config in Hc; split; congruence).
    destruct Hw as [-> ->].
    induction Hall as [|c t cs ts Hct _ IH]; [done|].
    cbn [map]. rewrite IH. by destruct (finished_tile_fields _ _ _ _ Hct) as [-> _].
  - intros i. unfold tile_at. destruct (tiles g1 !! i) as [t|] eqn:Ht.
    + rewrite (list_lookup_total_correct _ _ _ Ht).
      destruct (Forall2_lookup_r _ _ _ _ _ Hall Ht) as (c & _ & Hc').
      by destruct (finished_tile_fields _ _ _ _ Hc').
    + by rewrite list_lookup_total_alt, Ht.
Qed.

Lemma evolves_settlement_id g g' (i : nat) :
  evolves g g' -> Tile.settlement_id (tile_at g' i) = Tile.settlement_id (tile_at g i).
Proof.
  intros H. revert i.
  apply (runs_rel history_step
           (fun a b => forall i,
              Tile.settlement_id (tile_at b i) = Tile.settlement_id (tile_at a i)));
    [done| |exact H].
  intros a b c Hab Hstep i. rewrite <- Hab.
  destruct Hstep; try done;
    rewrite tile_at_alter; (destruct (decide _); [|done]); by destruct (decide _).
Qed.

Lemma derive_ruins_frame g g' : _derive_ruins g = Ok g' -> ruin_frame g g'.
Proof.
  unfold _derive_ruins. intros H.
  destruct (shuffle (ruin_candidates g) (rng g)) as [border_tiles rg].
  by apply ruins_loop_spec in H as [H _].
Qed.

Lemma owned_by_same a b rid :
  length (tiles b) = length (tiles a) ->
  (forall i, Tile.realm_id (tile_at b i) = Tile.realm_id (tile_at a i)) ->
  owned_by b rid = owned_by a rid.
Proof.
  intros Hl Ht. unfold owned_by. rewrite Hl. apply list_filter_iff. intros i. by rewrite Ht.
Qed.

Lemma tiles_by_realm_key g rid :
  rid ∈ dict_keys (tiles_by_realm_of g) <-> rid ≠ "" ∧ owned_by g rid ≠ [].
Proof.
  split.
  - intros Hin. apply list_elem_of_fmap in Hin as ([k l] & -> & Hin).
    destruct (tiles_by_realm_entry g k l Hin) as (Hne & Hk & ->). by split.
  - intros [Hne Hown]. pose proof (tiles_by_realm_get g rid Hne) as Hget.
    destruct (owned_by g rid) as [|t ts] eqn:Ho; [done|].
    apply dict_get_Some_elem in Hget. apply list_elem_of_fmap. by eexists (rid, _).
Qed.

Lemma derive_ruins_tiles g g' :
  _derive_ruins g = Ok g' ->
  exists new,
    ruins g' = ruins g ++ new
    ∧ forall r, r ∈ new -> exists i, i ∈ ruin_candidates g ∧ Ruin.tile r = coords g i.
Proof.
  unfold _derive_ruins. intros H.
  destruct (shuffle (ruin_candidates g) (rng g)) as [border_tiles rg] eqn:Hsh.
  apply ruins_loop_spec in H as (_ & new & Hnew & _ & Hall).
  exists new. split; [exact Hnew|]. intros r Hr.
  apply list_elem_of_lookup in Hr as (k & Hk).
  destruct (Hall k r Hk) as (ti & Hti & _ & Htile & _). exists ti. split; [|exact Htile].
  apply (shuffle_elem _ _ _ _ ti Hsh). by eapply list_elem_of_lookup_2.
Qed.

Lemma is_border_tile_same a b i :
  tiles b = tiles a -> config b = config a -> _is_border_tile b i = _is_border_tile a i.
Proof.
  intros Ht Hc. unfold _is_border_tile, tile_at. rewrite Ht.
  by rewrite (neighbors_same_size a b _ _ Hc).
Qed.

Lemma ruin_candidates_same a b :
  tiles b = tiles a -> config b = config a -> ruin_candidates b = ruin_candidates a.
Proof.
  intros Ht Hc. unfold ruin_candidates. rewrite Ht. apply list_filter_iff. intros i.
  rewrite (is_border_tile_same a b i Ht Hc). unfold tile_at. by rewrite Ht.
Qed.

(** What holds of the state a run from a fresh generator ends in. *)
Record run_facts (g g' : Gen) : Prop := {
  rf_config : config g' = config g;
  rf_grid : grid_ok g';
  rf_owned : owned_ok g';
  rf_made : realms_made g';
  rf_popped : strength_popped g';
  rf_settled : settled_ok g';
  rf_crowned : crowned_ok g';
  rf_with_land : forall rid, rid ≠ "" -> owned_by g' rid ≠ [] ->
      is_crowned g' rid ∧ (1 <= length (settled_in g' rid) <= 4)%nat;
  rf_landless : forall rid, owned_by g' rid = [] ->
      settled_in g' rid = []
      ∧ forall realm, dict_get (realms g') rid = Some realm ->
          Realm.capital_settlement_id realm = None;
  rf_roads : roads g' = flat_map (realm_roads (settlements g')) (dict_values (realms g'));
  rf_ocean : forall i, water_iff_ocean (tile_at g' i);
  rf_ruins : forall r, r ∈ ruins g' ->
      exists i, i ∈ ruin_candidates g' ∧ Ruin.tile r = coords g' i;
}.

Lemma run_stages_facts g g' : fresh g -> run_stages g = Ok g' -> run_facts g g'.
Proof.
  intros Hfresh Hrun.
  destruct (run_stages_staged g g' Hfresh Hrun) as (g1 & g2 & g3 & g4 & St).
  assert (Hkept : tiles_rel land_kept g1 g').
  { apply (staged_terrain g g1 g2 g3 g4 g' g' St). do 5 right. left. }
  destruct St as [B1 B2 B3 B4 B6 Hgrid C1 K1 E2 E3 S4 S5 S6].
  destruct Hfresh as [Hnil _].
  unfold collections in K1. injection K1 as R1 T1 V1 D1 U1.
  destruct (grid_stage_grid_ok g g1 Hnil B1) as [G1 M1].
  (* the grid, the owners *)
  assert (O1 : owned_ok g1).
  { intros i Hi. by rewrite (grid_stage_unowned g g1 i Hnil B1) in Hi. }
  pose proof (evolves_owned_ok _ _ E2 O1) as O2.
  pose proof (evolves_owned_ok _ _ E3 O2) as O3.
  pose proof (evolves_grid_ok _ _ E2 G1) as G2.
  pose proof (evolves_grid_ok _ _ E3 G2) as G3.
  (* nothing but realms and events before the settlements *)
  destruct (evolves_collections _ _ E2) as (T2 & D2 & U2).
  destruct (evolves_collections _ _ E3) as (T3 & D3 & U3).
  assert (M3 : forall i, Tile.settlement_id (tile_at g3 i) = None).
  { intros i. by rewrite (evolves_settlement_id _ _ i E3), (evolves_settlement_id _ _ i E2). }
  (* the realms *)
  assert (A1 : realms_made g1).
  { unfold realms_made. rewrite R1. split; [done|]. split; [cbn; lia|constructor]. }
  assert (F1 : capital_free g1) by (unfold capital_free; rewrite R1; constructor).
  pose proof (spawn_reigns _ _ B2) as W2.
  destruct (simulate_history_reigns _ _ B3) as [W3 P3].
  pose proof (reigns_made _ _ W3 (reigns_made _ _ W2 A1)) as A3.
  pose proof (reigns_capital_free _ _ W3 (reigns_capital_free _ _ W2 F1)) as F3.
  (* the settlements *)
  assert (T3' : settlements g3 = []) by congruence.
  destruct (derive_settlements_places g3 g4 T3' F3 M3 B4) as (Hpl & Hwith & Hwithout).
  pose proof (places_frame _ _ Hpl) as (C4 & L4 & V4 & D4 & U4 & Hsame).
  pose proof (places_settled _ _ Hpl (settled_ok_nil g3 T3')) as Hset4.
  assert (Hcr3 : crowned_ok g3).
  { split.
    - intros rid realm c Hget Hcap. apply dict_get_Some_elem in Hget.
      unfold capital_free in F3. rewrite Forall_forall in F3.
      pose proof (F3 _ Hget) as Hnone. cbn in Hnone. congruence.
    - intros sid s Hget. by rewrite T3' in Hget. }
  assert (Hcr4 : crowned_ok g4).
  { assert (Hboth : settled_ok g3 -> crowned_ok g3 -> settled_ok g4 ∧ crowned_ok g4).
    { revert Hpl.
      apply (runs_rel place_any (fun a b => settled_ok a -> crowned_ok a ->
                                            settled_ok b ∧ crowned_ok b)); [tauto|].
      intros a b c Hab Hs Ha Hca. destruct (Hab Ha Hca) as [Hb Hcb]. split.
      - by eapply place_step_settled.
      - by eapply place_step_crowned. }
    by destruct (Hboth (settled_ok_nil g3 T3') Hcr3). }
  pose proof (places_made _ _ Hpl A3) as A4.
  pose proof (places_popped _ _ Hpl P3) as P4.
  assert (G4 : grid_ok g4).
  { unfold grid_ok in *.
    assert (Hw : width g4 = width g3 ∧ height g4 = height g3)
      by (unfold config in C4; split; congruence).
    destruct Hw as [-> ->]. rewrite <- G3.
    apply list_eq_same_length with (length (tiles g3)); [by rewrite length_map|by rewrite length_map|].
    intros i c1 c2 Hi H1 H2.
    rewrite list_lookup_fmap in H1, H2.
    destruct (tiles g4 !! i) as [t4|] eqn:Ht4; [|done].
    destruct (tiles g3 !! i) as [t3|] eqn:Ht3; [|done].
    cbn in H1, H2. injection H1 as <-. injection H2 as <-.
    pose proof (Hsame i) as Hs. unfold tile_at in Hs.
    rewrite (list_lookup_total_correct _ _ _ Ht4), (list_lookup_total_correct _ _ _ Ht3) in Hs.
    destruct (same_but_settlement_fields _ _ Hs) as (Hterr & _).
    by destruct (terrain_coords _ _ Hterr) as [-> ->]. }
  assert (O4 : owned_ok g4).
  { intros i Hi. pose proof (Hsame i) as Hs.
    destruct (same_but_settlement_fields _ _ Hs) as (Hterr & _ & Hrid).
    rewrite Hrid in Hi. rewrite (terrain_water _ _ Hterr), (terrain_biome _ _ Hterr).
    by apply O3. }
  assert (Hown4 : forall rid, owned_by g4 rid = owned_by g3 rid).
  { intros rid. apply owned_by_same; [exact L4|].
    intros i. by destruct (same_but_settlement_fields _ _ (Hsame i)) as (_ & _ & ?). }
  (* roads and ruins *)
  destruct (derive_ruins_frame _ _ B6) as (C6 & L6 & R6 & T6 & V6 & D6).
  change (config (_derive_roads g4)) with (config g4) in C6.
  change (tiles (_derive_roads g4)) with (tiles g4) in L6.
  change (realms (_derive_roads g4)) with (realms g4) in R6.
  change (settlements (_derive_roads g4)) with (settlements g4) in T6.
  assert (Hat : forall i, tile_at g' i = tile_at g4 i) by (intros i; unfold tile_at; by rewrite L6).
  assert (Hyears : years g' = years g4) by (by apply config_years).
  constructor.
  - pose proof (evolves_config _ _ E2). pose proof (evolves_config _ _ E3). congruence.
  - unfold grid_ok in *.
    assert (Hw : width g' = width g4 ∧ height g' = height g4)
      by (unfold config in C6; split; congruence).
    destruct Hw as [-> ->]. by rewrite L6.
  - intros i. rewrite Hat. apply O4.
  - unfold realms_made. by rewrite R6.
  - unfold strength_popped. by rewrite R6.
  - destruct Hset4 as [Hk Hall]. split; [by rewrite T6|]. rewrite T6.
    eapply Forall_impl; [exact Hall|]. intros kv [Hid (i & Hi & H1 & H2 & H3 & H4)].
    split; [exact Hid|]. exists i. rewrite L6. unfold coords. rewrite Hat, Hyears. done.
  - destruct Hcr4 as [H1 H2]. split; rewrite R6, T6; assumption.
  - intros rid Hne Hown.
    assert (Ho : owned_by g' rid = owned_by g3 rid).
    { rewrite <- Hown4. apply owned_by_same; [by rewrite L6|]. intros i. by rewrite Hat. }
    rewrite Ho in Hown.
    destruct (Hwith rid) as [Hc Hn]; [by apply tiles_by_realm_key|].
    unfold is_crowned, settled_in. rewrite R6, T6. by split.
  - intros rid Hown.
    assert (Ho : owned_by g' rid = owned_by g3 rid).
    { rewrite <- Hown4. apply owned_by_same; [by rewrite L6|]. intros i. by rewrite Hat. }
    rewrite Ho in Hown.
    destruct (Hwithout rid) as [Hn Hr].
    { intros Hin. apply tiles_by_realm_key in Hin as [_ Hin]. done. }
    unfold settled_in. rewrite R6, T6. split; [exact Hn|].
    intros realm Hget. rewrite Hr in Hget. apply dict_get_Some_elem in Hget.
    unfold capital_free in F3. rewrite Forall_forall in F3. exact (F3 _ Hget).
  - rewrite D6, R6, T6. unfold _derive_roads. cbn [roads set_roads].
    rewrite D4, D3, D2, D1. done.
  - intros i. destruct (decide (i < length (tiles g'))%nat) as [Hlt|Hge].
    + destruct (lookup_lt_is_Some_2 _ _ Hlt) as [t Ht].
      unfold tile_at. rewrite (list_lookup_total_correct _ _ _ Ht).
      unfold tiles_rel in Hkept.
      destruct (Forall2_lookup_r _ _ _ _ _ Hkept Ht) as (t1 & Ht1 & Hk).
      destruct (Forall2_lookup_r _ _ _ _ _ Hgrid Ht1) as (c & _ & Hf).
      apply finished_tile_rule in Hf as (Hw & _).
      by eapply land_kept_water_iff_ocean.
    + rewrite tile_at_out_of_range by lia. by split.
  - intros r Hr. destruct (derive_ruins_tiles _ _ B6) as (new & Hnew & Hall).
    change (ruins (_derive_roads g4)) with (ruins g4) in Hnew.
    rewrite U4, U3, U2, U1 in Hnew. cbn [app] in Hnew. rewrite Hnew in Hr.
    destruct (Hall r Hr) as (i & Hi & Htile). exists i.
    rewrite (ruin_candidates_same (_derive_roads g4) g' L6 C6).
    split; [exact Hi|]. rewrite Htile. unfold coords. by rewrite !Hat.
Qed.


Lemma roads_elem_line ss (rs : list Realm.t) r :
  r ∈ flat_map (realm_roads ss) rs ->
  exists realm cap s,
    realm ∈ rs ∧ Realm.capital_settlement_id realm = Some (Road.from r)
    ∧ dict_get ss (Road.from r) = Some cap
    ∧ s ∈ dict_values ss ∧ Road.to r = Settlement.id s
    ∧ Settlement.realm_id s = Realm.id realm ∧ Settlement.id s ≠ Road.from r
    ∧ Road.type r = "road"
    ∧ Road.tiles r
      = _line_between (fst (Settlement.tile cap)) (snd (Settlement.tile cap))
          (fst (Settlement.tile s)) (snd (Settlement.tile s)).
Proof.
  intros Hin. apply elem_of_flat_map in Hin as (realm & Hrealm & Hin).
  rewrite realm_roads_unfold in Hin.
  destruct (Realm.capital_settlement_id realm) as [cap_id|] eqn:Hcap;
    [|by apply elem_of_nil in Hin].
  destruct (negb (String.eqb cap_id "")); [|by apply elem_of_nil in Hin].
  destruct (dict_get ss cap_id) as [cap|] eqn:Hget; [|by apply elem_of_nil in Hin].
  apply elem_of_flat_map in Hin as (s & Hs & Hin).
  apply road_to_elem in Hin as (Hrid & Hid & ->). cbn.
  exists realm, cap, s. by repeat split.
Qed.

Lemma numbered_keys_NoDup (f : Z -> string) (n : nat) :
  (forall a b, f a = f b -> a = b) ->
  NoDup (map (fun k => f (Z.of_nat k)) (seq 1 n)).
Proof.
  intros Hinj. apply NoDup_fmap_2; [|apply NoDup_seq].
  intros a b Hab. apply Hinj in Hab. lia.
Qed.

Lemma run_settlements_keyed g g' :
  run_facts g g' -> keyed Settlement.id (settlements g').
Proof.
  intros F. destruct (rf_settled _ _ F) as [Hk Hall]. split.
  - rewrite Hk. apply numbered_keys_NoDup, settlement_id_of_inj.
  - eapply Forall_impl; [exact Hall|]. by intros kv [? _].
Qed.

Lemma run_realms_keyed g g' :
  run_facts g g' -> keyed Realm.id (realms g').
Proof.
  intros F. destruct (rf_made _ _ F) as (Hk & _ & Hall). split.
  - rewrite Hk. apply numbered_keys_NoDup, realm_id_of_inj.
  - eapply Forall_impl; [exact Hall|]. by intros kv [? _].
Qed.

(** A settlement on record, with the tile it stands on. *)
Lemma run_settlement g g' sid s :
  run_facts g g' -> (sid, s) ∈ settlements g' ->
  Settlement.id s = sid ∧ dict_get (settlements g') sid = Some s ∧ settlement_ok g' s.
Proof.
  intros F Hin. destruct (run_settlements_keyed g g' F) as [Hnd _].
  destruct (rf_settled _ _ F) as [_ Hall]. rewrite Forall_forall in Hall.
  destruct (Hall _ Hin) as [Hid Hok]. split; [exact Hid|]. split; [|exact Hok].
  by apply dict_get_elem_NoDup.
Qed.

Lemma in_grid_box g a b p :
  in_grid g (fst a) (snd a) -> in_grid g (fst b) (snd b) -> in_box a b p ->
  in_grid g (fst p) (snd p).
Proof. unfold in_grid, in_box. lia. Qed.

(** X6.  The settlements of a run from a fresh generator.  They are stored
    as [settlement_1], [settlement_2], ... in the order they were founded,
    each under its own id.  Each stands on a tile of the grid that carries
    its id, belongs to its realm and is neither water nor mountain, and is
    written as the stage writes a capital or a town or fort; its realm has
    a capital, and the settlement is a city exactly when it is that
    capital.  No two settlements share a tile, and no realm has more than
    four. *)
Theorem settlements_of_a_run (g g' : Gen) :
  fresh g -> run_stages g = Ok g' ->
  dict_keys (settlements g')
  = map (fun k => settlement_id_of (Z.of_nat k)) (seq 1 (length (settlements g')))
  ∧ (forall sid s, (sid, s) ∈ settlements g' ->
       Settlement.id s = sid
       ∧ dict_get (settlements g') sid = Some s
       ∧ (exists realm cap,
            dict_get (realms g') (Settlement.realm_id s) = Some realm
            ∧ Realm.capital_settlement_id realm = Some cap
            ∧ (Settlement.type s = city <-> cap = sid))
       ∧ exists i,
           (i < length (tiles g'))%nat
           ∧ Settlement.tile s = (Tile.x (tile_at g' i), Tile.y (tile_at g' i))
           ∧ Tile.settlement_id (tile_at g' i) = Some sid
           ∧ Tile.realm_id (tile_at g' i) = Some (Settlement.realm_id s)
           ∧ Tile.water (tile_at g' i) = false
           ∧ Tile.biome (tile_at g' i) ≠ mountain
           ∧ settlement_rule (years g) (tile_at g' i) s)
  ∧ (forall sid1 s1 sid2 s2,
       (sid1, s1) ∈ settlements g' -> (sid2, s2) ∈ settlements g' ->
       Settlement.tile s1 = Settlement.tile s2 -> sid1 = sid2)
  ∧ (forall rid, (length (settled_in g' rid) <= 4)%nat).
Proof.
  intros Hfresh Hrun. pose proof (run_stages_facts g g' Hfresh Hrun) as F.
  pose proof (run_settlements_keyed g g' F) as [Hnd Hkeyed].
  destruct (rf_settled _ _ F) as [Hk Hall]. destruct (rf_crowned _ _ F) as [Hcap Hcity].
  split; [exact Hk|]. split; [|split].
  - intros sid s Hin. destruct (run_settlement g g' sid s F Hin) as (Hid & Hget & Hok).
    split; [exact Hid|]. split; [exact Hget|]. split.
    + destruct (Hcity sid s Hget) as (realm & cap & Hr & Hc & Hif).
      exists realm, cap. split; [exact Hr|]. split; [exact Hc|]. split; [exact Hif|].
      intros ->. destruct (Hcap _ _ _ Hr Hc) as (s' & Hs' & Ht' & _). congruence.
    + destruct Hok as (i & Hi & Htile & Hown & Hmark & Hrule). exists i.
      destruct (rf_owned _ _ F i) as [Hw Hb]; [by rewrite Hown|].
      rewrite <- (config_years _ _ (rf_config _ _ F)), <- Hid.
      split; [exact Hi|]. split; [exact Htile|]. split; [exact Hmark|].
      split; [exact Hown|]. split; [exact Hw|]. split; [exact Hb|exact Hrule].
  - intros sid1 s1 sid2 s2 H1 H2 Htile.
    destruct (run_settlement g g' sid1 s1 F H1) as (Hid1 & _ & (i1 & Hi1 & Ht1 & _ & Hm1 & _)).
    destruct (run_settlement g g' sid2 s2 F H2) as (Hid2 & _ & (i2 & Hi2 & Ht2 & _ & Hm2 & _)).
    destruct (grid_ok_coords g' i1 (rf_grid _ _ F) Hi1) as (_ & _ & Hidx1).
    destruct (grid_ok_coords g' i2 (rf_grid _ _ F) Hi2) as (_ & _ & Hidx2).
    assert (Heq : coords g' i1 = coords g' i2) by congruence.
    unfold coords in Heq. injection Heq as Hx Hy. rewrite Hx, Hy in Hidx1.
    assert (i1 = i2) by congruence. subst i2. congruence.
  - intros rid. destruct (owned_by g' rid) as [|t ts] eqn:Hown.
    + destruct (rf_landless _ _ F rid Hown) as [-> _]. cbn. lia.
    + destruct (decide (rid = "")) as [->|Hne].
      * (* no settlement names the empty realm *)
        destruct (settled_in g' "") as [|[sid s] rest] eqn:Hs; [cbn; lia|].
        assert (Hin : (sid, s) ∈ settled_in g' "") by (rewrite Hs; left).
        apply list_elem_of_filter in Hin as [Hrid Hin]. cbn in Hrid.
        destruct (run_settlement g g' sid s F Hin) as (_ & Hget & _).
        destruct (Hcity sid s Hget) as (realm & cap & Hr & _). rewrite Hrid in Hr.
        apply dict_get_Some_elem in Hr.
        assert (Hkey : "" ∈ dict_keys (realms g')).
        { apply list_elem_of_fmap. by exists ("", realm). }
        destruct (rf_made _ _ F) as (Hkeys & _). rewrite Hkeys in Hkey.
        by apply list_elem_of_fmap in Hkey as (k & Hk' & _).
      * destruct (rf_with_land _ _ F rid Hne) as [_ Hn]; [by rewrite Hown|]. lia.
Qed.

Lemma settlements_of_a_run_witness :
  fresh vale ∧ run_stages vale = Ok vale_final
  ∧ (
  dict_keys (settlements vale_final)
  = map (fun k => settlement_id_of (Z.of_nat k)) (seq 1 (length (settlements vale_final)))
  ∧ (forall sid s, (sid, s) ∈ settlements vale_final ->
       Settlement.id s = sid
       ∧ dict_get (settlements vale_final) sid = Some s
       ∧ (exists realm cap,
            dict_get (realms vale_final) (Settlement.realm_id s) = Some realm
            ∧ Realm.capital_settlement_id realm = Some cap
            ∧ (Settlement.type s = city <-> cap = sid))
       ∧ exists i,
           (i < length (tiles vale_final))%nat
           ∧ Settlement.tile s = (Tile.x (tile_at vale_final i), Tile.y (tile_at vale_final i))
           ∧ Tile.settlement_id (tile_at vale_final i) = Some sid
           ∧ Tile.realm_id (tile_at vale_final i) = Some (Settlement.realm_id s)
           ∧ Tile.water (tile_at vale_final i) = false
           ∧ Tile.biome (tile_at vale_final i) ≠ mountain
           ∧ settlement_rule (years vale) (tile_at vale_final i) s)
  ∧ (forall sid1 s1 sid2 s2,
       (sid1, s1) ∈ settlements vale_final -> (sid2, s2) ∈ settlements vale_final ->
       Settlement.tile s1 = Settlement.tile s2 -> sid1 = sid2)
  ∧ (forall rid, (length (settled_in vale_final rid) <= 4)%nat)).
Proof.
  split; [exact vale_fresh|]. split; [exact vale_run|].
  exact (settlements_of_a_run vale vale_final vale_fresh vale_run).
Defined.

(** X7.  The realms of a run from a fresh generator.  They are stored as
    [realm_1], [realm_2], ... in the order they were created, nine at most,
    each under its own id; the strength of the history stage is gone, no
    realm is dissolved, every culture is ["lowland"], names and colours are
    those of [_make_realm_name] and [_random_color].  A realm that owns a
    tile has a capital, a city of the realm on record, and between one and
    four settlements; a realm that owns none has neither capital nor
    settlement. *)
Theorem realms_of_a_run (g g' : Gen) :
  fresh g -> run_stages g = Ok g' ->
  dict_keys (realms g')
  = map (fun k => realm_id_of (Z.of_nat k)) (seq 1 (length (realms g')))
  ∧ (length (realms g') <= 9)%nat
  ∧ forall rid realm, (rid, realm) ∈ realms g' ->
      Realm.id realm = rid
      ∧ dict_get (realms g') rid = Some realm
      ∧ Realm.strength realm = None
      ∧ Realm.dissolved_year realm = None
      ∧ Realm.culture realm = "lowland"
      ∧ name_ok (Realm.name realm)
      ∧ color_ok (Realm.color realm)
      ∧ match Realm.capital_settlement_id realm with
        | Some c =>
            0 < _realm_tile_count g' rid
            ∧ (1 <= length (settled_in g' rid) <= 4)%nat
            ∧ exists s,
                dict_get (settlements g') c = Some s
                ∧ Settlement.type s = city ∧ Settlement.realm_id s = rid
        | None =>
            _realm_tile_count g' rid = 0 ∧ settled_in g' rid = []
        end.
Proof.
  intros Hfresh Hrun. pose proof (run_stages_facts g g' Hfresh Hrun) as F.
  pose proof (run_realms_keyed g g' F) as [Hnd Hkeyed].
  destruct (rf_made _ _ F) as (Hk & Hn & Hall). destruct (rf_crowned _ _ F) as [Hcap _].
  split; [exact Hk|]. split; [exact Hn|].
  intros rid realm Hin. rewrite Forall_forall in Hall.
  destruct (Hall _ Hin) as (Hid & Hd & Hc & Hname & Hcol). cbn [fst snd] in *.
  pose proof (rf_popped _ _ F) as Hpop. unfold strength_popped in Hpop.
  rewrite Forall_forall in Hpop. pose proof (Hpop _ Hin) as Hstr. cbn in Hstr.
  pose proof (dict_get_elem_NoDup _ _ _ Hnd Hin) as Hget.
  do 7 (split; [assumption|]).
  assert (Hne : rid ≠ "").
  { assert (Hkey : rid ∈ dict_keys (realms g')).
    { apply list_elem_of_fmap. by exists (rid, realm). }
    rewrite Hk in Hkey. by apply list_elem_of_fmap in Hkey as (k & -> & _). }
  rewrite realm_tile_count_owned.
  destruct (owned_by g' rid) as [|t ts] eqn:Hown.
  - destruct (rf_landless _ _ F rid Hown) as [Hnone Hnocap].
    rewrite (Hnocap realm Hget). by split.
  - destruct (rf_with_land _ _ F rid Hne) as [(realm' & c & Hget' & Hc') Hcount];
      [by rewrite Hown|].
    assert (realm' = realm) by congruence. subst realm'. rewrite Hc'.
    split; [cbn; lia|]. split; [exact Hcount|]. by apply (Hcap rid realm c).
Qed.

Lemma realms_of_a_run_witness :
  fresh vale ∧ run_stages vale = Ok vale_final
  ∧ (
  dict_keys (realms vale_final)
  = map (fun k => realm_id_of (Z.of_nat k)) (seq 1 (length (realms vale_final)))
  ∧ (length (realms vale_final) <= 9)%nat
  ∧ forall rid realm, (rid, realm) ∈ realms vale_final ->
      Realm.id realm = rid
      ∧ dict_get (realms vale_final) rid = Some realm
      ∧ Realm.strength realm = None
      ∧ Realm.dissolved_year realm = None
      ∧ Realm.culture realm = "lowland"
      ∧ name_ok (Realm.name realm)
      ∧ color_ok (Realm.color realm)
      ∧ match Realm.capital_settlement_id realm with
        | Some c =>
            0 < _realm_tile_count vale_final rid
            ∧ (1 <= length (settled_in vale_final rid) <= 4)%nat
            ∧ exists s,
                dict_get (settlements vale_final) c = Some s
                ∧ Settlement.type s = city ∧ Settlement.realm_id s = rid
        | None =>
            _realm_tile_count vale_final rid = 0 ∧ settled_in vale_final rid = []
        end).
Proof.
  split; [exact vale_fresh|]. split; [exact vale_run|].
  exact (realms_of_a_run vale vale_final vale_fresh vale_run).
Defined.

(** X8.  The roads of a run from a fresh generator.  Every road leads from
    the capital of a realm, a city, to another settlement of the same
    realm, a town or a fort; its tiles begin with the tile of the capital
    and end with the tile of the settlement, move by one step of a chess
    king from each entry to the next and stay on the map.  For each capital
    and each other settlement of its realm there is exactly one road. *)
Theorem roads_of_a_run (g g' : Gen) :
  fresh g -> run_stages g = Ok g' ->
  (forall r, r ∈ roads g' ->
     exists realm cap s,
       realm ∈ dict_values (realms g')
       ∧ Realm.capital_settlement_id realm = Some (Road.from r)
       ∧ dict_get (settlements g') (Road.from r) = Some cap
       ∧ dict_get (settlements g') (Road.to r) = Some s
       ∧ Settlement.realm_id cap = Realm.id realm
       ∧ Settlement.realm_id s = Realm.id realm
       ∧ Settlement.type cap = city ∧ Settlement.type s ≠ city
       ∧ Road.type r = "road"
       ∧ head (Road.tiles r) = Some (Settlement.tile cap)
       ∧ last (Road.tiles r) = Some (Settlement.tile s)
       ∧ is_path (Road.tiles r)
       ∧ Forall (fun p => in_grid g' (fst p) (snd p)) (Road.tiles r))
  ∧ (forall realm cap_id s,
       realm ∈ dict_values (realms g') ->
       Realm.capital_settlement_id realm = Some cap_id ->
       s ∈ dict_values (settlements g') ->
       Settlement.realm_id s = Realm.id realm -> Settlement.id s ≠ cap_id ->
       road_count cap_id (Settlement.id s) (roads g') = 1%nat).
Proof.
  intros Hfresh Hrun. pose proof (run_stages_facts g g' Hfresh Hrun) as F.
  pose proof (run_realms_keyed g g' F) as Hrk.
  pose proof (run_settlements_keyed g g' F) as Hsk.
  destruct (rf_crowned _ _ F) as [Hcap Hcity].
  assert (Htile : forall sid s, dict_get (settlements g') sid = Some s ->
            in_grid g' (fst (Settlement.tile s)) (snd (Settlement.tile s))).
  { intros sid s Hget. apply dict_get_Some_elem in Hget.
    destruct (run_settlement g g' sid s F Hget) as (_ & _ & (i & Hi & -> & _)).
    destruct (grid_ok_coords g' i (rf_grid _ _ F) Hi) as (Hx & Hy & _). by split. }
  split.
  - intros r Hr. rewrite (rf_roads _ _ F) in Hr.
    apply roads_elem_line in Hr
      as (realm & cap & s & Hrealm & Hc & Hgetc & Hs & Hto & Hrid & Hne & Htype & Hline).
    assert (Hgets : dict_get (settlements g') (Road.to r) = Some s).
    { rewrite Hto. by apply (keyed_get_value Settlement.id). }
    assert (Hrget : dict_get (realms g') (Realm.id realm) = Some realm)
      by (by apply (keyed_get_value Realm.id)).
    destruct (Hcap _ _ _ Hrget Hc) as (cap' & Hcap' & Hcity' & Hcrid).
    assert (cap' = cap) by congruence. subst cap'.
    exists realm, cap, s.
    do 6 (split; [assumption|]). split; [exact Hcity'|]. split.
    { intros Hs_city. destruct (Hcity _ _ Hgets) as (realm2 & c2 & Hr2 & Hc2 & Hif).
      rewrite Hrid, Hrget in Hr2. injection Hr2 as <-.
      rewrite Hc in Hc2. injection Hc2 as <-.
      specialize (Hif Hs_city). congruence. }
    split; [exact Htype|].
    destruct (line_between_shape (fst (Settlement.tile cap)) (snd (Settlement.tile cap))
                (fst (Settlement.tile s)) (snd (Settlement.tile s)))
      as (Hbox & _).
    destruct (line_between_spec (fst (Settlement.tile cap)) (snd (Settlement.tile cap))
                (fst (Settlement.tile s)) (snd (Settlement.tile s)))
      as (Hh & Hl & Hp).
    rewrite <- !surjective_pairing in Hh, Hl, Hbox. rewrite Hline.
    do 3 (split; [assumption|]).
    eapply Forall_impl; [exact Hbox|]. intros p Hp'.
    apply (in_grid_box g' (Settlement.tile cap)
             (fst (Settlement.tile s), snd (Settlement.tile s)) p);
      [by eapply Htile|by eapply Htile|exact Hp'].
  - intros realm cap_id s Hrealm Hc Hs Hrid Hne.
    assert (Hrget : dict_get (realms g') (Realm.id realm) = Some realm)
      by (by apply (keyed_get_value Realm.id)).
    destruct (Hcap _ _ _ Hrget Hc) as (cap & Hgetc & _ & _).
    rewrite (rf_roads _ _ F).
    apply (roads_count_one (settlements g') (dict_values (realms g')) realm cap_id cap s);
      try done.
    + by apply keyed_values_NoDup.
    + by apply keyed_values_NoDup.
    + intros ->. apply dict_get_Some_elem in Hgetc.
      destruct (run_settlement g g' "" cap F Hgetc) as (Hid & _).
      destruct (rf_settled _ _ F) as [Hk _].
      assert (Hkey : "" ∈ dict_keys (settlements g')).
      { apply list_elem_of_fmap. by exists ("", cap). }
      rewrite Hk in Hkey. by apply list_elem_of_fmap in Hkey as (k & Hk' & _).
Qed.

Lemma roads_of_a_run_witness :
  fresh vale ∧ run_stages vale = Ok vale_final
  ∧ (
  (forall r, r ∈ roads vale_final ->
     exists realm cap s,
       realm ∈ dict_values (realms vale_final)
       ∧ Realm.capital_settlement_id realm = Some (Road.from r)
       ∧ dict_get (settlements vale_final) (Road.from r) = Some cap
       ∧ dict_get (settlements vale_final) (Road.to r) = Some s
       ∧ Settlement.realm_id cap = Realm.id realm
       ∧ Settlement.realm_id s = Realm.id realm
       ∧ Settlement.type cap = city ∧ Settlement.type s ≠ city
       ∧ Road.type r = "road"
       ∧ head (Road.tiles r) = Some (Settlement.tile cap)
       ∧ last (Road.tiles r) = Some (Settlement.tile s)
       ∧ is_path (Road.tiles r)
       ∧ Forall (fun p => in_grid vale_final (fst p) (snd p)) (Road.tiles r))
  ∧ (forall realm cap_id s,
       realm ∈ dict_values (realms vale_final) ->
       Realm.capital_settlement_id realm = Some cap_id ->
       s ∈ dict_values (settlements vale_final) ->
       Settlement.realm_id s = Realm.id realm -> Settlement.id s ≠ cap_id ->
       road_count cap_id (Settlement.id s) (roads vale_final) = 1%nat)).
Proof.
  split; [exact vale_fresh|]. split; [exact vale_run|].
  exact (roads_of_a_run vale vale_final vale_fresh vale_run).
Defined.


(** ** When the stages return *)

Lemma for_each_Ok {A S} (P : S -> Prop) (l : list A) (body : A -> S -> Res S) (s : S) :
  (forall a s, a ∈ l -> P s -> exists s', body a s = Ok s' ∧ P s') ->
  P s -> exists s', for_each l body s = Ok s' ∧ P s'.
Proof.
  revert s. induction l as [|a l IH]; intros s Hbody Hs; [by exists s|].
  rewrite for_each_cons. destruct (Hbody a s) as (s1 & H1 & Hs1); [left|done|].
  rewrite H1, bind_Ok_l. apply IH; [|done].
  intros a' t Ha'. apply Hbody. by right.
Qed.

Lemma moisture_Ok g y rg :
  height g ≠ 1 -> exists m rg', moisture_at g y rg = Ok (m, rg').
Proof.
  intros Hh. unfold moisture_at. destruct (Z.eqb_spec (height g - 1) 0); [lia|].
  destruct (random rg) as [u rg']. by eexists _, _.
Qed.

Lemma continent_tile_Ok cx cy max_r y x g :
  height g ≠ 1 ->
  exists g', continent_tile cx cy max_r y x g = Ok g' ∧ config g' = config g.
Proof.
  intros Hh. unfold continent_tile.
  destruct (random (rng g)) as [u1 rg1]. destruct (random rg1) as [u2 rg2].
  destruct (moisture_Ok g y rg2 Hh) as (m & rg3 & ->). rewrite bind_Ok_l. by eexists.
Qed.

Lemma archipelago_tile_Ok centers y x g :
  height g ≠ 1 ->
  exists g', archipelago_tile centers y x g = Ok g' ∧ config g' = config g.
Proof.
  intros Hh. unfold archipelago_tile.
  destruct (random (rng g)) as [u rg1].
  destruct (moisture_Ok g y rg1 Hh) as (m & rg3 & ->). rewrite bind_Ok_l. by eexists.
Qed.

Lemma config_height g g' : config g' = config g -> height g' = height g.
Proof. unfold config. by intros [= _ ? _ _ _ _]. Qed.

Lemma grid_loop_Ok body g :
  height g ≠ 1 ->
  (forall y x g', height g' ≠ 1 -> exists g'', body y x g' = Ok g'' ∧ config g'' = config g') ->
  exists g', grid_loop body g = Ok g'.
Proof.
  intros Hh Hbody. unfold grid_loop.
  destruct (for_each_Ok (fun g' => config g' = config g) (seqZ 0 (height g))
              (fun y g0 => for_each (seqZ 0 (width g0)) (body y) g0) g) as (g' & H & _);
    [|done|by exists g'].
  intros y g0 _ Hc0.
  destruct (for_each_Ok (fun g' => config g' = config g) (seqZ 0 (width g0)) (body y) g0)
    as (g1 & H1 & Hc1); [|done|by exists g1].
  intros x g1 _ Hc1. destruct (Hbody y x g1) as (g2 & H2 & Hc2).
  { by rewrite (config_height _ _ Hc1). }
  exists g2. split; [done|congruence].
Qed.

(** The grid stage returns unless the map has a single row, or an
    archipelago has no room for the centres of its islands. *)
Lemma generate_base_tiles_Ok g :
  height g ≠ 1 -> (mode g = archipelago -> 1 <= width g ∧ 1 <= height g) ->
  exists g', _generate_base_tiles g = Ok g'.
Proof.
  intros Hh Harch. unfold _generate_base_tiles. destruct (mode g) eqn:Hm.
  - unfold continent_grid.
    destruct (grid_loop_Ok (continent_tile (PrimFloat.div (Z2F (width g - 1)) 2)
                              (PrimFloat.div (Z2F (height g - 1)) 2)
                              (PrimFloat.div (Z2F (Z.max (width g) (height g))) 2.2)) g Hh)
      as (g1 & ->); [intros; by apply continent_tile_Ok|].
    rewrite !bind_Ok_l. by eexists.
  - destruct Harch as [Hw Hh1]; [done|]. unfold archipelago_grid.
    destruct (draw_centers_Ok g (seqZ 0 (Z.max 2 (width g * height g / 800))) ([], rng g))
      as (centers & rg & ->); [done..|].
    rewrite bind_Ok_l.
    destruct (grid_loop_Ok (archipelago_tile centers) (set_rng rg g) Hh) as (g1 & ->);
      [intros; by apply archipelago_tile_Ok|].
    rewrite bind_Ok_l. by eexists.
Qed.

(** Spawning cannot raise. *)
Lemma spawn_loop_Ok range fertile target used g :
  exists g', spawn_loop range fertile target used g = Ok g'.
Proof.
  revert used g. induction range as [|i range IH]; intros used g; cbn [spawn_loop];
    [by eexists|].
  destruct (_ >=? _); [by eexists|].
  destruct (fertile !! i) as [ti|]; [|by eexists].
  destruct (existsb _ used); [apply IH|].
  destruct (found_realm_Ok (realm_id_of (Z.of_nat (length (realms g)) + 1))
              (Z.of_nat (length (realms g))) ti g) as (realm & r & _ & ->).
  rewrite bind_Ok_l. apply IH.
Qed.

Lemma spawn_Ok g : exists g', _spawn_initial_realms g = Ok g'.
Proof.
  unfold _spawn_initial_realms.
  destruct (shuffle (fertile_indices g) (rng g)) as [fertile rg].
  destruct (spawn_loop_Ok (seq 0 (Z.to_nat (target_realms_of (set_rng rg g) * 2))) fertile
              (target_realms_of (set_rng rg g)) [] (set_rng rg g)) as (g1 & ->).
  rewrite bind_Ok_l. destruct (realms g1); [|by eexists].
  destruct fertile as [|ti fertile]; [by eexists|].
  destruct (found_realm_Ok "realm_1" 0 ti g1) as (realm & r & _ & ->). by eexists.
Qed.

(** Neither can a crisis: the realm it picks is on record. *)
Lemma crisis_shrink_Ok ct rid realm tiles year g :
  exists g', crisis_shrink ct rid realm tiles year g = Ok g'.
Proof.
  unfold crisis_shrink. destruct (filter _ tiles) as [|b bs]; [by eexists|].
  destruct (shuffle (b :: bs) (rng g)) as [border_tiles rg].
  destruct (randint_Ok 6 10 rg) as (d & rg1 & -> & _); [lia|].
  rewrite bind_Ok_l. by eexists.
Qed.

Lemma crisis_split_Ok ct rid realm tiles year g :
  exists g', crisis_split ct rid realm tiles year g = Ok g'.
Proof.
  unfold crisis_split. destruct (_ || _); [by eexists|].
  destruct (make_realm_name_Ok (Z.of_nat (length (realms g))) g) as (name & r1 & ->).
  rewrite bind_Ok_l.
  destruct (random_color_Ok (set_rng r1 g)) as (c & r2 & ->). rewrite bind_Ok_l.
  destruct (shuffle tiles _) as [shuffled rg]. by eexists.
Qed.

Lemma random_crisis_Ok year g : exists g', _random_crisis year g = Ok g'.
Proof.
  unfold _random_crisis.
  destruct (filter _ (dict_keys (realms g))) as [|rid0 rids] eqn:Hf; [by eexists|].
  destruct (choice_nonempty (rid0 :: rids) (rng g)) as (rid & rg & Hch); [done|].
  rewrite Hch, bind_Ok_l.
  assert (Hin : rid ∈ dict_keys (realms g)).
  { apply choice_Ok in Hch. rewrite <- Hf in Hch.
    by apply list_elem_of_filter in Hch as [_ ?]. }
  destruct (dict_get (realms (set_rng rg g)) rid) as [realm|] eqn:Hget.
  2:{ apply dict_get_None_keys in Hget. done. }
  destruct (owned_by (set_rng rg g) rid) as [|t0 ts]; [by eexists|].
  destruct (choice_nonempty crisis_types (rng (set_rng rg g))) as (ct & rg2 & ->); [done|].
  rewrite bind_Ok_l.
  destruct ct; first [apply crisis_shrink_Ok | apply crisis_split_Ok].
Qed.

Lemma history_turn_Ok step cy g : exists cy' g', history_turn step cy g = Ok (cy', g').
Proof.
  unfold history_turn.
  destruct (random (rng (_realm_expansion_tick (cy + step) g))) as [u rg].
  destruct (PrimFloat.ltb u 0.35).
  - destruct (random_crisis_Ok (cy + step) (set_rng rg (_realm_expansion_tick (cy + step) g)))
      as (g' & ->). by eexists _, _.
  - by eexists _, _.
Qed.

Lemma history_loop_never_raises fuel step cy g e :
  history_loop fuel step cy g ≠ Some (Raise e).
Proof.
  revert cy g. induction fuel as [|fuel IH]; intros cy g; [done|].
  rewrite history_loop_turn. destruct (cy <? years g); [|done].
  destruct (history_turn_Ok step cy g) as (cy' & g' & ->). apply IH.
Qed.

Lemma simulate_history_Ok g : exists g', _simulate_history g = Ok g'.
Proof.
  unfold _simulate_history. destruct (realms g) as [|kv rs] eqn:Hr; [by eexists|].
  rewrite <- Hr.
  match goal with
  | |- context [history_loop ?f ?s ?c ?G] =>
      pose proof (history_loop_never_raises f s c G) as Hnever;
      destruct (history_loop f s c G) as [[g1|e]|]
  end.
  - by eexists.
  - by destruct (Hnever e).
  - by eexists.
Qed.

(** The settlement stage returns when the owners of the tiles are realms
    on record. *)
Lemma pop_estimate_Ok stype g : exists n r, _pop_estimate stype g = Ok (n, set_rng r g).
Proof.
  unfold _pop_estimate.
  destruct stype;
    match goal with
    | |- context [randint ?a ?b ?r] =>
        destruct (randint_Ok a b r) as (n & r' & -> & _); [lia|]
    end; rewrite bind_Ok_l; by eexists _, _.
Qed.

Lemma place_extra_Ok rid t g c placed :
  exists g' c' placed',
    place_extra rid t g c placed = Ok (g', c', placed') ∧ realms g' = realms g.
Proof.
  unfold place_extra.
  destruct (_ || _); [by eexists _, _, _|]. destruct (_ =? 0); [by eexists _, _, _|].
  destruct (random (rng g)) as [u rg].
  destruct (_make_settlement_name _ (set_rng rg g)) as [name g1] eqn:Hn.
  apply make_settlement_name_evolves in Hn as (r1 & ->).
  match goal with
  | |- context [randint ?a ?b ?r] =>
      destruct (randint_Ok a b r) as (founded & r2 & -> & _); [lia|]
  end.
  rewrite bind_Ok_l.
  match goal with
  | |- context [_pop_estimate ?st ?G] =>
      destruct (pop_estimate_Ok st G) as (n & r3 & ->)
  end.
  rewrite bind_Ok_l. by eexists _, _, _.
Qed.

Lemma extras_loop_Ok rid extra realm_tiles :
  forall g c placed,
    exists g' c', extras_loop rid extra realm_tiles g c placed = Ok (g', c')
      ∧ realms g' = realms g.
Proof.
  induction realm_tiles as [|t rest IH]; intros g c placed; cbn [extras_loop];
    [by eexists _, _|].
  destruct (placed >=? extra); [by eexists _, _|].
  destruct (place_extra_Ok rid t g c placed) as (g1 & c1 & p1 & -> & Hr1).
  rewrite bind_Ok_l. destruct (IH g1 c1 p1) as (g' & c' & -> & Hr).
  exists g', c'. split; [done|congruence].
Qed.

Lemma settle_realm_Ok rid realm_tiles g c :
  dict_mem (realms g) rid = true ->
  exists g' c',
    settle_realm (rid, realm_tiles) (g, c) = Ok (g', c')
    ∧ forall k, dict_mem (realms g') k = dict_mem (realms g) k.
Proof.
  intros Hrid. unfold settle_realm.
  destruct realm_tiles as [|t0 ts] eqn:Hrt; [by eexists _, _|].
  rewrite <- Hrt.
  destruct (_make_settlement_name "capital" g) as [cap_name g1] eqn:Hn.
  apply make_settlement_name_evolves in Hn as (r1 & ->).
  destruct (pop_estimate_Ok city (set_rng r1 g)) as (n & r2 & ->). rewrite bind_Ok_l.
  unfold dict_mem in Hrid.
  change (realms (set_rng r2 (set_rng r1 g))) with (realms g).
  destruct (dict_get (realms g) rid) as [realm|] eqn:Hget; [|done].
  destruct (shuffle realm_tiles _) as [shuffled rg].
  match goal with
  | |- context [extras_loop ?r ?e ?l ?G ?cc ?p] =>
      destruct (extras_loop_Ok r e l G cc p) as (g' & c' & -> & Hr)
  end.
  exists g', c'. split; [done|]. intros k. unfold dict_mem at 1. rewrite Hr.
  change (realms (set_rng rg (update_tile _ _ ?G))) with (realms G).
  cbn [realms set_realms]. fold (dict_mem (dict_update (realms g) rid
    (Realm.set_capital (Some (settlement_id_of c)))) k).
  apply dict_mem_update.
Qed.

Lemma derive_settlements_Ok g :
  owners_known g -> exists g', _derive_settlements g = Ok g'.
Proof.
  intros Hknown. unfold _derive_settlements.
  destruct (for_each_Ok (fun acc : Gen * Z => forall k, dict_mem (realms (fst acc)) k
                                                        = dict_mem (realms g) k)
              (tiles_by_realm_of g) settle_realm (g, 1)) as ([g' c'] & -> & _);
    [|done|by eexists].
  intros [rid rt] [ga ca] Hin Hkeys. cbn [fst] in Hkeys.
  destruct (tiles_by_realm_entry g rid rt Hin) as (Hne & _ & ->).
  destruct (owned_by g rid) as [|t ts] eqn:Hown; [done|].
  assert (Ht : t ∈ owned_by g rid) by (rewrite Hown; left).
  apply owned_by_elem in Ht as [_ Ht].
  destruct (settle_realm_Ok rid (t :: ts) ga ca) as (g2 & c2 & H2 & Hk2).
  { rewrite Hkeys. by apply (Hknown t). }
  exists (g2, c2). split; [done|]. intros k. cbn [fst]. by rewrite Hk2.
Qed.

Lemma derive_ruins_Ok g : 5 <= years g -> exists g', _derive_ruins g = Ok g'.
Proof.
  intros Hy. unfold _derive_ruins.
  destruct (shuffle (ruin_candidates g) (rng g)) as [border_tiles rg].
  destruct (ruin_target_bound border_tiles) as (_ & Hlen & _).
  apply (ruins_loop_Ok border_tiles _ 0 (set_rng rg g)); [lia|exact Hy].
Qed.

(** X9.  [generate_region] returns a document from a fresh generator whose
    map has at most a hundred thousand tiles each way, does not have a
    single row, has room for the centres of the islands in archipelago
    mode, and covers five years or more.  The document
    echoes the inputs and holds the collections of the final state; its
    tiles are the cells of the map row by row, each with its own
    coordinates. *)
Theorem generate_region_returns (g : Gen) :
  fresh g -> map_sized g -> height g ≠ 1 ->
  (mode g = archipelago -> 1 <= width g ∧ 1 <= height g) ->
  5 <= years g ->
  exists g' doc,
    run_stages g = Ok g' ∧ generate_region g = Ok doc
    ∧ doc_schema doc = "region.v1"
    ∧ (doc_seed doc, doc_width doc, doc_height doc, doc_years doc, doc_mode doc)
      = (seed g, width g, height g, years g, mode g)
    ∧ map (fun t => (Tile.x t, Tile.y t)) (doc_tiles doc) = grid_coords (width g) (height g)
    ∧ length (doc_tiles doc) = (Z.to_nat (height g) * Z.to_nat (width g))%nat
    ∧ (doc_tiles doc, doc_realms doc, doc_settlements doc)
      = (tiles g', dict_values (realms g'), dict_values (settlements g'))
    ∧ (doc_roads doc, doc_ruins doc, doc_events doc) = (roads g', ruins g', events g')
    ∧ (doc_color_rows doc, doc_color_legend doc) = _build_color_map g'.
Proof.
  intros Hfresh _ Hh Harch Hy.
  destruct (generate_base_tiles_Ok g Hh Harch) as (g1 & B1).
  destruct (spawn_Ok g1) as (g2 & B2).
  destruct (simulate_history_Ok g2) as (g3 & B3).
  assert (K1 : owners_known g1).
  { intros i rid Hi. destruct Hfresh as [Hnil _].
    by rewrite (grid_stage_unowned g g1 i Hnil B1) in Hi. }
  pose proof (reigns_owners _ _ (spawn_reigns _ _ B2) K1) as K2.
  destruct (simulate_history_reigns _ _ B3) as [W3 _].
  pose proof (reigns_owners _ _ W3 K2) as K3.
  destruct (derive_settlements_Ok g3 K3) as (g4 & B4).
  assert (C4 : config g4 = config g).
  { destruct Hfresh as [Hnil _].
    destruct (generate_base_tiles_spec g g1 Hnil B1) as (C1 & _).
    pose proof (evolves_config _ _ (spawn_evolves _ _ B2)) as C2.
    pose proof (evolves_config _ _ (simulate_history_evolves _ _ B3)) as C3.
    destruct (settles_frame _ _ (derive_settlements_settles _ _ B4)) as [_ C4].
    congruence. }
  destruct (derive_ruins_Ok (_derive_roads g4)) as (g' & B6).
  { change (years (_derive_roads g4)) with (years g4). by rewrite (config_years _ _ C4). }
  assert (Hrun : run_stages g = Ok g').
  { unfold run_stages. rewrite B1, bind_Ok_l, B2, bind_Ok_l, B3, bind_Ok_l, B4, bind_Ok_l.
    exact B6. }
  pose proof (run_stages_facts g g' Hfresh Hrun) as F.
  pose proof (rf_config _ _ F) as Hc. pose proof (rf_grid _ _ F) as Hgrid.
  unfold config in Hc. injection Hc as Hw Hh' Hyr Hsl Hmd Hsd.
  exists g'. eexists. split; [exact Hrun|].
  split; [unfold generate_region; rewrite Hrun, bind_Ok_l; reflexivity|].
  cbn [doc_schema doc_seed doc_width doc_height doc_years doc_mode doc_tiles doc_realms
       doc_settlements doc_roads doc_ruins doc_events doc_color_rows doc_color_legend
       _build_color_map].
  split; [done|]. split; [congruence|].
  split; [unfold grid_ok in Hgrid; congruence|].
  split; [rewrite (grid_ok_length g' Hgrid); congruence|]. done.
Qed.

Lemma generate_region_returns_witness :
  fresh vale ∧ map_sized vale ∧ height vale ≠ 1
  ∧ (mode vale = archipelago -> 1 <= width vale ∧ 1 <= height vale)
  ∧ 5 <= years vale
  ∧ exists g' doc,
      run_stages vale = Ok g' ∧ generate_region vale = Ok doc
      ∧ doc_schema doc = "region.v1"
      ∧ (doc_seed doc, doc_width doc, doc_height doc, doc_years doc, doc_mode doc)
        = (seed vale, width vale, height vale, years vale, mode vale)
      ∧ map (fun t => (Tile.x t, Tile.y t)) (doc_tiles doc)
        = grid_coords (width vale) (height vale)
      ∧ length (doc_tiles doc) = (Z.to_nat (height vale) * Z.to_nat (width vale))%nat
      ∧ (doc_tiles doc, doc_realms doc, doc_settlements doc)
        = (tiles g', dict_values (realms g'), dict_values (settlements g'))
      ∧ (doc_roads doc, doc_ruins doc, doc_events doc) = (roads g', ruins g', events g')
      ∧ (doc_color_rows doc, doc_color_legend doc) = _build_color_map g'.
Proof.
  assert (H1 : height vale ≠ 1) by (by vm_compute).
  assert (H2 : mode vale = archipelago -> 1 <= width vale ∧ 1 <= height vale)
    by (intros H; discriminate H).
  assert (H3 : 5 <= years vale) by (by vm_compute).
  assert (Hs : map_sized vale) by (unfold map_sized, vale; cbn; lia).
  split; [exact vale_fresh|]. split; [exact Hs|].
  split; [exact H1|]. split; [exact H2|]. split; [exact H3|].
  exact (generate_region_returns vale vale_fresh Hs H1 H2 H3).
Defined.


(** ** The colour map *)

Lemma pos_eqb_eq a b : pos_eqb a b = true <-> a = b.
Proof.
  unfold pos_eqb. destruct a as [a1 a2], b as [b1 b2]. cbn.
  rewrite andb_true_iff, !Z.eqb_eq. split; [by intros [-> ->]|by intros [= -> ->]].
Qed.

Lemma last_elem {A} (l : list A) (a : A) : last l = Some a -> a ∈ l.
Proof.
  intros H. destruct (last_Some l a) as [Hl _]. destruct (Hl H) as [l' ->].
  apply elem_of_app. right. left.
Qed.

Lemma biome_color_legend b : b ≠ ocean -> biome_color b ∈ dict_keys color_legend.
Proof.
  unfold color_legend, dict_keys. cbn [map fst].
  destruct b; intros Hb; try done; cbn [biome_color]; repeat constructor.
Qed.

(** X10.  The colour map of a run from a fresh generator: one row for each
    row of the map and one colour for each cell, every colour a key of the
    legend.  A cell with a ruin has the colour of ruins; a cell with a
    settlement has the colour of the settlement's type, so every settlement
    shows on the map; any other cell has the colour of its tile: deep or
    shallow ocean for water, the river colour for a river on land, else the
    colour of the biome. *)
Theorem color_map_of_a_run (g g' : Gen) (rows : list (list string))
    (legend : list (string * string)) :
  fresh g -> run_stages g = Ok g' -> _build_color_map g' = (rows, legend) ->
  legend = color_legend
  ∧ length rows = Z.to_nat (height g)
  ∧ (forall row, row ∈ rows -> length row = Z.to_nat (width g))
  ∧ forall x y, 0 <= x < width g -> 0 <= y < height g ->
      exists row c,
        rows !! Z.to_nat y = Some row ∧ row !! Z.to_nat x = Some c
        ∧ c = tile_color g' x y
        ∧ c ∈ dict_keys legend
        ∧ (forall r, r ∈ ruins g' -> Ruin.tile r = (x, y) -> c = "#cc6666")
        ∧ (forall s, s ∈ dict_values (settlements g') -> Settlement.tile s = (x, y) ->
             c = match Settlement.type s with
                 | city => "#ffcc00"
                 | town => "#ffd966"
                 | fort => "#ff9900"
                 end)
        ∧ ((forall r, r ∈ ruins g' -> Ruin.tile r ≠ (x, y)) ->
           (forall s, s ∈ dict_values (settlements g') -> Settlement.tile s ≠ (x, y)) ->
           exists i,
             (i < length (tiles g'))%nat ∧ coords g' i = (x, y)
             ∧ c = if Tile.water (tile_at g' i) then
                     if PrimFloat.ltb (Tile.elevation (tile_at g' i))
                          (PrimFloat.mul (base_sea_level g) 0.6)
                     then "#1b3b6f" else "#3465a4"
                   else if Tile.river (tile_at g' i) then "#3f8dd9"
                   else biome_color (Tile.biome (tile_at g' i))).
Proof.
  intros Hfresh Hrun Hmap. pose proof (run_stages_facts g g' Hfresh Hrun) as F.
  pose proof (rf_config _ _ F) as Hc. pose proof (rf_grid _ _ F) as Hgrid.
  assert (Hcfg : width g' = width g ∧ height g' = height g ∧ base_sea_level g' = base_sea_level g)
    by (unfold config in Hc; injection Hc as ? ? ? ? ? ?; by repeat split).
  destruct Hcfg as (Hw & Hh & Hsl).
  unfold _build_color_map in Hmap. injection Hmap as <- <-. rewrite Hw, Hh.
  split; [done|]. split; [by rewrite length_map, length_seqZ|]. split.
  { intros row Hrow. apply list_elem_of_fmap in Hrow as (y & -> & _).
    by rewrite length_map, length_seqZ. }
  intros x y Hx Hy.
  exists (map (fun x => tile_color g' x y) (seqZ 0 (width g))), (tile_color g' x y).
  split.
  { rewrite list_lookup_fmap.
    rewrite (proj2 (lookup_seqZ 0 (height g) (Z.to_nat y) y)) by lia. done. }
  split.
  { rewrite list_lookup_fmap.
    rewrite (proj2 (lookup_seqZ 0 (width g) (Z.to_nat x) x)) by lia. done. }
  split; [done|].
  (* the tile of the cell *)
  destruct (grid_ok_tile_at g' x y Hgrid) as (Hlt & Htx & Hty); [lia..|].
  set (i := Z.to_nat (_idx g' x y)) in *.
  (* a ruin never stands on the tile of a settlement *)
  assert (Hsettled : forall s, s ∈ dict_values (settlements g') -> Settlement.tile s = (x, y) ->
            Tile.settlement_id (tile_at g' i) = Some (Settlement.id s)).
  { intros s Hs Htile. apply list_elem_of_fmap in Hs as ([sid s'] & -> & Hin).
    destruct (run_settlement g g' sid s' F Hin) as (_ & _ & (j & Hj & Hjt & _ & Hm & _)).
    cbn [snd] in *. rewrite Htile in Hjt. unfold coords in Hjt. injection Hjt as Hjx Hjy.
    destruct (grid_ok_coords g' j Hgrid Hj) as (_ & _ & Hidx).
    rewrite <- Hjx, <- Hjy in Hidx. fold i in Hidx. by subst j. }
  assert (Hfree : forall s, s ∈ dict_values (settlements g') -> Settlement.tile s = (x, y) ->
            existsb (fun r => pos_eqb (Ruin.tile r) (x, y)) (ruins g') = false).
  { intros s Hs Htile. destruct (existsb _ (ruins g')) eqn:Hex; [|done].
    apply existsb_exists in Hex as (r & Hr & Hpos). apply pos_eqb_eq in Hpos.
    apply list_elem_of_In in Hr.
    destruct (rf_ruins _ _ F r Hr) as (j & Hj & Hjt).
    apply ruin_candidates_elem in Hj as (Hjlt & _ & _ & Hnone).
    rewrite Hpos in Hjt. unfold coords in Hjt. injection Hjt as Hjx Hjy.
    destruct (grid_ok_coords g' j Hgrid Hjlt) as (_ & _ & Hidx).
    rewrite <- Hjx, <- Hjy in Hidx. fold i in Hidx. subst j.
    rewrite (Hsettled s Hs Htile) in Hnone. cbn in Hnone.
    apply list_elem_of_fmap in Hs as ([sid s'] & -> & Hin).
    destruct (run_settlement g g' sid s' F Hin) as (Hid & _). cbn [snd] in *.
    destruct (rf_settled _ _ F) as [Hk _].
    assert (Hkey : sid ∈ dict_keys (settlements g')).
    { apply list_elem_of_fmap. by exists (sid, s'). }
    rewrite Hk in Hkey. apply list_elem_of_fmap in Hkey as (k & -> & _).
    rewrite Hid in Hnone. done. }
  assert (Hat : forall s, s ∈ dict_values (settlements g') -> Settlement.tile s = (x, y) ->
            settlement_at (settlements g') (x, y) = Some s).
  { intros s Hs Htile. unfold settlement_at.
    destruct (last (filter _ (dict_values (settlements g')))) as [s'|] eqn:Hlast.
    - apply last_elem in Hlast. apply list_elem_of_filter in Hlast as [Hpos Hs'].
      apply pos_eqb_eq in Hpos.
      pose proof (Hsettled s Hs Htile) as H1. pose proof (Hsettled s' Hs' Hpos) as H2.
      rewrite H1 in H2. injection H2 as Hid.
      pose proof (run_settlements_keyed g g' F) as Hkeyed.
      pose proof (keyed_get_value Settlement.id _ s Hkeyed Hs) as G1.
      pose proof (keyed_get_value Settlement.id _ s' Hkeyed Hs') as G2.
      rewrite Hid in G1. congruence.
    - apply last_None in Hlast.
      assert (Hin : s ∈ filter (fun s0 => pos_eqb (Settlement.tile s0) (x, y) = true)
                        (dict_values (settlements g'))).
      { apply list_elem_of_filter. split; [by apply pos_eqb_eq|done]. }
      rewrite Hlast in Hin. by apply elem_of_nil in Hin. }
  split.
  { unfold tile_color. fold i.
    destruct (existsb _ (ruins g')); [unfold color_legend, dict_keys; cbn; repeat constructor|].
    destruct (settlement_at (settlements g') (x, y)) as [st|].
    { destruct (Settlement.type st); unfold color_legend, dict_keys; cbn; repeat constructor. }
    destruct (Tile.water (tile_at g' i)) eqn:Hwater.
    { destruct (PrimFloat.ltb _ _); unfold color_legend, dict_keys; cbn; repeat constructor. }
    destruct (Tile.river (tile_at g' i)); [unfold color_legend, dict_keys; cbn; repeat constructor|].
    apply biome_color_legend. intros Hb.
    destruct (rf_ocean _ _ F i) as [_ Hocean]. rewrite (Hocean Hb) in Hwater. done. }
  split.
  { intros r Hr Htile. unfold tile_color.
    assert (Hex : existsb (fun r => pos_eqb (Ruin.tile r) (x, y)) (ruins g') = true).
    { apply existsb_exists. exists r. split; [by apply list_elem_of_In|by apply pos_eqb_eq]. }
    by rewrite Hex. }
  split.
  { intros s Hs Htile. unfold tile_color.
    by rewrite (Hfree s Hs Htile), (Hat s Hs Htile). }
  intros Hnoruin Hnosettlement. exists i. split; [exact Hlt|].
  split; [unfold coords; by rewrite Htx, Hty|].
  unfold tile_color. fold i. rewrite Hsl.
  destruct (existsb _ (ruins g')) eqn:Hex.
  { apply existsb_exists in Hex as (r & Hr & Hpos). apply pos_eqb_eq in Hpos.
    apply list_elem_of_In in Hr. by destruct (Hnoruin r Hr). }
  unfold settlement_at.
  destruct (last (filter _ (dict_values (settlements g')))) as [s'|] eqn:Hlast; [|done].
  apply last_elem in Hlast. apply list_elem_of_filter in Hlast as [Hpos Hs'].
  apply pos_eqb_eq in Hpos. by destruct (Hnosettlement s' Hs').
Qed.

Definition vale_colors : list (list string) * list (string * string) :=
  Eval vm_compute in _build_color_map vale_final.

Lemma vale_colors_built : _build_color_map vale_final = vale_colors.
Proof. vm_compute. reflexivity. Qed.

Lemma color_map_of_a_run_witness :
  fresh vale ∧ run_stages vale = Ok vale_final
  ∧ _build_color_map vale_final = (fst vale_colors, snd vale_colors)
  ∧ let rows := fst vale_colors in
    let legend := snd vale_colors in
    legend = color_legend
    ∧ length rows = Z.to_nat (height vale)
    ∧ (forall row, row ∈ rows -> length row = Z.to_nat (width vale))
    ∧ forall x y, 0 <= x < width vale -> 0 <= y < height vale ->
        exists row c,
          rows !! Z.to_nat y = Some row ∧ row !! Z.to_nat x = Some c
          ∧ c = tile_color vale_final x y
          ∧ c ∈ dict_keys legend
          ∧ (forall r, r ∈ ruins vale_final -> Ruin.tile r = (x, y) -> c = "#cc6666")
          ∧ (forall s, s ∈ dict_values (settlements vale_final) -> Settlement.tile s = (x, y) ->
               c = match Settlement.type s with
                   | city => "#ffcc00"
                   | town => "#ffd966"
                   | fort => "#ff9900"
                   end)
          ∧ ((forall r, r ∈ ruins vale_final -> Ruin.tile r ≠ (x, y)) ->
             (forall s, s ∈ dict_values (settlements vale_final) -> Settlement.tile s ≠ (x, y)) ->
             exists i,
               (i < length (tiles vale_final))%nat ∧ coords vale_final i = (x, y)
               ∧ c = if Tile.water (tile_at vale_final i) then
                       if PrimFloat.ltb (Tile.elevation (tile_at vale_final i))
                            (PrimFloat.mul (base_sea_level vale) 0.6)
                       then "#1b3b6f" else "#3465a4"
                     else if Tile.river (tile_at vale_final i) then "#3f8dd9"
                     else biome_color (Tile.biome (tile_at vale_final i))).
Proof.
  split; [exact vale_fresh|]. split; [exact vale_run|].
  split; [exact vale_colors_built|].
  exact (color_map_of_a_run vale vale_final (fst vale_colors) (snd vale_colors)
           vale_fresh vale_run vale_colors_built).
Defined.


(** ** Rivers *)

(** The walks of [_carve_rivers] from the tiles [starts], one after the
    other: the tiles they mark are land, eighty at most for each walk. *)
Lemma river_walks_mark (starts : list nat) :
  forall g,
    grid_ok g ->
    (forall s, s ∈ starts -> (s < length (tiles g))%nat ∧ Tile.water (tile_at g s) = false) ->
    let g' := fold_left
                (fun g start =>
                   fst (river_walk 80 (Tile.x (tile_at g start)) (Tile.y (tile_at g start)) g))
                starts g in
    exists marked : list nat,
      (length marked <= 80 * length starts)%nat
      ∧ (forall i, i ∈ marked ->
           (i < length (tiles g))%nat ∧ Tile.water (tile_at g i) = false)
      ∧ forall i, Tile.river (tile_at g' i)
                  = if bool_decide (i ∈ marked) then true else Tile.river (tile_at g i).
Proof.
  induction starts as [|s starts IH]; intros g Hok Hstarts; cbn [fold_left].
  { exists []. split; [cbn; lia|]. split; [intros i Hi; by apply elem_of_nil in Hi|].
    intros i. by rewrite bool_decide_eq_false_2 by (apply not_elem_of_nil). }
  destruct (Hstarts s) as [Hlt Hland]; [left|].
  destruct (grid_ok_coords g s Hok Hlt) as (Hx & Hy & Hidx).
  destruct (river_walk 80 (Tile.x (tile_at g s)) (Tile.y (tile_at g s)) g) as [g1 e] eqn:Hw.
  cbn [fst].
  destruct (river_walk_marks 80 _ _ g g1 e Hok (conj Hx Hy)) as (m1 & Hlen1 & _ & Hland1 & Hriv1 & _);
    [by rewrite <- Hidx|exact Hw|].
  apply river_walk_rel in Hw as [Hrel Hc].
  assert (Hok1 : grid_ok g1) by (eapply grid_ok_rel; eauto using river_added_coords).
  assert (Hterr : forall i, terrain (tile_at g1 i) = terrain (tile_at g i)).
  { intros i. by apply (tiles_rel_at_all river_added g g1 i river_added_refl). }
  assert (Hl1 : length (tiles g1) = length (tiles g)) by (by eapply tiles_rel_length).
  destruct (IH g1 Hok1) as (m2 & Hlen2 & Hland2 & Hriv2).
  { intros s' Hs'. destruct (Hstarts s') as [Hlt' Hland']; [by right|].
    rewrite Hl1, (terrain_water _ _ (Hterr s')). done. }
  exists (m1 ++ m2). split; [rewrite length_app; cbn [length]; lia|]. split.
  - intros i Hi. apply elem_of_app in Hi as [Hi|Hi]; [by apply Hland1|].
    destruct (Hland2 i Hi) as [Hlt2 Hw2]. rewrite Hl1 in Hlt2.
    by rewrite (terrain_water _ _ (Hterr i)) in Hw2.
  - intros i. rewrite Hriv2, Hriv1.
    destruct (decide (i ∈ m2)) as [H2|H2].
    + rewrite (bool_decide_eq_true_2 (i ∈ m2)) by done.
      by rewrite bool_decide_eq_true_2 by (apply elem_of_app; by right).
    + rewrite (bool_decide_eq_false_2 (i ∈ m2)) by done.
      destruct (decide (i ∈ m1)) as [H1|H1].
      * rewrite (bool_decide_eq_true_2 (i ∈ m1)) by done.
        by rewrite bool_decide_eq_true_2 by (apply elem_of_app; by left).
      * rewrite (bool_decide_eq_false_2 (i ∈ m1)) by done.
        rewrite bool_decide_eq_false_2; [done|].
        intros Hi. apply elem_of_app in Hi as [?|?]; done.
Qed.

Lemma river_sources_elem g i :
  i ∈ river_sources g ->
  (i < length (tiles g))%nat ∧ Tile.water (tile_at g i) = false
  ∧ PrimFloat.ltb 0.6 (Tile.elevation (tile_at g i)) = true.
Proof.
  unfold river_sources. intros H. apply list_elem_of_filter in H as [[Hw He] H].
  apply elem_of_seq in H. split; [lia|done].
Qed.

Lemma carve_rivers_marks count g :
  grid_ok g ->
  exists marked : list nat,
    (length marked <= 80 * Z.to_nat count)%nat
    ∧ (river_sources g = [] -> marked = [])
    ∧ (forall i, i ∈ marked ->
         (i < length (tiles g))%nat ∧ Tile.water (tile_at g i) = false)
    ∧ forall i, Tile.river (tile_at (_carve_rivers count g) i)
                = if bool_decide (i ∈ marked) then true else Tile.river (tile_at g i).
Proof.
  intros Hok. unfold _carve_rivers.
  destruct (river_sources g) as [|s0 ss] eqn:Hsrc.
  { exists []. split; [cbn; lia|]. split; [done|].
    split; [intros i Hi; by apply elem_of_nil in Hi|].
    intros i. by rewrite bool_decide_eq_false_2 by (apply not_elem_of_nil). }
  destruct (shuffle (s0 :: ss) (rng g)) as [land_tiles rg] eqn:Hsh.
  destruct (river_walks_mark (take (Z.to_nat count) land_tiles) (set_rng rg g))
    as (marked & Hlen & Hland & Hriv); [exact Hok| |].
  { intros s Hs. apply subseteq_take in Hs. apply (shuffle_elem _ _ _ _ s Hsh) in Hs.
    rewrite <- Hsrc in Hs. by apply river_sources_elem in Hs as (? & ? & _). }
  exists marked. split.
  { rewrite length_take in Hlen. lia. }
  split; [done|]. split; [exact Hland|exact Hriv].
Qed.

(** After the grid stage a river runs on land only, and there are at most
    [80 * max(4, width * height // 700)] river tiles. *)
Lemma grid_stage_rivers g g1 :
  tiles g = [] -> _generate_base_tiles g = Ok g1 ->
  exists marked : list nat,
    (length marked <= 80 * Z.to_nat (Z.max 4 (width g * height g / 700)))%nat
    ∧ forall i, Tile.river (tile_at g1 i) = true ->
        i ∈ marked ∧ (i < length (tiles g1))%nat ∧ Tile.water (tile_at g1 i) = false.
Proof.
  intros Hnil H. unfold _generate_base_tiles in H.
  apply bind_Ok in H as (g2 & H2 & H). injection H as <-.
  assert (Hg2 : config g2 = config g ∧ grid_ok g2 ∧ forall i, Tile.river (tile_at g2 i) = false).
  { assert (Hb : exists g0,
              config g0 = config g
              ∧ Forall2 (fresh_tile (base_sea_level g)) (grid_coords (width g) (height g))
                  (tiles g0)
              ∧ tiles_rel kept_or_drowned g0 g2 ∧ config g2 = config g0).
    { pose proof (grid_built g) as Hb. destruct (mode g).
      - apply bind_Ok in H2 as (g0 & H0 & H2). injection H2 as <-.
        destruct (Hb g0 Hnil H0) as (Hc & _ & Hts). exists g0.
        destruct (enforce_rel g0) as (Hr & Hc2 & _). done.
      - destruct (Hb g2 Hnil H2) as (Hc & _ & Hts). exists g2.
        repeat split; try done. apply tiles_rel_refl. by left. }
    destruct Hb as (g0 & Hc0 & Hts & Hrel & Hc2).
    assert (Hok0 : grid_ok g0).
    { unfold grid_ok. rewrite (fresh_tiles_coords _ _ _ Hts).
      unfold config in Hc0. injection Hc0 as -> -> _ _ _ _. done. }
    split; [congruence|]. split.
    { eapply grid_ok_rel; eauto using kept_or_drowned_coords. }
    intros i. destruct (decide (i < length (tiles g0))%nat) as [Hlt|Hge].
    - pose proof (tiles_rel_at _ _ _ i Hrel Hlt) as Hk.
      destruct (lookup_lt_is_Some_2 _ _ Hlt) as [t Ht].
      destruct (Forall2_lookup_r _ _ _ _ _ Hts Ht) as (c & _ & (e & m & Hfresh)).
      unfold tile_at in Hk at 1. rewrite (list_lookup_total_correct _ _ _ Ht) in Hk.
      destruct Hk as [-> | ->]; by rewrite Hfresh.
    - rewrite tile_at_out_of_range; [done|].
      rewrite (tiles_rel_length _ _ _ Hrel). lia. }
  destruct Hg2 as (Hc2 & Hok2 & Hdry).
  destruct (carve_rivers_marks (Z.max 4 (width g2 * height g2 / 700)) g2 Hok2)
    as (marked & Hlen & _ & Hland & Hriv).
  destruct (carve_rivers_rel (Z.max 4 (width g2 * height g2 / 700)) g2) as (Hrel & _).
  exists marked. split.
  { unfold config in Hc2. injection Hc2 as Hw Hh _ _ _ _. by rewrite Hw, Hh in Hlen. }
  intros i Hi. rewrite Hriv, Hdry in Hi.
  destruct (decide (i ∈ marked)) as [Hm|Hm]; [|by rewrite bool_decide_eq_false_2 in Hi].
  destruct (Hland i Hm) as [Hlt Hw]. split; [exact Hm|].
  rewrite (tiles_rel_length _ _ _ Hrel). split; [exact Hlt|].
  pose proof (tiles_rel_at_all river_added _ _ i river_added_refl Hrel) as (Hterr & _).
  by rewrite (terrain_water _ _ Hterr).
Qed.

Lemma count_le_marked (P : nat -> Prop) `{!forall i, Decision (P i)} (n : nat)
    (marked : list nat) :
  (forall i, P i -> i ∈ marked) ->
  (length (filter P (seq 0 n)) <= length marked)%nat.
Proof.
  intros Hin. apply submseteq_length, NoDup_submseteq.
  - apply NoDup_filter, NoDup_seq.
  - intros i Hi. apply list_elem_of_filter in Hi as [Hi _]. by apply Hin.
Qed.

(** X11.  The rivers of a run from a fresh generator: a tile marked as
    river is a tile of land, and there are at most
    [80 * max(4, width * height // 700)] of them. *)
Theorem rivers_of_a_run (g g' : Gen) :
  fresh g -> run_stages g = Ok g' ->
  (forall i, Tile.river (tile_at g' i) = true ->
     (i < length (tiles g'))%nat ∧ Tile.water (tile_at g' i) = false
     ∧ Tile.biome (tile_at g' i) ≠ ocean)
  ∧ Z.of_nat (length (filter (fun t => Tile.river t = true) (tiles g')))
    <= 80 * Z.max 4 (width g * height g / 700).
Proof.
  intros Hfresh Hrun.
  pose proof (run_stages_facts g g' Hfresh Hrun) as F.
  destruct (run_stages_staged g g' Hfresh Hrun) as (g1 & g2 & g3 & g4 & St).
  assert (Hkept : tiles_rel land_kept g1 g').
  { apply (staged_terrain g g1 g2 g3 g4 g' g' St). do 5 right. left. }
  destruct Hfresh as [Hnil _].
  destruct (grid_stage_rivers g g1 Hnil (st_base _ _ _ _ _ _ St)) as (marked & Hlen & Hriv).
  assert (Hsame : forall i, Tile.river (tile_at g' i) = Tile.river (tile_at g1 i)
                            ∧ Tile.water (tile_at g' i) = Tile.water (tile_at g1 i)).
  { intros i. destruct (tiles_rel_at_all land_kept g1 g' i land_kept_refl Hkept) as [Ht Hr].
    split; [exact Hr|]. by rewrite (terrain_water _ _ Ht). }
  assert (Hl : length (tiles g') = length (tiles g1)) by (by eapply tiles_rel_length).
  split.
  - intros i Hi. destruct (Hsame i) as [Hr Hw]. rewrite Hr in Hi.
    destruct (Hriv i Hi) as (_ & Hlt & Hland). rewrite Hl, Hw.
    split; [exact Hlt|]. split; [exact Hland|].
    intros Hb. destruct (rf_ocean _ _ F i) as [_ Hocean].
    rewrite Hw in Hocean. rewrite (Hocean Hb) in Hland. done.
  - rewrite <- (filter_indices_length (fun t => Tile.river t = true) (tiles g') [] (tiles g'))
      by done.
    cbn [length].
    pose proof (count_le_marked (fun i => Tile.river (tiles g' !!! i) = true)
                  (length (tiles g')) marked) as Hcount.
    assert (Hin : forall i, Tile.river (tiles g' !!! i) = true -> i ∈ marked).
    { intros i Hi. change (tiles g' !!! i) with (tile_at g' i) in Hi.
      destruct (Hsame i) as [Hr _]. rewrite Hr in Hi. by destruct (Hriv i Hi). }
    specialize (Hcount Hin). lia.
Qed.

Lemma rivers_of_a_run_witness :
  fresh vale ∧ run_stages vale = Ok vale_final
  ∧ (forall i, Tile.river (tile_at vale_final i) = true ->
       (i < length (tiles vale_final))%nat ∧ Tile.water (tile_at vale_final i) = false
       ∧ Tile.biome (tile_at vale_final i) ≠ ocean)
  ∧ Z.of_nat (length (filter (fun t => Tile.river t = true) (tiles vale_final)))
    <= 80 * Z.max 4 (width vale * height vale / 700).
Proof.
  split; [exact vale_fresh|]. split; [exact vale_run|].
  exact (rivers_of_a_run vale vale_final vale_fresh vale_run).
Defined.


(** ** The events on record *)

(** The id of an event of type [t] for the realm [rid] in the year [y]. *)
Definition event_id_of (t : EventType) (rid : string) (y : Z) : string :=
  match t with
  | EMPIRE_PEAK => "event_empire_" +:+ rid +:+ "_" +:+ str_of_Z y
  | _ => "event_" +:+ event_type_str t +:+ "_" +:+ rid +:+ "_" +:+ str_of_Z y
  end.

(** An event as the history logs it in the year [y], for one realm that is
    on record in [g]. *)
Definition logged (y : Z) (g : Gen) (e : Event.t) : Prop :=
  Event.year e = y
  ∧ exists rid,
      dict_mem (realms g) rid = true ∧ Event.realm_ids e = [rid]
      ∧ Event.settlement_id e = None
      ∧ Event.id e = event_id_of (Event.type e) rid y.

(** The updates of one turn of the history, the turn of the year [y], as
    far as events go: an event is appended, or the events stay and no realm
    leaves the record. *)
Inductive annal_step (y : Z) : Gen -> Gen -> Prop :=
| an_keep g g' :
    events g' = events g ->
    (forall k, dict_mem (realms g) k = true -> dict_mem (realms g') k = true) ->
    annal_step y g g'
| an_log g e :
    logged y g e -> annal_step y g (set_events (events g ++ [e]) g).

Abbreviation annals y := (runs (annal_step y)).

Lemma annals_keep y g g' :
  events g' = events g ->
  (forall k, dict_mem (realms g) k = true -> dict_mem (realms g') k = true) ->
  annals y g g'.
Proof. intros H1 H2. by apply runs_one, an_keep. Qed.

Lemma logged_mono y a b e :
  (forall k, dict_mem (realms a) k = true -> dict_mem (realms b) k = true) ->
  logged y a e -> logged y b e.
Proof.
  intros Hab (Hy & rid & Hrid & Hrest). split; [exact Hy|]. exists rid.
  split; [by apply Hab|exact Hrest].
Qed.

(** What a run of these updates leaves: the events of before, followed by
    events logged in the year [y]. *)
Definition annals_of (y : Z) (a b : Gen) : Prop :=
  (forall k, dict_mem (realms a) k = true -> dict_mem (realms b) k = true)
  ∧ exists new, events b = events a ++ new ∧ Forall (logged y b) new.

Lemma annals_spec y a b : annals y a b -> annals_of y a b.
Proof.
  apply (runs_rel (annal_step y) (annals_of y)).
  - intros g. split; [done|]. exists []. by rewrite app_nil_r.
  - intros g1 g2 g3 (Hk & new & Hnew & Hall) Hs.
    destruct Hs as [g g' He Hk'|g e Hlog].
    + split; [intros k Hk1; by apply Hk', Hk|]. exists new. split; [congruence|].
      eapply Forall_impl; [exact Hall|]. intros e. by apply logged_mono.
    + split; [exact Hk|]. exists (new ++ [e]). cbn [events set_events].
      split; [by rewrite Hnew, app_assoc|].
      apply Forall_app. split; [exact Hall|]. by constructor.
Qed.

Lemma realm_pass_annals year tbr g entry : annals year g (realm_pass year tbr g entry).
Proof.
  destruct entry as [rid l]. unfold realm_pass.
  destruct (dict_get (realms g) rid) as [realm|] eqn:Hget; [|apply runs_refl].
  destruct (shuffle l (rng g)) as [shuffled rg].
  destruct (expand_loop_collections rid (Z.of_nat (length l)) (Z.max 1 (Z.of_nat (length l) / 12))
              tbr shuffled (set_rng rg g) 0 0) as [Hc _].
  destruct (expand_loop _ _ _ _ _ _ _ _) as [[g1 grown] attempts]. cbn [fst] in Hc.
  unfold collections in Hc. injection Hc as Hr _ He _ _.
  cbn [realms events set_rng] in Hr, He.
  eapply runs_trans; [apply (annals_keep year g g1); [done|by rewrite Hr]|].
  unfold empire_peak_check. destruct (_ && _); [|apply runs_refl].
  match goal with
  | |- runs _ _ (set_events (_ ++ [?e]) ?G) => apply (runs_step _ _ G); [|apply (an_log year G e)]
  end.
  - apply annals_keep; [done|]. intros k Hk. cbn [realms set_realms].
    by rewrite dict_mem_update.
  - split; [done|]. exists rid. split; [|done]. cbn [realms set_realms].
    rewrite dict_mem_update. unfold dict_mem. by rewrite Hr, Hget.
Qed.

Lemma expansion_tick_annals year g : annals year g (_realm_expansion_tick year g).
Proof.
  unfold _realm_expansion_tick. apply fold_left_runs. intros a g1 _.
  apply realm_pass_annals.
Qed.

Lemma crisis_event_logged ct rid year summary g :
  ct ≠ EMPIRE_PEAK -> dict_mem (realms g) rid = true ->
  logged year g (crisis_event ct rid year summary).
Proof.
  intros Hct Hrid. split; [done|]. exists rid. split; [exact Hrid|].
  split; [done|]. split; [done|]. cbn. by destruct ct.
Qed.

Lemma crisis_shrink_annals ct rid realm tiles year g g' :
  ct ≠ EMPIRE_PEAK -> dict_mem (realms g) rid = true ->
  crisis_shrink ct rid realm tiles year g = Ok g' -> annals year g g'.
Proof.
  unfold crisis_shrink. intros Hct Hrid H.
  destruct (filter _ tiles) as [|b bs]; [injection H as <-; apply runs_refl|].
  destruct (shuffle (b :: bs) (rng g)) as [border_tiles rg].
  apply bind_Ok in H as ([d rg1] & _ & H). cbv zeta in H. injection H as <-.
  match goal with
  | |- runs _ _ (set_events (_ ++ [?e]) ?G) => apply (runs_step _ _ G); [|apply (an_log year G e)]
  end.
  - apply annals_keep; [by rewrite set_owner_all_events|].
    intros k Hk. by rewrite set_owner_all_realms.
  - apply crisis_event_logged; [done|]. by rewrite set_owner_all_realms.
Qed.

Lemma crisis_split_annals ct rid realm tiles year g g' :
  ct ≠ EMPIRE_PEAK -> dict_mem (realms g) rid = true ->
  crisis_split ct rid realm tiles year g = Ok g' -> annals year g g'.
Proof.
  unfold crisis_split. intros Hct Hrid H.
  destruct (_ || _); [injection H as <-; apply runs_refl|].
  apply bind_Ok in H as ([name g1] & H1 & H).
  apply make_realm_name_spec in H1 as (_ & r1 & ->).
  apply bind_Ok in H as ([color g2] & H2 & H).
  apply random_color_spec in H2 as (_ & r2 & ->).
  destruct (shuffle tiles _) as [shuffled rg] eqn:Hsh.
  injection H as <-.
  match goal with
  | |- runs _ _ (set_events (_ ++ [?e]) ?G) => apply (runs_step _ _ G); [|apply (an_log year G e)]
  end.
  - apply annals_keep; [by rewrite set_owner_all_events|].
    intros k Hk. rewrite set_owner_all_realms. cbn [realms set_realms set_rng].
    by apply dict_mem_set.
  - apply crisis_event_logged; [done|]. rewrite set_owner_all_realms.
    cbn [realms set_realms set_rng]. by apply dict_mem_set.
Qed.

Lemma random_crisis_annals year g g' :
  _random_crisis year g = Ok g' -> annals year g g'.
Proof.
  unfold _random_crisis. intros H.
  destruct (filter _ (dict_keys (realms g))) as [|rid0 rids]; [injection H as <-; apply runs_refl|].
  apply bind_Ok in H as ([rid rg] & _ & H).
  destruct (dict_get (realms (set_rng rg g)) rid) as [realm|] eqn:Hget; [|done].
  destruct (owned_by (set_rng rg g) rid) as [|t0 ts] eqn:Hown;
    [injection H as <-; by apply annals_keep|].
  apply bind_Ok in H as ([crisis_type rg2] & Hct & H). apply choice_Ok in Hct.
  assert (Hne : crisis_type ≠ EMPIRE_PEAK).
  { intros ->. unfold crisis_types in Hct.
    repeat (apply elem_of_cons in Hct as [Hct|Hct]; [done|]). by apply elem_of_nil in Hct. }
  eapply runs_trans; [by apply (annals_keep year g (set_rng rg2 (set_rng rg g)))|].
  assert (Hrid : dict_mem (realms (set_rng rg2 (set_rng rg g))) rid = true).
  { unfold dict_mem. cbn [realms set_rng] in Hget |- *. by rewrite Hget. }
  destruct crisis_type;
    first [done | by eapply crisis_shrink_annals | by eapply crisis_split_annals].
Qed.

Lemma history_turn_annals step cy g cy' g' :
  history_turn step cy g = Ok (cy', g') -> cy' = cy + step ∧ annals (cy + step) g g'.
Proof.
  unfold history_turn. intros H.
  destruct (random (rng (_realm_expansion_tick (cy + step) g))) as [u rg].
  apply bind_Ok in H as (g2 & H2 & H). injection H as <- <-. split; [done|].
  eapply runs_trans; [apply expansion_tick_annals|].
  eapply runs_trans;
    [by apply (annals_keep _ _ (set_rng rg (_realm_expansion_tick (cy + step) g)))|].
  destruct (PrimFloat.ltb u 0.35); [by eapply random_crisis_annals|].
  injection H2 as <-. apply runs_refl.
Qed.

(** The events are in the order of their years. *)
Definition chronological (es : list Event.t) : Prop :=
  forall i j a b, (i < j)%nat -> es !! i = Some a -> es !! j = Some b ->
    Event.year a <= Event.year b.

Lemma chronological_app (l1 l2 : list Event.t) :
  chronological l1 -> chronological l2 ->
  (forall a b, a ∈ l1 -> b ∈ l2 -> Event.year a <= Event.year b) ->
  chronological (l1 ++ l2).
Proof.
  intros H1 H2 H12 i j a b Hij Ha Hb.
  apply lookup_app_Some in Ha as [Ha|[Hi Ha]], Hb as [Hb|[Hj Hb]].
  - by apply (H1 i j).
  - apply H12; by eapply list_elem_of_lookup_2.
  - apply lookup_lt_Some in Hb. lia.
  - apply (H2 (i - length l1)%nat (j - length l1)%nat); [lia|done..].
Qed.

(** The events [new] that the turns from the year [cy] on have logged, in a
    history of [yrs] years in steps of [step]: each one in the year of a
    turn, that is a year [cy + k * step] whose turn began before [yrs]. *)
Definition chronicle (step cy yrs : Z) (g : Gen) (new : list Event.t) : Prop :=
  chronological new
  ∧ Forall (fun e => exists k, 1 <= k ∧ cy + (k - 1) * step < yrs
                       ∧ logged (cy + k * step) g e) new.

Lemma history_loop_chronicle fuel step :
  0 < step ->
  forall cy g g',
    history_loop fuel step cy g = Some (Ok g') ->
    (forall k, dict_mem (realms g) k = true -> dict_mem (realms g') k = true)
    ∧ exists new, events g' = events g ++ new ∧ chronicle step cy (years g) g' new.
Proof.
  intros Hstep. induction fuel as [|fuel IH]; intros cy g g' H; [done|].
  rewrite history_loop_turn in H. destruct (Z.ltb_spec cy (years g)) as [Hcy|Hcy].
  2:{ injection H as <-. split; [done|]. exists []. rewrite app_nil_r.
      split; [done|]. split; [|constructor]. intros i j a b _ Ha. done. }
  destruct (history_turn step cy g) as [[cy1 g1]|e] eqn:Ht; [|done].
  pose proof (history_turn_spec _ _ _ _ _ Ht) as (_ & Hev & _).
  apply history_turn_annals in Ht as [-> Han].
  apply annals_spec in Han as (Hk1 & new1 & Hnew1 & Hall1).
  destruct (IH _ _ _ H) as (Hk2 & new2 & Hnew2 & Hchron2 & Hall2).
  rewrite (config_years _ _ (evolves_config _ _ Hev)) in Hall2.
  split; [intros k Hk; by apply Hk2, Hk1|].
  exists (new1 ++ new2). split; [by rewrite Hnew2, Hnew1, app_assoc|].
  assert (Hy1 : forall a, a ∈ new1 -> Event.year a = cy + step).
  { intros a Ha. rewrite Forall_forall in Hall1. by destruct (Hall1 a Ha) as [? _]. }
  assert (Hy2 : forall b, b ∈ new2 -> cy + step < Event.year b).
  { intros b Hb. rewrite Forall_forall in Hall2.
    destruct (Hall2 b Hb) as (k & Hk & _ & Hy & _). rewrite Hy. nia. }
  split.
  - apply chronological_app; [|exact Hchron2|].
    + intros i j a b _ Ha Hb.
      rewrite (Hy1 a), (Hy1 b); [lia|by eapply list_elem_of_lookup_2..].
    + intros a b Ha Hb. rewrite (Hy1 a Ha). pose proof (Hy2 b Hb). lia.
  - apply Forall_app. split.
    + eapply Forall_impl; [exact Hall1|]. intros e He. exists 1.
      split; [lia|]. split; [lia|]. replace (cy + 1 * step) with (cy + step) by lia.
      by eapply logged_mono.
    + eapply Forall_impl; [exact Hall2|]. intros e (k & Hk & Hlt & Hlog).
      exists (k + 1). split; [lia|]. split; [lia|].
      replace (cy + (k + 1) * step) with (cy + step + k * step) by lia. exact Hlog.
Qed.

Lemma simulate_history_chronicle g g' :
  _simulate_history g = Ok g' ->
  (forall k, dict_mem (realms g) k = true -> dict_mem (realms g') k = true)
  ∧ exists new,
      events g' = events g ++ new
      ∧ chronicle (Z.max 10 (years g / 30)) 0 (years g) g' new.
Proof.
  unfold _simulate_history. intros H.
  destruct (realms g) as [|kv rs] eqn:Hr.
  { injection H as <-. split; [done|]. exists []. rewrite app_nil_r.
    split; [done|]. split; [|constructor]. intros i j a b _ Ha. done. }
  rewrite <- Hr in H |- *.
  set (g0 := set_realms (map (fun kv => (fst kv, Realm.set_strength (Some 1%float) (snd kv)))
                           (realms g)) g) in *.
  apply bind_Ok in H as (g1 & H1 & H). injection H as <-.
  destruct (history_loop _ _ _ g0) as [res|] eqn:Hl; cbn [default from_option id] in H1.
  - rewrite H1 in Hl. apply history_loop_chronicle in Hl as (Hk & new & Hnew & Hch & Hall);
      [|lia].
    split.
    { intros k Hk0. cbn [realms set_realms]. rewrite dict_mem_map. apply Hk.
      subst g0. cbn [realms set_realms]. by rewrite dict_mem_map. }
    exists new. split; [exact Hnew|]. split; [exact Hch|].
    eapply Forall_impl; [exact Hall|]. intros e (k & Hk1 & Hlt & Hlog).
    exists k. split; [done|]. split; [done|].
    eapply logged_mono; [|exact Hlog]. intros k' Hk'. cbn [realms set_realms].
    by rewrite dict_mem_map.
  - injection H1 as <-. split.
    { intros k Hk0. cbn [realms set_realms]. rewrite dict_mem_map.
      subst g0. cbn [realms set_realms]. by rewrite dict_mem_map. }
    exists []. rewrite app_nil_r. split; [done|]. split; [|constructor].
    intros i j a b _ Ha. done.
Qed.

Lemma settles_mem a b :
  settles a b -> forall k, dict_mem (realms b) k = dict_mem (realms a) k.
Proof.
  apply (runs_rel settle_step
           (fun a b => forall k, dict_mem (realms b) k = dict_mem (realms a) k)); [done|].
  intros g1 g2 g3 H12 Hs k. rewrite <- H12.
  destruct Hs; try done. cbn [realms set_realms]. apply dict_mem_update.
Qed.

(** X12.  The events of a run from a fresh generator.  They are in the
    order of their years.  Each one is dated at a turn of the history, a
    positive multiple [k * step] of [step = max(10, years // 30)] whose
    turn began before [years] (so the year of an event can lie after
    [years], by less than a step), names exactly one realm, which is on
    record, no settlement, and has the id the code builds from its type,
    that realm and its year. *)
Theorem events_of_a_run (g g' : Gen) :
  fresh g -> run_stages g = Ok g' ->
  let step := Z.max 10 (years g / 30) in
  chronological (events g')
  ∧ forall e, e ∈ events g' ->
      exists k rid,
        1 <= k ∧ (k - 1) * step < years g ∧ Event.year e = k * step
        ∧ dict_mem (realms g') rid = true
        ∧ Event.realm_ids e = [rid] ∧ Event.settlement_id e = None
        ∧ Event.id e = event_id_of (Event.type e) rid (Event.year e).
Proof.
  intros Hfresh Hrun step.
  destruct (run_stages_staged g g' Hfresh Hrun) as (g1 & g2 & g3 & g4 & St).
  destruct St as [B1 B2 B3 B4 B6 Hgrid C1 K1 E2 E3 S4 S5 S6].
  unfold collections in K1. injection K1 as R1 T1 V1 D1 U1.
  pose proof (spawn_events _ _ B2) as V2.
  destruct (simulate_history_chronicle _ _ B3) as (_ & new & Hnew & Hchron & Hall).
  rewrite V2, V1 in Hnew. cbn [app] in Hnew.
  rewrite (config_years _ _ (evolves_config _ _ E2)), (config_years _ _ C1) in Hall.
  fold step in Hall.
  assert (S : settles g3 g').
  { eapply runs_trans; [exact S4|]. eapply runs_trans; [exact S5|exact S6]. }
  pose proof (settles_events _ _ S) as V'. pose proof (settles_mem _ _ S) as M'.
  rewrite V', Hnew. split; [exact Hchron|].
  intros e He. rewrite Forall_forall in Hall.
  destruct (Hall e He) as (k & Hk & Hlt & Hy & rid & Hrid & Hids & Hsid & Hid).
  exists k, rid. replace (0 + k * step) with (k * step) in * by lia.
  replace (0 + (k - 1) * step) with ((k - 1) * step) in Hlt by lia.
  rewrite M', Hy. done.
Qed.

Lemma events_of_a_run_witness :
  fresh marches ∧ run_stages marches = Ok marches_final
  ∧ let step := Z.max 10 (years marches / 30) in
    chronological (events marches_final)
    ∧ forall e, e ∈ events marches_final ->
        exists k rid,
          1 <= k ∧ (k - 1) * step < years marches ∧ Event.year e = k * step
          ∧ dict_mem (realms marches_final) rid = true
          ∧ Event.realm_ids e = [rid] ∧ Event.settlement_id e = None
          ∧ Event.id e = event_id_of (Event.type e) rid (Event.year e).
Proof.
  split; [exact marches_fresh|]. split; [exact marches_run|].
  exact (events_of_a_run marches marches_final marches_fresh marches_run).
Defined.


(** ** A map without fertile land *)

Lemma shuffle_nil {A} (r : Random) : shuffle (@nil A) r = ([], r).
Proof. done. Qed.

Lemma tiles_by_realm_unowned g :
  (forall i, Tile.realm_id (tile_at g i) = None) -> tiles_by_realm_of g = [].
Proof.
  intros Hnone. destruct (tiles_by_realm_of g) as [|[rid l] rest] eqn:Hd; [done|].
  destruct (tiles_by_realm_entry g rid l) as (Hne & _ & Hl); [rewrite Hd; left|].
  destruct l as [|t ts]; [done|].
  assert (Ht : t ∈ owned_by g rid) by (rewrite <- Hl; left).
  apply owned_by_elem in Ht as [_ Ht]. by rewrite Hnone in Ht.
Qed.

Lemma ruin_candidates_unowned g :
  (forall i, Tile.realm_id (tile_at g i) = None) -> ruin_candidates g = [].
Proof.
  intros Hnone. unfold ruin_candidates.
  apply filter_all_other. apply Forall_forall. intros i _ (_ & Hb & _).
  unfold _is_border_tile in Hb. by rewrite Hnone in Hb.
Qed.

(** X13.  A map without fertile land stays empty.  On a map of at most a
    hundred thousand tiles each way, when the grid that
    [_generate_base_tiles] returns has no land tile of a fertile biome
    (grassland, temperate forest, wetlands), the run returns whatever [years] is, with the tiles of that grid and without
    any realm, settlement, road, ruin or event. *)
Theorem barren_run (g g1 : Gen) :
  fresh g -> map_sized g ->
  _generate_base_tiles g = Ok g1 -> fertile_indices g1 = [] ->
  exists g',
    run_stages g = Ok g'
    ∧ tiles g' = tiles g1
    ∧ (forall i, Tile.realm_id (tile_at g' i) = None
                 ∧ Tile.settlement_id (tile_at g' i) = None)
    ∧ (realms g', settlements g', events g', roads g', ruins g') = ([], [], [], [], []).
Proof.
  intros [Hnil Hcoll] _ B1 Hbarren.
  destruct (generate_base_tiles_spec g g1 Hnil B1) as (_ & Hc1 & _).
  rewrite Hcoll in Hc1. unfold collections in Hc1. injection Hc1 as R1 T1 V1 D1 U1.
  destruct (grid_stage_grid_ok g g1 Hnil B1) as [_ M1].
  assert (O1 : forall i, Tile.realm_id (tile_at g1 i) = None)
    by (intros i; by apply (grid_stage_unowned g g1 i Hnil B1)).
  (* spawning finds no seed *)
  assert (B2 : _spawn_initial_realms g1 = Ok (set_rng (rng g1) g1)).
  { unfold _spawn_initial_realms. rewrite Hbarren, shuffle_nil.
    pose proof (target_realms_range (set_rng (rng g1) g1)) as Ht.
    destruct (Z.to_nat (target_realms_of (set_rng (rng g1) g1) * 2)) as [|n] eqn:Hn; [lia|].
    cbn [seq spawn_loop realms set_rng]. rewrite R1. cbn [length].
    destruct (Z.geb_spec (Z.of_nat 0) (target_realms_of (set_rng (rng g1) g1))); [lia|].
    rewrite lookup_nil, bind_Ok_l. cbn [realms set_rng]. by rewrite R1. }
  set (g2 := set_rng (rng g1) g1) in *.
  assert (B3 : _simulate_history g2 = Ok g2).
  { unfold _simulate_history. subst g2. cbn [realms set_rng]. by rewrite R1. }
  assert (B4 : _derive_settlements g2 = Ok g2).
  { unfold _derive_settlements. rewrite tiles_by_realm_unowned; [done|]. exact O1. }
  assert (B6 : _derive_ruins (_derive_roads g2)
               = Ok (set_rng (rng g1) (_derive_roads g2))).
  { unfold _derive_ruins. rewrite ruin_candidates_unowned; [|exact O1].
    rewrite shuffle_nil. done. }
  eexists. split.
  { unfold run_stages. rewrite B1, bind_Ok_l, B2, bind_Ok_l, B3, bind_Ok_l, B4, bind_Ok_l.
    exact B6. }
  split; [done|]. split; [intros i; split; [apply O1|apply M1]|].
  unfold _derive_roads. subst g2. cbn [realms settlements events roads ruins set_rng set_roads].
  rewrite R1, T1, V1, D1, U1. done.
Qed.

(** A small map that is water everywhere: its sea level is above every
    elevation.  It covers three years. *)
Definition flooded : Gen :=
  mkGen 5 3 3 2 continent 7 (mkRandom vale_tape 0) demo_namer exact_pow2 [] [] [] [] [] [].

Definition flooded_grid : Gen :=
  Eval vm_compute in value_or flooded (_generate_base_tiles flooded).

Lemma barren_run_witness :
  fresh flooded ∧ map_sized flooded ∧ _generate_base_tiles flooded = Ok flooded_grid
  ∧ fertile_indices flooded_grid = []
  ∧ exists g',
      run_stages flooded = Ok g'
      ∧ tiles g' = tiles flooded_grid
      ∧ (forall i, Tile.realm_id (tile_at g' i) = None
                   ∧ Tile.settlement_id (tile_at g' i) = None)
      ∧ (realms g', settlements g', events g', roads g', ruins g') = ([], [], [], [], []).
Proof.
  assert (H1 : fresh flooded) by (split; reflexivity).
  assert (H2 : _generate_base_tiles flooded = Ok flooded_grid) by (vm_compute; reflexivity).
  assert (H3 : fertile_indices flooded_grid = []) by (vm_compute; reflexivity).
  assert (Hs : map_sized flooded) by (unfold map_sized, flooded; cbn; lia).
  split; [exact H1|]. split; [exact Hs|]. split; [exact H2|]. split; [exact H3|].
  exact (barren_run flooded flooded_grid H1 Hs H2 H3).
Defined.


(** ** Cells and indices *)

Lemma neighbors_NoDup (g : Gen) (x y : Z) : NoDup (_neighbors g x y).
Proof.
  unfold _neighbors, _idx. cbn [flat_map fst snd app].
  destruct ((0 <=? x + 1) && (x + 1 <? width g) && (0 <=? y + 0) && (y + 0 <? height g)) eqn:H1;
  destruct ((0 <=? x + -1) && (x + -1 <? width g) && (0 <=? y + 0) && (y + 0 <? height g)) eqn:H2;
  destruct ((0 <=? x + 0) && (x + 0 <? width g) && (0 <=? y + 1) && (y + 1 <? height g)) eqn:H3;
  destruct ((0 <=? x + 0) && (x + 0 <? width g) && (0 <=? y + -1) && (y + -1 <? height g)) eqn:H4;
    cbn [app];
    repeat match goal with
           | H : _ && _ = true |- _ => apply andb_true_iff in H as [H ?]
           | H : (_ <=? _) = true |- _ => apply Z.leb_le in H
           | H : (_ <? _) = true |- _ => apply Z.ltb_lt in H
           end;
    repeat (apply NoDup_cons; split;
            [rewrite ?elem_of_cons, elem_of_nil; intros Hin;
             repeat (destruct Hin as [Hin|Hin]; [apply Z2Nat.inj in Hin; nia|]); done|]);
    apply NoDup_nil_2.
Qed.

(** X14.  Cells and indices on a grid whose tile [i] carries the
    coordinates of place [i] in row-major order, as the grid stage builds
    it: [_idx] sends the cells of the map one to one onto the indices of
    [self.tiles], and the tile found there has the coordinates asked for;
    [_neighbors(x, y)] lists, without repetition, exactly the tiles at
    distance one from [(x, y)], four at most; and being a neighbour is
    symmetric. *)
Theorem grid_indexing (g : Gen) :
  grid_ok g ->
  length (tiles g) = (Z.to_nat (height g) * Z.to_nat (width g))%nat
  ∧ (forall x y, in_grid g x y ->
       (Z.to_nat (_idx g x y) < length (tiles g))%nat
       ∧ coords g (Z.to_nat (_idx g x y)) = (x, y))
  ∧ (forall i, (i < length (tiles g))%nat ->
       in_grid g (Tile.x (tile_at g i)) (Tile.y (tile_at g i))
       ∧ Z.to_nat (_idx g (Tile.x (tile_at g i)) (Tile.y (tile_at g i))) = i)
  ∧ (forall x y,
       NoDup (_neighbors g x y) ∧ (length (_neighbors g x y) <= 4)%nat
       ∧ forall n, n ∈ _neighbors g x y
                   <-> (n < length (tiles g))%nat ∧ manhattan (coords g n) (x, y) = 1)
  ∧ (forall i j, (i < length (tiles g))%nat -> (j < length (tiles g))%nat ->
       (j ∈ _neighbors g (Tile.x (tile_at g i)) (Tile.y (tile_at g i))
        <-> i ∈ _neighbors g (Tile.x (tile_at g j)) (Tile.y (tile_at g j)))).
Proof.
  intros Hok. split; [by apply grid_ok_length|]. split; [|split; [|split]].
  - intros x y [Hx Hy]. destruct (grid_ok_tile_at g x y Hok Hx Hy) as (Hlt & Htx & Hty).
    split; [exact Hlt|]. unfold coords. by rewrite Htx, Hty.
  - intros i Hi. destruct (grid_ok_coords g i Hok Hi) as (Hx & Hy & Hidx).
    split; [by split|by rewrite <- Hidx].
  - intros x y. split; [apply neighbors_NoDup|]. split; [apply neighbors_length|].
    intros n. split.
    + intros Hn. destruct (neighbors_grid g x y n Hok Hn) as (Hlt & _ & Hd & _).
      split; [exact Hlt|]. unfold manhattan, coords. cbn [fst snd]. exact Hd.
    + intros [Hlt Hd]. destruct (grid_ok_coords g n Hok Hlt) as (Hx & Hy & Hidx).
      apply neighbors_elem. exists (Tile.x (tile_at g n)), (Tile.y (tile_at g n)).
      split; [by split|]. split; [|exact Hidx].
      unfold manhattan, coords in Hd. cbn [fst snd] in Hd. exact Hd.
  - assert (Hhalf : forall i j, (i < length (tiles g))%nat -> (j < length (tiles g))%nat ->
              j ∈ _neighbors g (Tile.x (tile_at g i)) (Tile.y (tile_at g i)) ->
              i ∈ _neighbors g (Tile.x (tile_at g j)) (Tile.y (tile_at g j))).
    { intros i j Hi Hj Hn.
      destruct (neighbors_grid g _ _ j Hok Hn) as (_ & _ & Hd & _).
      destruct (grid_ok_coords g i Hok Hi) as (Hx & Hy & Hidx).
      apply neighbors_elem. exists (Tile.x (tile_at g i)), (Tile.y (tile_at g i)).
      split; [by split|]. split; [lia|exact Hidx]. }
    intros i j Hi Hj. split; by apply Hhalf.
Qed.

Lemma vale_grid_ok : grid_ok vale_grid.
Proof.
  destruct vale_fresh as [Hnil _].
  by destruct (grid_stage_grid_ok vale vale_grid Hnil vale_grid_built).
Qed.

Lemma grid_indexing_witness :
  grid_ok vale_grid ∧ (
  length (tiles vale_grid) = (Z.to_nat (height vale_grid) * Z.to_nat (width vale_grid))%nat
  ∧ (forall x y, in_grid vale_grid x y ->
       (Z.to_nat (_idx vale_grid x y) < length (tiles vale_grid))%nat
       ∧ coords vale_grid (Z.to_nat (_idx vale_grid x y)) = (x, y))
  ∧ (forall i, (i < length (tiles vale_grid))%nat ->
       in_grid vale_grid (Tile.x (tile_at vale_grid i)) (Tile.y (tile_at vale_grid i))
       ∧ Z.to_nat (_idx vale_grid (Tile.x (tile_at vale_grid i)) (Tile.y (tile_at vale_grid i))) = i)
  ∧ (forall x y,
       NoDup (_neighbors vale_grid x y) ∧ (length (_neighbors vale_grid x y) <= 4)%nat
       ∧ forall n, n ∈ _neighbors vale_grid x y
                   <-> (n < length (tiles vale_grid))%nat ∧ manhattan (coords vale_grid n) (x, y) = 1)
  ∧ (forall i j, (i < length (tiles vale_grid))%nat -> (j < length (tiles vale_grid))%nat ->
       (j ∈ _neighbors vale_grid (Tile.x (tile_at vale_grid i)) (Tile.y (tile_at vale_grid i))
        <-> i ∈ _neighbors vale_grid (Tile.x (tile_at vale_grid j)) (Tile.y (tile_at vale_grid j))))).
Proof. split; [exact vale_grid_ok|]. exact (grid_indexing vale_grid vale_grid_ok). Defined.


(** ** What a crisis does to the land *)

Lemma set_owner_all_length o l g :
  length (tiles (set_owner_all o l g)) = length (tiles g).
Proof.
  unfold set_owner_all.
  apply (fold_left_inv (fun g' => length (tiles g') = length (tiles g))); [|done].
  intros i g1 _ <-. exact (length_update_tile _ _ _).
Qed.

Lemma set_owner_all_config o l g : config (set_owner_all o l g) = config g.
Proof.
  unfold set_owner_all.
  apply (fold_left_inv (fun g' => config g' = config g)); [|done].
  by intros i g1 _ <-.
Qed.

(** The tiles of the list get the new owner, the others stay as they are. *)
Lemma set_owner_all_tile o l g i :
  tile_at (set_owner_all o l g) i
  = if decide (i ∈ l ∧ (i < length (tiles g))%nat)
    then Tile.set_realm_id o (tile_at g i) else tile_at g i.
Proof.
  unfold set_owner_all. revert g. induction l as [|a l IH]; intros g; cbn [fold_left].
  - destruct (decide _) as [[H _]|_]; [by apply elem_of_nil in H|done].
  - rewrite IH, length_update_tile, tile_at_alter.
    destruct (decide (a = i)) as [->|Hne].
    + destruct (decide (i < length (tiles g))%nat) as [Hlt|Hge].
      * destruct (decide (i ∈ i :: l ∧ _)) as [_|Hn]; [|destruct Hn; split; [left|done]].
        destruct (decide _); [|done]. by destruct (tile_at g i).
      * destruct (decide (i ∈ l ∧ _)) as [[_ ?]|_]; [done|].
        by destruct (decide (i ∈ i :: l ∧ _)) as [[_ ?]|_].
    + destruct (decide (i ∈ l ∧ _)) as [[Hin Hlt]|Hn].
      * destruct (decide (i ∈ a :: l ∧ _)) as [_|Hn]; [done|].
        destruct Hn; split; [by right|done].
      * destruct (decide (i ∈ a :: l ∧ _)) as [[Hin Hlt]|_]; [|done].
        apply elem_of_cons in Hin as [->|Hin]; [done|]. by destruct Hn.
Qed.

Lemma owned_by_NoDup g rid : NoDup (owned_by g rid).
Proof. unfold owned_by. apply NoDup_filter, NoDup_seq. Qed.

(** Who owns what after the tiles of [l], all of [rid], went to [o]. *)
Lemma owned_after o l g rid r i :
  (forall j, j ∈ l -> j ∈ owned_by g rid) ->
  i ∈ owned_by (set_owner_all o l g) r
  <-> ((i ∈ l ∧ o = Some r) ∨ ((i ∉ l) ∧ i ∈ owned_by g r)).
Proof.
  intros Hl. rewrite !owned_by_elem, set_owner_all_length, set_owner_all_tile.
  destruct (decide (i ∈ l ∧ _)) as [[Hin Hlt]|Hn].
  - destruct (tile_at g i); cbn. split.
    + intros [_ ->]. by left.
    + intros [[_ ->]|[Hni _]]; done.
  - split.
    + intros [Hlt Ho]. right. split; [|done]. intros Hin. by destruct Hn.
    + intros [[Hin _]|[_ H]]; [|exact H].
      pose proof (Hl _ Hin) as Ho. apply owned_by_elem in Ho as [Hlt _]. destruct Hn; by split.
Qed.

Lemma count_others o l g rid r :
  (forall j, j ∈ l -> j ∈ owned_by g rid) -> r ≠ rid -> o ≠ Some r ->
  _realm_tile_count (set_owner_all o l g) r = _realm_tile_count g r.
Proof.
  intros Hl Hr Ho. rewrite !realm_tile_count_owned. f_equal. apply Permutation_length.
  apply NoDup_Permutation; [apply owned_by_NoDup..|].
  intros i. rewrite (owned_after o l g rid r i Hl). split.
  - intros [[_ ?]|[_ ?]]; done.
  - intros Hi. right. split; [|done]. intros Hin.
    apply Hl, owned_by_elem in Hin as [_ Hin]. apply owned_by_elem in Hi as [_ Hi]. congruence.
Qed.

Lemma count_left o l g rid :
  (forall j, j ∈ l -> j ∈ owned_by g rid) -> NoDup l -> o ≠ Some rid ->
  _realm_tile_count (set_owner_all o l g) rid
  = _realm_tile_count g rid - Z.of_nat (length l).
Proof.
  intros Hl Hnd Ho. rewrite !realm_tile_count_owned.
  assert (Hp : owned_by g rid ≡ₚ l ++ owned_by (set_owner_all o l g) rid).
  { apply NoDup_Permutation; [apply owned_by_NoDup| |].
    - apply NoDup_app. split; [done|]. split; [|apply owned_by_NoDup].
      intros i Hin Hi. apply (owned_after o l g rid rid i Hl) in Hi as [[_ ?]|[? _]]; done.
    - intros i. rewrite elem_of_app, (owned_after o l g rid rid i Hl). split.
      + intros Hi. destruct (decide (i ∈ l)); [by left|right; right; done].
      + intros [Hin|[[Hin _]|[_ Hi]]]; [by apply Hl|by apply Hl|done]. }
  apply Permutation_length in Hp. rewrite length_app in Hp. lia.
Qed.

Lemma count_gained new l g rid :
  (forall j, j ∈ l -> j ∈ owned_by g rid) -> NoDup l -> owned_by g new = [] ->
  _realm_tile_count (set_owner_all (Some new) l g) new = Z.of_nat (length l).
Proof.
  intros Hl Hnd Hnone. rewrite realm_tile_count_owned. f_equal. apply Permutation_length.
  apply NoDup_Permutation; [apply owned_by_NoDup|done|].
  intros i. rewrite (owned_after (Some new) l g rid new i Hl), Hnone. split.
  - intros [[? _]|[_ H]]; [done|by apply elem_of_nil in H].
  - intros Hin. by left.
Qed.

(** A crisis that changed nothing but the state of the random generator. *)
Definition quiet (g g' : Gen) : Prop :=
  tiles g' = tiles g ∧ realms g' = realms g ∧ events g' = events g.

(** A plague or a succession crisis: the realm gave up border tiles, one at
    least and [max(1, n // 6)] at most of its [n] tiles. *)
Definition land_lost (year : Z) (rid : string) (g g' : Gen) : Prop :=
  let n := _realm_tile_count g rid in
  exists realm ct,
    dict_get (realms g) rid = Some realm
    ∧ (ct = PLAGUE_EVENT ∨ ct = SUCCESSION)
    ∧ realms g' = realms g
    ∧ events g'
      = events g ++ [crisis_event ct rid year
                       (Realm.name realm +:+ " lost territory to internal crisis.")]
    ∧ 1 <= n - _realm_tile_count g' rid <= Z.max 1 (n / 6)
    ∧ (forall r, r ≠ rid -> _realm_tile_count g' r = _realm_tile_count g r)
    ∧ (forall i, tile_at g' i = tile_at g i
                 ∨ (Tile.realm_id (tile_at g i) = Some rid
                    ∧ _is_border_tile g i = true
                    ∧ tile_at g' i = Tile.set_realm_id None (tile_at g i))).

(** A civil war: a new realm, numbered after the last one, took [n // 2] of
    the realm's [n] tiles. *)
Definition land_split (year : Z) (rid : string) (g g' : Gen) : Prop :=
  let n := _realm_tile_count g rid in
  let new_id := realm_id_of (Z.of_nat (length (realms g)) + 1) in
  exists realm name color,
    dict_get (realms g) rid = Some realm
    ∧ (length (realms g) <= 8)%nat ∧ 12 <= n
    ∧ realms g'
      = realms g ++ [(new_id,
                      new_realm new_id name color year (Realm.culture realm)
                        ["Splintered from " +:+ Realm.name realm +:+ " in civil war."])]
    ∧ events g'
      = events g ++ [crisis_event CIVIL_WAR_EVENT rid year
                       ("Civil war split " +:+ Realm.name realm +:+ ", creating "
                        +:+ name +:+ ".")]
    ∧ _realm_tile_count g' new_id = n / 2
    ∧ _realm_tile_count g' rid = n - n / 2
    ∧ (forall r, r ≠ rid -> r ≠ new_id -> _realm_tile_count g' r = _realm_tile_count g r)
    ∧ (forall i, tile_at g' i = tile_at g i
                 ∨ (Tile.realm_id (tile_at g i) = Some rid
                    ∧ tile_at g' i = Tile.set_realm_id (Some new_id) (tile_at g i))).

Lemma take_NoDup {A} (n : nat) (l : list A) : NoDup l -> NoDup (take n l).
Proof.
  intros Hnd. rewrite <- (take_drop n l) in Hnd. by apply NoDup_app in Hnd as [Hnd _].
Qed.

Lemma crisis_shrink_effect ct rid realm year g g' :
  ct = PLAGUE_EVENT ∨ ct = SUCCESSION -> dict_get (realms g) rid = Some realm ->
  crisis_shrink ct rid realm (owned_by g rid) year g = Ok g' ->
  config g' = config g ∧ length (tiles g') = length (tiles g)
  ∧ (quiet g g' ∨ land_lost year rid g g').
Proof.
  unfold crisis_shrink. intros Hct Hget H.
  destruct (filter _ (owned_by g rid)) as [|b bs] eqn:Hf;
    [injection H as <-; split; [done|]; split; [done|]; by left|].
  destruct (shuffle (b :: bs) (rng g)) as [border rg] eqn:Hsh.
  apply bind_Ok in H as ([d rg1] & Hd & H). apply randint_range in Hd.
  cbv zeta in H. injection H as <-.
  set (n := Z.of_nat (length (owned_by g rid))).
  set (l := take (Z.to_nat (Z.max 1 (n / d))) border).
  assert (Hl : forall j, j ∈ l -> j ∈ owned_by g rid ∧ _is_border_tile g j = true).
  { intros j Hj. apply subseteq_take in Hj. apply (shuffle_elem _ _ _ _ j Hsh) in Hj.
    rewrite <- Hf in Hj. by apply list_elem_of_filter in Hj as [? ?]. }
  assert (Hnd : NoDup l).
  { apply take_NoDup. pose proof (shuffle_perm (b :: bs) (rng g)) as Hp.
    rewrite Hsh in Hp. cbn [fst] in Hp. rewrite Hp, <- Hf.
    apply NoDup_filter, owned_by_NoDup. }
  assert (Hlen : (1 <= length l)%nat ∧ Z.of_nat (length l) <= Z.max 1 (n / 6)).
  { unfold l. rewrite length_take, (shuffle_length _ _ _ _ Hsh). cbn [length].
    assert (n / d <= n / 6) by (apply Z.div_le_compat_l; lia).
    lia. }
  assert (Hl' : forall j, j ∈ l -> j ∈ owned_by (set_rng rg1 g) rid)
    by (intros j Hj; by apply Hl).
  split; [exact (set_owner_all_config _ _ _)|]. split; [exact (set_owner_all_length _ _ _)|].
  right. exists realm, ct.
  split; [exact Hget|]. split; [exact Hct|].
  split; [exact (set_owner_all_realms _ _ _)|].
  split; [cbn [events set_events]; by rewrite set_owner_all_events|].
  split; [|split].
  - change (_realm_tile_count (set_events _ ?x) rid) with (_realm_tile_count x rid).
    rewrite (count_left None l (set_rng rg1 g) rid Hl' Hnd); [|done].
    change (_realm_tile_count (set_rng rg1 g) rid) with (_realm_tile_count g rid).
    rewrite (realm_tile_count_owned g rid). fold n. lia.
  - intros r Hr.
    change (_realm_tile_count (set_events _ ?x) r) with (_realm_tile_count x r).
    by rewrite (count_others None l (set_rng rg1 g) rid r Hl' Hr).
  - intros i. change (tile_at (set_events _ ?x) i) with (tile_at x i).
    rewrite set_owner_all_tile.
    destruct (decide (i ∈ l ∧ _)) as [[Hin _]|_]; [right|by left].
    destruct (Hl i Hin) as [Hown Hb]. apply owned_by_elem in Hown as [_ Hown].
    by split; [|split].
Qed.

Lemma crisis_split_effect rid realm year g g' :
  realms_made g -> owners_known g -> dict_get (realms g) rid = Some realm ->
  crisis_split CIVIL_WAR_EVENT rid realm (owned_by g rid) year g = Ok g' ->
  config g' = config g ∧ length (tiles g') = length (tiles g)
  ∧ (quiet g g' ∨ land_split year rid g g').
Proof.
  unfold crisis_split. intros (Hkeys & _ & _) Hknown Hget H.
  destruct (Z.ltb_spec 8 (Z.of_nat (length (realms g)))) as [|Hle]; cbn [orb] in H;
    [injection H as <-; split; [done|]; split; [done|]; by left|].
  destruct (Z.ltb_spec (Z.of_nat (length (owned_by g rid))) 12) as [|Hn];
    [injection H as <-; split; [done|]; split; [done|]; by left|].
  apply bind_Ok in H as ([name g1] & H1 & H).
  apply make_realm_name_spec in H1 as (_ & r1 & ->).
  apply bind_Ok in H as ([color g2] & H2 & H).
  apply random_color_spec in H2 as (_ & r2 & ->).
  destruct (shuffle (owned_by g rid) _) as [shuffled rg] eqn:Hsh.
  injection H as <-.
  set (n := Z.of_nat (length (owned_by g rid))) in *.
  set (new_id := realm_id_of (Z.of_nat (length (realms g)) + 1)).
  set (l := take (Z.to_nat (Z.of_nat (length shuffled) / 2)) shuffled).
  set (g3 := set_rng rg (set_realms _ (set_rng r2 (set_rng r1 g)))).
  pose proof (realms_fresh_key (realms g) Hkeys) as Hfresh. fold new_id in Hfresh.
  assert (Hne : new_id ≠ rid).
  { intros Heq. unfold dict_mem in Hfresh. by rewrite Heq, Hget in Hfresh. }
  assert (Hnone : owned_by g3 new_id = []).
  { destruct (owned_by g3 new_id) as [|i rest] eqn:Ho; [done|].
    assert (Hi : i ∈ owned_by g new_id) by (change (owned_by g new_id) with (owned_by g3 new_id);
                                            rewrite Ho; left).
    apply owned_by_elem in Hi as [_ Hi]. apply Hknown in Hi. congruence. }
  assert (Hl : forall j, j ∈ l -> j ∈ owned_by g3 rid).
  { intros j Hj. apply subseteq_take in Hj. by apply (shuffle_elem _ _ _ _ j Hsh) in Hj. }
  assert (Hnd : NoDup l).
  { apply take_NoDup. pose proof (shuffle_perm (owned_by g rid) (rng (set_rng r2 (set_rng r1 g)))) as Hp.
    change (shuffle (owned_by g rid) (rng (set_rng r2 (set_rng r1 g))) = (shuffled, rg)) in Hsh.
    rewrite Hsh in Hp. cbn [fst] in Hp. rewrite Hp. apply owned_by_NoDup. }
  assert (Hlen : Z.of_nat (length l) = n / 2).
  { unfold l. rewrite length_take, (shuffle_length _ _ _ _ Hsh). fold n.
    assert (0 <= n / 2 <= n) by (split; [apply Z.div_pos; lia|apply Z.div_le_upper_bound; lia]).
    lia. }
  split; [exact (set_owner_all_config _ _ _)|]. split; [exact (set_owner_all_length _ _ _)|].
  right. exists realm, name, color. fold new_id.
  split; [exact Hget|]. split; [lia|].
  split; [by rewrite (realm_tile_count_owned g rid)|].
  split; [etrans; [exact (set_owner_all_realms _ _ _)|exact (dict_set_fresh _ _ _ Hfresh)]|].
  split; [cbn [events set_events]; by rewrite set_owner_all_events|].
  split; [|split; [|split]].
  - change (_realm_tile_count (set_events _ ?x) new_id) with (_realm_tile_count x new_id).
    rewrite (count_gained new_id l g3 rid Hl Hnd Hnone), Hlen.
    by rewrite (realm_tile_count_owned g rid).
  - change (_realm_tile_count (set_events _ ?x) rid) with (_realm_tile_count x rid).
    rewrite (count_left (Some new_id) l g3 rid Hl Hnd); [|congruence].
    change (_realm_tile_count g3 rid) with (_realm_tile_count g rid).
    rewrite Hlen. by rewrite (realm_tile_count_owned g rid).
  - intros r Hr Hr'.
    change (_realm_tile_count (set_events _ ?x) r) with (_realm_tile_count x r).
    rewrite (count_others (Some new_id) l g3 rid r Hl Hr); [done|congruence].
  - intros i. change (tile_at (set_events _ ?x) i) with (tile_at x i).
    rewrite set_owner_all_tile.
    destruct (decide (i ∈ l ∧ _)) as [[Hin _]|_]; [right|by left].
    apply Hl, owned_by_elem in Hin as [_ Hown]. by split.
Qed.

(** X15.  What [_random_crisis] does to a state whose grid is in row-major
    order, whose realms are numbered in the order of their creation and
    whose tile owners are realms on record (all three hold all along a
    run).  It returns, and the size of the
    map stays.  Either nothing changes but the random state, or one realm
    that holds land is struck: in a plague or succession crisis it gives up
    border tiles, one at least and [max(1, n // 6)] at most of its [n]
    tiles, which become unowned; in a civil war, which needs at most eight
    realms on record and [n >= 12], a new realm [realm_<count + 1>] is
    appended, founded that year with the culture of the old one, and takes
    [n // 2] of the tiles, the old realm keeping [n - n // 2].  No other
    realm gains or loses a tile, no realm is removed, and one event of the
    crisis' type is appended. *)
Theorem random_crisis_effect (year : Z) (g : Gen) :
  grid_ok g -> realms_made g -> owners_known g ->
  exists g', _random_crisis year g = Ok g'
    ∧ config g' = config g ∧ length (tiles g') = length (tiles g)
    ∧ (quiet g g'
       ∨ exists rid, 0 < _realm_tile_count g rid
                     ∧ (land_lost year rid g g' ∨ land_split year rid g g')).
Proof.
  intros _ Hmade Hknown. destruct (random_crisis_Ok year g) as (g' & H).
  exists g'. split; [exact H|]. unfold _random_crisis in H.
  destruct (filter _ (dict_keys (realms g))) as [|rid0 rids] eqn:Hf;
    [injection H as <-; split; [done|]; split; [done|]; by left|].
  apply bind_Ok in H as ([rid rg] & Hch & H).
  apply choice_Ok in Hch. rewrite <- Hf in Hch.
  apply list_elem_of_filter in Hch as [Hland _].
  change (realms (set_rng rg g)) with (realms g) in H.
  destruct (dict_get (realms g) rid) as [realm|] eqn:Hget; [|done].
  change (owned_by (set_rng rg g) rid) with (owned_by g rid) in H.
  destruct (owned_by g rid) as [|t0 ts] eqn:Hown;
    [injection H as <-; split; [done|]; split; [done|]; by left|].
  apply bind_Ok in H as ([ct rg2] & Hct & H). apply choice_Ok in Hct.
  rewrite <- Hown in H.
  set (g2 := set_rng rg2 (set_rng rg g)) in H.
  assert (Hrest : config g' = config g2 ∧ length (tiles g') = length (tiles g2)
                  ∧ (quiet g2 g' ∨ land_lost year rid g2 g' ∨ land_split year rid g2 g')).
  { unfold crisis_types in Hct.
    apply elem_of_cons in Hct as [->|Hct];
      [|apply elem_of_cons in Hct as [->|Hct];
        [|apply elem_of_cons in Hct as [->|Hct]; [|by apply elem_of_nil in Hct]]].
    - destruct (crisis_shrink_effect PLAGUE_EVENT rid realm year g2 g') as (Hc & Hlen & [Hq|Hl]);
        [by left|exact Hget|exact H|..]; (split; [exact Hc|]; split; [exact Hlen|]);
        [by left|right; by left].
    - destruct (crisis_split_effect rid realm year g2 g' Hmade Hknown Hget H)
        as (Hc & Hlen & [Hq|Hs]);
        (split; [exact Hc|]; split; [exact Hlen|]); [by left|right; by right].
    - destruct (crisis_shrink_effect SUCCESSION rid realm year g2 g') as (Hc & Hlen & [Hq|Hl]);
        [by right|exact Hget|exact H|..]; (split; [exact Hc|]; split; [exact Hlen|]);
        [by left|right; by left]. }
  destruct Hrest as (Hc & Hlen & Hcases).
  split; [exact Hc|]. split; [exact Hlen|].
  destruct Hcases as [Hq|Hcases]; [by left|].
  right. exists rid. split; [exact Hland|exact Hcases].
Qed.

Lemma vale_history_made : realms_made vale_history ∧ owners_known vale_history.
Proof.
  destruct vale_fresh as [Hnil Hcoll].
  assert (R1 : realms vale_grid = []) by (vm_compute; reflexivity).
  pose proof (spawn_reigns _ _ vale_realms_spawned) as W2.
  destruct (simulate_history_reigns _ _ vale_history_run) as [W3 _].
  split.
  - apply (reigns_made _ _ W3), (reigns_made _ _ W2).
    unfold realms_made. rewrite R1. split; [done|]. split; [cbn; lia|constructor].
  - apply (reigns_owners _ _ W3), (reigns_owners _ _ W2).
    intros i rid Hi. by rewrite (grid_stage_unowned vale vale_grid i Hnil vale_grid_built) in Hi.
Qed.

(** The state of [vale] after its history, at another place of the tape. *)
Definition vale_struck : Gen := set_rng (mkRandom vale_tape 8) vale_history.

Lemma vale_struck_grid_ok : grid_ok vale_struck.
Proof. vm_compute. reflexivity. Qed.

Lemma random_crisis_effect_witness :
  grid_ok vale_struck ∧ realms_made vale_struck ∧ owners_known vale_struck ∧ (
  exists g', _random_crisis 110 vale_struck = Ok g'
    ∧ config g' = config vale_struck ∧ length (tiles g') = length (tiles vale_struck)
    ∧ (quiet vale_struck g'
       ∨ exists rid, 0 < _realm_tile_count vale_struck rid
                     ∧ (land_lost 110 rid vale_struck g' ∨ land_split 110 rid vale_struck g'))).
Proof.
  split; [exact vale_struck_grid_ok|].
  split; [exact (proj1 vale_history_made)|]. split; [exact (proj2 vale_history_made)|].
  exact (random_crisis_effect 110 vale_struck vale_struck_grid_ok
           (proj1 vale_history_made) (proj2 vale_history_made)).
Defined.


(** ** One landmass *)

(** A land tile of the grid. *)
Definition is_land (g : Gen) (i : nat) : Prop :=
  (i < length (tiles g))%nat ∧ Tile.water (tile_at g i) = false.

(** Two land tiles side by side. *)
Definition land_step (g : Gen) (i j : nat) : Prop :=
  is_land g i ∧ is_land g j ∧ manhattan (coords g i) (coords g j) = 1.

(** Joined by a walk over land, from tile to adjacent tile. *)
Definition connected (g : Gen) : nat -> nat -> Prop := rtc (land_step g).

Lemma land_indices_elem g i : i ∈ land_indices g <-> is_land g i.
Proof.
  unfold land_indices, is_land. rewrite list_elem_of_filter, elem_of_seq. split.
  - intros [H1 H2]. split; [lia|done].
  - intros [H1 H2]. split; [done|lia].
Qed.

Lemma land_step_sym g i j : land_step g i j -> land_step g j i.
Proof.
  unfold land_step, manhattan. intros (Hi & Hj & Hd). split; [done|]. split; [done|]. lia.
Qed.

Lemma connected_sym g i j : connected g i j -> connected g j i.
Proof.
  unfold connected. induction 1 as [|x y z Hxy _ IH]; [apply rtc_refl|].
  eapply rtc_r; [exact IH|]. by apply land_step_sym.
Qed.

Lemma connected_land g i j : is_land g i -> connected g i j -> is_land g j.
Proof.
  unfold connected. intros Hi H. induction H as [|x y z (_ & Hy & _) _ IH]; [done|]. by apply IH.
Qed.

Lemma NoDup_below (l : list nat) (n : nat) :
  NoDup l -> (forall i, i ∈ l -> (i < n)%nat) -> (length l <= n)%nat.
Proof.
  intros Hnd Hlt. transitivity (length (seq 0 n)); [|by rewrite length_seq].
  apply submseteq_length, NoDup_submseteq; [done|].
  intros i Hi. apply elem_of_seq. specialize (Hlt i Hi). lia.
Qed.

Lemma filter_seq_split (P : nat -> Prop) `{!forall i, Decision (P i)} (n a : nat)
    (l1 : list nat) (s : nat) (l2 : list nat) :
  filter P (seq a n) = l1 ++ s :: l2 ->
  (forall i, i ∈ l1 -> (i < s)%nat) ∧ (forall i, i ∈ l2 -> (s < i)%nat).
Proof.
  revert a l1. induction n as [|n IH]; intros a l1 Hf; [by destruct l1|].
  cbn [seq] in Hf. rewrite filter_cons in Hf.
  assert (Hge : forall b l1' , filter P (seq b n) = l1' ++ s :: l2 -> (b <= s)%nat).
  { intros b l1' Hb.
    assert (Hs : s ∈ filter P (seq b n)) by (rewrite Hb, elem_of_app; right; left).
    apply list_elem_of_filter in Hs as [_ Hs]. apply elem_of_seq in Hs. lia. }
  destruct (decide (P a)) as [Hp|Hp]; [|exact (IH _ _ Hf)].
  destruct l1 as [|b l1]; cbn in Hf; injection Hf as -> Hf.
  - split; [intros i Hi; by apply elem_of_nil in Hi|].
    intros i Hi. rewrite <- Hf in Hi. apply list_elem_of_filter in Hi as [_ Hi].
    apply elem_of_seq in Hi. lia.
  - destruct (IH _ _ Hf) as [H1 H2]. split; [|exact H2].
    intros i Hi. apply elem_of_cons in Hi as [->|Hi]; [|by apply H1].
    specialize (Hge _ _ Hf). lia.
Qed.

Section Flood.
Variable g : Gen.
Hypothesis Hok : grid_ok g.

(** On the grid a neighbour is a tile at distance one. *)
Lemma neighbors_of_tile (i n : nat) :
  n ∈ _neighbors g (Tile.x (tile_at g i)) (Tile.y (tile_at g i))
  <-> (n < length (tiles g))%nat ∧ manhattan (coords g i) (coords g n) = 1.
Proof.
  unfold manhattan, coords. cbn [fst snd]. split.
  - intros Hn. destruct (neighbors_grid g _ _ n Hok Hn) as (Hlt & _ & Hd & _).
    split; [exact Hlt|lia].
  - intros [Hlt Hd]. destruct (grid_ok_coords g n Hok Hlt) as (Hx & Hy & Hidx).
    apply neighbors_elem. exists (Tile.x (tile_at g n)), (Tile.y (tile_at g n)).
    split; [by split|]. split; [lia|exact Hidx].
Qed.

Lemma flood_push_grid (acc : gset nat * list nat) (n : nat) :
  (n < length (tiles g))%nat ->
  flood_push g acc n
  = if decide ((n ∉ acc.1) ∧ Tile.water (tile_at g n) = false)
    then ({[ n ]} ∪ acc.1, n :: acc.2) else acc.
Proof.
  intros Hlt. unfold flood_push. cbv zeta.
  destruct (grid_ok_coords g n Hok Hlt) as (_ & _ & <-).
  destruct (decide (n ∈ acc.1)) as [Hin|Hin].
  - rewrite (bool_decide_eq_true_2 _ Hin). cbn.
    destruct (decide _) as [[? _]|_]; done.
  - rewrite (bool_decide_eq_false_2 _ Hin). cbn.
    destruct (Tile.water (tile_at g n)); cbn.
    + destruct (decide _) as [[_ ?]|_]; done.
    + destruct (decide _) as [_|Hn]; [done|]. by destruct Hn.
Qed.

(** The pushes of one iteration: the land neighbours not yet visited. *)
Lemma push_all_spec (ns : list nat) (V : gset nat) (st : list nat) :
  (forall n, n ∈ ns -> (n < length (tiles g))%nat) ->
  exists new V',
    fold_left (flood_push g) ns (V, st) = (V', new ++ st)
    ∧ NoDup new
    ∧ (forall i, i ∈ V' <-> i ∈ new ∨ i ∈ V)
    ∧ (forall i, i ∈ new <-> i ∈ ns ∧ (i ∉ V) ∧ Tile.water (tile_at g i) = false).
Proof.
  revert V st. induction ns as [|n ns IH]; intros V st Hlt; cbn [fold_left].
  - exists [], V. split; [done|]. split; [constructor|]. split.
    + intros i. rewrite elem_of_nil. tauto.
    + intros i. rewrite !elem_of_nil. tauto.
  - rewrite flood_push_grid by (apply Hlt; left). cbn [fst snd].
    assert (Hlt' : forall m, m ∈ ns -> (m < length (tiles g))%nat)
      by (intros m Hm; apply Hlt; by right).
    destruct (decide _) as [[Hn Hw]|Hno].
    + destruct (IH ({[ n ]} ∪ V) (n :: st) Hlt') as (new & V' & Hf & Hnd & HV & Hnew).
      exists (new ++ [n]), V'. split; [by rewrite Hf, <- app_assoc|].
      split; [|split].
      * apply NoDup_app. split; [done|]. split; [|apply NoDup_singleton].
        intros i Hi Hi'. apply list_elem_of_singleton in Hi' as ->.
        apply Hnew in Hi as (_ & Hi & _). apply Hi.
        apply elem_of_union. left. by apply elem_of_singleton.
      * intros i. rewrite HV, elem_of_app, list_elem_of_singleton, elem_of_union, elem_of_singleton.
        tauto.
      * intros i. rewrite elem_of_app, list_elem_of_singleton, Hnew, elem_of_cons,
          elem_of_union, elem_of_singleton. split.
        -- intros [(Hi & HiV & Hiw)| ->]; [|split; [by left|by split]].
           split; [by right|]. split; [|done]. intros HiV'. apply HiV. by right.
        -- intros ([->|Hi] & HiV & Hiw); [by right|].
           destruct (decide (i = n)) as [->|Hne]; [by right|left].
           split; [done|]. split; [|done]. intros [?|?]; done.
    + destruct (IH V st Hlt') as (new & V' & Hf & Hnd & HV & Hnew).
      exists new, V'. split; [done|]. split; [done|]. split; [done|].
      intros i. rewrite Hnew, elem_of_cons. split.
      * intros (Hi & HiV & Hiw). by split; [right|].
      * intros ([->|Hi] & HiV & Hiw); [by destruct Hno|done].
Qed.

(** What holds at every turn of the flood that started from [s] when the
    tiles of [V0] had been visited. *)
Record flood_inv (V0 : gset nat) (s : nat) (stack : list nat) (V : gset nat)
    (comp : list nat) : Prop := {
  fi_nodup : NoDup (comp ++ stack);
  fi_visited : forall i, i ∈ V <-> i ∈ V0 ∨ i ∈ comp ∨ i ∈ stack;
  fi_land : forall i, i ∈ comp ++ stack -> is_land g i ∧ connected g s i ∧ i ∉ V0;
  fi_closed : forall i j, i ∈ comp -> land_step g i j -> j ∈ V;
  fi_start : s ∈ comp ++ stack
}.

Lemma flood_spec (fuel : nat) (V0 : gset nat) (s : nat) :
  forall stack V comp,
    flood_inv V0 s stack V comp ->
    (length (tiles g) - length comp < fuel)%nat ->
    exists V' comp', flood fuel g stack V comp = Some (V', comp')
                     ∧ flood_inv V0 s [] V' comp'.
Proof.
  induction fuel as [|fuel IH]; intros stack V comp Hinv Hfuel; [lia|].
  destruct stack as [|idx st]; [by exists V, comp|].
  cbn [flood].
  destruct Hinv as [Hnd HV Hland Hclosed Hstart].
  destruct (push_all_spec (_neighbors g (Tile.x (tile_at g idx)) (Tile.y (tile_at g idx))) V st)
    as (new & V' & Hf & Hndn & HV' & Hnew).
  { intros n Hn. by apply neighbors_of_tile in Hn as [? _]. }
  rewrite Hf.
  assert (Hidx : is_land g idx ∧ connected g s idx ∧ idx ∉ V0).
  { apply Hland. rewrite elem_of_app. right. left. }
  assert (Hinv' : flood_inv V0 s (new ++ st) V' (comp ++ [idx])).
  { split.
    - rewrite <- app_assoc. cbn [app].
      apply NoDup_app in Hnd as (Hc & Hdisj & Hst).
      apply NoDup_cons in Hst as [Hidx_st Hst].
      apply NoDup_app. split; [done|]. split.
      + intros i Hi Hi'. apply elem_of_cons in Hi' as [->|Hi'].
        * apply (Hdisj idx Hi). left.
        * apply elem_of_app in Hi' as [Hi'|Hi'].
          -- apply Hnew in Hi' as (_ & HiV & _). apply HiV, HV. right. by left.
          -- apply (Hdisj i Hi). by right.
      + apply NoDup_cons. split.
        * intros Hi. apply elem_of_app in Hi as [Hi|Hi]; [|done].
          apply Hnew in Hi as (_ & HiV & _). apply HiV, HV. right. right. left.
        * apply NoDup_app. split; [done|]. split; [|done].
          intros i Hi Hi'. apply Hnew in Hi as (_ & HiV & _). apply HiV, HV.
          right. right. by right.
    - intros i. rewrite HV', HV, !elem_of_app, elem_of_cons, list_elem_of_singleton. tauto.
    - intros i Hi. rewrite <- app_assoc in Hi. cbn [app] in Hi.
      apply elem_of_app in Hi as [Hi|Hi].
      { apply Hland. rewrite elem_of_app. by left. }
      apply elem_of_cons in Hi as [->|Hi]; [done|].
      apply elem_of_app in Hi as [Hi|Hi].
      2:{ apply Hland. rewrite elem_of_app. right. by right. }
      apply Hnew in Hi as (Hn & HiV & Hw).
      apply neighbors_of_tile in Hn as [Hlt Hd].
      assert (Hli : is_land g i) by done.
      split; [done|]. split.
      + destruct Hidx as (Hl & Hc & _). eapply rtc_r; [exact Hc|]. by split; [|split].
      + intros Hi0. apply HiV, HV. by left.
    - intros i j Hi Hstep. apply elem_of_app in Hi as [Hi|Hi].
      + apply HV'. right. by apply (Hclosed i j).
      + apply list_elem_of_singleton in Hi as ->.
        destruct Hstep as (_ & [Hlt Hw] & Hd).
        destruct (decide (j ∈ V)) as [Hj|Hj]; [apply HV'; by right|].
        apply HV'. left. apply Hnew. split; [|done].
        apply neighbors_of_tile. by split.
    - rewrite <- app_assoc. cbn [app].
      rewrite elem_of_app, elem_of_cons, elem_of_app.
      rewrite elem_of_app, elem_of_cons in Hstart. tauto. }
  apply IH; [exact Hinv'|].
  assert (length (comp ++ [idx]) <= length (tiles g))%nat.
  { apply NoDup_below.
    - destruct Hinv' as [Hnd' _ _ _ _]. by apply NoDup_app in Hnd' as [? _].
    - intros i Hi. destruct Hinv' as [_ _ Hland' _ _].
      destruct (Hland' i) as ([? _] & _); [|done]. rewrite elem_of_app. by left. }
  rewrite length_app in *. cbn [length] in *. lia.
Qed.

End Flood.

Section Components.
Variable g : Gen.
Hypothesis Hok : grid_ok g.

(** A whole landmass: its tiles are joined to one another, and a land tile
    next to one of them is one of them. *)
Record landmass (c : list nat) : Prop := {
  lm_nodup : NoDup c;
  lm_land : forall i, i ∈ c -> is_land g i;
  lm_conn : forall i j, i ∈ c -> j ∈ c -> connected g i j;
  lm_closed : forall i j, i ∈ c -> land_step g i j -> j ∈ c
}.

Lemma landmass_whole c i j : landmass c -> i ∈ c -> connected g i j -> j ∈ c.
Proof.
  intros Hc Hi H. induction H as [|x y z Hxy _ IH]; [done|].
  apply IH. by apply (lm_closed c Hc x y).
Qed.

(** One flood, from a land tile not yet visited, when the tiles visited so
    far are closed under adjacency: it returns the landmass of the start. *)
Lemma flood_landmass (V0 : gset nat) (s : nat) :
  (forall i j, i ∈ V0 -> land_step g i j -> j ∈ V0) -> is_land g s -> s ∉ V0 ->
  exists V' comp,
    flood (S (length (tiles g))) g [s] ({[ s ]} ∪ V0) [] = Some (V', comp)
    ∧ landmass comp ∧ s ∈ comp
    ∧ (forall i, i ∈ comp -> i ∉ V0)
    ∧ (forall i, i ∈ V' <-> i ∈ V0 ∨ i ∈ comp).
Proof.
  intros Hclosed Hs HsV.
  destruct (flood_spec g Hok (S (length (tiles g))) V0 s [s] ({[ s ]} ∪ V0) [])
    as (V' & comp & Hf & [Hnd HV Hland Hcl Hstart]).
  - split.
    + apply NoDup_singleton.
    + intros i. rewrite elem_of_union, elem_of_singleton, elem_of_nil, list_elem_of_singleton.
      tauto.
    + intros i Hi. apply list_elem_of_singleton in Hi as ->.
      split; [done|]. split; [apply rtc_refl|done].
    + intros i j Hi. by apply elem_of_nil in Hi.
    + by apply list_elem_of_singleton.
  - cbn [length]. lia.
  - rewrite app_nil_r in *. exists V', comp. split; [exact Hf|].
    assert (HV2 : forall i, i ∈ V' <-> i ∈ V0 ∨ i ∈ comp).
    { intros i. rewrite HV, elem_of_nil. tauto. }
    split; [|split; [exact Hstart|split; [|exact HV2]]].
    + split.
      * exact Hnd.
      * intros i Hi. by destruct (Hland i Hi).
      * intros i j Hi Hj. destruct (Hland i Hi) as (_ & Hci & _).
        destruct (Hland j Hj) as (_ & Hcj & _).
        unfold connected. etrans; [apply connected_sym; exact Hci|exact Hcj].
      * intros i j Hi Hstep. pose proof (Hcl i j Hi Hstep) as Hj.
        apply HV2 in Hj as [Hj|Hj]; [|done].
        destruct (Hland i Hi) as (_ & _ & HiV). destruct HiV.
        apply (Hclosed j i Hj). by apply land_step_sym.
    + intros i Hi. by destruct (Hland i Hi) as (_ & _ & ?).
Qed.

(** What holds of the components found when the land tiles of [done] have
    been scanned. *)
Record found (done : list nat) (V : gset nat) (cs : list (list nat)) : Prop := {
  fd_closed : forall i j, i ∈ V -> land_step g i j -> j ∈ V;
  fd_visited : forall i, i ∈ V <-> exists c, c ∈ cs ∧ i ∈ c;
  fd_comps : forall c, c ∈ cs -> landmass c;
  fd_done : forall i, i ∈ done -> i ∈ V;
  fd_least : forall c, c ∈ cs -> exists m, m ∈ c ∧ m ∈ done ∧ forall i, i ∈ c -> (m <= i)%nat;
  fd_order : forall a b d c, (a < b)%nat -> cs !! a = Some d -> cs !! b = Some c ->
             exists m, m ∈ d ∧ forall i, i ∈ c -> (m < i)%nat
}.

Lemma find_components_spec (todo : list nat) :
  forall done V cs,
    land_indices g = done ++ todo -> found done V cs ->
    exists V' cs',
      find_components (S (length (tiles g))) g todo V cs = Some cs'
      ∧ found (land_indices g) V' cs'.
Proof.
  induction todo as [|s todo IH]; intros done V cs Hsplit Hfound.
  - rewrite app_nil_r in Hsplit. rewrite Hsplit. by exists V, cs.
  - cbn [find_components].
    assert (Hsplit' : land_indices g = (done ++ [s]) ++ todo) by by rewrite <- app_assoc.
    destruct (filter_seq_split _ _ _ _ _ _ Hsplit) as [Hbefore _].
    destruct Hfound as [Hclosed HV Hcomps Hdone Hleast Horder].
    destruct (decide (s ∈ V)) as [HsV|HsV].
    + rewrite (bool_decide_eq_true_2 _ HsV).
      apply (IH (done ++ [s]) V cs Hsplit'). split; try done.
      * intros i Hi. apply elem_of_app in Hi as [Hi|Hi]; [by apply Hdone|].
        by apply list_elem_of_singleton in Hi as ->.
      * intros c Hc. destruct (Hleast c Hc) as (m & Hm & Hmd & Hmin).
        exists m. split; [done|]. split; [|done]. rewrite elem_of_app. by left.
    + rewrite (bool_decide_eq_false_2 _ HsV).
      assert (Hs : is_land g s).
      { apply land_indices_elem. rewrite Hsplit, elem_of_app. right. left. }
      destruct (flood_landmass V s Hclosed Hs HsV) as (V' & comp & -> & Hlm & Hsc & Hfresh & HV').
      assert (Hge : forall i, i ∈ comp -> (s <= i)%nat).
      { intros i Hi. destruct (decide (s <= i)%nat) as [|Hlt]; [done|].
        destruct (Hfresh i Hi). apply Hdone.
        assert (Hil : i ∈ land_indices g) by (apply land_indices_elem, (lm_land comp Hlm i Hi)).
        rewrite Hsplit, elem_of_app, elem_of_cons in Hil.
        destruct Hil as [Hil|[->|Hil]]; [done|lia|].
        destruct (filter_seq_split _ _ _ _ _ _ Hsplit) as [_ Hafter].
        specialize (Hafter i Hil). lia. }
      apply (IH (done ++ [s]) V' (cs ++ [comp]) Hsplit'). split.
      * intros i j Hi Hstep. apply HV' in Hi as [Hi|Hi]; apply HV'.
        -- left. by apply (Hclosed i j).
        -- right. by apply (lm_closed comp Hlm i j).
      * intros i. rewrite HV', HV. split.
        -- intros [(c & Hc & Hi)|Hi].
           ++ exists c. split; [|done]. rewrite elem_of_app. by left.
           ++ exists comp. split; [|done]. rewrite elem_of_app. right. left.
        -- intros (c & Hc & Hi). apply elem_of_app in Hc as [Hc|Hc].
           ++ left. by exists c.
           ++ apply list_elem_of_singleton in Hc as ->. by right.
      * intros c Hc. apply elem_of_app in Hc as [Hc|Hc]; [by apply Hcomps|].
        by apply list_elem_of_singleton in Hc as ->.
      * intros i Hi. apply HV'. apply elem_of_app in Hi as [Hi|Hi]; [left; by apply Hdone|].
        apply list_elem_of_singleton in Hi as ->. by right.
      * intros c Hc. apply elem_of_app in Hc as [Hc|Hc].
        -- destruct (Hleast c Hc) as (m & Hm & Hmd & Hmin).
           exists m. split; [done|]. split; [|done]. rewrite elem_of_app. by left.
        -- apply list_elem_of_singleton in Hc as ->.
           exists s. split; [done|]. split; [|done]. rewrite elem_of_app. right. left.
      * intros a b d c Hab Ha Hb.
        apply lookup_snoc_Some in Hb as [[Hblt Hb]| [-> <-]].
        -- apply lookup_snoc_Some in Ha as [[_ Ha]|[-> _]]; [|lia].
           by apply (Horder a b d c).
        -- apply lookup_snoc_Some in Ha as [[_ Ha]|[-> _]]; [|lia].
           destruct (Hleast d) as (m & Hm & Hmd & _);
             [by apply (list_elem_of_lookup_2 _ a)|].
           exists m. split; [done|]. intros i Hi.
           specialize (Hbefore m Hmd). specialize (Hge i Hi). lia.
Qed.

(** The components found: the budget is enough. *)
Lemma components_of_found :
  exists V cs, components_of g = Some cs ∧ found (land_indices g) V cs.
Proof.
  unfold components_of. apply (find_components_spec (land_indices g) [] ∅ []); [done|].
  split.
  - intros i j Hi. by apply elem_of_empty in Hi.
  - intros i. split; [intros Hi; by apply elem_of_empty in Hi|].
    intros (c & Hc & _). by apply elem_of_nil in Hc.
  - intros c Hc. by apply elem_of_nil in Hc.
  - intros i Hi. by apply elem_of_nil in Hi.
  - intros c Hc. by apply elem_of_nil in Hc.
  - intros a b d c _ Ha. by rewrite lookup_nil in Ha.
Qed.

End Components.

(** The stable sort puts first the first of the longest components. *)
Lemma insert_by_len_perm (c : list nat) (l : list (list nat)) : insert_by_len c l ≡ₚ c :: l.
Proof.
  induction l as [|d l IH]; cbn [insert_by_len]; [reflexivity|].
  destruct (length c <? length d)%nat; [|reflexivity].
  rewrite IH. apply Permutation_swap.
Qed.

Lemma sort_by_len_desc_head (cs : list (list nat)) :
  cs ≠ [] ->
  exists pre main post others,
    cs = pre ++ main :: post ∧ sort_by_len_desc cs = main :: others
    ∧ others ≡ₚ pre ++ post
    ∧ Forall (fun c => (length c < length main)%nat) pre
    ∧ Forall (fun c => (length c <= length main)%nat) post.
Proof.
  induction cs as [|c cs IH]; [done|]. intros _.
  destruct cs as [|c1 cs1].
  - exists [], c, [], []. split; [done|]. split; [done|]. split; [done|]. split; constructor.
  - destruct IH as (pre & main & post & others & Hsplit & Hsort & Hperm & Hpre & Hpost); [done|].
    change (sort_by_len_desc (c :: c1 :: cs1))
      with (insert_by_len c (sort_by_len_desc (c1 :: cs1))).
    rewrite Hsort. cbn [insert_by_len].
    destruct (Nat.ltb_spec (length c) (length main)) as [Hlt|Hge].
    + exists (c :: pre), main, post, (insert_by_len c others).
      split; [by rewrite Hsplit|]. split; [done|].
      split; [by rewrite insert_by_len_perm, Hperm|].
      split; [by constructor|done].
    + exists [], c, (c1 :: cs1), (main :: others).
      split; [done|]. split; [done|].
      split; [rewrite Hsplit, Hperm; cbn [app]; apply Permutation_middle|].
      split; [constructor|]. rewrite Hsplit. apply Forall_app. split.
      * eapply Forall_impl; [exact Hpre|]. intros d Hd. cbn in Hd. lia.
      * constructor; [lia|]. eapply Forall_impl; [exact Hpost|]. intros d Hd. cbn in Hd. lia.
Qed.

(** Drowning the tiles of a list. *)
Lemma update_all_length (f : Tile.t -> Tile.t) (l : list nat) (g : Gen) :
  length (tiles (fold_left (fun g idx => update_tile idx f g) l g)) = length (tiles g).
Proof.
  apply (fold_left_inv (fun g' => length (tiles g') = length (tiles g))); [|done].
  intros i g1 _ <-. exact (length_update_tile _ _ _).
Qed.

Lemma update_all_tile (f : Tile.t -> Tile.t) (l : list nat) (g : Gen) (i : nat) :
  (forall t, f (f t) = f t) ->
  tile_at (fold_left (fun g idx => update_tile idx f g) l g) i
  = if decide (i ∈ l ∧ (i < length (tiles g))%nat) then f (tile_at g i) else tile_at g i.
Proof.
  intros Hf. revert g. induction l as [|a l IH]; intros g; cbn [fold_left].
  - destruct (decide _) as [[H _]|_]; [by apply elem_of_nil in H|done].
  - rewrite IH, length_update_tile, tile_at_alter.
    destruct (decide (a = i)) as [->|Hne].
    + destruct (decide (i < length (tiles g))%nat) as [Hlt|Hge].
      * destruct (decide (i ∈ i :: l ∧ _)) as [_|Hn]; [|destruct Hn; split; [left|done]].
        destruct (decide _); [|done]. by rewrite Hf.
      * destruct (decide (i ∈ l ∧ _)) as [[_ ?]|_]; [done|].
        by destruct (decide (i ∈ i :: l ∧ _)) as [[_ ?]|_].
    + destruct (decide (i ∈ l ∧ _)) as [[Hin Hlt]|Hn].
      * destruct (decide (i ∈ a :: l ∧ _)) as [_|Hn]; [done|].
        destruct Hn; split; [by right|done].
      * destruct (decide (i ∈ a :: l ∧ _)) as [[Hin Hlt]|_]; [|done].
        apply elem_of_cons in Hin as [->|Hin]; [done|]. destruct Hn. by split.
Qed.

Lemma elem_of_concat {A} (ls : list (list A)) (a : A) :
  a ∈ concat ls <-> exists l, l ∈ ls ∧ a ∈ l.
Proof.
  rewrite list_elem_of_In, in_concat. split; intros (l & H1 & H2); exists l.
  - by rewrite !list_elem_of_In.
  - by rewrite <- !list_elem_of_In.
Qed.

Lemma drown_all_concat (cs : list (list nat)) (g : Gen) :
  drown_all cs g = fold_left (fun g idx => update_tile idx Tile.drown g) (concat cs) g.
Proof.
  unfold drown_all. revert g. induction cs as [|c cs IH]; intros g; cbn [fold_left concat]; [done|].
  by rewrite IH, fold_left_app.
Qed.

Lemma drown_all_tile (cs : list (list nat)) (g : Gen) (i : nat) :
  tile_at (drown_all cs g) i
  = if decide (i ∈ concat cs ∧ (i < length (tiles g))%nat)
    then Tile.drown (tile_at g i) else tile_at g i.
Proof. rewrite drown_all_concat. by apply update_all_tile. Qed.

Lemma enforce_unfold (g : Gen) (cs : list (list nat)) :
  land_indices g ≠ [] -> components_of g = Some cs ->
  _enforce_continent_connectivity g
  = if (length cs <=? 1)%nat then g
    else match sort_by_len_desc cs with
         | [] => g
         | _ :: others => drown_all others g
         end.
Proof.
  unfold _enforce_continent_connectivity. intros Hl ->. by destruct (land_indices g).
Qed.

Section Enforce.
Variable g : Gen.
Hypothesis Hok : grid_ok g.

(** Components found at different places share no tile, and the tiles of a
    later one come after the first tile of an earlier one. *)
Lemma found_split V cs pre c post :
  found g (land_indices g) V cs -> cs = pre ++ c :: post ->
  (forall d i, d ∈ pre ++ post -> i ∈ d -> i ∉ c)
  ∧ (forall d, d ∈ post -> exists m, m ∈ c ∧ forall i, i ∈ d -> (m < i)%nat).
Proof.
  intros [_ _ Hcomps _ _ Horder] ->.
  assert (Hc : (pre ++ c :: post) !! length pre = Some c) by (by apply list_lookup_middle).
  assert (Hpost : forall d, d ∈ post -> exists m, m ∈ c ∧ forall i, i ∈ d -> (m < i)%nat).
  { intros d Hd. apply list_elem_of_lookup_1 in Hd as [b Hb].
    apply (Horder (length pre) (length pre + S b)%nat c d); [lia|done|].
    rewrite lookup_app_r by lia. replace (length pre + S b - length pre)%nat with (S b) by lia.
    done. }
  split; [|exact Hpost].
  assert (Hlc : landmass g c).
  { apply Hcomps. rewrite elem_of_app. right. left. }
  intros d i Hd Hi Hic. apply elem_of_app in Hd as [Hd|Hd].
  - assert (Hld : landmass g d) by (apply Hcomps; rewrite elem_of_app; by left).
    apply list_elem_of_lookup_1 in Hd as [a Ha].
    destruct (Horder a (length pre) d c) as (m & Hm & Hlt);
      [by apply lookup_lt_Some in Ha|by rewrite lookup_app_l by (by apply lookup_lt_Some in Ha)|done|].
    assert (Hmc : m ∈ c).
    { apply (landmass_whole g c i m Hlc Hic). by apply (lm_conn g d Hld). }
    specialize (Hlt m Hmc). lia.
  - assert (Hld : landmass g d).
    { apply Hcomps. rewrite elem_of_app. right. by right. }
    destruct (Hpost d Hd) as (m & Hm & Hlt).
    assert (Hmd : m ∈ d).
    { apply (landmass_whole g d i m Hld Hi). by apply (lm_conn g c Hlc). }
    specialize (Hlt m Hmd). lia.
Qed.

(** What the enforcement does when there is land: the first of the largest
    landmasses is kept as it is, the rest of the land is drowned. *)
Lemma enforce_spec :
  land_indices g ≠ [] ->
  exists V cs pre main post,
    found g (land_indices g) V cs
    ∧ cs = pre ++ main :: post
    ∧ Forall (fun c => (length c < length main)%nat) pre
    ∧ Forall (fun c => (length c <= length main)%nat) post
    ∧ (forall i, i ∈ main -> tile_at (_enforce_continent_connectivity g) i = tile_at g i)
    ∧ (forall i, is_land g i -> i ∉ main ->
         tile_at (_enforce_continent_connectivity g) i = Tile.drown (tile_at g i))
    ∧ (forall i, ¬ is_land g i -> tile_at (_enforce_continent_connectivity g) i = tile_at g i).
Proof.
  intros Hl. destruct (components_of_found g Hok) as (V & cs & Hcomp & Hfound).
  rewrite (enforce_unfold g cs Hl Hcomp).
  assert (Hall : forall i, is_land g i -> exists c, c ∈ cs ∧ i ∈ c).
  { intros i Hi. apply (fd_visited g _ _ _ Hfound), (fd_done g _ _ _ Hfound).
    by apply land_indices_elem. }
  assert (Hne : cs ≠ []).
  { intros ->. destruct (land_indices g) as [|i0 l0] eqn:Hli; [done|].
    destruct (Hall i0) as (c & Hc & _); [|by apply elem_of_nil in Hc].
    apply land_indices_elem. rewrite Hli. left. }
  exists V, cs.
  destruct (Nat.leb_spec (length cs) 1) as [Hlen|Hlen].
  - destruct cs as [|c [|c' cs']]; [done| |cbn in Hlen; lia].
    exists [], c, []. split; [done|]. split; [done|]. split; [constructor|]. split; [constructor|].
    split; [done|]. split; [|done].
    intros i Hi Hic. destruct (Hall i Hi) as (c' & Hc' & Hi').
    apply list_elem_of_singleton in Hc' as ->. done.
  - destruct (sort_by_len_desc_head cs Hne)
      as (pre & main & post & others & Hsplit & -> & Hperm & Hpre & Hpost).
    exists pre, main, post. split; [done|]. split; [done|]. split; [done|]. split; [done|].
    destruct (found_split V cs pre main post Hfound Hsplit) as [Hdisj _].
    assert (Hothers : forall i, i ∈ concat others <-> exists d, d ∈ pre ++ post ∧ i ∈ d).
    { intros i. rewrite elem_of_concat. split; intros (d & H1 & H2); exists d.
      - split; [|done]. by rewrite <- Hperm.
      - split; [by rewrite Hperm|done]. }
    split; [|split].
    + intros i Hi. rewrite drown_all_tile.
      destruct (decide _) as [[Hin _]|_]; [|done].
      apply Hothers in Hin as (d & Hd & Hid). by destruct (Hdisj d i Hd Hid).
    + intros i Hi Him. rewrite drown_all_tile.
      destruct (decide _) as [_|Hn]; [done|]. destruct Hn. split; [|by destruct Hi].
      apply Hothers. destruct (Hall i Hi) as (c & Hc & Hic). exists c. split; [|done].
      rewrite Hsplit, elem_of_app, elem_of_cons in Hc. rewrite elem_of_app.
      destruct Hc as [Hc|[->|Hc]]; [by left|done|by right].
    + intros i Hi. rewrite drown_all_tile.
      destruct (decide _) as [[Hin _]|_]; [|done].
      apply Hothers in Hin as (d & Hd & Hid). destruct Hi.
      apply (lm_land g d); [|done]. apply (fd_comps g _ _ _ Hfound).
      rewrite Hsplit, elem_of_app, elem_of_cons. rewrite elem_of_app in Hd. tauto.
Qed.

End Enforce.

Section Kept.
Variable g : Gen.
Hypothesis Hok : grid_ok g.

(** The landmass that is kept, and how it compares with any other stretch
    of connected land. *)
Lemma kept_landmass :
  land_indices g ≠ [] ->
  exists main,
    landmass g main ∧ main ≠ []
    ∧ (forall i, i ∈ main -> tile_at (_enforce_continent_connectivity g) i = tile_at g i)
    ∧ (forall i, is_land g i -> i ∉ main ->
         tile_at (_enforce_continent_connectivity g) i = Tile.drown (tile_at g i))
    ∧ (forall i, ¬ is_land g i -> tile_at (_enforce_continent_connectivity g) i = tile_at g i)
    ∧ (forall other, other ≠ [] -> NoDup other ->
         (forall i, i ∈ other -> is_land g i) ->
         (forall i j, i ∈ other -> j ∈ other -> connected g i j) ->
         (length other <= length main)%nat
         ∧ (length other = length main ->
            exists k, k ∈ main ∧ forall i, i ∈ other -> (k <= i)%nat)).
Proof.
  intros Hl.
  destruct (enforce_spec g Hok Hl)
    as (V & cs & pre & main & post & Hfound & Hsplit & Hpre & Hpost & Hkeep & Hdrown & Hwater).
  exists main.
  assert (Hin : main ∈ cs) by (rewrite Hsplit, elem_of_app; right; left).
  pose proof (fd_comps g _ _ _ Hfound main Hin) as Hlm.
  destruct (fd_least g _ _ _ Hfound main Hin) as (m0 & Hm0 & _ & Hmin).
  split; [exact Hlm|]. split; [by intros ->; apply elem_of_nil in Hm0|].
  split; [exact Hkeep|]. split; [exact Hdrown|]. split; [exact Hwater|].
  intros other Hne Hnd Hland Hconn.
  destruct other as [|i0 rest] eqn:Hother; [done|]. rewrite <- Hother in *.
  assert (Hi0 : i0 ∈ other) by (rewrite Hother; left).
  destruct (proj1 (fd_visited g _ _ _ Hfound i0)) as (d & Hd & Hid).
  { apply (fd_done g _ _ _ Hfound), land_indices_elem, Hland, Hi0. }
  pose proof (fd_comps g _ _ _ Hfound d Hd) as Hld.
  assert (Hsub : forall i, i ∈ other -> i ∈ d).
  { intros i Hi. apply (landmass_whole g d i0 i Hld Hid). by apply Hconn. }
  assert (Hle : (length other <= length d)%nat).
  { apply submseteq_length, NoDup_submseteq; [done|]. exact Hsub. }
  destruct (found_split g V cs pre main post Hfound Hsplit) as [_ Hafter].
  rewrite Hsplit, elem_of_app, elem_of_cons in Hd.
  rewrite Forall_forall in Hpre, Hpost.
  destruct Hd as [Hd|[->|Hd]].
  - specialize (Hpre d Hd). cbn in Hpre. split; [lia|]. intros Heq. lia.
  - split; [done|]. intros _. exists m0. split; [done|]. intros i Hi. by apply Hmin, Hsub.
  - specialize (Hpost d Hd). cbn in Hpost. split; [lia|]. intros _.
    destruct (Hafter d Hd) as (m & Hm & Hlt). exists m. split; [done|].
    intros i Hi. specialize (Hlt i (Hsub i Hi)). lia.
Qed.

(** The land that is left is the landmass kept, and the walks over it are
    walks still. *)
Lemma kept_walks (main : list nat) :
  landmass g main ->
  (forall i, i ∈ main -> tile_at (_enforce_continent_connectivity g) i = tile_at g i) ->
  (forall i, is_land g i -> i ∉ main ->
     tile_at (_enforce_continent_connectivity g) i = Tile.drown (tile_at g i)) ->
  (forall i, ¬ is_land g i -> tile_at (_enforce_continent_connectivity g) i = tile_at g i) ->
  (forall i, is_land (_enforce_continent_connectivity g) i <-> i ∈ main)
  ∧ (forall i j, i ∈ main -> connected g i j ->
       connected (_enforce_continent_connectivity g) i j).
Proof.
  intros Hlm Hkeep Hdrown Hwater.
  destruct (enforce_rel g) as (Hrel & _ & _).
  pose proof (tiles_rel_length _ _ _ Hrel) as Hlen.
  assert (Hland' : forall i, is_land (_enforce_continent_connectivity g) i <-> i ∈ main).
  { intros i. unfold is_land. rewrite Hlen. split.
    - intros [Hlt Hw]. destruct (decide (i ∈ main)) as [|Hni]; [done|].
      destruct (Tile.water (tile_at g i)) eqn:Hwi.
      + rewrite Hwater in Hw; [congruence|]. intros [_ ?]. congruence.
      + rewrite Hdrown in Hw; [done|by split|done].
    - intros Hi. rewrite (Hkeep i Hi). exact (lm_land g main Hlm i Hi). }
  split; [exact Hland'|].
  intros i j Hi H. induction H as [|x y z Hxy _ IH]; [apply rtc_refl|].
  pose proof (lm_closed g main Hlm x y Hi Hxy) as Hy.
  eapply rtc_l; [|by apply IH].
  destruct Hxy as (_ & _ & Hd).
  split; [by apply Hland'|]. split; [by apply Hland'|].
  unfold coords. by rewrite (Hkeep x Hi), (Hkeep y Hy).
Qed.

(** After the enforcement the land is one landmass. *)
Lemma enforce_one_landmass :
  ((exists i, is_land g i) -> exists i, is_land (_enforce_continent_connectivity g) i)
  ∧ (forall i j, is_land (_enforce_continent_connectivity g) i ->
       is_land (_enforce_continent_connectivity g) j ->
       connected (_enforce_continent_connectivity g) i j).
Proof.
  destruct (decide (land_indices g = [])) as [Hnil|Hl].
  - assert (Hsame : _enforce_continent_connectivity g = g).
    { unfold _enforce_continent_connectivity. by rewrite Hnil. }
    rewrite Hsame. split; [done|]. intros i j Hi.
    apply land_indices_elem in Hi. rewrite Hnil in Hi. by apply elem_of_nil in Hi.
  - destruct (kept_landmass Hl) as (main & Hlm & Hne & Hkeep & Hdrown & Hwater & _).
    destruct (kept_walks main Hlm Hkeep Hdrown Hwater) as [Hland' Hwalk].
    split.
    + intros _. destruct main as [|m rest]; [done|]. exists m. apply Hland'. left.
    + intros i j Hi Hj. apply Hland' in Hi, Hj.
      apply (Hwalk i j Hi). by apply (lm_conn g main Hlm).
Qed.

End Kept.

(** ** Water, biomes and the landmass (claim C8) *)

(** The two loops of either mode, before the enforcement of the continent
    and the rivers. *)
Definition raw_grid (g : Gen) : Res Gen :=
  match mode g with
  | continent => continent_grid g
  | archipelago => archipelago_grid g
  end.

(** The biome of a land tile as claim C8 words it: mountain if the elevation
    is above 0.85, else highland if it is above 0.7, else desert if the
    moisture is below 0.2, else grassland if it is below 0.45, else
    temperate forest if it is below 0.75, else wetlands. *)
Definition biome_by_thresholds (e m : float) (b : Biome) : Prop :=
  match b with
  | ocean => False
  | mountain => PrimFloat.ltb 0.85 e = true
  | highland => PrimFloat.ltb 0.85 e = false ∧ PrimFloat.ltb 0.7 e = true
  | desert =>
      PrimFloat.ltb 0.85 e = false ∧ PrimFloat.ltb 0.7 e = false
      ∧ PrimFloat.ltb m 0.2 = true
  | grassland =>
      PrimFloat.ltb 0.85 e = false ∧ PrimFloat.ltb 0.7 e = false
      ∧ PrimFloat.ltb m 0.2 = false ∧ PrimFloat.ltb m 0.45 = true
  | temperate_forest =>
      PrimFloat.ltb 0.85 e = false ∧ PrimFloat.ltb 0.7 e = false
      ∧ PrimFloat.ltb m 0.2 = false ∧ PrimFloat.ltb m 0.45 = false
      ∧ PrimFloat.ltb m 0.75 = true
  | wetlands =>
      PrimFloat.ltb 0.85 e = false ∧ PrimFloat.ltb 0.7 e = false
      ∧ PrimFloat.ltb m 0.2 = false ∧ PrimFloat.ltb m 0.45 = false
      ∧ PrimFloat.ltb m 0.75 = false
  end.

(** The largest landmass of the grid [g0], the first in row-major order
    among the largest: [main] is a whole landmass, it is not empty when
    there is land, no stretch of connected land has more tiles, and one
    with as many has no tile before the first tile of [main]. *)
Definition largest_landmass (g0 : Gen) (main : list nat) : Prop :=
  landmass g0 main
  ∧ ((exists i, is_land g0 i) -> main ≠ [])
  ∧ forall other, other ≠ [] -> NoDup other ->
      (forall i, i ∈ other -> is_land g0 i) ->
      (forall i j, i ∈ other -> j ∈ other -> connected g0 i j) ->
      (length other <= length main)%nat
      ∧ (length other = length main ->
         exists k, k ∈ main ∧ forall i, i ∈ other -> (k <= i)%nat).

(** What claim C8 can say of the tile [t] at place [i], of a map of sea
    level [sea_level] whose raw grid is [g0] and whose largest landmass is
    [main].  The tile was built from an elevation [e] and a moisture [m],
    which it stores rounded.  If it was land outside the largest landmass
    of a continent, it is ocean now.  Otherwise its water flag is
    [e < sea_level], and its biome is ocean when it is water and the one
    the ordered thresholds give when it is land. *)
Definition terrain_rule (md : Mode) (sea_level : float) (g0 : Gen) (main : list nat)
    (i : nat) (t : Tile.t) : Prop :=
  exists e m,
    tile_at g0 i = new_tile sea_level (Tile.x t) (Tile.y t) e m
    ∧ Tile.elevation t = round3 e ∧ Tile.moisture t = round3 m
    ∧ ((md = continent ∧ PrimFloat.ltb e sea_level = false ∧ (i ∉ main)
        ∧ Tile.water t = true ∧ Tile.biome t = ocean)
       ∨ (¬ (md = continent ∧ PrimFloat.ltb e sea_level = false ∧ (i ∉ main))
          ∧ Tile.water t = PrimFloat.ltb e sea_level
          ∧ if Tile.water t then Tile.biome t = ocean
            else biome_by_thresholds e m (Tile.biome t))).

Lemma choose_biome_thresholds (e m : float) :
  biome_by_thresholds e m (_choose_biome e m false).
Proof.
  unfold _choose_biome.
  destruct (PrimFloat.ltb 0.85 e) eqn:H1; [done|].
  destruct (PrimFloat.ltb 0.7 e) eqn:H2; [done|].
  destruct (PrimFloat.ltb m 0.2) eqn:H3; [done|].
  destruct (PrimFloat.ltb m 0.45) eqn:H4; [done|].
  by destruct (PrimFloat.ltb m 0.75) eqn:H5.
Qed.

Lemma largest_landmass_no_land (g0 : Gen) : land_indices g0 = [] -> largest_landmass g0 [].
Proof.
  intros Hnil.
  assert (Hno : forall i, ¬ is_land g0 i).
  { intros i Hi. apply land_indices_elem in Hi. rewrite Hnil in Hi. by apply elem_of_nil in Hi. }
  split; [|split].
  - split.
    + constructor.
    + intros i Hi. by apply elem_of_nil in Hi.
    + intros i j Hi. by apply elem_of_nil in Hi.
    + intros i j Hi. by apply elem_of_nil in Hi.
  - intros [i Hi]. by destruct (Hno i).
  - intros other Hne _ Hland _. destruct other as [|i0 rest]; [done|].
    destruct (Hno i0). apply Hland. left.
Qed.

(** The grid stage, with the landmass that the enforcement keeps: the
    terrain of the finished grid is that of the raw grid, but for the land
    outside the largest landmass of a continent, which is drowned. *)
Lemma grid_stage_landmass (g g1 : Gen) :
  tiles g = [] -> _generate_base_tiles g = Ok g1 ->
  exists g0 main,
    raw_grid g = Ok g0
    ∧ Forall2 (fresh_tile (base_sea_level g)) (grid_coords (width g) (height g)) (tiles g0)
    ∧ length (tiles g1) = length (tiles g0)
    ∧ (mode g = continent -> largest_landmass g0 main)
    ∧ forall i,
        (mode g = continent ∧ is_land g0 i ∧ (i ∉ main) ->
         terrain (tile_at g1 i) = terrain (Tile.drown (tile_at g0 i)))
        ∧ (¬ (mode g = continent ∧ is_land g0 i ∧ (i ∉ main)) ->
           terrain (tile_at g1 i) = terrain (tile_at g0 i)).
Proof.
  intros Hnil H. unfold _generate_base_tiles in H.
  apply bind_Ok in H as (ge & He & H). injection H as Hg1.
  destruct (carve_rivers_rel (Z.max 4 (width ge * height ge / 700)) ge) as (Hriv & _ & _).
  rewrite Hg1 in Hriv.
  assert (Hterr : forall i, terrain (tile_at g1 i) = terrain (tile_at ge i)).
  { intros i. by destruct (tiles_rel_at_all river_added ge g1 i river_added_refl Hriv). }
  pose proof (tiles_rel_length _ _ _ Hriv) as Hlen.
  clear Hriv Hg1.
  pose proof (grid_built g) as Hb. unfold raw_grid.
  destruct (mode g) eqn:Hm.
  - apply bind_Ok in He as (g0 & H0 & He). injection He as <-.
    destruct (Hb g0 Hnil H0) as (Hc0 & _ & Hts).
    assert (Hok : grid_ok g0).
    { unfold grid_ok. rewrite (fresh_tiles_coords _ _ _ Hts).
      unfold config in Hc0. by injection Hc0 as -> -> _ _ _ _. }
    destruct (enforce_rel g0) as (Hrel & _ & _).
    pose proof (tiles_rel_length _ _ _ Hrel) as Hlen0.
    destruct (decide (land_indices g0 = [])) as [Hnl|Hl].
    + exists g0, []. split; [exact H0|]. split; [exact Hts|]. split; [congruence|].
      split; [intros _; by apply largest_landmass_no_land|].
      assert (Hsame : _enforce_continent_connectivity g0 = g0).
      { unfold _enforce_continent_connectivity. by rewrite Hnl. }
      rewrite Hsame in Hterr. intros i. split; [|intros _; apply Hterr].
      intros (_ & Hi & _). apply land_indices_elem in Hi. rewrite Hnl in Hi.
      by apply elem_of_nil in Hi.
    + destruct (kept_landmass g0 Hok Hl)
        as (main & Hlm & Hne & Hkeep & Hdrown & Hwater & Hlargest).
      exists g0, main. split; [exact H0|]. split; [exact Hts|]. split; [congruence|].
      split; [intros _; split; [exact Hlm|split; [done|exact Hlargest]]|].
      intros i. rewrite Hterr. split.
      * intros (_ & Hi & Hni). by rewrite (Hdrown i Hi Hni).
      * intros Hn. destruct (decide (i ∈ main)) as [Hi|Hni]; [by rewrite (Hkeep i Hi)|].
        rewrite Hwater; [done|]. intros Hi. by destruct Hn.
  - destruct (Hb ge Hnil He) as (_ & _ & Hts).
    exists ge, []. split; [exact He|]. split; [exact Hts|]. split; [exact Hlen|].
    split; [done|]. intros i. split; [by intros [? _]|intros _; apply Hterr].
Qed.

(** The rule, from the terrain of the tile. *)
Lemma terrain_rule_from (md : Mode) (sea : float) (g0 : Gen) (main : list nat) (i : nat)
    (t : Tile.t) (x y : Z) (e m : float) :
  tile_at g0 i = new_tile sea x y e m ->
  (md = continent ∧ PrimFloat.ltb e sea = false ∧ (i ∉ main) ->
   terrain t = terrain (Tile.drown (tile_at g0 i))) ->
  (¬ (md = continent ∧ PrimFloat.ltb e sea = false ∧ (i ∉ main)) ->
   terrain t = terrain (tile_at g0 i)) ->
  terrain_rule md sea g0 main i t.
Proof.
  intros Hg0 Hstray Hkept. rewrite Hg0 in Hstray, Hkept. exists e, m.
  assert (Hdec : (md = continent ∧ PrimFloat.ltb e sea = false ∧ (i ∉ main))
                 ∨ ¬ (md = continent ∧ PrimFloat.ltb e sea = false ∧ (i ∉ main))).
  { destruct md; [|right; by intros [? _]].
    destruct (PrimFloat.ltb e sea); [right; by intros (_ & ? & _)|].
    destruct (decide (i ∈ main)) as [Hi|Hi]; [right; by intros (_ & _ & ?)|by left]. }
  destruct Hdec as [Hs|Hs].
  - specialize (Hstray Hs). unfold terrain in Hstray. cbn in Hstray.
    injection Hstray as -> -> -> -> -> ->.
    split; [exact Hg0|]. split; [done|]. split; [done|]. left.
    destruct Hs as (? & ? & ?). done.
  - specialize (Hkept Hs). unfold terrain in Hkept. cbn in Hkept.
    injection Hkept as -> -> -> -> -> ->.
    split; [exact Hg0|]. split; [done|]. split; [done|]. right.
    split; [exact Hs|]. split; [done|].
    destruct (PrimFloat.ltb e sea); [done|]. apply choose_biome_thresholds.
Qed.

(** C8, as amended.  In a run from a fresh generator there are the raw
    grid [g0] that the two loops build and, in continent mode, its largest
    landmass [main], such that at every stage from the finished grid on the
    tiles stand in row-major order and every tile obeys [terrain_rule]: it
    stores, rounded to three decimals, the elevation [e] and the moisture
    [m] it was built from; its water flag is [e < sea_level] and its biome
    is ocean on water and the one the ordered thresholds give for [e] and
    [m] on land, unless it was land outside the largest landmass of a
    continent, and then it is ocean.  A tile is water exactly when its
    biome is ocean, also between the steps of the grid stage. *)
Theorem terrain_rule_every_stage (g g' : Gen) :
  fresh g -> run_stages g = Ok g' ->
  exists trace g0 main,
    stage_trace g = Ok trace ∧ last trace = Some g'
    ∧ raw_grid g = Ok g0
    ∧ (mode g = continent -> largest_landmass g0 main)
    ∧ (forall s, s ∈ trace ->
         map (fun t => (Tile.x t, Tile.y t)) (tiles s) = grid_coords (width g) (height g)
         ∧ (forall i, (i < length (tiles s))%nat ->
              terrain_rule (mode g) (base_sea_level g) g0 main i (tile_at s i))
         ∧ Forall water_iff_ocean (tiles s))
    ∧ (forall g1, head trace = Some g1 ->
         Forall2 (grid_stage_iff_ocean (mode g) (base_sea_level g))
           (grid_coords (width g) (height g)) (tiles g1)).
Proof.
  intros Hfresh Hrun.
  destruct (run_stages_staged g g' Hfresh Hrun) as (h1 & h2 & h3 & h4 & St).
  assert (Htr : stage_trace g = Ok [h1; h2; h3; h4; _derive_roads h4; g']).
  { unfold stage_trace.
    rewrite (st_base _ _ _ _ _ _ St). cbn. rewrite (st_spawn _ _ _ _ _ _ St). cbn.
    rewrite (st_history _ _ _ _ _ _ St). cbn. rewrite (st_settle _ _ _ _ _ _ St). cbn.
    rewrite (st_ruins _ _ _ _ _ _ St). done. }
  destruct Hfresh as [Hnil _].
  destruct (grid_stage_landmass g h1 Hnil (st_base _ _ _ _ _ _ St))
    as (g0 & main & Hraw & Hts & Hlen1 & Hlargest & Hshape).
  exists [h1; h2; h3; h4; _derive_roads h4; g'], g0, main.
  split; [exact Htr|]. split; [done|]. split; [exact Hraw|]. split; [exact Hlargest|].
  pose proof (st_grid _ _ _ _ _ _ St) as Hgrid.
  split.
  - intros s Hs. destruct (staged_terrain _ _ _ _ _ _ s St Hs) as [Hrel Hconf].
    pose proof (Forall2_compose _ _ _ _ _ Hgrid Hrel) as Hc.
    assert (Hterr : forall i, terrain (tile_at s i) = terrain (tile_at h1 i)).
    { intros i. by destruct (tiles_rel_at_all land_kept h1 s i land_kept_refl Hrel). }
    split; [|split].
    + clear -Hc. induction Hc as [|c t cs ts (t1 & Hf & Hk) _ IH]; [done|].
      cbn [map]. rewrite IH. destruct Hk as [Hk _].
      destruct (terrain_coords _ _ Hk) as [-> ->].
      by destruct (finished_tile_fields _ _ _ _ Hf) as [-> _].
    + intros i Hi. rewrite (tiles_rel_length _ _ _ Hrel), Hlen1 in Hi.
      destruct (lookup_lt_is_Some_2 _ _ Hi) as [t0 Ht0].
      destruct (Forall2_lookup_r _ _ _ _ _ Hts Ht0) as (c & _ & e & m & He).
      assert (Hg0 : tile_at g0 i = new_tile (base_sea_level g) c.1 c.2 e m).
      { unfold tile_at. by rewrite (list_lookup_total_correct _ _ _ Ht0). }
      assert (Hland : is_land g0 i <-> PrimFloat.ltb e (base_sea_level g) = false).
      { unfold is_land. rewrite Hg0. cbn [Tile.water new_tile]. split; [by intros [_ ?]|by split]. }
      destruct (Hshape i) as [Hstray Hkept]. rewrite <- (Hterr i) in Hstray, Hkept.
      apply (terrain_rule_from _ _ _ _ _ _ c.1 c.2 e m Hg0).
      * intros (Hm & Hl & Hni). apply Hstray. split; [done|]. split; [by apply Hland|done].
      * intros Hn. apply Hkept. intros (Hm & Hl & Hni). apply Hn.
        split; [done|]. split; [by apply Hland|done].
    + eapply Forall2_Forall_r; [exact Hc|]. apply Forall_forall. intros c _ t (t1 & Hf & Hk).
      apply finished_tile_rule in Hf as (Hw & _). by eapply land_kept_water_iff_ocean.
  - intros g1 [= <-]. eapply Forall2_impl; [exact Hgrid|].
    intros c t (t0 & t1 & H0 & H1 & H2). exists t0, t1.
    pose proof (fresh_tile_water_iff_ocean _ _ _ H0) as W0.
    pose proof (drowned_water_iff_ocean _ _ _ H1 W0) as W1.
    assert (W2 : water_iff_ocean t).
    { destruct H2 as (Hterr & _). unfold water_iff_ocean in *.
      by rewrite (terrain_water _ _ Hterr), (terrain_biome _ _ Hterr). }
    done.
Qed.

Lemma terrain_rule_every_stage_witness :
  fresh island ∧ run_stages island = Ok island_final
  ∧ exists trace g0 main,
      stage_trace island = Ok trace ∧ last trace = Some island_final
      ∧ raw_grid island = Ok g0
      ∧ (mode island = continent -> largest_landmass g0 main)
      ∧ (forall s, s ∈ trace ->
           map (fun t => (Tile.x t, Tile.y t)) (tiles s)
           = grid_coords (width island) (height island)
           ∧ (forall i, (i < length (tiles s))%nat ->
                terrain_rule (mode island) (base_sea_level island) g0 main i (tile_at s i))
           ∧ Forall water_iff_ocean (tiles s))
      ∧ (forall g1, head trace = Some g1 ->
           Forall2 (grid_stage_iff_ocean (mode island) (base_sea_level island))
             (grid_coords (width island) (height island)) (tiles g1)).
Proof.
  split; [exact island_fresh|]. split; [exact island_run|].
  exact (terrain_rule_every_stage island island_final island_fresh island_run).
Defined.

(** X16.  [_enforce_continent_connectivity] on a grid in row-major order.
    A tile is left as it is or is a land tile that gets drowned, and the
    grid stays in row-major order.  What is left of the land is one
    landmass: any two land tiles are joined by a walk over land between
    adjacent tiles.  It is a whole landmass of the grid as it was, its
    tiles untouched; there is land left when there was land.  No stretch of
    connected land of the grid as it was has more tiles than the land left,
    and one with as many has no tile before the first tile of the land
    left: the largest landmass is kept, the first one in row-major order
    among the largest. *)
Theorem continent_is_one_landmass (g : Gen) :
  grid_ok g ->
  let g' := _enforce_continent_connectivity g in
  grid_ok g'
  ∧ (forall i, tile_at g' i = tile_at g i
               ∨ (is_land g i ∧ tile_at g' i = Tile.drown (tile_at g i)))
  ∧ (forall i j, is_land g' i -> is_land g' j -> connected g' i j)
  ∧ (forall i, is_land g' i ->
       is_land g i ∧ tile_at g' i = tile_at g i
       ∧ forall j, connected g i j -> is_land g' j)
  ∧ ((exists i, is_land g i) -> exists i, is_land g' i)
  ∧ (forall other, other ≠ [] -> NoDup other ->
       (forall i, i ∈ other -> is_land g i) ->
       (forall i j, i ∈ other -> j ∈ other -> connected g i j) ->
       (length other <= length (land_indices g'))%nat
       ∧ (length other = length (land_indices g') ->
          exists k, is_land g' k ∧ forall i, i ∈ other -> (k <= i)%nat)).
Proof.
  intros Hok g'.
  destruct (enforce_rel g) as (Hrel & Hconf & _). fold g' in Hrel, Hconf.
  pose proof (tiles_rel_length _ _ _ Hrel) as Hlen.
  assert (Hok' : grid_ok g').
  { apply (grid_ok_rel kept_or_drowned g g'); [|done..]. by intros a b [->| ->]. }
  split; [exact Hok'|].
  destruct (decide (land_indices g = [])) as [Hnil|Hl].
  - assert (Hsame : g' = g).
    { unfold g', _enforce_continent_connectivity. by rewrite Hnil. }
    assert (Hno : forall i, ¬ is_land g i).
    { intros i Hi. apply land_indices_elem in Hi. rewrite Hnil in Hi. by apply elem_of_nil in Hi. }
    rewrite Hsame. split; [by left|]. split; [intros i j Hi; by destruct (Hno i)|].
    split; [intros i Hi; by destruct (Hno i)|]. split; [done|].
    intros other Hne _ Hland _. destruct other as [|i0 rest]; [done|].
    destruct (Hno i0). apply Hland. left.
  - destruct (kept_landmass g Hok Hl)
      as (main & Hlm & Hne & Hkeep & Hdrown & Hwater & Hlargest).
    fold g' in Hkeep, Hdrown, Hwater.
    destruct (kept_walks g main Hlm Hkeep Hdrown Hwater) as [Hland' Hwalk].
    fold g' in Hland', Hwalk.
    assert (Hcount : length (land_indices g') = length main).
    { apply Permutation_length, NoDup_Permutation.
      - unfold land_indices. apply NoDup_filter, NoDup_seq.
      - exact (lm_nodup g main Hlm).
      - intros i. by rewrite land_indices_elem, Hland'. }
    split; [|split; [|split; [|split]]].
    + intros i. destruct (decide (i ∈ main)) as [Hi|Hi]; [left; by apply Hkeep|].
      destruct (decide (i < length (tiles g))%nat) as [Hlt|Hge].
      * destruct (Tile.water (tile_at g i)) eqn:Hwi.
        -- left. apply Hwater. intros [_ ?]. congruence.
        -- right. split; [by split|]. by apply Hdrown.
      * left. apply Hwater. intros [? _]. lia.
    + intros i j Hi Hj. apply Hland' in Hi, Hj.
      apply (Hwalk i j Hi). by apply (lm_conn g main Hlm).
    + intros i Hi. apply Hland' in Hi.
      split; [exact (lm_land g main Hlm i Hi)|]. split; [by apply Hkeep|].
      intros j Hj. apply Hland'. by apply (landmass_whole g main i j Hlm).
    + intros _. destruct main as [|m rest]; [done|]. exists m. apply Hland'. left.
    + intros other Hne' Hnd Hland Hconn. rewrite Hcount.
      destruct (Hlargest other Hne' Hnd Hland Hconn) as [Hle Htie].
      split; [exact Hle|]. intros Heq. destruct (Htie Heq) as (k & Hk & Hmin).
      exists k. split; [by apply Hland'|exact Hmin].
Qed.

(** The grid of [marches] before the enforcement: a landmass of 70 tiles
    and an islet of one. *)
Definition marches_raw : Gen := Eval vm_compute in value_or marches (continent_grid marches).

Lemma marches_raw_grid_ok : grid_ok marches_raw.
Proof. vm_compute. reflexivity. Qed.

Lemma continent_is_one_landmass_witness :
  grid_ok marches_raw ∧ (
  let g' := _enforce_continent_connectivity marches_raw in
  grid_ok g'
  ∧ (forall i, tile_at g' i = tile_at marches_raw i
               ∨ (is_land marches_raw i ∧ tile_at g' i = Tile.drown (tile_at marches_raw i)))
  ∧ (forall i j, is_land g' i -> is_land g' j -> connected g' i j)
  ∧ (forall i, is_land g' i ->
       is_land marches_raw i ∧ tile_at g' i = tile_at marches_raw i
       ∧ forall j, connected marches_raw i j -> is_land g' j)
  ∧ ((exists i, is_land marches_raw i) -> exists i, is_land g' i)
  ∧ (forall other, other ≠ [] -> NoDup other ->
       (forall i, i ∈ other -> is_land marches_raw i) ->
       (forall i j, i ∈ other -> j ∈ other -> connected marches_raw i j) ->
       (length other <= length (land_indices g'))%nat
       ∧ (length other = length (land_indices g') ->
          exists k, is_land g' k ∧ forall i, i ∈ other -> (k <= i)%nat))).
Proof. split; [exact marches_raw_grid_ok|]. exact (continent_is_one_landmass marches_raw marches_raw_grid_ok). Defined.

(** The budget of [components_of] is enough on a grid in row-major order. *)
Lemma find_components_enough_fuel (g : Gen) :
  grid_ok g -> exists cs, components_of g = Some cs.
Proof. intros Hok. destruct (components_of_found g Hok) as (V & cs & H & _). by exists cs. Qed.

(** Land and its walks depend on the terrain only. *)
Lemma connected_same_terrain (a b : Gen) :
  length (tiles b) = length (tiles a) ->
  (forall i, terrain (tile_at b i) = terrain (tile_at a i)) ->
  (forall i, is_land b i <-> is_land a i)
  ∧ (forall i j, connected a i j -> connected b i j).
Proof.
  intros Hlen Hterr.
  assert (Hf : forall i, Tile.x (tile_at b i) = Tile.x (tile_at a i)
                         ∧ Tile.y (tile_at b i) = Tile.y (tile_at a i)
                         ∧ Tile.water (tile_at b i) = Tile.water (tile_at a i)).
  { intros i. specialize (Hterr i). unfold terrain in Hterr. by injection Hterr as -> -> _ _ _ ->. }
  assert (Hland : forall i, is_land b i <-> is_land a i).
  { intros i. unfold is_land. destruct (Hf i) as (_ & _ & ->). by rewrite Hlen. }
  split; [exact Hland|].
  intros i j H. induction H as [|x y z (Hx & Hy & Hd) _ IH]; [apply rtc_refl|].
  eapply rtc_l; [|exact IH].
  split; [by apply Hland|]. split; [by apply Hland|].
  unfold coords in *. destruct (Hf x) as (-> & -> & _). by destruct (Hf y) as (-> & -> & _).
Qed.

(** X17.  A run in continent mode from a fresh generator: the terrain of
    the final state (coordinates, elevation, moisture, biome, water) is
    that of the raw grid after the enforcement of the continent, no later
    stage touches it; so the land of the final state is one landmass, any
    two land tiles joined by a walk over land between adjacent tiles, and
    there is land when the raw grid had some. *)
Theorem continent_run_one_landmass (g g' : Gen) :
  fresh g -> mode g = continent -> run_stages g = Ok g' ->
  exists g0,
    continent_grid g = Ok g0
    ∧ (forall i, terrain (tile_at g' i)
                 = terrain (tile_at (_enforce_continent_connectivity g0) i))
    ∧ ((exists i, is_land g0 i) -> exists i, is_land g' i)
    ∧ (forall i j, is_land g' i -> is_land g' j -> connected g' i j).
Proof.
  intros Hfresh Hmode Hrun.
  destruct (run_stages_staged g g' Hfresh Hrun) as (g1 & g2 & g3 & g4 & St).
  destruct (staged_terrain g g1 g2 g3 g4 g' g' St) as [Hkept _]; [do 5 right; left|].
  pose proof (st_base _ _ _ _ _ _ St) as Hbase.
  destruct Hfresh as [Hnil _].
  unfold _generate_base_tiles in Hbase. rewrite Hmode in Hbase.
  apply bind_Ok in Hbase as (ge & He & Hbase). injection Hbase as Hg1.
  apply bind_Ok in He as (g0 & H0 & He). injection He as <-.
  exists g0. split; [exact H0|].
  pose proof (grid_built g g0 Hnil) as Hb. rewrite Hmode in Hb.
  destruct (Hb H0) as (Hc0 & _ & Hts).
  assert (Hok : grid_ok g0).
  { unfold grid_ok. rewrite (fresh_tiles_coords _ _ _ Hts).
    unfold config in Hc0. by injection Hc0 as -> -> _ _ _ _. }
  set (e := _enforce_continent_connectivity g0) in *.
  destruct (carve_rivers_rel (Z.max 4 (width e * height e / 700)) e) as (Hriv & _ & _).
  rewrite Hg1 in Hriv.
  assert (Hterr : forall i, terrain (tile_at g' i) = terrain (tile_at e i)).
  { intros i.
    destruct (tiles_rel_at_all land_kept g1 g' i) as [-> _]; [by split|exact Hkept|].
    by destruct (tiles_rel_at_all river_added e g1 i) as [-> _]; [by repeat split|exact Hriv|]. }
  assert (Hlen : length (tiles g') = length (tiles e)).
  { by rewrite (tiles_rel_length _ _ _ Hkept), (tiles_rel_length _ _ _ Hriv). }
  destruct (connected_same_terrain e g' Hlen Hterr) as [Hland Hwalk].
  destruct (enforce_one_landmass g0 Hok) as (Hsome & Hone).
  split; [exact Hterr|]. split.
  - intros Hex. destruct (Hsome Hex) as (i & Hi). exists i. by apply Hland.
  - intros i j Hi Hj. apply Hwalk, Hone; by apply Hland.
Qed.

Lemma continent_run_one_landmass_witness :
  fresh marches ∧ mode marches = continent ∧ run_stages marches = Ok marches_final ∧ (
  exists g0,
    continent_grid marches = Ok g0
    ∧ (forall i, terrain (tile_at marches_final i)
                 = terrain (tile_at (_enforce_continent_connectivity g0) i))
    ∧ ((exists i, is_land g0 i) -> exists i, is_land marches_final i)
    ∧ (forall i j, is_land marches_final i -> is_land marches_final j -> connected marches_final i j)).
Proof.
  split; [exact marches_fresh|]. split; [reflexivity|]. split; [exact marches_run|].
  exact (continent_run_one_landmass marches marches_final marches_fresh eq_refl marches_run).
Defined.


(** ** The terminal map *)

(** Every key [ansi_key] can choose has a colour. *)
Lemma ansi_key_color data t pos : exists bg, dict_get COLORS (ansi_key data t pos) = Some bg.
Proof.
  unfold ansi_key. destruct (existsb _ _); [by eexists|].
  destruct (last _) as [st|].
  - destruct (Settlement.type st); by eexists.
  - destruct (Tile.water t); [destruct (PrimFloat.ltb _ _); by eexists|].
    destruct (Tile.river t); [by eexists|]. destruct (Tile.biome t); by eexists.
Qed.

(** The cell printed for [(x, y)] when its tile is there. *)
Definition ansi_paint (data : Document) (y x : Z) : string :=
  match doc_tiles data !! Z.to_nat (y * doc_width data + x) with
  | Some t =>
      match dict_get COLORS (ansi_key data t (x, y)) with
      | Some bg => bg +:+ "  " +:+ RESET
      | None => ""
      end
  | None => ""
  end.

Lemma ansi_row_Ok data y (xs : list Z) (row : list string) :
  (forall x, x ∈ xs -> is_Some (doc_tiles data !! Z.to_nat (y * doc_width data + x))) ->
  for_each xs (ansi_cell data y) row = Ok (row ++ map (ansi_paint data y) xs).
Proof.
  revert row. induction xs as [|x xs IH]; intros row Hall.
  - cbn [for_each map]. by rewrite app_nil_r.
  - rewrite for_each_cons. cbn [map].
    destruct (Hall x) as [t Ht]; [left|].
    destruct (ansi_key_color data t (x, y)) as [bg Hbg].
    assert (Hcell : ansi_cell data y x row = Ok (row ++ [ansi_paint data y x]))
      by (unfold ansi_cell, ansi_paint; by rewrite Ht, Hbg).
    rewrite Hcell, bind_Ok_l.
    rewrite IH by (intros x' Hx'; apply Hall; by right).
    by rewrite <- app_assoc.
Qed.

Lemma ansi_lines_Ok data (ys : list Z) :
  (forall x y, y ∈ ys -> x ∈ seqZ 0 (doc_width data) ->
     is_Some (doc_tiles data !! Z.to_nat (y * doc_width data + x))) ->
  ansi_lines data ys
  = (map (fun y => String.concat "" (map (ansi_paint data y) (seqZ 0 (doc_width data)))) ys,
     None).
Proof.
  induction ys as [|y ys IH]; intros Hall; cbn [ansi_lines map]; [done|].
  rewrite ansi_row_Ok by (intros x Hx; apply Hall; [left|done]).
  rewrite IH by (intros x y' Hy' Hx; apply Hall; [by right|done]).
  done.
Qed.

(** X18.  The terminal map of the document of a run from a fresh
    generator: [print_ansi_map] raises nothing and prints one line for each
    row of the map, the cells of the row joined, one for each tile: two
    blanks on the background [COLORS] has for the cell's name.  The name is
    the one the legend of the colour map gives to the colour of the same
    cell, except on open water (no ruin, no settlement), where the terminal
    map calls the cell deep below the elevation 0.15 while the colour map
    draws it deep below 0.6 times the sea level. *)
Theorem ansi_map_of_a_run (g : Gen) (doc : Document) :
  fresh g -> generate_region g = Ok doc ->
  exists lines,
    print_ansi_map doc = (lines, None)
    ∧ length lines = Z.to_nat (height g)
    ∧ forall y, 0 <= y < height g ->
        exists cells row,
          lines !! Z.to_nat y = Some (String.concat "" cells)
          ∧ length cells = Z.to_nat (width g)
          ∧ doc_color_rows doc !! Z.to_nat y = Some row
          ∧ forall x, 0 <= x < width g ->
              exists t name bg c,
                doc_tiles doc !! Z.to_nat (y * width g + x) = Some t
                ∧ (Tile.x t, Tile.y t) = (x, y)
                ∧ dict_get COLORS name = Some bg
                ∧ cells !! Z.to_nat x = Some (bg +:+ "  " +:+ RESET)
                ∧ row !! Z.to_nat x = Some c
                ∧ let open_cell :=
                    (forall r, r ∈ doc_ruins doc -> Ruin.tile r ≠ (x, y))
                    ∧ (forall s, s ∈ doc_settlements doc -> Settlement.tile s ≠ (x, y)) in
                  (Tile.water t = true -> open_cell ->
                   name = (if PrimFloat.ltb (Tile.elevation t) 0.15
                           then "deep_ocean" else "shallow_ocean")
                   ∧ c = (if PrimFloat.ltb (Tile.elevation t)
                               (PrimFloat.mul (base_sea_level g) 0.6)
                          then "#1b3b6f" else "#3465a4"))
                  ∧ (Tile.water t = false ∨ ¬ open_cell ->
                     dict_get (doc_color_legend doc) c = Some name).
Proof.
  intros Hfresh Hgen. unfold generate_region in Hgen.
  apply bind_Ok in Hgen as (g' & Hrun & Hdoc).
  unfold _build_color_map in Hdoc. injection Hdoc as <-. cbn [doc_tiles doc_width doc_height
    doc_ruins doc_settlements doc_color_rows doc_color_legend].
  pose proof (run_stages_facts g g' Hfresh Hrun) as F.
  pose proof (rf_config _ _ F) as Hc. pose proof (rf_grid _ _ F) as Hgrid.
  assert (Hcfg : width g' = width g ∧ height g' = height g ∧ base_sea_level g' = base_sea_level g)
    by (unfold config in Hc; injection Hc as ? ? ? ? ? ?; by repeat split).
  destruct Hcfg as (Hw & Hh & Hsl).
  set (doc := mkDocument _ _ _ _ _ _ _ _ _ _ _ _ _ _).
  assert (Htile : forall x y, 0 <= x < width g -> 0 <= y < height g ->
            tiles g' !! Z.to_nat (y * width g + x)
            = Some (tile_at g' (Z.to_nat (_idx g' x y)))
            ∧ (Tile.x (tile_at g' (Z.to_nat (_idx g' x y))),
               Tile.y (tile_at g' (Z.to_nat (_idx g' x y)))) = (x, y)).
  { intros x y Hx Hy. rewrite <- Hw in Hx. rewrite <- Hh in Hy.
    destruct (grid_ok_tile_at g' x y Hgrid Hx Hy) as (Hlt & -> & ->).
    split; [|done]. unfold _idx in *. rewrite <- Hw.
    destruct (lookup_lt_is_Some_2 _ _ Hlt) as [t Ht].
    unfold tile_at. by rewrite (list_lookup_total_correct _ _ _ Ht). }
  eexists. split.
  { unfold print_ansi_map. apply ansi_lines_Ok.
    intros x y Hy Hx. apply elem_of_seqZ in Hx, Hy.
    change (doc_width doc) with (width g') in *. change (doc_height doc) with (height g') in Hy.
    change (doc_tiles doc) with (tiles g'). rewrite Hw in *. rewrite Hh in Hy.
    destruct (Htile x y) as [-> _]; [lia..|]. by eexists. }
  change (doc_width doc) with (width g'). change (doc_height doc) with (height g').
  rewrite Hw, Hh.
  split; [by rewrite length_map, length_seqZ|].
  intros y Hy.
  exists (map (ansi_paint doc y) (seqZ 0 (width g))),
         (map (fun x => tile_color g' x y) (seqZ 0 (width g))).
  split.
  { rewrite list_lookup_fmap, lookup_seqZ_lt by lia. cbn [fmap option_fmap option_map].
    replace (0 + Z.of_nat (Z.to_nat y)) with y by lia. done. }
  split; [by rewrite length_map, length_seqZ|].
  split.
  { rewrite list_lookup_fmap, lookup_seqZ_lt by lia. cbn [fmap option_fmap option_map].
    replace (0 + Z.of_nat (Z.to_nat y)) with y by lia. done. }
  intros x Hx. destruct (Htile x y Hx Hy) as [Ht Hxy].
  set (t := tile_at g' (Z.to_nat (_idx g' x y))) in *.
  destruct (ansi_key_color doc t (x, y)) as [bg Hbg].
  exists t, (ansi_key doc t (x, y)), bg, (tile_color g' x y).
  split; [exact Ht|]. split; [exact Hxy|]. split; [exact Hbg|].
  split.
  { rewrite list_lookup_fmap, lookup_seqZ_lt by lia. cbn [fmap option_fmap option_map].
    replace (0 + Z.of_nat (Z.to_nat x)) with x by lia.
    unfold ansi_paint. change (doc_tiles doc) with (tiles g').
    change (doc_width doc) with (width g'). by rewrite Hw, Ht, Hbg. }
  split.
  { rewrite list_lookup_fmap, lookup_seqZ_lt by lia. cbn [fmap option_fmap option_map].
    replace (0 + Z.of_nat (Z.to_nat x)) with x by lia. done. }
  unfold ansi_key, tile_color. fold t.
  change (doc_ruins doc) with (ruins g').
  change (doc_settlements doc) with (dict_values (settlements g')).
  unfold settlement_at. rewrite Hsl.
  destruct (existsb _ (ruins g')) eqn:Hruin.
  { split; [|done]. intros _ [Hno _].
    apply existsb_exists in Hruin as (r & Hr & Heq). apply pos_eqb_eq in Heq.
    destruct (Hno r); [by apply list_elem_of_In|done]. }
  destruct (last _) as [st|] eqn:Hlast.
  { split; [|by destruct (Settlement.type st)]. intros _ [_ Hno].
    apply last_elem, list_elem_of_filter in Hlast as [Heq Hin].
    apply pos_eqb_eq in Heq. by destruct (Hno st). }
  assert (Hopen : (forall r, r ∈ ruins g' -> Ruin.tile r ≠ (x, y))
                  ∧ (forall s, s ∈ dict_values (settlements g') -> Settlement.tile s ≠ (x, y))).
  { split.
    - intros r Hr Heq. apply not_true_iff_false in Hruin. apply Hruin.
      apply existsb_exists. exists r. split; [by apply list_elem_of_In|by apply pos_eqb_eq].
    - intros s Hs Heq.
      assert (Hin : s ∈ filter (fun s => pos_eqb (Settlement.tile s) (x, y) = true)
                           (dict_values (settlements g'))).
      { apply list_elem_of_filter. split; [by apply pos_eqb_eq|done]. }
      destruct (filter _ _) as [|s0 l0] eqn:Hf using rev_ind; [by apply elem_of_nil in Hin|].
      by rewrite last_snoc in Hlast. }
  destruct (Tile.water t) eqn:Hwater.
  { split; [done|]. intros [?|Hno]; [done|by destruct Hno]. }
  split; [done|]. intros _.
  destruct (Tile.river t); [done|].
  destruct (Tile.biome t) eqn:Hb; try done.
  destruct (rf_ocean _ _ F (Z.to_nat (_idx g' x y))) as [_ Hocean].
  fold t in Hocean. rewrite (Hocean Hb) in Hwater. done.
Qed.

(** The document of the run of [vale]. *)
Definition vale_doc : Document :=
  Eval vm_compute in
    value_or (mkDocument "" 0 0 0 0 continent [] [] [] [] [] [] [] []) (generate_region vale).

Lemma vale_doc_generated : generate_region vale = Ok vale_doc.
Proof. vm_compute. reflexivity. Qed.

Lemma ansi_map_of_a_run_witness :
  fresh vale ∧ generate_region vale = Ok vale_doc ∧ (
  exists lines,
    print_ansi_map vale_doc = (lines, None)
    ∧ length lines = Z.to_nat (height vale)
    ∧ forall y, 0 <= y < height vale ->
        exists cells row,
          lines !! Z.to_nat y = Some (String.concat "" cells)
          ∧ length cells = Z.to_nat (width vale)
          ∧ doc_color_rows vale_doc !! Z.to_nat y = Some row
          ∧ forall x, 0 <= x < width vale ->
              exists t name bg c,
                doc_tiles vale_doc !! Z.to_nat (y * width vale + x) = Some t
                ∧ (Tile.x t, Tile.y t) = (x, y)
                ∧ dict_get COLORS name = Some bg
                ∧ cells !! Z.to_nat x = Some (bg +:+ "  " +:+ RESET)
                ∧ row !! Z.to_nat x = Some c
                ∧ let open_cell :=
                    (forall r, r ∈ doc_ruins vale_doc -> Ruin.tile r ≠ (x, y))
                    ∧ (forall s, s ∈ doc_settlements vale_doc -> Settlement.tile s ≠ (x, y)) in
                  (Tile.water t = true -> open_cell ->
                   name = (if PrimFloat.ltb (Tile.elevation t) 0.15
                           then "deep_ocean" else "shallow_ocean")
                   ∧ c = (if PrimFloat.ltb (Tile.elevation t)
                               (PrimFloat.mul (base_sea_level vale) 0.6)
                          then "#1b3b6f" else "#3465a4"))
                  ∧ (Tile.water t = false ∨ ¬ open_cell ->
                     dict_get (doc_color_legend vale_doc) c = Some name)).
Proof.
  split; [exact vale_fresh|]. split; [exact vale_doc_generated|].
  exact (ansi_map_of_a_run vale vale_doc vale_fresh vale_doc_generated).
Defined.


(** ** Where realms grow *)

(** The tile [i] is land, no mountain, next to a tile that the realm [rid],
    a realm on record, held in [g]. *)
Definition taken_from (g : Gen) (rid : string) (i : nat) : Prop :=
  rid ≠ "" ∧ dict_mem (realms g) rid = true
  ∧ (i < length (tiles g))%nat
  ∧ Tile.water (tile_at g i) = false ∧ Tile.biome (tile_at g i) ≠ mountain
  ∧ exists j, (j < length (tiles g))%nat ∧ Tile.realm_id (tile_at g j) = Some rid
              ∧ manhattan (coords g j) (coords g i) = 1.

(** The state [s] in the course of a tick that began in [g]. *)
Definition spread (g s : Gen) : Prop :=
  config s = config g ∧ length (tiles s) = length (tiles g)
  ∧ dict_keys (realms s) = dict_keys (realms g)
  ∧ forall i,
      Tile.set_realm_id None (tile_at s i) = Tile.set_realm_id None (tile_at g i)
      ∧ (Tile.realm_id (tile_at s i) = Tile.realm_id (tile_at g i)
         ∨ exists rid, Tile.realm_id (tile_at s i) = Some rid ∧ taken_from g rid i).

Lemma spread_refl g : spread g g.
Proof. split; [done|]. split; [done|]. split; [done|]. intros i. split; [done|by left]. Qed.

Lemma spread_draw g s rg : spread g s -> spread g (set_rng rg s).
Proof. by intros H. Qed.

Lemma spread_fields g s i :
  spread g s ->
  Tile.x (tile_at s i) = Tile.x (tile_at g i) ∧ Tile.y (tile_at s i) = Tile.y (tile_at g i)
  ∧ Tile.water (tile_at s i) = Tile.water (tile_at g i)
  ∧ Tile.biome (tile_at s i) = Tile.biome (tile_at g i).
Proof.
  intros (_ & _ & _ & H). destruct (H i) as [Heq _].
  destruct (tile_at s i), (tile_at g i). cbn in *. by injection Heq as -> -> _ _ -> -> _ _.
Qed.

Lemma spread_claim g s rid n :
  spread g s -> taken_from g rid n ->
  spread g (update_tile n (Tile.set_realm_id (Some rid)) s).
Proof.
  intros (Hc & Hlen & Hk & H) Htaken.
  split; [done|]. split; [by rewrite length_update_tile|]. split; [done|].
  intros i. rewrite tile_at_alter. destruct (H i) as [Hf Ho].
  destruct (decide (n = i)) as [->|Hne]; [|done].
  destruct (decide _); [|done]. split.
  - rewrite <- Hf. by destruct (tile_at s i).
  - right. exists rid. split; [|done]. by destruct (tile_at s i).
Qed.

Section Tick.
Variable g : Gen.
Hypothesis Hok : grid_ok g.

(** One neighbour of a tile that the realm held when the tick began. *)
Lemma annex_neighbor_spread rid size tbr s k t n :
  spread g s -> rid ≠ "" -> dict_mem (realms g) rid = true ->
  (t < length (tiles g))%nat -> Tile.realm_id (tile_at g t) = Some rid ->
  n ∈ _neighbors g (Tile.x (tile_at g t)) (Tile.y (tile_at g t)) ->
  spread g (annex_neighbor rid size tbr (s, k) n).1.
Proof.
  intros Hs Hrid Hmem Ht Hown Hn. unfold annex_neighbor.
  destruct (spread_fields g s n Hs) as (_ & _ & Hw & Hb).
  destruct (Tile.water (tile_at s n)) eqn:Hwater; [done|].
  unfold biome_eqb. destruct (decide (Tile.biome (tile_at s n) = mountain)) as [Hm|Hm].
  { by rewrite (bool_decide_eq_true_2 _ Hm). }
  rewrite (bool_decide_eq_false_2 _ Hm). cbn [orb].
  apply (neighbors_of_tile g Hok t n) in Hn as [Hlt Hd].
  assert (Htaken : taken_from g rid n).
  { split; [done|]. split; [done|]. split; [done|]. split; [congruence|]. split; [congruence|].
    by exists t. }
  destruct (Tile.realm_id (tile_at s n)) as [other|]; [|by apply spread_claim].
  destruct (negb (String.eqb other rid)); [|done].
  destruct (random (rng s)) as [u rg]. destruct (PrimFloat.ltb _ _); [|done].
  apply spread_claim; [by apply spread_draw|done].
Qed.

Lemma visit_tile_spread rid size tbr s k t :
  spread g s -> rid ≠ "" -> dict_mem (realms g) rid = true ->
  (t < length (tiles g))%nat -> Tile.realm_id (tile_at g t) = Some rid ->
  spread g (visit_tile rid size tbr (s, k) t).1.
Proof.
  intros Hs Hrid Hmem Ht Hown. unfold visit_tile. cbn [fst].
  destruct (spread_fields g s t Hs) as (-> & -> & _ & _).
  destruct Hs as (Hc & Hrest). rewrite (neighbors_same_size g s _ _ Hc).
  assert (Hs : spread g s) by done. clear Hrest.
  set (ns := _neighbors g _ _).
  assert (Hns : forall n, n ∈ ns -> n ∈ ns) by done. revert Hns.
  generalize ns at 1 3. intros l. revert s k Hc Hs.
  induction l as [|n l IH]; intros s k Hc Hs Hl; [done|].
  cbn [fold_left].
  destruct (annex_neighbor rid size tbr (s, k) n) as [s1 k1] eqn:Ha.
  pose proof (annex_neighbor_spread rid size tbr s k t n Hs Hrid Hmem Ht Hown) as Hs1.
  rewrite Ha in Hs1. cbn [fst] in Hs1.
  apply IH.
  - by destruct Hs1; [apply Hl; left|].
  - apply Hs1, Hl. left.
  - intros m Hm. apply Hl. by right.
Qed.

Lemma expand_loop_spread rid size d tbr (l : list nat) :
  rid ≠ "" -> dict_mem (realms g) rid = true ->
  (forall t, t ∈ l -> (t < length (tiles g))%nat ∧ Tile.realm_id (tile_at g t) = Some rid) ->
  forall s k a, spread g s -> spread g (expand_loop rid size d tbr l s k a).1.1.
Proof.
  intros Hrid Hmem. induction l as [|t l IH]; intros Hl s k a Hs; [done|].
  rewrite expand_loop_cons. destruct (k >=? d); [done|]. cbv zeta.
  destruct (Hl t) as [Ht Hown]; [left|].
  pose proof (visit_tile_spread rid size tbr s k t Hs Hrid Hmem Ht Hown) as Hs1.
  destruct (a + 1 >? d * 6); [done|].
  apply IH; [|done]. intros t' Ht'. apply Hl. by right.
Qed.

Lemma empire_peak_check_spread rid realm size year s :
  spread g s -> spread g (empire_peak_check rid realm size year s).
Proof.
  intros (Hc & Hlen & Hk & H). unfold empire_peak_check.
  destruct (_ && _); [|done].
  split; [done|]. split; [done|]. split; [|done].
  cbn [realms set_events set_realms]. by rewrite dict_update_keys.
Qed.

Lemma realm_pass_spread year tbr s entry :
  entry ∈ tiles_by_realm_of g -> spread g s -> spread g (realm_pass year tbr s entry).
Proof.
  destruct entry as [rid l]. intros Hentry Hs.
  destruct (tiles_by_realm_entry g rid l Hentry) as (_ & Hrid & ->).
  unfold realm_pass.
  destruct (dict_get (realms s) rid) as [realm|] eqn:Hget; [|done].
  assert (Hmem : dict_mem (realms g) rid = true).
  { unfold dict_mem. destruct (dict_get (realms g) rid) eqn:Hg; [done|].
    apply dict_get_None_keys in Hg. destruct Hs as (_ & _ & Hk & _). rewrite <- Hk in Hg.
    apply dict_get_None_keys in Hg. congruence. }
  destruct (shuffle (owned_by g rid) (rng s)) as [shuffled rg] eqn:Hsh.
  pose proof (expand_loop_spread rid (Z.of_nat (length (owned_by g rid)))
                (Z.max 1 (Z.of_nat (length (owned_by g rid)) / 12)) tbr shuffled Hrid Hmem) as Hloop.
  destruct (expand_loop _ _ _ _ shuffled (set_rng rg s) 0 0) as [[s1 k1] a1] eqn:He.
  apply empire_peak_check_spread.
  specialize (Hloop (fun t Ht => proj1 (owned_by_elem g rid t)
                                   (proj1 (shuffle_elem _ _ _ _ t Hsh) Ht))
                    (set_rng rg s) 0 0 (spread_draw g s rg Hs)).
  by rewrite He in Hloop.
Qed.

End Tick.

(** X19.  An expansion tick on a grid in row-major order.  It changes no
    field of a tile but the owner, and no key of [self.realms].  A tile
    keeps its owner or goes to a realm on record that, when the tick began,
    held a tile next to it; such a tile is land and no mountain.  So no
    tile is given up, and a realm without land at the start of the tick has
    none at its end. *)
Theorem expansion_tick_spreads (year : Z) (g : Gen) :
  grid_ok g ->
  let g' := _realm_expansion_tick year g in
  config g' = config g ∧ length (tiles g') = length (tiles g)
  ∧ dict_keys (realms g') = dict_keys (realms g)
  ∧ (forall i, Tile.set_realm_id None (tile_at g' i) = Tile.set_realm_id None (tile_at g i))
  ∧ (forall i, Tile.realm_id (tile_at g' i) = Tile.realm_id (tile_at g i)
               ∨ exists rid, Tile.realm_id (tile_at g' i) = Some rid ∧ taken_from g rid i)
  ∧ (forall i, Tile.realm_id (tile_at g i) ≠ None -> Tile.realm_id (tile_at g' i) ≠ None)
  ∧ (forall rid, _realm_tile_count g rid = 0 -> _realm_tile_count g' rid = 0).
Proof.
  intros Hok g'.
  assert (Hs : spread g g').
  { unfold g', _realm_expansion_tick. apply fold_left_inv; [|apply spread_refl].
    intros entry s Hentry Hs. by apply realm_pass_spread. }
  destruct Hs as (Hc & Hlen & Hk & H).
  split; [exact Hc|]. split; [exact Hlen|]. split; [exact Hk|].
  split; [intros i; by destruct (H i)|]. split; [intros i; by destruct (H i)|].
  split.
  - intros i Hi. destruct (H i) as [_ [Ho|(rid & Ho & _)]]; congruence.
  - intros rid Hzero. rewrite realm_tile_count_owned in *.
    destruct (owned_by g' rid) as [|i rest] eqn:Hown; [done|].
    assert (Hi : i ∈ owned_by g' rid) by (rewrite Hown; left).
    apply owned_by_elem in Hi as [Hlt Hi]. rewrite Hlen in Hlt.
    assert (Hex : exists j, j ∈ owned_by g rid).
    { destruct (H i) as [_ [Ho|(rid' & Ho & Ht)]].
      - exists i. apply owned_by_elem. split; [done|congruence].
      - destruct Ht as (_ & _ & _ & _ & _ & j & Hj & Hjo & _).
        exists j. apply owned_by_elem. split; [done|congruence]. }
    destruct Hex as (j & Hj). destruct (owned_by g rid); [by apply elem_of_nil in Hj|].
    cbn in Hzero. lia.
Qed.

Lemma expansion_tick_spreads_witness :
  grid_ok vale_year_0 ∧ (
  let g' := _realm_expansion_tick 10 vale_year_0 in
  config g' = config vale_year_0 ∧ length (tiles g') = length (tiles vale_year_0)
  ∧ dict_keys (realms g') = dict_keys (realms vale_year_0)
  ∧ (forall i, Tile.set_realm_id None (tile_at g' i) = Tile.set_realm_id None (tile_at vale_year_0 i))
  ∧ (forall i, Tile.realm_id (tile_at g' i) = Tile.realm_id (tile_at vale_year_0 i)
               ∨ exists rid, Tile.realm_id (tile_at g' i) = Some rid ∧ taken_from vale_year_0 rid i)
  ∧ (forall i, Tile.realm_id (tile_at vale_year_0 i) ≠ None -> Tile.realm_id (tile_at g' i) ≠ None)
  ∧ (forall rid, _realm_tile_count vale_year_0 rid = 0 -> _realm_tile_count g' rid = 0)).
Proof.
  split; [exact vale_year_0_grid_ok|]. exact (expansion_tick_spreads 10 vale_year_0 vale_year_0_grid_ok).
Defined.


(** ** A history of less than five years *)

(** The tiles that have an owner. *)
Definition owned_tiles (g : Gen) : list nat :=
  filter (fun i => Tile.realm_id (tile_at g i) ≠ None) (seq 0 (length (tiles g))).

Lemma owned_tiles_elem g i :
  i ∈ owned_tiles g <-> (i < length (tiles g))%nat ∧ Tile.realm_id (tile_at g i) ≠ None.
Proof.
  unfold owned_tiles. rewrite list_elem_of_filter, elem_of_seq. split.
  - intros [H1 H2]. split; [lia|done].
  - intros [H1 H2]. split; [done|lia].
Qed.

Lemma owned_tiles_NoDup g : NoDup (owned_tiles g).
Proof. unfold owned_tiles. apply NoDup_filter, NoDup_seq. Qed.

(** No tile gets an owner: no more owned tiles. *)
Lemma owned_tiles_le a b :
  length (tiles b) = length (tiles a) ->
  (forall i, Tile.realm_id (tile_at b i) ≠ None -> Tile.realm_id (tile_at a i) ≠ None) ->
  (length (owned_tiles b) <= length (owned_tiles a))%nat.
Proof.
  intros Hlen H. apply submseteq_length, NoDup_submseteq; [apply owned_tiles_NoDup|].
  intros i Hi. apply owned_tiles_elem in Hi as [Hlt Hi]. apply owned_tiles_elem.
  split; [lia|by apply H].
Qed.

(** One tile gets an owner: one more owned tile at most. *)
Lemma owned_tiles_claim g n o :
  (length (owned_tiles (update_tile n (Tile.set_realm_id o) g))
   <= S (length (owned_tiles g)))%nat.
Proof.
  change (S (length (owned_tiles g))) with (length (n :: owned_tiles g)).
  apply submseteq_length, NoDup_submseteq; [apply owned_tiles_NoDup|].
  intros i Hi. apply owned_tiles_elem in Hi as [Hlt Hi].
  rewrite length_update_tile in Hlt. rewrite tile_at_alter in Hi.
  destruct (decide (n = i)) as [->|Hne]; [left|right].
  by apply owned_tiles_elem.
Qed.

(** The tiles of a realm are owned tiles. *)
Lemma owned_by_le g rid : (length (owned_by g rid) <= length (owned_tiles g))%nat.
Proof.
  apply submseteq_length, NoDup_submseteq; [apply owned_by_NoDup|].
  intros i Hi. apply owned_by_elem in Hi as [Hlt Hi]. apply owned_tiles_elem.
  split; [done|congruence].
Qed.

(** In a pass of the realm [rid] the owned tiles grow by no more than the
    tiles of [rid] do. *)
Lemma annexed_by_owned rid a b :
  annexed_by rid a b ->
  Z.of_nat (length (owned_tiles b))
  <= Z.of_nat (length (owned_tiles a)) + (_realm_tile_count b rid - _realm_tile_count a rid).
Proof.
  intros (_ & _ & Hlen & H). rewrite !realm_tile_count_owned.
  set (new := filter (fun i => Tile.realm_id (tile_at a i) ≠ Some rid) (owned_by b rid)).
  set (old := filter (fun i => Tile.realm_id (tile_at a i) = Some rid) (owned_by b rid)).
  assert (Hsplit : (length (owned_by b rid) = length old + length new)%nat).
  { rewrite <- length_app. apply Permutation_length. symmetry.
    apply (filter_app_complement (fun i => Tile.realm_id (tile_at a i) = Some rid)). }
  assert (Hold : length old = length (owned_by a rid)).
  { apply Permutation_length, NoDup_Permutation;
      [apply NoDup_filter, owned_by_NoDup|apply owned_by_NoDup|].
    intros i. unfold old. rewrite list_elem_of_filter, !owned_by_elem, Hlen. split.
    - intros (Ha & Hlt & _). done.
    - intros (Hlt & Ha). split; [done|]. split; [done|].
      destruct (H i) as [_ [Ho|(Ho & Hn & _)]]; congruence. }
  assert (Hsub : (length (owned_tiles b) <= length (owned_tiles a ++ new))%nat).
  { apply submseteq_length, NoDup_submseteq; [apply owned_tiles_NoDup|].
    intros i Hi. apply owned_tiles_elem in Hi as [Hlt Hi]. rewrite elem_of_app.
    destruct (H i) as [_ [Ho|(Ho & Hn & _)]].
    - left. apply owned_tiles_elem. split; [lia|congruence].
    - right. unfold new. rewrite list_elem_of_filter, owned_by_elem. done. }
  rewrite length_app in Hsub. lia.
Qed.

(** A crisis gives no owner to a tile that had none. *)
Lemma random_crisis_owned year g g' :
  _random_crisis year g = Ok g' ->
  config g' = config g ∧ length (tiles g') = length (tiles g)
  ∧ forall i, Tile.realm_id (tile_at g' i) ≠ None -> Tile.realm_id (tile_at g i) ≠ None.
Proof.
  unfold _random_crisis. intros H.
  assert (Hrefl : forall r, config (set_rng r g) = config g
            ∧ length (tiles (set_rng r g)) = length (tiles g)
            ∧ forall i, Tile.realm_id (tile_at (set_rng r g) i) ≠ None ->
                        Tile.realm_id (tile_at g i) ≠ None) by done.
  destruct (filter _ (dict_keys (realms g))) as [|rid0 rids];
    [injection H as <-; apply (Hrefl (rng g))|].
  apply bind_Ok in H as ([rid rg] & _ & H).
  destruct (dict_get (realms (set_rng rg g)) rid) as [realm|]; [|done].
  change (owned_by (set_rng rg g) rid) with (owned_by g rid) in H.
  destruct (owned_by g rid) as [|t0 ts] eqn:Hown; [injection H as <-; apply Hrefl|].
  apply bind_Ok in H as ([ct rg2] & _ & H). rewrite <- Hown in H.
  set (g2 := set_rng rg2 (set_rng rg g)) in H.
  assert (Hshrink : forall ct', crisis_shrink ct' rid realm (owned_by g rid) year g2 = Ok g' ->
            config g' = config g ∧ length (tiles g') = length (tiles g)
            ∧ forall i, Tile.realm_id (tile_at g' i) ≠ None -> Tile.realm_id (tile_at g i) ≠ None).
  { intros ct' Hs. unfold crisis_shrink in Hs.
    destruct (filter _ (owned_by g rid)) as [|b bs]; [injection Hs as <-; apply (Hrefl rg2)|].
    destruct (shuffle (b :: bs) (rng g2)) as [border rg3].
    apply bind_Ok in Hs as ([d rg4] & _ & Hs). cbv zeta in Hs. injection Hs as <-.
    split; [exact (set_owner_all_config _ _ _)|]. split; [exact (set_owner_all_length _ _ _)|].
    intros i. change (tile_at (set_events _ ?x) i) with (tile_at x i).
    rewrite set_owner_all_tile. destruct (decide _); [|done]. by destruct (tile_at _ i). }
  destruct ct; [|by apply (Hshrink PLAGUE_EVENT)| |by apply (Hshrink SUCCESSION)].
  all: unfold crisis_split in H;
    (destruct (_ || _); [injection H as <-; apply (Hrefl rg2)|]);
    apply bind_Ok in H as ([name g3] & H1 & H);
    apply make_realm_name_spec in H1 as (_ & r1 & ->);
    apply bind_Ok in H as ([color g4] & H2 & H);
    apply random_color_spec in H2 as (_ & r2 & ->);
    destruct (shuffle (owned_by g rid) _) as [shuffled rg3] eqn:Hsh;
    injection H as <-;
    (split; [exact (set_owner_all_config _ _ _)|]);
    (split; [exact (set_owner_all_length _ _ _)|]);
    intros i; change (tile_at (set_events _ ?x) i) with (tile_at x i);
    rewrite set_owner_all_tile;
    (destruct (decide _) as [[Hin _]|_]; [|done]);
    intros _; apply subseteq_take in Hin;
    apply (shuffle_elem _ _ _ _ i Hsh) in Hin;
    apply owned_by_elem in Hin as [_ Hin]; congruence.
Qed.

(** Founding a realm under the next number: one realm more, one owned tile
    more at most. *)
Lemma found_realm_bound rid index ti g g' :
  realms_made g -> rid = realm_id_of (Z.of_nat (length (realms g)) + 1) ->
  (length (realms g) <= 8)%nat ->
  found_realm rid index ti g = Ok g' ->
  realms_made g' ∧ length (realms g') = S (length (realms g))
  ∧ (length (owned_tiles g') <= S (length (owned_tiles g)))%nat.
Proof.
  intros Hmade Hrid Hlen H.
  pose proof (found_realm_reigns rid index ti g g' Hrid Hlen H) as Hr.
  split; [by apply (reigns_made g g')|].
  unfold found_realm in H.
  apply bind_Ok in H as ([name g1] & H1 & H).
  apply make_realm_name_spec in H1 as (_ & r1 & ->).
  apply bind_Ok in H as ([color g2] & H2 & H).
  apply random_color_spec in H2 as (_ & r2 & ->).
  injection H as <-. split.
  - change (length (dict_set (realms g) rid (new_realm rid name color 0 "lowland" []))
            = S (length (realms g))).
    apply dict_set_length_fresh. rewrite Hrid. apply realms_fresh_key. by destruct Hmade.
  - exact (owned_tiles_claim _ ti (Some rid)).
Qed.

Lemma spawn_loop_bound range fertile target used g g' :
  target <= 9 -> realms_made g ->
  (length (owned_tiles g) <= length (realms g))%nat ->
  Z.of_nat (length (realms g)) <= target ->
  spawn_loop range fertile target used g = Ok g' ->
  realms_made g' ∧ (length (owned_tiles g') <= length (realms g'))%nat
  ∧ Z.of_nat (length (realms g')) <= target.
Proof.
  intros Ht. revert used g. induction range as [|i range IH]; intros used g Hmade Hown Hlen H;
    cbn [spawn_loop] in H.
  { by injection H as <-. }
  destruct (Z.geb_spec (Z.of_nat (length (realms g))) target); [by injection H as <-|].
  destruct (fertile !! i) as [ti|] eqn:Hti; [|by injection H as <-].
  destruct (existsb _ used); [by eapply IH|].
  apply bind_Ok in H as (g1 & H1 & H).
  apply found_realm_bound in H1 as (Hmade1 & Hlen1 & Hown1); [|done|done|lia].
  eapply (IH _ g1); [done|lia|lia|exact H].
Qed.

(** After the spawning of realms on a grid without owners: six realms at
    most, and no more owned tiles than realms. *)
Lemma spawn_bound g g' :
  realms g = [] -> (forall i, Tile.realm_id (tile_at g i) = None) ->
  _spawn_initial_realms g = Ok g' ->
  realms_made g' ∧ (length (owned_tiles g') <= length (realms g'))%nat
  ∧ (length (realms g') <= 6)%nat.
Proof.
  intros Hnil Hnone H. unfold _spawn_initial_realms in H.
  destruct (shuffle (fertile_indices g) (rng g)) as [fertile rg] eqn:Hsh.
  apply bind_Ok in H as (g1 & H1 & H).
  pose proof (target_realms_le (set_rng rg g)) as Ht.
  assert (Hmade0 : realms_made (set_rng rg g)).
  { unfold realms_made. cbn [realms set_rng]. rewrite Hnil.
    split; [done|]. split; [cbn; lia|constructor]. }
  assert (Hown0 : length (owned_tiles (set_rng rg g)) = 0%nat).
  { destruct (owned_tiles (set_rng rg g)) as [|i l] eqn:Ho; [done|].
    assert (Hi : i ∈ owned_tiles (set_rng rg g)) by (rewrite Ho; left).
    apply owned_tiles_elem in Hi as [_ Hi]. destruct Hi. apply Hnone. }
  apply spawn_loop_bound in H1 as (Hmade1 & Hown1 & Hlen1);
    [|lia|done|lia|cbn [realms set_rng]; rewrite Hnil; cbn; lia].
  destruct (realms g1) as [|kv rs] eqn:Hr.
  - destruct fertile as [|ti fertile].
    + injection H as <-. split; [done|]. rewrite Hr. split; [exact Hown1|cbn; lia].
    + apply found_realm_bound in H as (Hmade2 & Hlen2 & Hown2);
        [|done|by rewrite Hr|rewrite Hr; cbn; lia].
      rewrite Hr in Hlen2. cbn [length] in *. split; [done|]. split; lia.
  - injection H as <-. split; [done|]. rewrite Hr. split; [exact Hown1|lia].
Qed.

(** One pass of a realm with fewer than twelve tiles: four owned tiles more
    at most. *)
Lemma realm_pass_owned year tbr s rid (l : list nat) :
  grid_ok s -> (length l < 12)%nat ->
  grid_ok (realm_pass year tbr s (rid, l))
  ∧ (length (owned_tiles (realm_pass year tbr s (rid, l))) <= length (owned_tiles s) + 4)%nat.
Proof.
  intros Hok Hl.
  split; [exact (evolves_grid_ok _ _ (realm_pass_evolves year tbr s (rid, l)) Hok)|].
  unfold realm_pass.
  destruct (dict_get (realms s) rid) as [realm|]; [|lia].
  destruct (shuffle l (rng s)) as [shuffled rg] eqn:Hsh.
  assert (Hd : Z.max 1 (Z.of_nat (length l) / 12) = 1).
  { rewrite Z.div_small by lia. lia. }
  rewrite Hd.
  destruct (expand_loop_spec rid (Z.of_nat (length l)) 1 tbr shuffled (set_rng rg s) 0 0)
    as (_ & _ & Hgrown & Ha & Hcount); [done|lia|].
  destruct (expand_loop _ _ _ _ shuffled (set_rng rg s) 0 0) as [[s1 k1] a1].
  cbn [fst snd] in *.
  assert (Hs1 : (length (owned_tiles s1) <= length (owned_tiles s) + 4)%nat).
  { pose proof (annexed_by_owned rid (set_rng rg s) s1 Ha) as Hle.
    change (owned_tiles (set_rng rg s)) with (owned_tiles s) in Hle. lia. }
  assert (Hsame : owned_tiles (empire_peak_check rid realm (Z.of_nat (length l)) year s1)
                  = owned_tiles s1).
  { unfold empire_peak_check. by destruct (_ && _). }
  by rewrite Hsame.
Qed.

(** An expansion tick when no realm has twelve tiles: four owned tiles more
    for each realm with land, at most. *)
Lemma expansion_tick_owned year g :
  grid_ok g -> (length (owned_tiles g) < 12)%nat ->
  (length (owned_tiles (_realm_expansion_tick year g))
   <= length (owned_tiles g) + 4 * length (tiles_by_realm_of g))%nat.
Proof.
  intros Hok Hfew. unfold _realm_expansion_tick.
  assert (Hentries : forall e, e ∈ tiles_by_realm_of g -> (length e.2 < 12)%nat).
  { intros [rid l] He. destruct (tiles_by_realm_entry g rid l He) as (_ & _ & ->).
    pose proof (owned_by_le g rid). cbn. lia. }
  revert Hentries. generalize (tiles_by_realm_of g) at 1 3 4. intros entries.
  generalize (tiles_by_realm_of g). intros tbr. clear Hfew.
  revert g Hok. induction entries as [|[rid l] entries IH]; intros s Hok Hentries;
    cbn [fold_left length]; [lia|].
  destruct (realm_pass_owned year tbr s rid l Hok) as [Hok1 Hle1].
  { apply (Hentries (rid, l)). left. }
  specialize (IH (realm_pass year tbr s (rid, l)) Hok1).
  assert (Hrest : forall e, e ∈ entries -> (length e.2 < 12)%nat)
    by (intros e He; apply Hentries; by right).
  specialize (IH Hrest). lia.
Qed.

(** The realms with land are realms on record when every owner is. *)
Lemma tiles_by_realm_length g :
  owners_known g -> (length (tiles_by_realm_of g) <= length (realms g))%nat.
Proof.
  intros Hknown.
  transitivity (length (dict_keys (tiles_by_realm_of g)));
    [unfold dict_keys; by rewrite length_map|].
  transitivity (length (dict_keys (realms g))); [|unfold dict_keys; by rewrite length_map].
  apply submseteq_length, NoDup_submseteq; [apply tiles_by_realm_keys_NoDup|].
  intros rid Hrid. apply tiles_by_realm_key in Hrid as [_ Hland].
  destruct (owned_by g rid) as [|i l] eqn:Ho; [done|].
  assert (Hi : i ∈ owned_by g rid) by (rewrite Ho; left).
  apply owned_by_elem in Hi as [_ Hi]. apply Hknown in Hi.
  unfold dict_mem in Hi. destruct (dict_get (realms g) rid) eqn:Hg; [|done].
  apply dict_get_Some_elem in Hg. apply list_elem_of_fmap. by eexists (rid, _).
Qed.

(** The history of less than five years: one tick at most, one crisis at
    most. *)
Lemma short_history_owned g g' :
  grid_ok g -> owners_known g -> years g < 5 ->
  (length (owned_tiles g) <= length (realms g))%nat -> (length (realms g) <= 6)%nat ->
  _simulate_history g = Ok g' ->
  (length (owned_tiles g') <= 30)%nat.
Proof.
  intros Hok Hknown Hy Hown Hlen H.
  pose proof (tiles_by_realm_length g Hknown) as Hentries.
  unfold _simulate_history in H.
  destruct (realms g) as [|kv rs] eqn:Hr; [injection H as <-; cbn in Hown; lia|].
  rewrite <- Hr in H.
  set (gs := set_realms _ g) in H.
  assert (Hstep : Z.max 10 (years g / 30) = 10).
  { assert (years g / 30 < 1) by (apply Z.div_lt_upper_bound; lia). lia. }
  rewrite Hstep in H. change (years gs) with (years g) in H.
  destruct (Z.to_nat (years g)) as [|m] eqn:Hm.
  - cbn [history_loop] in H. change (years gs) with (years g) in H.
    destruct (Z.ltb_spec 0 (years g)) as [|_]; [lia|].
    cbn [default from_option id] in H. rewrite bind_Ok_l in H. injection H as <-.
    change (owned_tiles (set_realms _ gs)) with (owned_tiles g). lia.
  - cbn [history_loop] in H. change (years gs) with (years g) in H.
    destruct (Z.ltb_spec 0 (years g)) as [_|]; [|lia].
    set (t1 := _realm_expansion_tick (0 + 10) gs) in H.
    destruct (random (rng t1)) as [u rg].
    assert (Ht1 : (length (owned_tiles t1) <= 30)%nat).
    { pose proof (expansion_tick_owned (0 + 10) gs Hok) as Hle.
      change (owned_tiles gs) with (owned_tiles g) in Hle.
      change (tiles_by_realm_of gs) with (tiles_by_realm_of g) in Hle.
      fold t1 in Hle. lia. }
    assert (Hc1 : config t1 = config g).
    { exact (evolves_config _ _ (expansion_tick_evolves (0 + 10) gs)). }
    destruct (if PrimFloat.ltb u 0.35 then _random_crisis (0 + 10) (set_rng rg t1)
              else Ok (set_rng rg t1)) as [t2|e] eqn:Hcr.
    2:{ cbn [default from_option id] in H. done. }
    assert (Ht2 : config t2 = config g ∧ (length (owned_tiles t2) <= 30)%nat).
    { destruct (PrimFloat.ltb u 0.35).
      - destruct (random_crisis_owned _ _ _ Hcr) as (Hc2 & Hl2 & Ho2).
        split; [by rewrite Hc2|].
        pose proof (owned_tiles_le (set_rng rg t1) t2 Hl2 Ho2) as Hle.
        change (owned_tiles (set_rng rg t1)) with (owned_tiles t1) in Hle. lia.
      - injection Hcr as <-. by split. }
    destruct Ht2 as [Hc2 Ht2].
    rewrite (config_years _ _ Hc2) in H.
    destruct (Z.ltb_spec (0 + 10) (years g)) as [|_]; [lia|].
    cbn [default from_option id] in H. rewrite bind_Ok_l in H. injection H as <-.
    exact Ht2.
Qed.

(** A border tile has an owner with a name. *)
Lemma border_tile_owned g i :
  _is_border_tile g i = true -> exists rid, Tile.realm_id (tile_at g i) = Some rid ∧ rid ≠ "".
Proof.
  unfold _is_border_tile. destruct (Tile.realm_id (tile_at g i)) as [rid|] eqn:Ho; [|done].
  destruct (truthy (Some rid)) eqn:Ht; [|done]. intros _. exists rid. split; [done|].
  by apply truthy_Some.
Qed.

(** After the settlements: the candidates for ruins are owned tiles, and
    where there is one there is a settled tile that is none. *)
Lemma settled_candidates g g' :
  settlements g = [] -> capital_free g ->
  (forall i, Tile.settlement_id (tile_at g i) = None) ->
  _derive_settlements g = Ok g' ->
  (length (ruin_candidates (_derive_roads g')) < Nat.max 1 (length (owned_tiles g)))%nat.
Proof.
  intros Hnil Hfree Hnone H.
  destruct (derive_settlements_places g g' Hnil Hfree Hnone H) as (Hpl & Hwith & _).
  pose proof (places_frame _ _ Hpl) as Hframe.
  pose proof (places_settled _ _ Hpl (settled_ok_nil g Hnil)) as [Hkeys Hset].
  destruct Hframe as (Hc & Hlen & _ & _ & _ & Hsame).
  assert (Howner : forall i, Tile.realm_id (tile_at g' i) = Tile.realm_id (tile_at g i)).
  { intros i. by destruct (same_but_settlement_fields _ _ (Hsame i)) as (_ & _ & ?). }
  rewrite (ruin_candidates_same g' (_derive_roads g')) by done.
  destruct (ruin_candidates g') as [|i0 rest] eqn:Hcands; [cbn; lia|]. rewrite <- Hcands.
  assert (Hi0 : i0 ∈ ruin_candidates g') by (rewrite Hcands; left).
  apply ruin_candidates_elem in Hi0 as (Hlt0 & _ & Hb0 & _).
  destruct (border_tile_owned g' i0 Hb0) as (rid & Ho & Hrid).
  assert (Hkey : rid ∈ dict_keys (tiles_by_realm_of g)).
  { apply tiles_by_realm_key. split; [done|]. intros Hempty.
    assert (Hin : i0 ∈ owned_by g rid).
    { apply owned_by_elem. split; [lia|]. by rewrite <- Howner. }
    rewrite Hempty in Hin. by apply elem_of_nil in Hin. }
  destruct (Hwith rid Hkey) as [_ [Hone _]].
  destruct (settled_in g' rid) as [|[sid s] more] eqn:Hin; [cbn in Hone; lia|].
  assert (Hs : (sid, s) ∈ settlements g').
  { assert (Hs : (sid, s) ∈ settled_in g' rid) by (rewrite Hin; left).
    unfold settled_in in Hs. by apply list_elem_of_filter in Hs as [_ ?]. }
  rewrite Forall_forall in Hset. destruct (Hset _ Hs) as [Hid (j & Hj & _ & Hjo & Hjs & _)].
  cbn [fst snd] in *.
  assert (Hsid : sid ≠ "").
  { assert (Hk : sid ∈ dict_keys (settlements g')) by (apply list_elem_of_fmap; by exists (sid, s)).
    rewrite Hkeys in Hk. apply list_elem_of_fmap in Hk as (k & -> & _).
    apply settlement_id_of_nonempty. }
  assert (Hsub : (length (j :: ruin_candidates g') <= length (owned_tiles g))%nat).
  { apply submseteq_length, NoDup_submseteq.
    - apply NoDup_cons. split; [|unfold ruin_candidates; apply NoDup_filter, NoDup_seq].
      intros Hjc. apply ruin_candidates_elem in Hjc as (_ & _ & _ & Hfalse).
      rewrite Hjs, Hid in Hfalse. apply not_true_iff_false in Hfalse. apply Hfalse.
      by apply truthy_Some.
    - intros i Hi. apply owned_tiles_elem. apply elem_of_cons in Hi as [->|Hi].
      + split; [lia|]. rewrite <- Howner, Hjo. done.
      + apply ruin_candidates_elem in Hi as (Hlt & _ & Hb & _).
        destruct (border_tile_owned g' i Hb) as (r & Hr & _).
        split; [lia|]. rewrite <- Howner, Hr. done. }
  cbn [length] in Hsub. lia.
Qed.

(** Fewer than thirty candidates: no ruin, and no draw for a year. *)
Lemma derive_ruins_few g :
  (length (ruin_candidates g) < 30)%nat -> exists r, _derive_ruins g = Ok (set_rng r g).
Proof.
  intros Hlt. unfold _derive_ruins.
  destruct (shuffle (ruin_candidates g) (rng g)) as [border_tiles rg] eqn:Hsh.
  apply shuffle_length in Hsh.
  destruct (ruin_target_bound border_tiles) as (_ & _ & Hpos).
  assert (Htarget : ¬ 0 < ruin_target border_tiles) by (rewrite Hpos; lia).
  fold (ruin_target border_tiles).
  replace (Z.to_nat (ruin_target border_tiles)) with 0%nat by lia.
  by exists rg.
Qed.

(** The stages after the grid raise nothing, whatever the years. *)
Lemma after_grid_returns g g1 :
  fresh g -> _generate_base_tiles g = Ok g1 ->
  exists g', run_stages g = Ok g' ∧ (years g < 5 -> ruins g' = []).
Proof.
  intros [Hnil Hcoll] B1.
  destruct (spawn_Ok g1) as (g2 & B2).
  destruct (simulate_history_Ok g2) as (g3 & B3).
  destruct (generate_base_tiles_spec g g1 Hnil B1) as (C1 & K1 & _).
  rewrite Hcoll in K1. unfold collections in K1. injection K1 as R1 T1 V1 D1 U1.
  destruct (grid_stage_grid_ok g g1 Hnil B1) as [G1 M1].
  assert (O1 : forall i, Tile.realm_id (tile_at g1 i) = None)
    by (intros i; exact (grid_stage_unowned g g1 i Hnil B1)).
  assert (Kn1 : owners_known g1) by (intros i rid Hi; by rewrite O1 in Hi).
  pose proof (spawn_reigns _ _ B2) as W2.
  pose proof (reigns_owners _ _ W2 Kn1) as Kn2.
  destruct (simulate_history_reigns _ _ B3) as [W3 _].
  pose proof (reigns_owners _ _ W3 Kn2) as Kn3.
  destruct (derive_settlements_Ok g3 Kn3) as (g4 & B4).
  pose proof (spawn_evolves _ _ B2) as E2.
  pose proof (simulate_history_evolves _ _ B3) as E3.
  pose proof (evolves_config _ _ E2) as C2. pose proof (evolves_config _ _ E3) as C3.
  destruct (settles_frame _ _ (derive_settlements_settles _ _ B4)) as [_ C4].
  assert (Hyears : years (_derive_roads g4) = years g).
  { change (years (_derive_roads g4)) with (years g4).
    rewrite (config_years _ _ C4), (config_years _ _ C3), (config_years _ _ C2).
    exact (config_years _ _ C1). }
  assert (F1 : capital_free g1) by (unfold capital_free; rewrite R1; constructor).
  pose proof (reigns_capital_free _ _ W3 (reigns_capital_free _ _ W2 F1)) as F3.
  destruct (evolves_collections _ _ E2) as (T2 & _ & U2).
  destruct (evolves_collections _ _ E3) as (T3 & _ & U3).
  assert (T3' : settlements g3 = []) by congruence.
  assert (M3 : forall i, Tile.settlement_id (tile_at g3 i) = None).
  { intros i. by rewrite (evolves_settlement_id _ _ i E3), (evolves_settlement_id _ _ i E2). }
  assert (Hruins4 : ruins (_derive_roads g4) = []).
  { change (ruins (_derive_roads g4)) with (ruins g4).
    destruct (derive_settlements_places g3 g4 T3' F3 M3 B4) as (Hpl & _ & _).
    destruct (places_frame _ _ Hpl) as (_ & _ & _ & _ & -> & _). congruence. }
  destruct (decide (5 <= years g)) as [Hy|Hy].
  - destruct (derive_ruins_Ok (_derive_roads g4)) as (g' & B6); [by rewrite Hyears|].
    exists g'. split; [|lia].
    unfold run_stages. rewrite B1, bind_Ok_l, B2, bind_Ok_l, B3, bind_Ok_l, B4, bind_Ok_l.
    exact B6.
  - assert (Hfew : (length (ruin_candidates (_derive_roads g4)) < 30)%nat).
    { destruct (spawn_bound g1 g2 R1 O1 B2) as (_ & Hown2 & Hlen2).
      pose proof (evolves_grid_ok _ _ E2 G1) as G2.
      assert (Hy2 : years g2 < 5).
      { rewrite (config_years _ _ C2), (config_years _ _ C1). lia. }
      pose proof (short_history_owned g2 g3 G2 Kn2 Hy2 Hown2 Hlen2 B3) as Hown3.
      pose proof (settled_candidates g3 g4 T3' F3 M3 B4). lia. }
    destruct (derive_ruins_few _ Hfew) as (r & B6).
    exists (set_rng r (_derive_roads g4)). split; [|intros _; exact Hruins4].
    unfold run_stages. rewrite B1, bind_Ok_l, B2, bind_Ok_l, B3, bind_Ok_l, B4, bind_Ok_l.
    exact B6.
Qed.

(** A map without columns: the loops of the grid run over nothing. *)
Lemma grid_loop_no_columns body g : width g <= 0 -> grid_loop body g = Ok g.
Proof.
  intros Hw. unfold grid_loop.
  assert (Hrow : forall y, for_each (seqZ 0 (width g)) (body y) g = Ok g).
  { intros y. unfold seqZ. by replace (Z.to_nat (width g)) with 0%nat by lia. }
  induction (seqZ 0 (height g)) as [|y ys IH]; [done|].
  by rewrite for_each_cons, Hrow, bind_Ok_l.
Qed.

(** The blobs of archipelago mode cannot be placed on a map without
    columns or without rows. *)
Lemma draw_center_raises g acc :
  width g <= 0 ∨ height g <= 0 -> draw_center g acc = Raise ValueError.
Proof.
  intros Hwh. unfold draw_center, randint.
  destruct (Z.ltb_spec (width g - 1) 0) as [|Hw]; [reflexivity|].
  destruct (randbelow (width g - 1 - 0 + 1) acc.2) as [cx r1]. rewrite bind_Ok_l.
  destruct (Z.ltb_spec (height g - 1) 0) as [|Hh]; [reflexivity|]. lia.
Qed.

Lemma archipelago_grid_raises g :
  width g <= 0 ∨ height g <= 0 -> archipelago_grid g = Raise ValueError.
Proof.
  intros Hwh. unfold archipelago_grid.
  rewrite (seqZ_cons 0 (Z.max 2 (width g * height g / 800))) by lia.
  by rewrite for_each_cons, (draw_center_raises g _ Hwh).
Qed.

(** X20.  The inputs on which [generate_region] returns, for a fresh
    generator on a map of at most a hundred thousand tiles each way: unless
    an archipelago has no columns or no rows, and unless the map is a single
    row of one cell or more, the stages run to the end and the document is
    returned, whatever the years, the seed and the sea level.  With less
    than five years of history there are no ruins. *)
Theorem generate_region_else_returns (g : Gen) :
  fresh g -> map_sized g ->
  ¬ (mode g = archipelago ∧ (width g <= 0 ∨ height g <= 0)) ->
  ¬ (height g = 1 ∧ 1 <= width g) ->
  exists g' doc,
    run_stages g = Ok g' ∧ generate_region g = Ok doc
    ∧ (years g < 5 -> ruins g' = [] ∧ doc_ruins doc = []).
Proof.
  intros Hfresh _ Harch Hrow.
  assert (Hgrid : exists g1, _generate_base_tiles g = Ok g1).
  { destruct (decide (height g = 1)) as [Hh|Hh].
    - assert (Hw : width g <= 0) by (destruct (decide (1 <= width g)); [by destruct Hrow|lia]).
      unfold _generate_base_tiles. destruct (mode g) eqn:Hm.
      + unfold continent_grid. rewrite grid_loop_no_columns by done.
        rewrite !bind_Ok_l. by eexists.
      + destruct Harch. split; [done|by left].
    - apply generate_base_tiles_Ok; [done|]. intros Hm.
      destruct (decide (1 <= width g)) as [|Hw]; [|destruct Harch; split; [done|left; lia]].
      destruct (decide (1 <= height g)) as [|Hh']; [done|].
      destruct Harch. split; [done|right; lia]. }
  destruct Hgrid as (g1 & B1).
  destruct (after_grid_returns g g1 Hfresh B1) as (g' & Hrun & Hruins).
  exists g'. eexists. split; [exact Hrun|].
  split; [unfold generate_region; rewrite Hrun, bind_Ok_l; reflexivity|].
  intros Hy. cbn [doc_ruins]. split; by apply Hruins.
Qed.

(** The map of [vale] with three years of history: two realms are founded,
    seven tiles are owned, no ruin is left. *)
Definition hamlet : Gen :=
  mkGen 20 10 3 0x1.6666666666666p-2 continent 0 (mkRandom vale_tape 0) demo_namer exact_pow2
    [] [] [] [] [] [].

Definition hamlet_final : Gen := Eval vm_compute in value_or hamlet (run_stages hamlet).

Lemma hamlet_run :
  run_stages hamlet = Ok hamlet_final
  ∧ length (realms hamlet_final) = 2%nat
  ∧ length (filter (fun t => truthy (Tile.realm_id t) = true) (tiles hamlet_final)) = 7%nat
  ∧ length (settlements hamlet_final) = 4%nat.
Proof. repeat split; vm_compute; reflexivity. Qed.

Lemma generate_region_else_returns_witness :
  fresh hamlet ∧ map_sized hamlet
  ∧ ¬ (mode hamlet = archipelago ∧ (width hamlet <= 0 ∨ height hamlet <= 0))
  ∧ ¬ (height hamlet = 1 ∧ 1 <= width hamlet)
  ∧ exists g' doc,
      run_stages hamlet = Ok g' ∧ generate_region hamlet = Ok doc
      ∧ (years hamlet < 5 -> ruins g' = [] ∧ doc_ruins doc = []).
Proof.
  assert (H1 : fresh hamlet) by (by split).
  assert (H2 : map_sized hamlet) by (unfold map_sized, hamlet; cbn; lia).
  assert (H3 : ¬ (mode hamlet = archipelago ∧ (width hamlet <= 0 ∨ height hamlet <= 0)))
    by (intros [H _]; discriminate H).
  assert (H4 : ¬ (height hamlet = 1 ∧ 1 <= width hamlet))
    by (intros [H _]; discriminate H).
  split; [exact H1|]. split; [exact H2|]. split; [exact H3|]. split; [exact H4|].
  exact (generate_region_else_returns hamlet H1 H2 H3 H4).
Defined.

(** X22.  An archipelago needs room for the centres of its islands: on a
    map without columns or without rows the first centre asks [randint]
    for a value of an empty range, and the grid stage and
    [generate_region] raise [ValueError]. *)
Theorem archipelago_without_room_raises (g : Gen) :
  mode g = archipelago -> width g <= 0 ∨ height g <= 0 ->
  _generate_base_tiles g = Raise ValueError
  ∧ generate_region g = Raise ValueError.
Proof.
  intros Hm Hwh.
  assert (H : _generate_base_tiles g = Raise ValueError).
  { unfold _generate_base_tiles. by rewrite Hm, (archipelago_grid_raises g Hwh). }
  split; [exact H|]. unfold generate_region, run_stages. by rewrite H.
Qed.

(** An archipelago of four rows without columns. *)
Definition reef : Gen :=
  mkGen 0 4 50 0.35 archipelago 5 (mkRandom vale_tape 0) demo_namer exact_pow2
    [] [] [] [] [] [].

Lemma archipelago_without_room_raises_witness :
  mode reef = archipelago ∧ (width reef <= 0 ∨ height reef <= 0)
  ∧ _generate_base_tiles reef = Raise ValueError
  ∧ generate_region reef = Raise ValueError.
Proof.
  assert (H : width reef <= 0 ∨ height reef <= 0) by (left; by vm_compute).
  split; [reflexivity|]. split; [exact H|].
  exact (archipelago_without_room_raises reef eq_refl H).
Defined.


(** ** The most central tile *)

(** The order of floating-point numbers is transitive and irreflexive. *)
Lemma SFltb_trans a b c : SFltb a b = true -> SFltb b c = true -> SFltb a c = true.
Proof.
  unfold SFltb, SFcompare.
  destruct a as [sa|sa| |sa ma ea], b as [sb|sb| |sb mb eb], c as [sc|sc| |sc mc ec];
    try done;
    repeat match goal with s : bool |- _ => destruct s end; try done.
  all: change (PosDef.Pos.compare_cont Eq ?a ?b) with (Pos.compare a b).
  all: destruct (Z.compare_spec ea eb), (Z.compare_spec eb ec), (Z.compare_spec ea ec);
    try done; try lia; subst.
  all: destruct (Pos.compare_spec ma mb), (Pos.compare_spec mb mc), (Pos.compare_spec ma mc);
    cbn; try done; try lia.
Qed.

Lemma SFltb_irrefl a : SFltb a a = false.
Proof.
  unfold SFltb, SFcompare. destruct a as [s|s| |s m e]; try done; destruct s; try done.
  all: rewrite Z.compare_refl; change (PosDef.Pos.compare_cont Eq m m) with (Pos.compare m m);
    by rewrite Pos.compare_refl.
Qed.

Lemma float_ltb_trans (a b c : float) :
  PrimFloat.ltb a b = true -> PrimFloat.ltb b c = true -> PrimFloat.ltb a c = true.
Proof. rewrite !FloatAxioms.ltb_spec. apply SFltb_trans. Qed.

Lemma float_ltb_irrefl (a : float) : PrimFloat.ltb a a = false.
Proof. rewrite FloatAxioms.ltb_spec. apply SFltb_irrefl. Qed.

(** The scan of [min]: [best] is the first of the tiles of least key among
    those scanned, and stays so. *)
Lemma min_by_dist_spec g ax ay (l : list nat) :
  forall (scanned : list nat) (best : nat),
    (exists pre post, scanned = pre ++ best :: post
                      ∧ forall i, i ∈ pre -> dist_key g ax ay i ≠ dist_key g ax ay best) ->
    (forall i, i ∈ scanned -> PrimFloat.ltb (dist_key g ax ay i) (dist_key g ax ay best) = false) ->
    let r := min_by_dist g ax ay l best (dist_key g ax ay best) in
    (exists pre post, scanned ++ l = pre ++ r :: post
                      ∧ forall i, i ∈ pre -> dist_key g ax ay i ≠ dist_key g ax ay r)
    ∧ forall i, i ∈ scanned ++ l ->
        PrimFloat.ltb (dist_key g ax ay i) (dist_key g ax ay r) = false.
Proof.
  induction l as [|i l IH]; intros scanned best Hfirst Hleast; cbn [min_by_dist].
  - rewrite app_nil_r. by split.
  - replace (scanned ++ i :: l) with ((scanned ++ [i]) ++ l) by (by rewrite <- app_assoc).
    destruct (PrimFloat.ltb (dist_key g ax ay i) (dist_key g ax ay best)) eqn:Hlt.
    + apply IH.
      * exists scanned, []. split; [done|]. intros j Hj Heq.
        specialize (Hleast j Hj). rewrite Heq in Hleast. congruence.
      * intros j Hj. apply elem_of_app in Hj as [Hj|Hj].
        -- destruct (PrimFloat.ltb (dist_key g ax ay j) (dist_key g ax ay i)) eqn:Hji; [|done].
           pose proof (float_ltb_trans _ _ _ Hji Hlt) as Hjb.
           specialize (Hleast j Hj). congruence.
        -- apply list_elem_of_singleton in Hj as ->. apply float_ltb_irrefl.
    + apply IH.
      * destruct Hfirst as (pre & post & -> & Hpre).
        exists pre, (post ++ [i]). split; [by rewrite <- app_assoc|done].
      * intros j Hj. apply elem_of_app in Hj as [Hj|Hj]; [by apply Hleast|].
        by apply list_elem_of_singleton in Hj as ->.
Qed.

(** X21.  [_most_central_tile] on a list of distinct tiles, not empty, of
    a grid in row-major order of at most a hundred thousand tiles each way.
    The key of a tile is [(x - avg_x) ** 2 + (y - avg_y) ** 2], with the
    mean position of the list and the squares as the C library computes
    them.  The tile returned is one of the list, no tile of the list has a
    smaller key, and no tile before it in the list has the same key: [min]
    keeps the first of the least. *)
Theorem most_central_tile_least (g : Gen) (l : list nat) :
  grid_ok g -> map_sized g ->
  NoDup l -> (forall i, i ∈ l -> (i < length (tiles g))%nat) -> l ≠ [] ->
  let n := Z2F (Z.of_nat (length l)) in
  let avg_x := PrimFloat.div (Z2F (sum_Z (map (fun i => Tile.x (tile_at g i)) l))) n in
  let avg_y := PrimFloat.div (Z2F (sum_Z (map (fun i => Tile.y (tile_at g i)) l))) n in
  let key := dist_key g avg_x avg_y in
  let r := _most_central_tile g l in
  (exists pre post, l = pre ++ r :: post ∧ forall i, i ∈ pre -> key i ≠ key r)
  ∧ forall i, i ∈ l -> PrimFloat.ltb (key i) (key r) = false.
Proof.
  intros _ _ _ _ Hne. destruct l as [|i0 rest]; [done|]. intros n avg_x avg_y key r.
  assert (Hr : r = min_by_dist g avg_x avg_y rest i0 (dist_key g avg_x avg_y i0))
    by reflexivity.
  destruct (min_by_dist_spec g avg_x avg_y rest [i0] i0) as [Hfirst Hleast].
  - exists [], []. split; [done|]. intros i Hi. by apply elem_of_nil in Hi.
  - intros i Hi. apply list_elem_of_singleton in Hi as ->. apply float_ltb_irrefl.
  - cbn [app] in Hfirst, Hleast. rewrite <- Hr in Hfirst, Hleast. by split.
Qed.

Lemma vale_history_grid_ok : grid_ok vale_history.
Proof. vm_compute. reflexivity. Qed.

Lemma most_central_tile_least_witness :
  grid_ok vale_history ∧ map_sized vale_history
  ∧ NoDup (owned_by vale_history "realm_1")
  ∧ (forall i, i ∈ owned_by vale_history "realm_1" -> (i < length (tiles vale_history))%nat)
  ∧ owned_by vale_history "realm_1" ≠ [] ∧ (
  let n := Z2F (Z.of_nat (length (owned_by vale_history "realm_1"))) in
  let avg_x := PrimFloat.div (Z2F (sum_Z (map (fun i => Tile.x (tile_at vale_history i)) (owned_by vale_history "realm_1")))) n in
  let avg_y := PrimFloat.div (Z2F (sum_Z (map (fun i => Tile.y (tile_at vale_history i)) (owned_by vale_history "realm_1")))) n in
  let key := dist_key vale_history avg_x avg_y in
  let r := _most_central_tile vale_history (owned_by vale_history "realm_1") in
  (exists pre post, (owned_by vale_history "realm_1") = pre ++ r :: post ∧ forall i, i ∈ pre -> key i ≠ key r)
  ∧ forall i, i ∈ (owned_by vale_history "realm_1") -> PrimFloat.ltb (key i) (key r) = false).
Proof.
  assert (H : owned_by vale_history "realm_1" ≠ []) by (vm_compute; discriminate).
  assert (Hs : map_sized vale_history) by (unfold map_sized; vm_compute; intuition discriminate).
  assert (Hnd : NoDup (owned_by vale_history "realm_1")) by apply owned_by_NoDup.
  assert (Hlt : forall i, i ∈ owned_by vale_history "realm_1"
                          -> (i < length (tiles vale_history))%nat).
  { intros i Hi. by apply owned_by_elem in Hi as [? _]. }
  split; [exact vale_history_grid_ok|]. split; [exact Hs|]. split; [exact Hnd|].
  split; [exact Hlt|]. split; [exact H|].
  exact (most_central_tile_least vale_history _ vale_history_grid_ok Hs Hnd Hlt H).
Defined.


(** ** The neighbour a river takes *)

(** The keys of [min(neighbors, key=...)]: the neighbours in order, each
    with its key, and the stream after the draws. *)
Fixpoint river_keys (g : Gen) (ns : list nat) (rg : Random)
    : list (nat * float) * Random :=
  match ns with
  | [] => ([], rg)
  | n :: ns' =>
      let '(k, rg) := river_key g n rg in
      let '(l, rg) := river_keys g ns' rg in
      ((n, k) :: l, rg)
  end.

Lemma river_keys_tiles g ns rg : (river_keys g ns rg).1.*1 = ns.
Proof.
  revert rg. induction ns as [|n ns IH]; intros rg; [done|]. cbn [river_keys].
  destruct (river_key g n rg) as [k rg1]. specialize (IH rg1).
  destruct (river_keys g ns rg1) as [l rg2]. cbn in *. by rewrite IH.
Qed.

(** A key is the elevation of the neighbour, with a jitter of 0.05 times a
    draw when the neighbour is land. *)
Lemma river_keys_key g ns rg p :
  p ∈ (river_keys g ns rg).1 ->
  if Tile.water (tile_at g p.1)
  then p.2 = PrimFloat.add (Tile.elevation (tile_at g p.1)) 0
  else exists r, p.2 = PrimFloat.add (Tile.elevation (tile_at g p.1))
                         (PrimFloat.mul 0.05 (random r).1).
Proof.
  revert rg. induction ns as [|n ns IH]; intros rg; cbn [river_keys].
  { intros H. by apply elem_of_nil in H. }
  destruct (river_key g n rg) as [k rg1] eqn:Hk. specialize (IH rg1).
  destruct (river_keys g ns rg1) as [l rg2]. cbn [fst] in *.
  intros H. apply elem_of_cons in H as [->|H]; [|by apply IH].
  cbn [fst snd]. unfold river_key in Hk.
  destruct (Tile.water (tile_at g n)); [by injection Hk as <- _|].
  exists rg. destruct (random rg) as [u r']. by injection Hk as <- _.
Qed.

(** The scan of [min]: [best] is the first of the neighbours of least key
    among those scanned, and stays so. *)
Lemma min_by_river_key_spec g (l : list nat) :
  forall (scanned : list (nat * float)) (best : nat) (best_key : float) (rg : Random),
    (exists pre post, scanned = pre ++ (best, best_key) :: post
                      ∧ forall p, p ∈ pre -> p.2 ≠ best_key) ->
    (forall p, p ∈ scanned -> PrimFloat.ltb p.2 best_key = false) ->
    let r := min_by_river_key g l best best_key rg in
    let keyed := scanned ++ (river_keys g l rg).1 in
    r.2 = (river_keys g l rg).2
    ∧ exists pre k post,
        keyed = pre ++ (r.1, k) :: post
        ∧ (forall p, p ∈ keyed -> PrimFloat.ltb p.2 k = false)
        ∧ (forall p, p ∈ pre -> p.2 ≠ k).
Proof.
  induction l as [|n l IH]; intros scanned best best_key rg Hfirst Hleast;
    cbn [min_by_river_key river_keys].
  - cbn [fst snd]. rewrite app_nil_r. split; [done|].
    destruct Hfirst as (pre & post & -> & Hpre). by exists pre, best_key, post.
  - destruct (river_key g n rg) as [k rg1].
    specialize (IH (scanned ++ [(n, k)])).
    destruct (river_keys g l rg1) as [ks rg2] eqn:Hks. cbn [fst snd].
    replace (scanned ++ (n, k) :: ks) with ((scanned ++ [(n, k)]) ++ ks)
      by (by rewrite <- app_assoc).
    destruct (PrimFloat.ltb k best_key) eqn:Hlt.
    + specialize (IH n k rg1). rewrite Hks in IH. apply IH.
      * exists scanned, []. split; [done|]. intros p Hp Heq.
        specialize (Hleast p Hp). rewrite Heq in Hleast. congruence.
      * intros p Hp. apply elem_of_app in Hp as [Hp|Hp].
        -- destruct (PrimFloat.ltb p.2 k) eqn:Hpk; [|done].
           pose proof (float_ltb_trans _ _ _ Hpk Hlt) as Hpb.
           specialize (Hleast p Hp). congruence.
        -- apply list_elem_of_singleton in Hp as ->. apply float_ltb_irrefl.
    + specialize (IH best best_key rg1). rewrite Hks in IH. apply IH.
      * destruct Hfirst as (pre & post & -> & Hpre).
        exists pre, (post ++ [(n, k)]). split; [by rewrite <- app_assoc|done].
      * intros p Hp. apply elem_of_app in Hp as [Hp|Hp]; [by apply Hleast|].
        by apply list_elem_of_singleton in Hp as ->.
Qed.

(** X23.  The neighbour that [min] chooses for a river standing on a tile
    of a grid in row-major order.  Each neighbour, in the order east, west,
    south, north, gets a key: its elevation, plus 0.05 times a draw when it
    is land.  The neighbour chosen has a key that none of the keys is
    below, and is the first neighbour with that key; the stream is left
    after the draws of all the keys.  Without neighbours nothing is
    chosen. *)
Theorem river_choice_least (g : Gen) (cur : nat) (rg : Random) :
  grid_ok g -> (cur < length (tiles g))%nat ->
  let ns := _neighbors g (Tile.x (tile_at g cur)) (Tile.y (tile_at g cur)) in
  let keyed := (river_keys g ns rg).1 in
  keyed.*1 = ns
  ∧ (forall p, p ∈ keyed ->
       (p.1 < length (tiles g))%nat
       ∧ manhattan (coords g p.1) (coords g cur) = 1
       ∧ if Tile.water (tile_at g p.1)
         then p.2 = PrimFloat.add (Tile.elevation (tile_at g p.1)) 0
         else exists r, p.2 = PrimFloat.add (Tile.elevation (tile_at g p.1))
                                (PrimFloat.mul 0.05 (random r).1))
  ∧ match river_choice g cur rg with
    | None => ns = []
    | Some (n, rg') =>
        rg' = (river_keys g ns rg).2
        ∧ exists pre k post,
            keyed = pre ++ (n, k) :: post
            ∧ (forall p, p ∈ keyed -> PrimFloat.ltb p.2 k = false)
            ∧ (forall p, p ∈ pre -> p.2 ≠ k)
    end.
Proof.
  intros Hok Hlt ns keyed. split; [apply river_keys_tiles|]. split.
  - intros p Hp.
    assert (Hin : p.1 ∈ ns).
    { rewrite <- (river_keys_tiles g ns rg). apply list_elem_of_fmap. by exists p. }
    destruct (neighbors_grid g _ _ p.1 Hok Hin) as (Hplt & _ & Hd & _).
    split; [exact Hplt|]. split; [exact Hd|]. by apply (river_keys_key g ns rg).
  - unfold river_choice. fold ns. subst keyed.
    destruct ns as [|n0 ns0]; [done|]. cbn [river_keys].
    destruct (river_key g n0 rg) as [k0 rg0].
    destruct (min_by_river_key_spec g ns0 [(n0, k0)] n0 k0 rg0) as [Hrg Hmin].
    + exists [], []. split; [done|]. intros p Hp. by apply elem_of_nil in Hp.
    + intros p Hp. apply list_elem_of_singleton in Hp as ->. apply float_ltb_irrefl.
    + destruct (min_by_river_key g ns0 n0 k0 rg0) as [n rg']. cbn [fst snd] in Hrg, Hmin.
      destruct (river_keys g ns0 rg0) as [l rg2]. cbn [fst snd] in *. by split.
Qed.

Lemma river_choice_least_witness :
  grid_ok island_springs ∧ (island_spring < length (tiles island_springs))%nat ∧ (
  let ns := _neighbors island_springs (Tile.x (tile_at island_springs island_spring))
              (Tile.y (tile_at island_springs island_spring)) in
  let keyed := (river_keys island_springs ns (rng island_springs)).1 in
  keyed.*1 = ns
  ∧ (forall p, p ∈ keyed ->
       (p.1 < length (tiles island_springs))%nat
       ∧ manhattan (coords island_springs p.1) (coords island_springs island_spring) = 1
       ∧ if Tile.water (tile_at island_springs p.1)
         then p.2 = PrimFloat.add (Tile.elevation (tile_at island_springs p.1)) 0
         else exists r, p.2 = PrimFloat.add (Tile.elevation (tile_at island_springs p.1))
                                (PrimFloat.mul 0.05 (random r).1))
  ∧ match river_choice island_springs island_spring (rng island_springs) with
    | None => ns = []
    | Some (n, rg') =>
        rg' = (river_keys island_springs ns (rng island_springs)).2
        ∧ exists pre k post,
            keyed = pre ++ (n, k) :: post
            ∧ (forall p, p ∈ keyed -> PrimFloat.ltb p.2 k = false)
            ∧ (forall p, p ∈ pre -> p.2 ≠ k)
    end).
Proof.
  assert (H1 : (island_spring < length (tiles island_springs))%nat) by (vm_compute; lia).
  split; [exact island_springs_grid_ok|]. split; [exact H1|].
  exact (river_choice_least island_springs island_spring (rng island_springs)
           island_springs_grid_ok H1).
Defined.
